(** * A shallow embedding of the dawg package (dawg.go)

    The package builds a trie from a list of words (addWord), merges equal
    states level by level (compressTrie, analyseSubTrie) and answers fuzzy
    queries on the resulting graph (Search, searchSubString, mergeWords).

    Pointers are indices into two arenas (one for states, one for letters);
    [None] is Go's nil.  A Go string is its sequence of bytes, a rune is an
    integer.  A dereference of nil is [Panic]; loops and recursive calls are
    driven by a fuel counter and report [OutOfFuel] when it runs out. *)

From Stdlib Require Import ZArith List Lia Bool.
From stdpp Require Import base list option numbers relations.

Local Open Scope Z_scope.

(** ** Results of partial computations *)

Inductive res (A : Type) : Type :=
  | Ok (a : A)
  | Error
  | Panic
  | OutOfFuel.
Arguments Ok {A} a.
Arguments Error {A}.
Arguments Panic {A}.
Arguments OutOfFuel {A}.

#[global] Instance res_ret : MRet res := fun A a => Ok a.
#[global] Instance res_bind : MBind res := fun A B f m =>
  match m with
  | Ok a => f a
  | Error => Error
  | Panic => Panic
  | OutOfFuel => OutOfFuel
  end.

(** ** Strings, runes and UTF-8 (Go's unicode/utf8, as range loops and
    bytes.Buffer use it) *)

Definition rune := Z.
Definition gostring := list Z.

Definition RuneError : rune := 0xFFFD.
Definition MaxRune : rune := 0x10FFFF.
Definition RuneSelf : Z := 0x80.

Definition inRange (lo hi b : Z) : bool := (lo <=? b) && (b <=? hi).
Definition low6 (b : Z) : Z := Z.land b 0x3F.

(** utf8.DecodeRune: the rune at the front of [p] and its width in bytes;
    an invalid or short encoding is (RuneError, 1), the empty input
    (RuneError, 0). *)
Definition DecodeRune (p : gostring) : rune * nat :=
  match p with
  | [] => (RuneError, 0%nat)
  | p0 :: t =>
    if p0 <? RuneSelf then (p0, 1%nat)
    else if p0 <? 0xC2 then (RuneError, 1%nat)
    else if p0 <? 0xE0 then
      match t with
      | b1 :: _ =>
        if inRange 0x80 0xBF b1
        then (Z.lor (Z.shiftl (Z.land p0 0x1F) 6) (low6 b1), 2%nat)
        else (RuneError, 1%nat)
      | _ => (RuneError, 1%nat)
      end
    else if p0 <? 0xF0 then
      let lo := if p0 =? 0xE0 then 0xA0 else 0x80 in
      let hi := if p0 =? 0xED then 0x9F else 0xBF in
      match t with
      | b1 :: b2 :: _ =>
        if inRange lo hi b1 && inRange 0x80 0xBF b2
        then (Z.lor (Z.lor (Z.shiftl (Z.land p0 0x0F) 12)
                           (Z.shiftl (low6 b1) 6)) (low6 b2), 3%nat)
        else (RuneError, 1%nat)
      | _ => (RuneError, 1%nat)
      end
    else if p0 <? 0xF5 then
      let lo := if p0 =? 0xF0 then 0x90 else 0x80 in
      let hi := if p0 =? 0xF4 then 0x8F else 0xBF in
      match t with
      | b1 :: b2 :: b3 :: _ =>
        if inRange lo hi b1 && inRange 0x80 0xBF b2 && inRange 0x80 0xBF b3
        then (Z.lor (Z.lor (Z.lor (Z.shiftl (Z.land p0 0x07) 18)
                                  (Z.shiftl (low6 b1) 12))
                           (Z.shiftl (low6 b2) 6)) (low6 b3), 4%nat)
        else (RuneError, 1%nat)
      | _ => (RuneError, 1%nat)
      end
    else (RuneError, 1%nat)
  end.

(** utf8.EncodeRune / AppendRune: the bytes of a rune; a rune out of range
    or a surrogate is written as RuneError. *)
Definition EncodeRune (r : rune) : gostring :=
  let r := if (r <? 0) || (MaxRune <? r) || inRange 0xD800 0xDFFF r
           then RuneError else r in
  if r <=? 0x7F then [r]
  else if r <=? 0x7FF then
    [Z.lor 0xC0 (Z.shiftr r 6); Z.lor 0x80 (low6 r)]
  else if r <=? 0xFFFF then
    [Z.lor 0xE0 (Z.shiftr r 12); Z.lor 0x80 (low6 (Z.shiftr r 6));
     Z.lor 0x80 (low6 r)]
  else
    [Z.lor 0xF0 (Z.shiftr r 18); Z.lor 0x80 (low6 (Z.shiftr r 12));
     Z.lor 0x80 (low6 (Z.shiftr r 6)); Z.lor 0x80 (low6 r)].

(** [for i, l := range word]: the pairs (byte offset of the rune, rune). *)
Fixpoint rangeFrom (fuel : nat) (i : Z) (p : gostring) : list (Z * rune) :=
  match fuel with
  | O => []
  | S fuel' =>
    match p with
    | [] => []
    | _ => let '(r, n) := DecodeRune p in
           (i, r) :: rangeFrom fuel' (i + Z.of_nat n) (drop n p)
    end
  end.

Definition rangeString (word : gostring) : list (Z * rune) :=
  rangeFrom (length word) 0 word.

(** The runes of a string, and the string a sequence of runes is written as. *)
Definition runesOf (word : gostring) : list rune := map snd (rangeString word).
Definition encodeRunes (rs : list rune) : gostring := concat (map EncodeRune rs).

(** ** The data model *)

Definition ptr := option nat.

Module letter.
Record t := mk {
  char : rune;
  state : ptr;      (* *state *)
  left : ptr;       (* *letter *)
  right : ptr;      (* *letter *)
  next : ptr        (* *letter *)
}.
Definition new (c : rune) : t := mk c None None None None.
Definition set_state (p : ptr) (l : t) : t := mk (char l) p (left l) (right l) (next l).
Definition set_left (p : ptr) (l : t) : t := mk (char l) (state l) p (right l) (next l).
Definition set_right (p : ptr) (l : t) : t := mk (char l) (state l) (left l) p (next l).
Definition set_next (p : ptr) (l : t) : t := mk (char l) (state l) (left l) (right l) p.
End letter.

Module state.
Record t := mk {
  final : bool;
  letters : ptr;        (* *letter *)
  lettersCount : Z;
  next : ptr;           (* *state *)
  letter : ptr;         (* *letter *)
  number : Z
}.
Definition new (f : bool) (l : ptr) : t := mk f None 0 None l 0.
Definition set_final (b : bool) (s : t) : t :=
  mk b (letters s) (lettersCount s) (next s) (letter s) (number s).
Definition set_letters (p : ptr) (s : t) : t :=
  mk (final s) p (lettersCount s) (next s) (letter s) (number s).
Definition set_lettersCount (n : Z) (s : t) : t :=
  mk (final s) (letters s) n (next s) (letter s) (number s).
Definition set_next (p : ptr) (s : t) : t :=
  mk (final s) (letters s) (lettersCount s) p (letter s) (number s).
End state.

(** The two arenas. *)
Record store := mkStore {
  sts : list state.t;
  lts : list letter.t
}.

Definition emptyStore : store := mkStore [] [].

Definition getS (h : store) (p : ptr) : res state.t :=
  match p with
  | None => Panic
  | Some i => match sts h !! i with Some s => Ok s | None => Panic end
  end.

Definition getL (h : store) (p : ptr) : res letter.t :=
  match p with
  | None => Panic
  | Some i => match lts h !! i with Some l => Ok l | None => Panic end
  end.

Definition updS (f : state.t -> state.t) (i : nat) (h : store) : store :=
  mkStore (alter f i (sts h)) (lts h).

Definition updL (f : letter.t -> letter.t) (i : nat) (h : store) : store :=
  mkStore (sts h) (alter f i (lts h)).

Definition allocS (s : state.t) (h : store) : store * nat :=
  (mkStore (sts h ++ [s]) (lts h), length (sts h)).

Definition allocL (l : letter.t) (h : store) : store * nat :=
  (mkStore (sts h) (lts h ++ [l]), length (lts h)).

(** The graph handle. *)
Record DAWG := mkDAWG {
  initialState : ptr;
  nodesCount : Z
}.

(** Go's int and uint values of this package count allocated objects or
    index a string, so they stay far below 2^63; they are integers here. *)

(** ** Letter lookup: the tree walk of containsLetter and getletter *)

Fixpoint findLetter (n : nat) (h : store) (curLetter : ptr) (c : rune) : res ptr :=
  match curLetter with
  | None => Ok None
  | Some _ =>
    match n with
    | O => OutOfFuel
    | S n' =>
      cl ← getL h curLetter;
      if letter.char cl =? c then Ok curLetter
      else if letter.char cl <? c then findLetter n' h (letter.left cl) c
      else findLetter n' h (letter.right cl) c
    end
  end.

Definition getletter (fuel : nat) (h : store) (st : ptr) (c : rune) : res ptr :=
  s ← getS h st;
  findLetter fuel h (state.letters s) c.

Definition containsLetter (fuel : nat) (h : store) (st : ptr) (lt : ptr) : res bool :=
  s ← getS h st;
  l ← getL h lt;
  r ← findLetter fuel h (state.letters s) (letter.char l);
  match r with
  | None => Ok false
  | Some _ => rl ← getL h r; Ok (bool_decide (letter.state rl = letter.state l))
  end.

Fixpoint equalsLoop (fuel n : nat) (h : store) (otherState : ptr) (curLetter : ptr)
  : res bool :=
  match curLetter with
  | None => Ok true
  | Some _ =>
    match n with
    | O => OutOfFuel
    | S n' =>
      b ← containsLetter fuel h otherState curLetter;
      if negb b then Ok false
      else cl ← getL h curLetter; equalsLoop fuel n' h otherState (letter.next cl)
    end
  end.

Definition equals (fuel : nat) (h : store) (st otherState : ptr) : res bool :=
  s ← getS h st;
  o ← getS h otherState;
  if negb (eqb (state.final s) (state.final o))
     || negb (state.lettersCount s =? state.lettersCount o)
  then Ok false
  else equalsLoop fuel fuel h otherState (state.letters s).

(** ** addWord *)

(** The walk [for curLetter = curState.letters; curLetter.char != l; ...],
    which inserts the letter where the walk falls off the tree. *)
Fixpoint addWordWalk (n : nat) (h : store) (curLetter : nat) (l : rune)
  : res (store * nat) :=
  match n with
  | O => OutOfFuel
  | S n' =>
    cl ← getL h (Some curLetter);
    if letter.char cl =? l then Ok (h, curLetter)
    else if letter.char cl <? l then
      match letter.left cl with
      | None =>
        let '(h1, p) := allocL (letter.new l) h in
        addWordWalk n' (updL (letter.set_left (Some p)) curLetter h1) p l
      | Some p => addWordWalk n' h p l
      end
    else
      match letter.right cl with
      | None =>
        let '(h1, p) := allocL (letter.new l) h in
        addWordWalk n' (updL (letter.set_right (Some p)) curLetter h1) p l
      | Some p => addWordWalk n' h p l
      end
  end.

(** The block [if curLetter.state == nil { ... }] of the loop of addWord and
    the assignment [curState = curLetter.state] after it. *)
Definition addWordState (h1 : store) (curState curLetter : nat)
    (newEndState : bool) (createdNodes : Z) : res (store * nat * bool * Z) :=
  cl ← getL h1 (Some curLetter);
  match letter.state cl with
  | None =>
    let '(h2, ns) := allocS (state.new false (Some curLetter)) h1 in
    let h3 := updL (letter.set_state (Some ns)) curLetter h2 in
    let createdNodes := createdNodes + 1 in
    let h4 := updS (fun s => state.set_lettersCount (state.lettersCount s + 1) s)
                   curState h3 in
    cs4 ← getS h4 (Some curState);
    let newEndState :=
      if (negb (state.final cs4) && (state.lettersCount cs4 =? 1))
         || (1 <? state.lettersCount cs4)
      then true else newEndState in
    h5 ← (if bool_decide (Some curLetter = state.letters cs4) then Ok h4
          else
            hd ← getL h4 (state.letters cs4);
            let h' := updL (letter.set_next (letter.next hd)) curLetter h4 in
            match state.letters cs4 with
            | Some hp => Ok (updL (letter.set_next (Some curLetter)) hp h')
            | None => Panic
            end);
    Ok (h5, ns, newEndState, createdNodes)
  | Some ns => Ok (h1, ns, newEndState, createdNodes)
  end.

(** One iteration of the loop over the runes of the word. *)
Definition addWordBody (fuel : nat) (h : store) (curState : nat) (l : rune)
    (newEndState : bool) (createdNodes : Z) : res (store * nat * bool * Z) :=
  cs ← getS h (Some curState);
  '(h1, curLetter) ←
    match state.letters cs with
    | None =>
      let '(h', p) := allocL (letter.new l) h in
      Ok (updS (state.set_letters (Some p)) curState h', p)
    | Some r => addWordWalk fuel h r l
    end;
  addWordState h1 curState curLetter newEndState createdNodes.

Fixpoint addWordLoop (fuel : nat) (h : store) (curState : nat)
    (rs : list (Z * rune)) (newEndState : bool) (wordSize createdNodes : Z)
  : res (store * nat * bool * Z * Z) :=
  match rs with
  | [] => Ok (h, curState, newEndState, wordSize, createdNodes)
  | (i, l) :: rs' =>
    '(h', curState', newEndState', createdNodes') ←
      addWordBody fuel h curState l newEndState createdNodes;
    addWordLoop fuel h' curState' rs' newEndState' (i + 1) createdNodes'
  end.

(** addWord returns (newEndState, wordSize, createdNodes) and the store. *)
Definition addWord (fuel : nat) (h : store) (initialState : ptr) (word : gostring)
  : res (store * (bool * Z * Z)) :=
  match initialState with
  | None => Panic
  | Some p =>
    '(h', curState, newEndState, wordSize, createdNodes) ←
      addWordLoop fuel h p (rangeString word) false 0 0;
    _ ← getS h' (Some curState);
    Ok (updS (state.set_final true) curState h', (newEndState, wordSize, createdNodes))
  end.

(** ** analyseSubTrie and compressTrie

    compressTrie starts one goroutine per letter of the initial state and
    serialises the pushes on a level with a one-slot channel per level.
    The embedding runs the goroutines one after the other, in the order in
    which the loop starts them.  [channels[curLevel]] and [levels[curLevel]]
    have the same length, so an index out of range is one [Panic].  The
    wait for [initialState.lettersCount] messages on [done] is not part of
    the embedding: on the sequential schedule every goroutine has ended when
    the merge begins. *)

Abbreviation levels_t := (list ptr).

(** The loop over the letters of a state in analyseSubTrie, over the
    recursive call [rec]. *)
Fixpoint analyseLetters
    (rec : store -> levels_t -> ptr -> res (store * levels_t * Z))
    (n : nat) (h : store) (levels : levels_t) (curLetter : ptr) (curLevel : Z)
  : res (store * levels_t * Z) :=
  match curLetter with
  | None => Ok (h, levels, curLevel)
  | Some _ =>
    match n with
    | O => OutOfFuel
    | S n' =>
      cl ← getL h curLetter;
      '(h1, levels1, curSubLevels) ← rec h levels (letter.state cl);
      let curLevel := if curLevel <? curSubLevels then curSubLevels else curLevel in
      cl1 ← getL h1 curLetter;
      analyseLetters rec n' h1 levels1 (letter.next cl1) curLevel
    end
  end.

(** The end of analyseSubTrie: with the token of the level, push the state
    on the list of its level. *)
Definition pushLevel (h : store) (levels : levels_t) (curState : ptr) (curLevel : Z)
  : res (store * levels_t * Z) :=
  match curState with
  | None => Panic
  | Some c =>
    if (curLevel <? 0) || (Z.of_nat (length levels) <=? curLevel) then Panic
    else
      let i := Z.to_nat curLevel in
      match levels !! i with
      | None => Panic
      | Some lv =>
        Ok (updS (state.set_next lv) c h, <[i := curState]> levels, curLevel + 1)
      end
  end.

Fixpoint analyseSubTrie (fuel : nat) (h : store) (levels : levels_t) (curState : ptr)
  : res (store * levels_t * Z) :=
  match fuel with
  | O => OutOfFuel
  | S fuel' =>
    cs ← getS h curState;
    '(h1, levels1, curLevel) ←
      (if state.lettersCount cs =? 0 then Ok (h, levels, 0)
       else analyseLetters (analyseSubTrie fuel') fuel' h levels (state.letters cs) 0);
    pushLevel h1 levels1 curState curLevel
  end.

(** The loop of compressTrie that starts the analysis of each sub-trie of
    the initial state. *)
Fixpoint analyseRoot (fuel n : nat) (h : store) (levels : levels_t) (curLetter : ptr)
  : res (store * levels_t) :=
  match curLetter with
  | None => Ok (h, levels)
  | Some _ =>
    match n with
    | O => OutOfFuel
    | S n' =>
      cl ← getL h curLetter;
      '(h1, levels1, subLevels) ← analyseSubTrie fuel h levels (letter.state cl);
      cl1 ← getL h1 curLetter;
      analyseRoot fuel n' h1 levels1 (letter.next cl1)
    end
  end.

(** The innermost loop of the merge:
    [for previousState, sameState := curState, curState.next; sameState != nil; ...]. *)
Fixpoint mergeSame (fuel n : nat) (h : store) (curState previousState : nat)
    (sameState : ptr) (deletedNodes : Z) : res (store * Z) :=
  match sameState with
  | None => Ok (h, deletedNodes)
  | Some sp =>
    match n with
    | O => OutOfFuel
    | S n' =>
      e ← equals fuel h (Some curState) sameState;
      if (e : bool) then
        ss ← getS h sameState;
        _ ← getS h (Some previousState);
        let h1 := updS (state.set_next (state.next ss)) previousState h in
        ss1 ← getS h1 sameState;
        match state.letter ss1 with
        | None => Panic
        | Some lp =>
          _ ← getL h1 (Some lp);
          let h2 := updL (letter.set_state (Some curState)) lp h1 in
          ss2 ← getS h2 sameState;
          mergeSame fuel n' h2 curState previousState (state.next ss2) (deletedNodes + 1)
        end
      else
        ss ← getS h sameState;
        mergeSame fuel n' h curState sp (state.next ss) deletedNodes
    end
  end.

(** [for curState := levels[i]; curState != nil && curState.next != nil; ...]. *)
Fixpoint mergeLevel (fuel n : nat) (h : store) (curState : ptr) (deletedNodes : Z)
  : res (store * Z) :=
  match curState with
  | None => Ok (h, deletedNodes)
  | Some c =>
    cs ← getS h curState;
    match state.next cs with
    | None => Ok (h, deletedNodes)
    | Some _ =>
      match n with
      | O => OutOfFuel
      | S n' =>
        '(h1, d1) ← mergeSame fuel fuel h c c (state.next cs) deletedNodes;
        cs1 ← getS h1 curState;
        mergeLevel fuel n' h1 (state.next cs1) d1
      end
    end
  end.

(** [for i := 0; i < maxWordSize; i++]. *)
Fixpoint mergeLevels (fuel : nat) (h : store) (levels : levels_t) (deletedNodes : Z)
  : res (store * Z) :=
  match levels with
  | [] => Ok (h, deletedNodes)
  | lv :: levels' =>
    '(h1, d1) ← mergeLevel fuel fuel h lv deletedNodes;
    mergeLevels fuel h1 levels' d1
  end.

Definition compressTrie (fuel : nat) (h : store) (initialState : ptr) (maxWordSize : Z)
  : res (store * Z) :=
  if maxWordSize <? 0 then Panic
  else
    let levels : levels_t := replicate (Z.to_nat maxWordSize) None in
    root ← getS h initialState;
    '(h1, levels1) ←
      (if state.lettersCount root =? 0 then Ok (h, levels)
       else analyseRoot fuel fuel h levels (state.letters root));
    mergeLevels fuel h1 levels1 0.

(** ** CreateDAWG *)

Fixpoint addWords (fuel : nat) (h : store) (initialState : ptr)
    (words : list gostring) (nbNodes maxWordSize : Z) : res (store * Z * Z) :=
  match words with
  | [] => Ok (h, nbNodes, maxWordSize)
  | word :: words' =>
    '(h1, (_, size, createdNodes)) ← addWord fuel h initialState word;
    let maxWordSize := if maxWordSize <? size then size else maxWordSize in
    addWords fuel h1 initialState words' (nbNodes + createdNodes) maxWordSize
  end.

Definition CreateDAWG (fuel : nat) (words : list gostring) : res (store * DAWG) :=
  let '(h0, p) := allocS (state.new false None) emptyStore in
  let initialState := Some p in
  '(h1, nbNodes, maxWordSize) ← addWords fuel h0 initialState words 1 0;
  '(h2, deletedNodes) ← compressTrie fuel h1 initialState maxWordSize;
  Ok (h2, mkDAWG initialState (nbNodes - deletedNodes)).

(** Strings of the tests, as bytes. *)
Definition s_test : gostring := [116; 101; 115; 116].
Definition s_rest : gostring := [114; 101; 115; 116].
Definition s_nest : gostring := [110; 101; 115; 116].
Definition s_note : gostring := [110; 111; 116; 101].
Definition s_tese : gostring := [116; 101; 115; 101].
Definition s_test2 : gostring := [116; 101; 115; 116; 50].
Definition s_tes : gostring := [116; 101; 115].
(** The two-rune word of TestUTF8, U+65E5 U+672C, in UTF-8. *)
Definition s_nihon : gostring := [0xE6; 0x97; 0xA5; 0xE6; 0x9C; 0xAC].

(** ** bytes.Buffer, as far as Search uses it

    searchSubString takes its two buffers by value: a callee works on its own
    copy of the slice header and of the read offset, and every string is
    copied out of the buffer (String) before the bytes behind it can be
    written again.  A buffer is therefore a value here. *)

Record Buffer := mkBuffer {
  buf : gostring;
  off : nat;
  lastRead : Z      (* 0 is opInvalid, n > 0 a rune of n bytes was read *)
}.

Definition NewBufferString (s : gostring) : Buffer := mkBuffer s 0 0.

Definition Len (b : Buffer) : Z := Z.of_nat (length (buf b) - off b).

Definition String (b : Buffer) : gostring := drop (off b) (buf b).

(** ReadRune: [Error] is io.EOF on an empty buffer. *)
Definition ReadRune (b : Buffer) : res (rune * Buffer) :=
  match drop (off b) (buf b) with
  | [] => Error
  | c :: _ =>
    if c <? RuneSelf then Ok (c, mkBuffer (buf b) (off b + 1) 1)
    else
      let '(r, n) := DecodeRune (drop (off b) (buf b)) in
      Ok (r, mkBuffer (buf b) (off b + n) (Z.of_nat n))
  end.

(** UnreadRune: [Error] when the last operation was not a ReadRune. *)
Definition UnreadRune (b : Buffer) : res Buffer :=
  if lastRead b <=? 0 then Error
  else
    let o := if Z.of_nat (off b) <? lastRead b then off b
             else (off b - Z.to_nat (lastRead b))%nat in
    Ok (mkBuffer (buf b) o 0).

(** WriteRune never fails; it returns the number of bytes written. *)
Definition WriteRune (b : Buffer) (r : rune) : Z * Buffer :=
  let e := EncodeRune r in
  (Z.of_nat (length e), mkBuffer (buf b ++ e) (off b) 0).

(** Truncate panics when [n] is out of range. *)
Definition Truncate (b : Buffer) (n : Z) : res Buffer :=
  if n =? 0 then Ok (mkBuffer [] 0 0)
  else if (n <? 0) || (Len b <? n) then Panic
  else Ok (mkBuffer (take (off b + Z.to_nat n) (buf b)) (off b) 0).

(** ** Search

    A chain of [word] cells is the list of its contents, nil the empty list.
    [lastWord] is the last cell of the chain in every call of mergeWords, so
    that [lastWord1.nextWord = words2] appends the second chain to the first;
    the pointer itself is not kept. *)

Definition wordlist := list gostring.

Definition mergeWords (words1 : wordlist) (wordsSize1 : Z)
    (words2 : wordlist) (wordsSize2 : Z) : wordlist * Z :=
  match words1 with
  | [] => (words2, wordsSize2)
  | _ => (words1 ++ words2, wordsSize1 + wordsSize2)
  end.

(** Where a block of searchSubString leaves the function: [Ret] is a
    [return] from inside the block, [Go] falls through to the next one. *)
Inductive flow :=
  | Ret (h : store) (words : wordlist) (wordsSize : Z)
  | Go (h : store) (words : wordlist) (wordsSize : Z) (start : Buffer).

Definition capped (maxResults wordsSize : Z) : bool :=
  (0 <? maxResults) && (maxResults <? wordsSize).

(** Follow one letter: write its rune, search from its state with [rec],
    merge what was found, and revert the write. *)
Definition follow (rec : store -> ptr -> Buffer -> res (store * (wordlist * Z)))
    (h : store) (l : letter.t) (start : Buffer) (words : wordlist) (wordsSize : Z)
    (maxResults : Z) : res flow :=
  let '(runeLen, start1) := WriteRune start (letter.char l) in
  '(h1, (foundWords, foundWordsSize)) ← rec h (letter.state l) start1;
  let '(words1, wordsSize1) := mergeWords foundWords foundWordsSize words wordsSize in
  if capped maxResults wordsSize1 then Ok (Ret h1 words1 wordsSize1)
  else
    start2 ← Truncate start1 (Len start1 - runeLen);
    Ok (Go h1 words1 wordsSize1 start2).

(** [for letter := state.letters; letter != nil; letter = letter.next] with
    the test [letter.char != char && letter.char != ignoreChar]. *)
Fixpoint eachLetter (rec : store -> ptr -> Buffer -> res (store * (wordlist * Z)))
    (n : nat) (h : store) (lp : ptr) (char ignoreChar : rune) (start : Buffer)
    (words : wordlist) (wordsSize : Z) (maxResults : Z) : res flow :=
  match lp with
  | None => Ok (Go h words wordsSize start)
  | Some _ =>
    match n with
    | O => OutOfFuel
    | S n' =>
      l ← getL h lp;
      fl ← (if negb (letter.char l =? char) && negb (letter.char l =? ignoreChar)
            then follow rec h l start words wordsSize maxResults
            else Ok (Go h words wordsSize start));
      match fl with
      | Ret _ _ _ => Ok fl
      | Go h1 words1 wordsSize1 start1 =>
        l1 ← getL h1 lp;
        eachLetter rec n' h1 (letter.next l1) char ignoreChar start1
                   words1 wordsSize1 maxResults
      end
    end
  end.

(** The type of searchSubString once the fuel is fixed. *)
Definition search_t : Type :=
  store -> ptr -> Buffer -> Buffer -> Z -> Z -> bool -> bool -> rune ->
  res (store * (wordlist * Z)).

Definition rec_t : Type := store -> ptr -> Buffer -> res (store * (wordlist * Z)).

(** [if char != ignoreChar { if letter := state.getletter(char); letter != nil
    { ... } }], the step that follows the letter of the query. *)
Definition exactStep (rec : rec_t) (n : nat) (h : store) (st : ptr) (start : Buffer)
    (char ignoreChar : rune) (maxResults : Z) : res flow :=
  if negb (char =? ignoreChar) then
    lt ← getletter n h st char;
    match lt with
    | None => Ok (Go h [] 0 start)
    | Some _ =>
      l ← getL h lt;
      follow rec h l start [] 0 maxResults
    end
  else Ok (Go h [] 0 start).

(** The body of [if levenshteinDistance > 0 { ... }]: change one letter,
    then, under allowDelete, remove one letter. *)
Definition changeSteps (rec : rec_t) (n : nat) (h : store) (st : ptr) (start : Buffer)
    (char ignoreChar : rune) (words : wordlist) (wordsSize : Z)
    (maxResults : Z) (allowDelete : bool) : res flow :=
  s ← getS h st;
  fl ← eachLetter rec n h (state.letters s) char ignoreChar start words wordsSize
         maxResults;
  match fl with
  | Ret _ _ _ => Ok fl
  | Go h2 words2 wordsSize2 start2 =>
    if allowDelete then
      '(h3, (foundWords, foundWordsSize)) ← rec h2 st start2;
      let '(words3, wordsSize3) :=
        mergeWords foundWords foundWordsSize words2 wordsSize2 in
      if capped maxResults wordsSize3 then Ok (Ret h3 words3 wordsSize3)
      else Ok (Go h3 words3 wordsSize3 start2)
    else Ok fl
  end.

(** The body of [if levenshteinDistance > 0 && allowAdd { ... }]: add one
    letter. *)
Definition addSteps (rec : rec_t) (n : nat) (h : store) (st : ptr) (start : Buffer)
    (char ignoreChar : rune) (words : wordlist) (wordsSize : Z) (maxResults : Z)
  : res flow :=
  s ← getS h st;
  eachLetter rec n h (state.letters s) char ignoreChar start words wordsSize maxResults.

Definition flowResult (fl : flow) : store * (wordlist * Z) :=
  match fl with
  | Ret h words wordsSize => (h, (words, wordsSize))
  | Go h words wordsSize _ => (h, (words, wordsSize))
  end.

(** The block [if end.Len() > 0 { ... } else if state.final { ... }] of
    searchSubString, over the function [self] that the recursive calls go
    to; [n] bounds the loops over the letters.  It hands the rune read and
    the buffer [end] to the rest of the function. *)
Definition readBlock (self : search_t) (n : nat) (h : store) (st : ptr)
    (start end_ : Buffer) (levenshteinDistance maxResults : Z)
    (allowAdd allowDelete : bool) (ignoreChar : rune) : res (flow * rune * Buffer) :=
  let rec dist e ign : rec_t := fun h' st' start' =>
    self h' st' start' e dist maxResults allowAdd allowDelete ign in
  if 0 <? Len end_ then
    '(char, end1) ← ReadRune end_;
    fl ← exactStep (rec levenshteinDistance end1 0) n h st start char ignoreChar
           maxResults;
    fl ← match fl with
         | Ret _ _ _ => Ok fl
         | Go h1 words1 wordsSize1 start1 =>
           if 0 <? levenshteinDistance then
             changeSteps (rec (levenshteinDistance - 1) end1 char) n h1 st start1
               char ignoreChar words1 wordsSize1 maxResults allowDelete
           else Ok fl
         end;
    match fl with
    | Ret _ _ _ => Ok (fl, char, end1)
    | Go _ _ _ _ => end2 ← UnreadRune end1; Ok (fl, char, end2)
    end
  else
    s ← getS h st;
    if state.final s then Ok (Go h [String start] 1 start, 0, end_)
    else Ok (Go h [] 0 start, 0, end_).

(** The body of searchSubString: the block above, then the block
    [if levenshteinDistance > 0 && allowAdd { ... }] and the return. *)
Definition searchBody (self : search_t) (n : nat) : search_t :=
  fun h st start end_ levenshteinDistance maxResults allowAdd allowDelete ignoreChar =>
    let rec dist e ign : rec_t := fun h' st' start' =>
      self h' st' start' e dist maxResults allowAdd allowDelete ign in
    '(fl, char, end1) ←
      readBlock self n h st start end_ levenshteinDistance maxResults
        allowAdd allowDelete ignoreChar;
    match fl with
    | Ret h1 words wordsSize => Ok (h1, (words, wordsSize))
    | Go h1 words wordsSize start1 =>
      if (0 <? levenshteinDistance) && allowAdd then
        fl ← addSteps (rec (levenshteinDistance - 1) end1 0) n h1 st start1
               char ignoreChar words wordsSize maxResults;
        Ok (flowResult fl)
      else Ok (h1, (words, wordsSize))
    end.

Fixpoint searchSubString (fuel : nat) : search_t :=
  match fuel with
  | O => fun _ _ _ _ _ _ _ _ _ => OutOfFuel
  | S fuel' => searchBody (searchSubString fuel') fuel'
  end.

(** The truncation loop [for ; wordsSize > maxResults; wordsSize--]. *)
Fixpoint dropWords (n : nat) (wordsFound : wordlist) : res wordlist :=
  match n with
  | O => Ok wordsFound
  | S n' =>
    match wordsFound with
    | [] => Panic
    | _ :: nextWord => dropWords n' nextWord
    end
  end.

(** The copy loop [for ; wordsSize > 0; wordsSize--], which writes
    [words[wordsSize-1]]. *)
Fixpoint fillWords (wordsSize : nat) (wordsFound : wordlist) (words : list gostring)
  : res (list gostring) :=
  match wordsSize with
  | O => Ok words
  | S n' =>
    match wordsFound with
    | [] => Panic
    | content :: nextWord => fillWords n' nextWord (<[n' := content]> words)
    end
  end.

Definition Search (fuel : nat) (h : store) (dawg : DAWG) (word : gostring)
    (levenshteinDistance maxResults : Z) (allowAdd allowDelete : bool)
  : res (store * list gostring) :=
  '(h1, (wordsFound, wordsSize)) ←
    searchSubString fuel h (initialState dawg) (NewBufferString [])
      (NewBufferString word) levenshteinDistance maxResults allowAdd allowDelete 0;
  wordsFound1 ← dropWords (Z.to_nat (wordsSize - maxResults)) wordsFound;
  let wordsSize1 := if maxResults <? wordsSize then maxResults else wordsSize in
  if wordsSize1 <? 0 then Panic
  else
    words ← fillWords (Z.to_nat wordsSize1) wordsFound1
              (replicate (Z.to_nat wordsSize1) []);
    Ok (h1, words).

(** ** Notions of the statements

    Predicates, invariants and test graphs that the properties below are
    stated with. *)

(** *** Well-formed UTF-8 *)

(** A Unicode scalar value: in range and not a surrogate. *)
Definition valid_rune (r : rune) : bool :=
  (0 <=? r) && (r <=? MaxRune) && negb (inRange 0xD800 0xDFFF r).

(** *** The results of searchSubString *)

(** What a call leaves behind: the store it was given, and a count that is
    the length of the chain. *)
Definition out_ok (h : store) (r : store * (wordlist * Z)) : Prop :=
  r.1 = h /\ r.2.2 = Z.of_nat (length r.2.1).

(** A block returns from the function only when the cap is exceeded. *)
Definition flow_ok (h : store) (maxR : Z) (fl : flow) : Prop :=
  match fl with
  | Ret h1 ws n => h1 = h /\ n = Z.of_nat (length ws) /\ capped maxR n = true
  | Go h1 ws n _ => h1 = h /\ n = Z.of_nat (length ws)
  end.

(** The recursive calls, and the function itself, leave such results. *)
Definition rec_ok (rec : rec_t) : Prop :=
  forall h st sb r, rec h st sb = Ok r -> out_ok h r.

Definition self_ok (self : search_t) : Prop :=
  forall end_ d maxR aA aD ign,
    rec_ok (fun h st start => self h st start end_ d maxR aA aD ign).

(** A call that stays within the cap [maxR] is the call without cap. *)
Definition rec_unc (maxR : Z) (rec rec0 : rec_t) : Prop :=
  forall h st sb r, rec h st sb = Ok r -> capped maxR r.2.2 = false -> rec0 h st sb = Ok r.

Definition self_unc (self : search_t) : Prop :=
  forall end_ d maxR aA aD ign,
    rec_unc maxR (fun h st start => self h st start end_ d maxR aA aD ign)
                 (fun h st start => self h st start end_ d 0 aA aD ign).

(** [start] is only written: nothing was read from it. *)
Definition start_wf (b : Buffer) : Prop := off b = 0%nat /\ lastRead b = 0.

(** The words of one call are among the words of the other. *)
Definition rec_le (rec rec' : rec_t) : Prop :=
  forall h st sb r r', start_wf sb ->
    rec h st sb = Ok r -> rec' h st sb = Ok r' -> r.2.1 ⊆ r'.2.1.

Definition self_le (self : search_t) : Prop :=
  forall end_ d d' aA aD ign, d <= d' ->
    rec_le (fun h st start => self h st start end_ d 0 aA aD ign)
           (fun h st start => self h st start end_ d' 0 aA aD ign).

(** *** The graphs of the tests *)

Definition noGraph : store * DAWG := (emptyStore, mkDAWG None 0).

Definition built (words : list gostring) : store * DAWG :=
  match CreateDAWG 100 words with
  | Ok r => r
  | _ => noGraph
  end.

(** The graph of TestCreateDAWG. *)
Definition words4 : list gostring := [s_test; s_rest; s_nest; s_note].
Definition built4 : store * DAWG := Eval vm_compute in built words4.

(** The graph of TestSearch. *)
Definition words6 : list gostring := [s_test; s_tese; s_nest; s_test2; s_tes; s_note].
Definition built6 : store * DAWG := Eval vm_compute in built words6.

(** *** Accepted words *)

(** The words of the graph: the runes lead, letter by letter through
    getletter, from the state to a final state. *)
Inductive accepted (h : store) : ptr -> list rune -> Prop :=
  | accepted_nil st s :
      getS h st = Ok s -> state.final s = true -> accepted h st []
  | accepted_cons st c rs n lt l :
      getletter n h st c = Ok (Some lt) ->
      getL h (Some lt) = Ok l ->
      accepted h (letter.state l) rs ->
      accepted h st (c :: rs).

(** A word that is not well-formed UTF-8: the byte FF alone. *)
Definition s_ff : gostring := [0xFF].
Definition built_ff : store * DAWG := Eval vm_compute in built [s_ff].

(** Two words with the rune U+0000, which is well-formed UTF-8: the byte 00
    alone, and a, 00, b. *)
Definition s_nul : gostring := [0].
Definition built_nul : store * DAWG := Eval vm_compute in built [s_nul].
Definition s_anb : gostring := [97; 0; 98].
Definition built_anb : store * DAWG := Eval vm_compute in built [s_anb].

(** The words a and b. *)
Definition s_a : gostring := [97].
Definition s_b : gostring := [98].
Definition built_ab : store * DAWG := Eval vm_compute in built [s_a; s_b].

(** The graph of a and b after the analysis of a second run: the one state
    that both letters lead to was pushed twice on level 0 and is its own
    successor. *)
Definition analysed_ab : store :=
  Eval vm_compute in
    match analyseRoot 3 3 built_ab.1 [None] (Some 0%nat) with
    | Ok (h, _) => h
    | _ => emptyStore
    end.

(** *** Stores up to the fields that the minimizer writes *)

Definition strip_s (s : state.t) : state.t := state.set_next None s.

(** Two stores that differ at most in the fields [next] of their states. *)
Definition seq_store (k k' : store) : Prop :=
  lts k = lts k' /\ strip_s <$> sts k = strip_s <$> sts k'.

Definition next_of (k : store) (i : nat) : option ptr := state.next <$> (sts k !! i).

(** [k] and [k'] come from [h] and [h'] by the same writes: a field [next]
    is the same in both, or is in both what it was at the start. *)
Definition same_writes (h h' k k' : store) : Prop :=
  seq_store k k' /\
  forall i, next_of k i = next_of k' i \/
            (next_of k i = next_of h i /\ next_of k' i = next_of h' i).

(** The analysis does the same writes on two such stores. *)
Definition rec_sim (h h' : store)
    (rec : store -> levels_t -> ptr -> res (store * levels_t * Z)) : Prop :=
  forall k k' lv p k1 lv1 n,
    same_writes h h' k k' -> rec k lv p = Ok (k1, lv1, n) ->
    seq_store k k1 /\
    exists k1', rec k' lv p = Ok (k1', lv1, n) /\ same_writes h h' k1 k1'.

(** A graph in which the minimizer finds nothing to merge: the one word ab. *)
Definition s_ab : gostring := [97; 98].
Definition built_one : store * DAWG := Eval vm_compute in built [s_ab].

(** *** The graph of a store *)

(** One step in the structure of letters: to the left or right child in the
    tree, or to the next letter of the list. *)
Definition lstep (h : store) (a b : nat) : Prop :=
  exists l, lts h !! a = Some l /\
    (letter.left l = Some b \/ letter.right l = Some b \/ letter.next l = Some b).

(** One step in the list of letters. *)
Definition nstep (h : store) (a b : nat) : Prop :=
  exists l, lts h !! a = Some l /\ letter.next l = Some b.

(** The letters of a state: what its field [letters] leads to. *)
Definition owns (h : store) (s lp : nat) : Prop :=
  exists st hd, sts h !! s = Some st /\ state.letters st = Some hd /\ rtc (lstep h) hd lp.

(** An edge of the graph: a letter of the state [s] leads to the state [t]. *)
Definition edge (h : store) (s t : nat) : Prop :=
  exists lp l, owns h s lp /\ lts h !! lp = Some l /\ letter.state l = Some t.

(** No state that the initial state reaches lies on a cycle. *)
Definition acyclic_from (h : store) (root : nat) : Prop :=
  forall s, rtc (edge h) root s -> ~ tc (edge h) s s.

(** *** The trie that addWord builds

    [own] names, for every letter, the state whose letter it is. *)
Record trie_inv (own : nat -> nat) (h : store) : Prop := {
  ti_hd : forall s st hd,
    sts h !! s = Some st -> state.letters st = Some hd ->
    (hd < length (lts h))%nat /\ own hd = s;
  ti_link : forall a l b,
    lts h !! a = Some l ->
    letter.left l = Some b \/ letter.right l = Some b \/ letter.next l = Some b ->
    (b < length (lts h))%nat /\ own b = own a;
  ti_state : forall a l,
    lts h !! a = Some l ->
    exists t ts, letter.state l = Some t /\ sts h !! t = Some ts /\
                 state.letter ts = Some a;
  ti_letter : forall t ts a,
    sts h !! t = Some ts -> state.letter ts = Some a ->
    exists l, lts h !! a = Some l /\ letter.state l = Some t;
  ti_next : forall s st, sts h !! s = Some st -> state.next st = None;
  ti_count : forall s st,
    sts h !! s = Some st ->
    0 <= state.lettersCount st /\
    (state.letters st <> None -> 0 < state.lettersCount st);
  ti_chain : forall a,
    (a < length (lts h))%nat ->
    exists st hd, sts h !! own a = Some st /\ state.letters st = Some hd /\
                  rtc (nstep h) hd a
}.

(** The walk returns a letter of the state that was there, or it has hung a
    new letter under a letter of the state. *)
Definition walk_found (own : nat -> nat) (s : nat) (h h1 : store) (p : nat) : Prop :=
  h1 = h /\ (p < length (lts h))%nat /\ own p = s.

Definition walk_added (own : nat -> nat) (s : nat) (l : rune) (h h1 : store) (p : nat)
  : Prop :=
  exists a la,
    lts h !! a = Some la /\ own a = s /\ p = length (lts h) /\
    ((letter.left la = None /\
      h1 = updL (letter.set_left (Some p)) a (allocL (letter.new l) h).1) \/
     (letter.right la = None /\
      h1 = updL (letter.set_right (Some p)) a (allocL (letter.new l) h).1)).

Definition incCount (st : state.t) : state.t :=
  state.set_lettersCount (state.lettersCount st + 1) st.

(** The first letter of a state: the store after the iteration of addWord
    that creates it. *)
Definition firstLetter (h : store) (s : nat) (l : rune) : store :=
  let p := length (lts h) in
  let ns := length (sts h) in
  updS incCount s
    (updL (letter.set_state (Some ns)) p
       (allocS (state.new false (Some p))
          (updS (state.set_letters (Some p)) s (allocL (letter.new l) h).1)).1).

(** A further letter of a state: the walk has hung it under the letter [a]
    (to the left when [side], else to the right), and the iteration of
    addWord puts it behind the first letter [hd] of the list. *)
Definition setSide (side : bool) (p : nat) : letter.t -> letter.t :=
  if side then letter.set_left (Some p) else letter.set_right (Some p).

Definition nextLetter (side : bool) (h : store) (s a hd : nat) (nxt : ptr) (l : rune)
  : store :=
  let p := length (lts h) in
  let ns := length (sts h) in
  let h1 := updL (setSide side p) a (allocL (letter.new l) h).1 in
  let h4 := updS incCount s
              (updL (letter.set_state (Some ns)) p
                 (allocS (state.new false (Some p)) h1).1) in
  updL (letter.set_next (Some p)) hd (updL (letter.set_next nxt) p h4).

(** *** The level of a state

    What analyseSubTrie returns for a state, without the pushes: one more
    than the largest level among the states its letters lead to. *)
Fixpoint levelLetters (rec : store -> ptr -> res Z) (n : nat) (h : store)
    (curLetter : ptr) (curLevel : Z) : res Z :=
  match curLetter with
  | None => Ok curLevel
  | Some _ =>
    match n with
    | O => OutOfFuel
    | S n' =>
      cl ← getL h curLetter;
      curSubLevels ← rec h (letter.state cl);
      let curLevel := if curLevel <? curSubLevels then curSubLevels else curLevel in
      levelLetters rec n' h (letter.next cl) curLevel
    end
  end.

Fixpoint levelOf (fuel : nat) (h : store) (curState : ptr) : res Z :=
  match fuel with
  | O => OutOfFuel
  | S fuel' =>
    cs ← getS h curState;
    curLevel ← (if state.lettersCount cs =? 0 then Ok 0
                else levelLetters (levelOf fuel') fuel' h (state.letters cs) 0);
    Ok (curLevel + 1)
  end.

(** The level of a state of the trie [h0], computed with the fuel [F]. *)
Definition lev (F : nat) (h0 : store) (s : nat) (n : Z) : Prop :=
  levelOf F h0 (Some s) = Ok n.

(** During the analysis: the store differs from the trie in the fields
    [next] only, the list of level [i] starts with a state of that level, and
    [next] leads from a state to a state of its level. *)
Definition sorted_levels (F : nat) (h0 : store) (h : store) (lv : levels_t) : Prop :=
  seq_store h0 h /\
  (forall i s, lv !! i = Some (Some s) -> lev F h0 s (Z.of_nat i + 1)) /\
  (forall s st t, sts h !! s = Some st -> state.next st = Some t ->
     exists n, lev F h0 s n /\ lev F h0 t n).

Definition rec_sorted (F : nat) (h0 : store) (f : nat)
    (rec : store -> levels_t -> ptr -> res (store * levels_t * Z)) : Prop :=
  forall h lv p h' lv' n,
    sorted_levels F h0 h lv -> rec h lv p = Ok (h', lv', n) ->
    sorted_levels F h0 h' lv' /\ levelOf f h0 p = Ok n.

Definition strip_l (l : letter.t) : letter.t := letter.set_state None l.

(** Two stores that differ at most in the fields [next] of their states and
    [state] of their letters: what the merge writes. *)
Definition same_shape (h h' : store) : Prop :=
  strip_l <$> lts h = strip_l <$> lts h' /\ strip_s <$> sts h = strip_s <$> sts h'.

Definition next_same_level (F : nat) (h0 : store) (h : store) : Prop :=
  forall s st t, sts h !! s = Some st -> state.next st = Some t ->
    exists n, lev F h0 s n /\ lev F h0 t n.

(** Every edge leads to a state of a smaller level. *)
Definition edges_down (F : nat) (h0 : store) (h : store) : Prop :=
  forall o n t, lev F h0 o n -> edge h o t -> exists m, lev F h0 t m /\ m < n.

(** The letter that a state comes from belongs to a state of a larger
    level. *)
Definition parent_above (F : nat) (h0 : store) : Prop :=
  forall s st lp o n m,
    sts h0 !! s = Some st -> state.letter st = Some lp -> owns h0 o lp ->
    lev F h0 o n -> lev F h0 s m -> m < n.

(** What the merge keeps: the shape of the trie, and the levels along the
    lists and the edges. *)
Definition merging (F : nat) (h0 : store) (h : store) : Prop :=
  same_shape h0 h /\ next_same_level F h0 h /\ edges_down F h0 h.

(** *** Words, transitions, the trees of letters and the lists of levels *)

(** The words that the letters of the graph spell: from a state, the runes
    of letters of the states passed lead to a final state.  Against
    [accepted], a letter counts when a state holds it, in its tree or in its
    list, and not only when getletter finds it. *)
Inductive spelled (h : store) : ptr -> list rune -> Prop :=
  | spelled_nil st s :
      getS h st = Ok s -> state.final s = true -> spelled h st []
  | spelled_cons s lp l rs :
      owns h s lp -> lts h !! lp = Some l ->
      spelled h (letter.state l) rs ->
      spelled h (Some s) (letter.char l :: rs).

(** The runes [r] come from the runes [q] of the query by at most [d]
    changes, deletions (under allowDelete) and insertions (under allowAdd)
    of one rune. *)
Inductive edits (allowAdd allowDelete : bool) : nat -> list rune -> list rune -> Prop :=
  | edits_nil d : edits allowAdd allowDelete d [] []
  | edits_same d c q r :
      edits allowAdd allowDelete d q r -> edits allowAdd allowDelete d (c :: q) (c :: r)
  | edits_change d c c' q r :
      edits allowAdd allowDelete d q r ->
      edits allowAdd allowDelete (S d) (c :: q) (c' :: r)
  | edits_delete d c q r :
      allowDelete = true -> edits allowAdd allowDelete d q r ->
      edits allowAdd allowDelete (S d) (c :: q) r
  | edits_add d c q r :
      allowAdd = true -> edits allowAdd allowDelete d q r ->
      edits allowAdd allowDelete (S d) q (c :: r).

(** All words of a block satisfy [G], and a block that falls through hands
    the buffer [start] back as it was. *)
Definition flow_all (G : gostring -> Prop) (h : store) (start : Buffer) (fl : flow) : Prop :=
  match fl with
  | Ret h1 ws _ => h1 = h /\ Forall G ws
  | Go h1 ws _ start1 => h1 = h /\ Forall G ws /\ start1 = start
  end.

(** A word found from the state [st] with the buffer [start] and the
    budget [d] for the query [q]. *)
Definition found_ok (h : store) (st : ptr) (start : Buffer) (aA aD : bool) (d : Z)
    (q : list rune) (w : gostring) : Prop :=
  exists rs, spelled h st rs /\ w = String start ++ encodeRunes rs /\
             edits aA aD (Z.to_nat d) q rs.

(** searchSubString returns such words only. *)
Definition self_sound (self : search_t) : Prop :=
  forall h st start end_ d maxR aA aD ign r,
    start_wf start -> self h st start end_ d maxR aA aD ign = Ok r ->
    Forall (found_ok h st start aA aD d (runesOf (String end_))) r.2.1.

(** The transition of the graph: in the state [s], getletter finds for the
    rune [c] a letter that leads to the state [t]. *)
Definition step (h : store) (s : nat) (c : rune) (t : nat) : Prop :=
  exists n lt l, getletter n h (Some s) c = Ok (Some lt) /\
                 lts h !! lt = Some l /\ letter.state l = Some t.

(** The state is a final state of the store. *)
Definition final_at (h : store) (s : nat) : Prop :=
  exists st, sts h !! s = Some st /\ state.final st = true.

(** The runes lead from one state to another. *)
Inductive leads (h : store) : nat -> list rune -> nat -> Prop :=
  | leads_nil s : leads h s [] s
  | leads_cons s c t rs u :
      step h s c t -> leads h t rs u -> leads h s (c :: rs) u.

(** The trie with the initial state alone, as CreateDAWG starts with. *)
Definition newTrie : store := (allocS (state.new false None) emptyStore).1.

(** The list of the letters of a state, from its first letter along [next]. *)
Inductive chain (h : store) : ptr -> list nat -> Prop :=
  | chain_nil : chain h None []
  | chain_cons a l ls :
      lts h !! a = Some l -> chain h (letter.next l) ls -> chain h (Some a) (a :: ls).

(** What the tree walk reads of a letter. *)
Definition tree_view (l : letter.t) : rune * ptr * ptr :=
  (letter.char l, letter.left l, letter.right l).

(** The child that the walk for [c] takes at a letter. *)
Definition child (c : rune) (l : letter.t) : ptr :=
  if letter.char l <? c then letter.left l else letter.right l.

(** The store after the walk has hung a new letter under [a]. *)
Definition hang (side : bool) (h : store) (a : nat) (l : rune) : store :=
  updL (setSide side (length (lts h))) a (allocL (letter.new l) h).1.

(** [h'] has the transitions of [h] and one from [s] to [s'] by [l], which
    is a transition of [h] or leads to a new state with no transition. *)
Definition extends (h h' : store) (s : nat) (l : rune) (s' : nat) : Prop :=
  (length (sts h) <= length (sts h'))%nat /\
  step h' s l s' /\
  (forall t c u, (t < length (sts h))%nat -> step h t c u -> step h' t c u) /\
  (forall t c u, (t < length (sts h))%nat -> step h' t c u ->
     step h t c u \/
     (t = s /\ c = l /\ u = s' /\ s' = length (sts h) /\ ~ final_at h' s' /\
      forall c' u', ~ step h' s' c' u')) /\
  (forall t, (t < length (sts h))%nat -> (final_at h' t <-> final_at h t)).

(** The field [letter] of the states that were there is kept. *)
Definition keeps_letter (h h' : store) : Prop :=
  forall t st, sts h !! t = Some st ->
    exists st', sts h' !! t = Some st' /\ state.letter st' = state.letter st.

(** The initial state comes from no letter. *)
Definition rooted (h : store) (root : nat) : Prop :=
  exists st, sts h !! root = Some st /\ state.letter st = None.

(** A trie of addWord with its initial state. *)
Definition trie (h : store) (root : nat) : Prop :=
  (exists own, trie_inv own h) /\ rooted h root.

(** Every letter of the list of a state is found in its tree, and the state
    counts its letters. *)
Definition findable (h : store) (hd : ptr) (x : nat) : Prop :=
  exists l n, lts h !! x = Some l /\ findLetter n h hd (letter.char l) = Ok (Some x).

Definition listed (h : store) (st : state.t) : Prop :=
  exists ls, chain h (state.letters st) ls /\
             state.lettersCount st = Z.of_nat (length ls) /\
             forall x, x ∈ ls -> findable h (state.letters st) x.

Definition tree_inv (h : store) : Prop :=
  forall s st, sts h !! s = Some st -> listed h st.

(** Every letter of the tree of a state is on its list. *)
Definition tree_listed (h : store) : Prop :=
  forall s st ls x, sts h !! s = Some st -> chain h (state.letters st) ls ->
    owns h s x -> x ∈ ls.

(** A store on which equals decides the equality of two states. *)
Definition tree_ok (h : store) : Prop := tree_inv h /\ tree_listed h.

(** The rune of a letter of the store. *)
Definition charOf (h : store) (x : nat) : rune :=
  default 0 (letter.char <$> lts h !! x).

(** Two states that accept the same sequences of runes. *)
Definition same_words (h : store) (s t : nat) : Prop :=
  forall rs, accepted h (Some s) rs <-> accepted h (Some t) rs.

(** The state that a letter leads to has the words of the state that comes
    from the letter. *)
Definition parent_words (h : store) : Prop :=
  forall t st lp l x, sts h !! t = Some st -> state.letter st = Some lp ->
    lts h !! lp = Some l -> letter.state l = Some x -> same_words h x t.

(** Every letter leads to a state of the store. *)
Definition targets (h : store) : Prop :=
  forall lp l, lts h !! lp = Some l ->
    exists x, letter.state l = Some x /\ (x < length (sts h))%nat.

(** The merge of one state: the store after [previousState.next =
    sameState.next] and [sameState.letter.state = curState]. *)
Definition merged (h : store) (c prev lp : nat) (v : ptr) : store :=
  updL (letter.set_state (Some c)) lp (updS (state.set_next v) prev h).

(** What the merge keeps, for the words. *)
Definition merge_words (h1 h : store) : Prop :=
  same_shape h1 h /\ parent_words h /\ targets h /\
  forall t rs, accepted h (Some t) rs <-> accepted h1 (Some t) rs.

(** The trie of a list of words, before compressTrie. *)
Definition trieOf (words : list gostring) : store :=
  match addWords 100 newTrie (Some 0%nat) words 1 0 with
  | Ok (h, _, _) => h
  | _ => emptyStore
  end.

(** The words that the search of TestSearch with one edit finds. *)
Definition found6 : list gostring := [s_test; s_test2; s_tese; s_tes; s_nest].

(** The letter on the left or on the right of a letter was made after it. *)
Definition tree_up (h : store) : Prop :=
  forall a l b, lts h !! a = Some l ->
    letter.left l = Some b \/ letter.right l = Some b ->
    (a < b < length (lts h))%nat.

(** What the search needs of a store: the lists and trees of letters of
    [tree_inv], trees that grow downwards, and letters that lead to states
    of the store. *)
Definition searchable (h : store) : Prop := tree_inv h /\ tree_up h /\ targets h.

(** The recursive calls return from every state of the store. *)
Definition rec_total (h : store) (rec : rec_t) : Prop :=
  forall st sb, (st < length (sts h))%nat -> start_wf sb ->
    exists r, rec h (Some st) sb = Ok r.

(** What is left of the query and of the budget. *)
Definition left_over (end_ : Buffer) (d : Z) : nat :=
  (length (String end_) + Z.to_nat d)%nat.

(** The function that the recursive calls go to returns for every query
    and budget with less left over than [m]. *)
Definition self_total (h : store) (self : search_t) (m : nat) : Prop :=
  forall st sb e d maxR aA aD ign,
    (st < length (sts h))%nat -> start_wf sb -> (left_over e d < m)%nat ->
    exists r, self h (Some st) sb e d maxR aA aD ign = Ok r.

(** Every state but the initial one is on the way to the end of a word. *)
Definition live (h : store) (root : nat) : Prop :=
  forall t, (t < length (sts h))%nat -> t <> root -> exists r, accepted h (Some t) r.

(** Every state of the trie is reached from the initial state. *)
Definition all_reached (h : store) (root : nat) : Prop :=
  forall t, (t < length (sts h))%nat -> exists rs, leads h root rs t.

(** The list of the states of a level, from its first state along [next]. *)
Inductive slist (h : store) : ptr -> list nat -> Prop :=
  | slist_nil : slist h None []
  | slist_cons s st L :
      sts h !! s = Some st -> slist h (state.next st) L -> slist h (Some s) (s :: L).

(** The state is on the list of a level. *)
Definition pushed (Ls : list (list nat)) (x : nat) : Prop :=
  exists i L, Ls !! i = Some L /\ x ∈ L.

(** [levels] holds lists without a cycle, and no state is on two lists or
    twice on one. *)
Definition levels_ok (h : store) (lv : levels_t) (Ls : list (list nat)) : Prop :=
  length Ls = length lv /\
  (forall i p L, lv !! i = Some p -> Ls !! i = Some L -> slist h p L /\ NoDup L) /\
  (forall i j Li Lj x, Ls !! i = Some Li -> Ls !! j = Some Lj ->
     x ∈ Li -> x ∈ Lj -> i = j).

(** A state that the runes lead to. *)
Definition desc (h : store) (t u : nat) : Prop := exists rs, leads h t rs u.

(** The letter [x] of the list of the state [t] leads to the state [u]. *)
Definition child_of (h : store) (t x : nat) (lx : letter.t) (u : nat) : Prop :=
  lts h !! x = Some lx /\ letter.state lx = Some u /\
  exists n, getletter n h (Some t) (letter.char lx) = Ok (Some x).

(** What a call of analyseSubTrie for the state [t] leaves: the trie [h0] up
    to the fields [next], lists of the levels with states below [t] pushed,
    and as level one more than the length of a path from [t]. *)
Definition analysed (h0 : store) (M : nat) (t : nat) (Ls : list (list nat))
    (r : res (store * levels_t * Z)) : Prop :=
  exists h' lv' Ls' n, r = Ok (h', lv', n) /\
    seq_store h0 h' /\ levels_ok h' lv' Ls' /\ length lv' = M /\
    (forall x, pushed Ls' x <-> pushed Ls x \/ desc h0 t x) /\
    exists r2 u, leads h0 t r2 u /\ Z.of_nat (length r2) = n - 1.

(** The recursive call does so for the states that the letters of [t] lead
    to, when none of the states below is pushed. *)
Definition analysing (h0 : store) (M : nat) (t : nat)
    (rec : store -> levels_t -> ptr -> res (store * levels_t * Z)) : Prop :=
  forall x lx u h lv Ls,
    child_of h0 t x lx u -> seq_store h0 h -> levels_ok h lv Ls -> length lv = M ->
    (forall v, desc h0 u v -> ~ pushed Ls v) ->
    analysed h0 M u Ls (rec h lv (Some u)).

(** The one letter that leads to the state is the letter it comes from. *)
Definition only_from (h : store) (x : nat) : Prop :=
  exists st a l, sts h !! x = Some st /\ state.letter st = Some a /\
    lts h !! a = Some l /\ letter.state l = Some x /\
    forall a' l', lts h !! a' = Some l' -> letter.state l' = Some x -> a' = a.

(** During the merge: the initial state, the states [D] that the merge has
    kept and the states [W] that it has not yet looked at are the states
    that letters lead to, each of them is reached from the initial state,
    and a state of [W] has one letter that leads to it. *)
Definition survivors (h : store) (root : nat) (D W : list nat) : Prop :=
  tree_ok h /\ NoDup (root :: D ++ W) /\
  (forall x, x ∈ root :: D ++ W -> desc h root x) /\
  (forall a l x, lts h !! a = Some l -> letter.state l = Some x -> x ∈ root :: D ++ W) /\
  (forall x, x ∈ W -> only_from h x) /\
  (forall x ch, ~ step h x ch x).

(** The state comes from a letter of the store. *)
Definition lettered (h : store) (x : nat) : Prop :=
  exists st lp, sts h !! x = Some st /\ state.letter st = Some lp /\
                (lp < length (lts h))%nat.

(** * Properties *)

(** ** Reasoning about [res] *)

Lemma bind_Ok {A B} (m : res A) (f : A -> res B) (b : B) :
  (m ≫= f) = Ok b <-> exists a, m = Ok a /\ f a = Ok b.
Proof.
  destruct m; simpl; split; intros H; eauto;
    try discriminate; destruct H as (a' & Ha & Hf); congruence.
Qed.

Ltac inv_bind H :=
  let a := fresh "a" in
  let Ha := fresh "Ha" in
  apply bind_Ok in H as (a & Ha & H).

Tactic Notation "bind_inv" hyp(H) "as" ident(a) ident(Ha) :=
  apply bind_Ok in H as (a & Ha & H).

Lemma getS_Some h p s : getS h p = Ok s -> exists i, p = Some i /\ sts h !! i = Some s.
Proof.
  destruct p as [i|]; simpl; [|discriminate].
  destruct (sts h !! i) eqn:E; [|discriminate]. intros [= ->]. eauto.
Qed.

Lemma getL_Some h p l : getL h p = Ok l -> exists i, p = Some i /\ lts h !! i = Some l.
Proof.
  destruct p as [i|]; simpl; [|discriminate].
  destruct (lts h !! i) eqn:E; [|discriminate]. intros [= ->]. eauto.
Qed.

Arguments getS : simpl never.
Arguments getL : simpl never.

(** ** The result list of searchSubString *)

Lemma mergeWords_fst ws1 n1 ws2 n2 : (mergeWords ws1 n1 ws2 n2).1 = ws1 ++ ws2.
Proof. by destruct ws1. Qed.

Lemma mergeWords_length ws1 n1 ws2 n2 :
  n1 = Z.of_nat (length ws1) -> n2 = Z.of_nat (length ws2) ->
  (mergeWords ws1 n1 ws2 n2).2 = Z.of_nat (length (mergeWords ws1 n1 ws2 n2).1).
Proof.
  intros -> ->. destruct ws1; simpl; [done|].
  rewrite length_app. simpl. lia.
Qed.

Lemma follow_ok rec h l start ws n maxR fl :
  rec_ok rec -> n = Z.of_nat (length ws) ->
  follow rec h l start ws n maxR = Ok fl -> flow_ok h maxR fl.
Proof.
  intros Hrec Hn. unfold follow.
  destruct (WriteRune start (letter.char l)) as [runeLen start1].
  intros H. inv_bind H. destruct a as [h1 [fw fs]].
  apply Hrec in Ha as [Hh Hs]. simpl in Hh, Hs. subst h1.
  pose proof (mergeWords_length fw fs ws n Hs Hn) as Hm.
  destruct (mergeWords fw fs ws n) as [ws1 n1]. simpl in Hm.
  destruct (capped maxR n1) eqn:Hc.
  - injection H as <-. done.
  - inv_bind H. injection H as <-. done.
Qed.

Lemma eachLetter_ok rec k : rec_ok rec ->
  forall h lp c ign start ws n maxR fl,
  n = Z.of_nat (length ws) ->
  eachLetter rec k h lp c ign start ws n maxR = Ok fl -> flow_ok h maxR fl.
Proof.
  intros Hrec. induction k as [|k IH]; intros h lp c ign start ws n maxR fl Hn.
  - destruct lp; simpl; [discriminate|]. intros [= <-]. done.
  - destruct lp as [i|]; simpl; [|intros [= <-]; done].
    intros H. inv_bind H. inv_bind H.
    assert (flow_ok h maxR a0) as Hfl.
    { destruct (_ && _) in Ha0.
      - eapply follow_ok; eauto.
      - injection Ha0 as <-. done. }
    destruct a0 as [h1 ws1 n1|h1 ws1 n1 start1].
    + injection H as <-. done.
    + destruct Hfl as [-> Hn1]. inv_bind H. eapply IH; eauto.
Qed.

Lemma exactStep_ok rec k h st start c ign maxR fl :
  rec_ok rec -> exactStep rec k h st start c ign maxR = Ok fl -> flow_ok h maxR fl.
Proof.
  intros Hrec. unfold exactStep. destruct (negb (c =? ign)).
  - intros H. inv_bind H. destruct a.
    + inv_bind H. eapply follow_ok; [exact Hrec|done|exact H].
    + injection H as <-. done.
  - intros [= <-]. done.
Qed.

Lemma changeSteps_ok rec k h st start c ign ws n maxR aD fl :
  rec_ok rec -> n = Z.of_nat (length ws) ->
  changeSteps rec k h st start c ign ws n maxR aD = Ok fl -> flow_ok h maxR fl.
Proof.
  intros Hrec Hn. unfold changeSteps. intros H. inv_bind H. inv_bind H.
  apply eachLetter_ok in Ha0; [|done..].
  destruct a0 as [h2 ws2 n2|h2 ws2 n2 start2].
  - injection H as <-. done.
  - destruct Ha0 as [-> Hn2]. destruct aD.
    + inv_bind H. destruct a0 as [h3 [fw fs]].
      apply Hrec in Ha0 as [Hh Hs]. simpl in Hh, Hs. subst h3.
      pose proof (mergeWords_length fw fs ws2 n2 Hs Hn2) as Hm.
      destruct (mergeWords fw fs ws2 n2) as [ws3 n3]. simpl in Hm.
      destruct (capped maxR n3) eqn:Hc; injection H as <-; done.
    + injection H as <-. done.
Qed.

Lemma addSteps_ok rec k h st start c ign ws n maxR fl :
  rec_ok rec -> n = Z.of_nat (length ws) ->
  addSteps rec k h st start c ign ws n maxR = Ok fl -> flow_ok h maxR fl.
Proof.
  intros Hrec Hn. unfold addSteps. intros H. inv_bind H.
  eapply eachLetter_ok; eauto.
Qed.

Lemma readBlock_ok self k h st start end_ d maxR aA aD ign fl c end1 :
  self_ok self ->
  readBlock self k h st start end_ d maxR aA aD ign = Ok (fl, c, end1) ->
  flow_ok h maxR fl.
Proof.
  intros IH Ha. unfold readBlock in Ha. destruct (0 <? Len end_).
  - inv_bind Ha. destruct a as [c0 e1].
    inv_bind Ha. inv_bind Ha.
    apply exactStep_ok in Ha1; [|apply IH].
    assert (flow_ok h maxR a0) as Hfa0.
    { destruct a as [h1 ws1 n1|h1 ws1 n1 start1].
      - injection Ha2 as <-. done.
      - destruct Ha1 as [-> Hn1]. destruct (0 <? d).
        + eapply changeSteps_ok; [apply IH|done|exact Ha2].
        + injection Ha2 as <-. done. }
    destruct a0.
    + injection Ha as <- _ _. done.
    + inv_bind Ha. injection Ha as <- _ _. done.
  - inv_bind Ha. destruct (state.final a); injection Ha as <- _ _; done.
Qed.

Lemma searchBody_ok self k : self_ok self -> self_ok (searchBody self k).
Proof.
  intros IH end_ d maxR aA aD ign h st start r. unfold searchBody.
  intros H. inv_bind H. destruct a as [[fl c] end1].
  apply readBlock_ok in Ha; [|done].
  destruct fl as [h1 ws n|h1 ws n start1].
  - destruct Ha as (-> & Hn & _). injection H as <-. done.
  - destruct Ha as [-> Hn]. destruct (_ && _).
    + inv_bind H. apply addSteps_ok in Ha; [|apply IH|done].
      injection H as <-. destruct a; simpl; destruct Ha as (? & ? & ?) || destruct Ha; done.
    + injection H as <-. done.
Qed.

Lemma searchSubString_self_ok fuel : self_ok (searchSubString fuel).
Proof.
  induction fuel as [|fuel IH]; [intros ? ? ? ? ? ? ? ? ? ?; discriminate|].
  simpl. by apply searchBody_ok.
Qed.

Lemma searchSubString_ok fuel end_ d maxR aA aD ign :
  rec_ok (fun h st start => searchSubString fuel h st start end_ d maxR aA aD ign).
Proof. apply searchSubString_self_ok. Qed.

(** ** The traversal without a cap

    A call whose count does not exceed the cap never took one of the early
    returns, so it computes what the call with [maxResults = 0] computes. *)

Lemma capped_0 n : capped 0 n = false.
Proof. done. Qed.

Lemma capped_nonpos maxR n : n <= 0 -> capped maxR n = false.
Proof.
  unfold capped. intros Hn.
  destruct (Z.ltb_spec 0 maxR), (Z.ltb_spec maxR n); simpl; (done || lia).
Qed.

Lemma capped_le maxR a b : 0 <= a <= b -> capped maxR b = false -> capped maxR a = false.
Proof.
  unfold capped. intros Hab.
  destruct (Z.ltb_spec 0 maxR), (Z.ltb_spec maxR b), (Z.ltb_spec maxR a);
    simpl; (done || lia).
Qed.

Lemma follow_unc rec rec0 h l start ws n maxR h1 ws1 n1 start1 :
  rec_ok rec -> rec_unc maxR rec rec0 -> n = Z.of_nat (length ws) ->
  follow rec h l start ws n maxR = Ok (Go h1 ws1 n1 start1) ->
  follow rec0 h l start ws n 0 = Ok (Go h1 ws1 n1 start1).
Proof.
  intros Hok Hunc Hn. unfold follow.
  destruct (WriteRune start (letter.char l)) as [runeLen start'].
  intros H. inv_bind H. destruct a as [h' [fw fs]].
  pose proof (Hok _ _ _ _ Ha) as [Hh Hs]. simpl in Hh, Hs. subst h'.
  pose proof (mergeWords_length fw fs ws n Hs Hn) as Hm.
  destruct (mergeWords fw fs ws n) as [ws' n'] eqn:Em. simpl in Hm.
  destruct (capped maxR n') eqn:Hc; [discriminate|].
  assert (capped maxR fs = false) as Hcf.
  { destruct fw; simpl in Em.
    - subst fs. by apply capped_nonpos.
    - injection Em as <- <-. eapply capped_le; [|exact Hc]. lia. }
  rewrite (Hunc _ _ _ _ Ha Hcf). simpl. rewrite Em. rewrite ?capped_0. exact H.
Qed.

Lemma eachLetter_unc rec rec0 maxR k : rec_ok rec -> rec_unc maxR rec rec0 ->
  forall h lp c ign start ws n h1 ws1 n1 start1,
  n = Z.of_nat (length ws) ->
  eachLetter rec k h lp c ign start ws n maxR = Ok (Go h1 ws1 n1 start1) ->
  eachLetter rec0 k h lp c ign start ws n 0 = Ok (Go h1 ws1 n1 start1).
Proof.
  intros Hok Hunc. induction k as [|k IH];
    intros h lp c ign start ws n h1 ws1 n1 start1 Hn.
  - destruct lp; simpl; [discriminate|done].
  - destruct lp as [i|]; simpl; [|done].
    intros H. inv_bind H. rewrite Ha. simpl. inv_bind H.
    destruct a0 as [h2 ws2 n2|h2 ws2 n2 start2]; [discriminate|].
    assert (flow_ok h maxR (Go h2 ws2 n2 start2)) as [-> Hn2].
    { destruct (_ && _) in Ha0.
      - eapply follow_ok; eauto.
      - injection Ha0 as <- <- <- <-. done. }
    destruct (_ && _).
    + erewrite follow_unc by eauto. simpl.
      inv_bind H. rewrite Ha1. simpl. eapply IH; eauto.
    + rewrite Ha0. simpl. inv_bind H. rewrite Ha1. simpl. eapply IH; eauto.
Qed.

Lemma exactStep_unc rec rec0 maxR k h st start c ign h1 ws1 n1 start1 :
  rec_ok rec -> rec_unc maxR rec rec0 ->
  exactStep rec k h st start c ign maxR = Ok (Go h1 ws1 n1 start1) ->
  exactStep rec0 k h st start c ign 0 = Ok (Go h1 ws1 n1 start1).
Proof.
  intros Hok Hunc. unfold exactStep. destruct (negb (c =? ign)); [|done].
  intros H. inv_bind H. rewrite Ha. simpl. destruct a; [|done].
  inv_bind H. rewrite Ha0. simpl. eapply follow_unc; eauto.
Qed.

Lemma changeSteps_unc rec rec0 maxR k h st start c ign ws n aD h1 ws1 n1 start1 :
  rec_ok rec -> rec_unc maxR rec rec0 -> n = Z.of_nat (length ws) ->
  changeSteps rec k h st start c ign ws n maxR aD = Ok (Go h1 ws1 n1 start1) ->
  changeSteps rec0 k h st start c ign ws n 0 aD = Ok (Go h1 ws1 n1 start1).
Proof.
  intros Hok Hunc Hn. unfold changeSteps. intros H. inv_bind H. rewrite Ha. simpl.
  inv_bind H. destruct a0 as [h2 ws2 n2|h2 ws2 n2 start2]; [discriminate|].
  pose proof (eachLetter_ok _ _ Hok _ _ _ _ _ _ _ _ _ Hn Ha0) as [-> Hn2].
  erewrite eachLetter_unc by eauto. simpl.
  destruct aD; [|done].
  inv_bind H. destruct a0 as [h3 [fw fs]].
  pose proof (Hok _ _ _ _ Ha1) as [Hh Hs]. simpl in Hh, Hs. subst h3.
  pose proof (mergeWords_length fw fs ws2 n2 Hs Hn2) as Hm.
  destruct (mergeWords fw fs ws2 n2) as [ws' n'] eqn:Em. simpl in Hm.
  destruct (capped maxR n') eqn:Hc; [discriminate|].
  assert (capped maxR fs = false) as Hcf.
  { destruct fw; simpl in Em.
    - subst fs. by apply capped_nonpos.
    - injection Em as <- <-. eapply capped_le; [|exact Hc]. lia. }
  rewrite (Hunc _ _ _ _ Ha1 Hcf). simpl. rewrite Em. rewrite ?capped_0. exact H.
Qed.

Lemma addSteps_unc rec rec0 maxR k h st start c ign ws n h1 ws1 n1 start1 :
  rec_ok rec -> rec_unc maxR rec rec0 -> n = Z.of_nat (length ws) ->
  addSteps rec k h st start c ign ws n maxR = Ok (Go h1 ws1 n1 start1) ->
  addSteps rec0 k h st start c ign ws n 0 = Ok (Go h1 ws1 n1 start1).
Proof.
  intros Hok Hunc Hn. unfold addSteps. intros H. inv_bind H. rewrite Ha. simpl.
  eapply eachLetter_unc; eauto.
Qed.

Lemma readBlock_unc self k h st start end_ d maxR aA aD ign h1 ws1 n1 start1 c end1 :
  self_ok self -> self_unc self ->
  readBlock self k h st start end_ d maxR aA aD ign = Ok (Go h1 ws1 n1 start1, c, end1) ->
  readBlock self k h st start end_ d 0 aA aD ign = Ok (Go h1 ws1 n1 start1, c, end1).
Proof.
  intros Hok Hunc. unfold readBlock. destruct (0 <? Len end_); [|done].
  intros H. inv_bind H. rewrite Ha. simpl. destruct a as [c0 e1].
  inv_bind H. inv_bind H.
  destruct a0 as [h3 ws3 n3|h3 ws3 n3 start3]; [discriminate|].
  inv_bind H. injection H as <- <- <- <- <- <-.
  destruct a as [h2 ws2 n2|h2 ws2 n2 start2]; [discriminate|].
  pose proof (exactStep_ok _ _ _ _ _ _ _ _ _ (Hok _ _ _ _ _ _) Ha0) as [-> Hn2].
  erewrite exactStep_unc; [|apply Hok|apply Hunc|exact Ha0]. simpl.
  destruct (0 <? d).
  - erewrite changeSteps_unc; [|apply Hok|apply Hunc|done|exact Ha1]. simpl.
    by rewrite Ha2.
  - rewrite Ha1. simpl. by rewrite Ha2.
Qed.

Lemma searchBody_unc self k : self_ok self -> self_unc self -> self_unc (searchBody self k).
Proof.
  intros Hok Hunc end_ d maxR aA aD ign h st start r. unfold searchBody.
  intros H Hc. inv_bind H. destruct a as [[fl c] end1].
  pose proof (readBlock_ok _ _ _ _ _ _ _ _ _ _ _ _ _ _ Hok Ha) as Hfl.
  destruct fl as [h1 ws n|h1 ws n start1].
  { destruct Hfl as (_ & _ & Hcap). injection H as <-. simpl in Hc. congruence. }
  destruct Hfl as [-> Hn].
  erewrite readBlock_unc by eauto. simpl.
  destruct (_ && _); [|done].
  inv_bind H. injection H as <-.
  pose proof (addSteps_ok _ _ _ _ _ _ _ _ _ _ _ (Hok _ _ _ _ _ _) Hn Ha0) as Hfa.
  destruct a as [h2 ws2 n2|h2 ws2 n2 start2].
  { destruct Hfa as (_ & _ & Hcap). simpl in Hc. congruence. }
  erewrite addSteps_unc; [done|apply Hok|apply Hunc|done|exact Ha0].
Qed.

Lemma searchSubString_unc fuel : self_unc (searchSubString fuel).
Proof.
  induction fuel as [|fuel IH]; [intros ? ? ? ? ? ? ? ? ? ?; discriminate|].
  simpl. apply searchBody_unc; [apply searchSubString_self_ok|done].
Qed.

(** ** The buffer [start] *)

Lemma WriteRune_wf b r : start_wf b -> start_wf (WriteRune b r).2.
Proof. by intros [? ?]. Qed.

(** [start.Truncate(start.Len() - runeLen)] reverts the WriteRune. *)
Lemma Truncate_WriteRune b r :
  start_wf b ->
  Truncate (WriteRune b r).2 (Len (WriteRune b r).2 - (WriteRune b r).1) = Ok b.
Proof.
  destruct b as [bf o lr]. intros [Ho Hl]. simpl in Ho, Hl. subst o lr.
  unfold Truncate, WriteRune, Len. simpl.
  rewrite length_app, Nat.sub_0_r.
  replace (Z.of_nat (length bf + length (EncodeRune r)) - Z.of_nat (length (EncodeRune r)))
    with (Z.of_nat (length bf)) by lia.
  destruct (Z.eqb_spec (Z.of_nat (length bf)) 0) as [E|E].
  - destruct bf; [done|simpl in E; lia].
  - destruct (Z.ltb_spec (Z.of_nat (length bf)) 0); [lia|].
    destruct (Z.ltb_spec (Z.of_nat (length bf + length (EncodeRune r)))
                (Z.of_nat (length bf))); [lia|].
    simpl. rewrite Nat2Z.id. by rewrite take_app_length.
Qed.

Lemma String_WriteRune b r :
  start_wf b -> String (WriteRune b r).2 = String b ++ EncodeRune r.
Proof. destruct b as [bf o lr]. intros [Ho Hl]. simpl in *. by subst o. Qed.

(** ** The traversal without a cap, block by block *)

Lemma follow_go rec h l start ws n fl :
  rec_ok rec -> start_wf start ->
  follow rec h l start ws n 0 = Ok fl ->
  exists fw fs,
    rec h (letter.state l) (WriteRune start (letter.char l)).2 = Ok (h, (fw, fs)) /\
    fl = Go h (fw ++ ws) (mergeWords fw fs ws n).2 start.
Proof.
  intros Hok Hwf. unfold follow.
  pose proof (Truncate_WriteRune start (letter.char l) Hwf) as Ht.
  destruct (WriteRune start (letter.char l)) as [runeLen start1]. simpl in Ht.
  intros H. inv_bind H. destruct a as [h1 [fw fs]].
  pose proof (Hok _ _ _ _ Ha) as [Hh _]. simpl in Hh. subst h1.
  exists fw, fs. split; [done|].
  pose proof (mergeWords_fst fw fs ws n) as Hm.
  destruct (mergeWords fw fs ws n) as [ws1 n1]. simpl in Hm. subst ws1.
  rewrite capped_0 in H. rewrite Ht in H. simpl in H. by injection H as <-.
Qed.

Lemma eachLetter_grow rec k : rec_ok rec ->
  forall h lp c ign start ws n fl,
  start_wf start ->
  eachLetter rec k h lp c ign start ws n 0 = Ok fl ->
  exists ws1 n1, fl = Go h ws1 n1 start /\ ws ⊆ ws1.
Proof.
  intros Hok. induction k as [|k IH]; intros h lp c ign start ws n fl Hwf.
  - destruct lp; simpl; [discriminate|]. intros [= <-]. eauto.
  - destruct lp as [i|]; simpl; [|intros [= <-]; eauto].
    intros H. inv_bind H. inv_bind H.
    destruct (_ && _) in Ha0.
    + apply follow_go in Ha0 as (fw & fs & _ & ->); [|done..].
      inv_bind H. apply IH in H as (ws1 & n1 & -> & Hsub); [|done].
      eexists _, _. split; [done|]. intros x Hx. apply Hsub.
      apply elem_of_app. by right.
    + injection Ha0 as <-. inv_bind H. by apply IH in H.
Qed.

(** ** A larger budget finds at least the same words *)

Lemma app_subseteq (a a' b b' : wordlist) : a ⊆ a' -> b ⊆ b' -> a ++ b ⊆ a' ++ b'.
Proof.
  intros Ha Hb x Hx. apply elem_of_app in Hx as [Hx|Hx]; apply elem_of_app; auto.
Qed.

Lemma eachLetter_le rec rec' k : rec_ok rec -> rec_ok rec' -> rec_le rec rec' ->
  forall h lp c ign start ws n ws' n' fl fl',
  start_wf start -> ws ⊆ ws' ->
  eachLetter rec k h lp c ign start ws n 0 = Ok fl ->
  eachLetter rec' k h lp c ign start ws' n' 0 = Ok fl' ->
  exists w1 n1 w1' n1',
    fl = Go h w1 n1 start /\ fl' = Go h w1' n1' start /\ w1 ⊆ w1'.
Proof.
  intros Hok Hok' Hle. induction k as [|k IH];
    intros h lp c ign start ws n ws' n' fl fl' Hwf Hsub.
  - destruct lp; simpl; [discriminate|]. intros [= <-] [= <-]. eauto 10.
  - destruct lp as [i|]; simpl; [|intros [= <-] [= <-]; eauto 10].
    intros H H'. inv_bind H. rewrite Ha in H'. simpl in H'.
    inv_bind H. inv_bind H'.
    destruct (_ && _).
    + apply follow_go in Ha0 as (fw & fs & Hr & ->); [|done..].
      apply follow_go in Ha1 as (fw' & fs' & Hr' & ->); [|done..].
      inv_bind H. rewrite Ha0 in H'. simpl in H'.
      eapply IH; [done| |exact H|exact H'].
      apply app_subseteq; [|done].
      apply (Hle _ _ _ _ _ (WriteRune_wf _ _ Hwf) Hr Hr').
    + injection Ha0 as <-. injection Ha1 as <-.
      inv_bind H. rewrite Ha0 in H'. simpl in H'. eapply IH; eauto.
Qed.

Lemma exactStep_le rec rec' k h st start c ign fl fl' :
  rec_ok rec -> rec_ok rec' -> rec_le rec rec' -> start_wf start ->
  exactStep rec k h st start c ign 0 = Ok fl ->
  exactStep rec' k h st start c ign 0 = Ok fl' ->
  exists w1 n1 w1' n1',
    fl = Go h w1 n1 start /\ fl' = Go h w1' n1' start /\ w1 ⊆ w1'.
Proof.
  intros Hok Hok' Hle Hwf. unfold exactStep.
  destruct (negb (c =? ign)); [|intros [= <-] [= <-]; eauto 10].
  intros H H'. inv_bind H. rewrite Ha in H'. simpl in H'.
  destruct a; [|injection H as <-; injection H' as <-; eauto 10].
  inv_bind H. rewrite Ha0 in H'. simpl in H'.
  apply follow_go in H as (fw & fs & Hr & ->); [|done..].
  apply follow_go in H' as (fw' & fs' & Hr' & ->); [|done..].
  eexists _, _, _, _. split; [done|]. split; [done|].
  apply app_subseteq; [|done].
  apply (Hle _ _ _ _ _ (WriteRune_wf _ _ Hwf) Hr Hr').
Qed.

Lemma changeSteps_grow rec k h st start c ign ws n aD fl :
  rec_ok rec -> start_wf start ->
  changeSteps rec k h st start c ign ws n 0 aD = Ok fl ->
  exists ws1 n1, fl = Go h ws1 n1 start /\ ws ⊆ ws1.
Proof.
  intros Hok Hwf. unfold changeSteps. intros H. inv_bind H. inv_bind H.
  apply eachLetter_grow in Ha0 as (ws1 & n1 & -> & Hsub); [|done..].
  destruct aD; [|injection H as <-; eauto].
  inv_bind H. destruct a0 as [h3 [fw fs]].
  pose proof (Hok _ _ _ _ Ha0) as [Hh _]. simpl in Hh. subst h3.
  pose proof (mergeWords_fst fw fs ws1 n1) as Hm.
  destruct (mergeWords fw fs ws1 n1) as [ws3 n3]. simpl in Hm. subst ws3.
  rewrite capped_0 in H. injection H as <-.
  eexists _, _. split; [done|]. intros x Hx. apply elem_of_app. right. by apply Hsub.
Qed.

Lemma changeSteps_le rec rec' k h st start c ign ws n ws' n' aD fl fl' :
  rec_ok rec -> rec_ok rec' -> rec_le rec rec' -> start_wf start -> ws ⊆ ws' ->
  changeSteps rec k h st start c ign ws n 0 aD = Ok fl ->
  changeSteps rec' k h st start c ign ws' n' 0 aD = Ok fl' ->
  exists w1 n1 w1' n1',
    fl = Go h w1 n1 start /\ fl' = Go h w1' n1' start /\ w1 ⊆ w1'.
Proof.
  intros Hok Hok' Hle Hwf Hsub. unfold changeSteps.
  intros H H'. inv_bind H. rewrite Ha in H'. simpl in H'.
  inv_bind H. inv_bind H'.
  destruct (eachLetter_le _ _ _ Hok Hok' Hle _ _ _ _ _ _ _ _ _ _ _ Hwf Hsub Ha0 Ha1)
    as (w1 & n1 & w1' & n1' & -> & -> & Hsub1).
  destruct aD; [|injection H as <-; injection H' as <-; eauto 10].
  inv_bind H. destruct a0 as [h3 [fw fs]].
  inv_bind H'. destruct a0 as [h3' [fw' fs']].
  pose proof (Hok _ _ _ _ Ha2) as [Hh _]. simpl in Hh. subst h3.
  pose proof (Hok' _ _ _ _ Ha3) as [Hh _]. simpl in Hh. subst h3'.
  pose proof (Hle _ _ _ _ _ Hwf Ha2 Ha3) as Hf. simpl in Hf.
  pose proof (mergeWords_fst fw fs w1 n1) as Hm.
  destruct (mergeWords fw fs w1 n1) as [ws3 n3]. simpl in Hm. subst ws3.
  pose proof (mergeWords_fst fw' fs' w1' n1') as Hm.
  destruct (mergeWords fw' fs' w1' n1') as [ws3 n3']. simpl in Hm. subst ws3.
  rewrite ?capped_0 in H. rewrite ?capped_0 in H'. injection H as <-. injection H' as <-.
  eexists _, _, _, _. split; [done|]. split; [done|]. by apply app_subseteq.
Qed.

Lemma addSteps_grow rec k h st start c ign ws n fl :
  rec_ok rec -> start_wf start ->
  addSteps rec k h st start c ign ws n 0 = Ok fl ->
  exists ws1 n1, fl = Go h ws1 n1 start /\ ws ⊆ ws1.
Proof.
  intros Hok Hwf. unfold addSteps. intros H. inv_bind H.
  by apply eachLetter_grow in H.
Qed.

Lemma addSteps_le rec rec' k h st start c ign ws n ws' n' fl fl' :
  rec_ok rec -> rec_ok rec' -> rec_le rec rec' -> start_wf start -> ws ⊆ ws' ->
  addSteps rec k h st start c ign ws n 0 = Ok fl ->
  addSteps rec' k h st start c ign ws' n' 0 = Ok fl' ->
  exists w1 n1 w1' n1',
    fl = Go h w1 n1 start /\ fl' = Go h w1' n1' start /\ w1 ⊆ w1'.
Proof.
  intros Hok Hok' Hle Hwf Hsub. unfold addSteps.
  intros H H'. inv_bind H. rewrite Ha in H'. simpl in H'.
  eapply (eachLetter_le _ _ _ Hok Hok' Hle); [exact Hwf|exact Hsub|exact H|exact H'].
Qed.

Lemma readBlock_le self k h st start end_ d d' aA aD ign fl c e1 fl' c' e1' :
  self_ok self -> self_le self -> d <= d' -> start_wf start ->
  readBlock self k h st start end_ d 0 aA aD ign = Ok (fl, c, e1) ->
  readBlock self k h st start end_ d' 0 aA aD ign = Ok (fl', c', e1') ->
  c' = c /\ e1' = e1 /\
  exists w1 n1 w1' n1',
    fl = Go h w1 n1 start /\ fl' = Go h w1' n1' start /\ w1 ⊆ w1'.
Proof.
  intros Hok Hle Hd Hwf. unfold readBlock. destruct (0 <? Len end_).
  - intros H H'. inv_bind H. rewrite Ha in H'. simpl in H'.
    destruct a as [c0 r1]. inv_bind H. inv_bind H'.
    destruct (exactStep_le _ _ _ _ _ _ _ _ _ _ (Hok _ _ _ _ _ _) (Hok _ _ _ _ _ _)
                (Hle _ _ _ _ _ _ Hd) Hwf Ha0 Ha1)
      as (w1 & n1 & w1' & n1' & -> & -> & Hsub).
    inv_bind H. inv_bind H'.
    assert (exists w2 n2 w2' n2',
      a = Go h w2 n2 start /\ a0 = Go h w2' n2' start /\ w2 ⊆ w2') as Hch.
    { destruct (Z.ltb_spec 0 d), (Z.ltb_spec 0 d').
      - eapply changeSteps_le; [apply Hok|apply Hok| |exact Hwf|exact Hsub|
                                exact Ha2|exact Ha3].
        apply Hle. lia.
      - lia.
      - injection Ha2 as <-.
        apply changeSteps_grow in Ha3 as (ws1 & m1 & -> & Hg); [|apply Hok|done].
        eexists _, _, _, _. split; [done|]. split; [done|].
        intros x Hx. by apply Hg, Hsub.
      - injection Ha2 as <-. injection Ha3 as <-. eauto 10. }
    destruct Hch as (w2 & n2 & w2' & n2' & -> & -> & Hsub2).
    inv_bind H. rewrite Ha4 in H'. simpl in H'.
    injection H as <- <- <-. injection H' as <- <- <-. eauto 10.
  - intros H H'. rewrite H in H'. injection H' as <- <- <-.
    split; [done|]. split; [done|].
    inv_bind H. destruct (state.final a); injection H as <- <- <-; eauto 10.
Qed.

Lemma searchBody_le self k : self_ok self -> self_le self -> self_le (searchBody self k).
Proof.
  intros Hok Hle end_ d d' aA aD ign Hd h st start r r' Hwf. unfold searchBody.
  intros H H'. inv_bind H. destruct a as [[fl c] e1].
  inv_bind H'. destruct a as [[fl' c'] e1'].
  destruct (readBlock_le _ _ _ _ _ _ _ _ _ _ _ _ _ _ _ _ _ Hok Hle Hd Hwf Ha Ha0)
    as (-> & -> & w1 & n1 & w1' & n1' & -> & -> & Hsub).
  destruct aA; rewrite ?andb_true_r, ?andb_false_r in H, H'.
  2:{ injection H as <-. injection H' as <-. done. }
  destruct (Z.ltb_spec 0 d), (Z.ltb_spec 0 d').
  - inv_bind H. inv_bind H'.
    destruct (addSteps_le _ _ _ _ _ _ _ _ _ _ _ _ _ _ (Hok _ _ _ _ _ _)
                (Hok _ _ _ _ _ _) (Hle e1 (d - 1) (d' - 1) true aD 0 ltac:(lia))
                Hwf Hsub Ha1 Ha2)
      as (w2 & n2 & w2' & n2' & -> & -> & Hsub2).
    injection H as <-. injection H' as <-. done.
  - lia.
  - injection H as <-. inv_bind H'.
    apply addSteps_grow in Ha1 as (ws1 & m1 & -> & Hg); [|apply Hok|done].
    injection H' as <-. simpl. intros x Hx. by apply Hg, Hsub.
  - injection H as <-. injection H' as <-. done.
Qed.

Lemma searchSubString_le fuel : self_le (searchSubString fuel).
Proof.
  induction fuel as [|fuel IH]; [intros ? ? ? ? ? ? ? ? ? ? ? ? ?; discriminate|].
  simpl. apply searchBody_le; [apply searchSubString_self_ok|done].
Qed.

(** ** The loops of Search *)

Lemma dropWords_short n : forall ws, (length ws < n)%nat -> dropWords n ws = Panic.
Proof.
  induction n as [|n IH]; intros ws Hn; [lia|].
  destruct ws as [|w ws]; simpl; [done|]. apply IH. simpl in Hn. lia.
Qed.

Lemma dropWords_drop n : forall ws, (n <= length ws)%nat -> dropWords n ws = Ok (drop n ws).
Proof.
  induction n as [|n IH]; intros ws Hn; [done|].
  destruct ws as [|w ws]; simpl in *; [lia|]. apply IH. lia.
Qed.

Lemma fillWords_length n : forall ws acc r,
  fillWords n ws acc = Ok r -> length r = length acc.
Proof.
  induction n as [|n IH]; intros ws acc r; simpl.
  - by intros [= ->].
  - destruct ws as [|w ws]; [discriminate|].
    intros H. apply IH in H. by rewrite length_insert in H.
Qed.

Lemma fillWords_total n : forall ws acc,
  (n <= length ws)%nat -> exists r, fillWords n ws acc = Ok r.
Proof.
  induction n as [|n IH]; intros ws acc Hn; simpl; [eauto|].
  destruct ws as [|w ws]; simpl in *; [lia|]. apply IH. lia.
Qed.

(** What the copy loop writes: the first [n] words of the chain, last first. *)
Lemma fillWords_rev n : forall ws acc,
  (n <= length ws)%nat -> (n <= length acc)%nat ->
  fillWords n ws acc = Ok (rev (take n ws) ++ drop n acc).
Proof.
  induction n as [|n IH]; intros ws acc Hn Ha; simpl.
  - by rewrite drop_0.
  - destruct ws as [|w ws]; simpl in *; [lia|].
    rewrite IH by (rewrite ?length_insert; lia).
    rewrite <- app_assoc. f_equal. simpl.
    rewrite drop_insert_ge by lia. rewrite Nat.sub_diag.
    destruct (drop n acc) as [|a acc'] eqn:E.
    + apply (f_equal length) in E. rewrite length_drop in E. simpl in E. lia.
    + simpl. f_equal.
      change acc' with (drop 1 (a :: acc')). rewrite <- E, drop_drop.
      by rewrite Nat.add_1_r.
Qed.

Lemma Search_inv fuel h dawg word d maxR aA aD h' ws :
  Search fuel h dawg word d maxR aA aD = Ok (h', ws) ->
  exists found,
    searchSubString fuel h (initialState dawg) (NewBufferString [])
      (NewBufferString word) d maxR aA aD 0 = Ok (h, (found, Z.of_nat (length found)))
    /\ h' = h
    /\ ws = rev (take (Z.to_nat (Z.min maxR (Z.of_nat (length found))))
                      (drop (Z.to_nat (Z.of_nat (length found) - maxR)) found))
    /\ (Z.of_nat (length found) - maxR <= Z.of_nat (length found)).
Proof.
  unfold Search. intros H. inv_bind H. destruct a as [h1 [found n]].
  pose proof (searchSubString_ok _ _ _ _ _ _ _ _ _ _ _ Ha) as [Hh Hn].
  simpl in Hh, Hn. subst h1 n. inv_bind H.
  destruct (decide (length found < Z.to_nat (Z.of_nat (length found) - maxR))%nat)
    as [Hlt|Hge].
  { rewrite dropWords_short in Ha0 by done. discriminate. }
  rewrite dropWords_drop in Ha0 by lia. injection Ha0 as <-.
  set (n1 := if maxR <? Z.of_nat (length found) then maxR else Z.of_nat (length found)) in *.
  assert (n1 = Z.min maxR (Z.of_nat (length found))) as Hn1.
  { unfold n1. destruct (Z.ltb_spec maxR (Z.of_nat (length found))); lia. }
  destruct (Z.ltb_spec n1 0); [discriminate|].
  inv_bind H. injection H as <- <-.
  exists found. split; [done|]. split; [done|].
  assert (Z.to_nat n1 <= length (drop (Z.to_nat (Z.of_nat (length found) - maxR)) found))%nat
    as Hlen by (rewrite length_drop; lia).
  rewrite fillWords_rev in Ha0; [|done|by rewrite length_replicate].
  injection Ha0 as <-.
  rewrite (drop_ge (replicate _ _)) by (rewrite length_replicate; lia).
  rewrite app_nil_r, Hn1. split; [done|lia].
Qed.

(** ** The graphs of the tests *)

Lemma built4_eq : CreateDAWG 100 words4 = Ok built4.
Proof. vm_compute. reflexivity. Qed.

Lemma built6_eq : CreateDAWG 100 words6 = Ok built6.
Proof. vm_compute. reflexivity. Qed.

(** The expectations of TestSearch hold in the embedding. *)
Example TestSearch_exact :
  Search 100 built6.1 built6.2 s_test 0 1 false false = Ok (built6.1, [s_test]).
Proof. vm_compute. reflexivity. Qed.

Example TestSearch_substitution :
  Search 100 built6.1 built6.2 s_test 1 10 false false
  = Ok (built6.1, [s_test; s_tese; s_nest]).
Proof. vm_compute. reflexivity. Qed.

Example TestSearch_add_delete :
  Search 100 built6.1 built6.2 s_test 1 10 true true
  = Ok (built6.1, [s_test; s_test2; s_tese; s_tes; s_nest]).
Proof. vm_compute. reflexivity. Qed.

(** ** C1: the word length that addWord reports *)

(** C1 (fails on the code): addWord is claimed to report the number of code
    points of the word.  It reports the byte offset of the last rune plus
    one: the word U+65E5 U+672C has two runes and is reported with length 4. *)
Theorem addWord_wordSize_is_byte_offset :
  length (runesOf s_nihon) = 2%nat /\
  exists h b n,
    addWord 100 (allocS (state.new false None) emptyStore).1 (Some 0%nat) s_nihon
    = Ok (h, (b, 4, n)).
Proof. split; [reflexivity|]. vm_compute. eauto. Qed.

(** ** C5: the node count of the graph of TestCreateDAWG *)

(** C5: CreateDAWG on test, rest, nest, note gives a graph with nodesCount 8. *)
Theorem CreateDAWG_test_rest_nest_note_count :
  exists h g, CreateDAWG 100 words4 = Ok (h, g) /\ nodesCount g = 8.
Proof. exists built4.1, built4.2. split; [apply built4_eq|reflexivity]. Qed.

(** ** C2, C3, C10: the result cap *)

(** With [maxResults = 0] the truncation loop of Search drops every word. *)
Lemma Search_zero_cap fuel h dawg word d aA aD h' ws :
  Search fuel h dawg word d 0 aA aD = Ok (h', ws) -> ws = [].
Proof.
  intros H. apply Search_inv in H as (found & _ & _ & -> & _).
  replace (Z.to_nat (Z.min 0 _)) with 0%nat by lia. done.
Qed.

(** C2 (fails on the code): [maxResults <= 0] is claimed to disable the
    truncation.  On the graph of TestSearch the query test with distance 1
    finds five words under the cap 10; under the cap 0 Search returns no
    word, and under the cap -1 it panics. *)
Theorem Search_nonpositive_cap_truncates :
  Search 100 built6.1 built6.2 s_test 1 10 true true
    = Ok (built6.1, [s_test; s_test2; s_tese; s_tes; s_nest]) /\
  Search 100 built6.1 built6.2 s_test 1 0 true true = Ok (built6.1, []) /\
  Search 100 built6.1 built6.2 s_test 1 (-1) true true = Panic.
Proof. repeat split; vm_compute; reflexivity. Qed.

(** C3: with [maxResults = k > 0] Search returns at most k words; and it
    does return whenever the traversal does. *)
Theorem Search_cap_respected fuel h dawg word d k aA aD :
  0 < k ->
  (forall h' ws, Search fuel h dawg word d k aA aD = Ok (h', ws) ->
     Z.of_nat (length ws) <= k) /\
  (forall r, searchSubString fuel h (initialState dawg) (NewBufferString [])
               (NewBufferString word) d k aA aD 0 = Ok r ->
     exists ws, Search fuel h dawg word d k aA aD = Ok (h, ws)).
Proof.
  intros Hk. split.
  - intros h' ws H. apply Search_inv in H as (found & _ & _ & -> & _).
    rewrite length_rev, length_take. lia.
  - intros [h1 [found n]] H. unfold Search. rewrite H. simpl.
    apply searchSubString_ok in H as [Hh Hn]. simpl in Hh, Hn. subst h1 n.
    rewrite dropWords_drop by lia. simpl.
    set (n1 := if k <? _ then _ else _).
    assert (n1 = Z.min k (Z.of_nat (length found))) as Hn1.
    { unfold n1. destruct (Z.ltb_spec k (Z.of_nat (length found))); lia. }
    destruct (Z.ltb_spec n1 0); [lia|].
    destruct (fillWords_total (Z.to_nat n1)
                (drop (Z.to_nat (Z.of_nat (length found) - k)) found)
                (replicate (Z.to_nat n1) [])) as [r Hr].
    { rewrite length_drop. lia. }
    rewrite Hr. simpl. eauto.
Qed.

Lemma Search_cap_respected_witness :
  Z.of_nat (length [s_test; s_test2]) <= 2.
Proof.
  apply (proj1 (Search_cap_respected 100 built6.1 built6.2 s_test 1 2 true true
                  ltac:(lia)) built6.1).
  vm_compute. reflexivity.
Defined.

(** C10: with a negative [maxResults] and at least one word found, the
    truncation loop of Search runs off the end of the chain of words: it
    takes [wordsSize - maxResults] steps, more than the chain has cells, so
    that [wordsFound.nextWord] is read of a nil pointer, and Search panics
    there. *)
Theorem Search_negative_cap_panics fuel h dawg word d k aA aD h1 found n :
  k < 0 ->
  searchSubString fuel h (initialState dawg) (NewBufferString [])
    (NewBufferString word) d k aA aD 0 = Ok (h1, (found, n)) ->
  found <> [] ->
  (length found < Z.to_nat (n - k))%nat /\
  dropWords (Z.to_nat (n - k)) found = Panic /\
  Search fuel h dawg word d k aA aD = Panic.
Proof.
  intros Hk H Hne. unfold Search. rewrite H. simpl.
  apply searchSubString_ok in H as [_ Hn]. simpl in Hn. subst n.
  assert (length found < Z.to_nat (Z.of_nat (length found) - k))%nat as Hlen by lia.
  split; [done|]. rewrite (dropWords_short _ _ Hlen). done.
Qed.

Lemma Search_negative_cap_panics_witness :
  (length [s_test] < Z.to_nat (1 - -1))%nat /\
  dropWords (Z.to_nat (1 - -1)) [s_test] = Panic /\
  Search 100 built6.1 built6.2 s_test 0 (-1) false false = Panic.
Proof.
  apply (Search_negative_cap_panics 100 built6.1 built6.2 s_test 0 (-1) false false
           built6.1 [s_test] 1).
  - lia.
  - vm_compute. reflexivity.
  - discriminate.
Defined.

(** ** C9: Search leaves the graph as it is *)

(** C9: the store of states and letters after a call of Search is the store
    before the call (the graph handle is passed to Search and not returned:
    nothing assigns to it). *)
Theorem Search_no_mutation fuel h dawg word d k aA aD h' ws :
  Search fuel h dawg word d k aA aD = Ok (h', ws) ->
  sts h' = sts h /\ lts h' = lts h.
Proof.
  intros H. apply Search_inv in H as (_ & _ & -> & _). done.
Qed.

Lemma Search_no_mutation_witness :
  sts built6.1 = sts built6.1 /\ lts built6.1 = lts built6.1.
Proof.
  apply (Search_no_mutation 100 built6.1 built6.2 s_test 1 10 true true built6.1
           [s_test; s_test2; s_tese; s_tes; s_nest]).
  vm_compute. reflexivity.
Defined.

(** ** C7: a larger budget finds at least the same words *)

Lemma elem_of_rev (x : gostring) (l : wordlist) : x ∈ rev l <-> x ∈ l.
Proof. rewrite !list_elem_of_In. symmetry. apply in_rev. Qed.

Lemma Search_untruncated fuel h dawg word d k aA aD h1 found n h' ws :
  searchSubString fuel h (initialState dawg) (NewBufferString [])
    (NewBufferString word) d k aA aD 0 = Ok (h1, (found, n)) ->
  n <= k ->
  Search fuel h dawg word d k aA aD = Ok (h', ws) ->
  ws = rev found /\
  searchSubString fuel h (initialState dawg) (NewBufferString [])
    (NewBufferString word) d 0 aA aD 0 = Ok (h1, (found, n)).
Proof.
  intros Hs Hn H. apply Search_inv in H as (found0 & Hs0 & _ & -> & _).
  rewrite Hs in Hs0. injection Hs0 as -> <- ->. split.
  - replace (Z.to_nat (Z.of_nat (length found) - k)) with 0%nat by lia.
    rewrite drop_0. by rewrite take_ge by lia.
  - apply (searchSubString_unc fuel _ _ _ _ _ _ _ _ _ _ Hs). simpl.
    unfold capped. destruct (Z.ltb_spec k (Z.of_nat (length found))); [lia|].
    by rewrite andb_false_r.
Qed.

(** C7: for a fixed graph, query, cap and flags, when neither traversal finds
    more words than the cap, every word that Search returns with the budget
    [d] is returned with the budget [d + 1]. *)
Theorem Search_budget_monotone fuel h dawg word d k aA aD
    h1 found n h2 found' n' h3 ws h4 ws' :
  searchSubString fuel h (initialState dawg) (NewBufferString [])
    (NewBufferString word) d k aA aD 0 = Ok (h1, (found, n)) ->
  n <= k ->
  searchSubString fuel h (initialState dawg) (NewBufferString [])
    (NewBufferString word) (d + 1) k aA aD 0 = Ok (h2, (found', n')) ->
  n' <= k ->
  Search fuel h dawg word d k aA aD = Ok (h3, ws) ->
  Search fuel h dawg word (d + 1) k aA aD = Ok (h4, ws') ->
  ws ⊆ ws'.
Proof.
  intros Hs Hn Hs' Hn' H H'.
  destruct (Search_untruncated _ _ _ _ _ _ _ _ _ _ _ _ _ Hs Hn H) as [-> H0].
  destruct (Search_untruncated _ _ _ _ _ _ _ _ _ _ _ _ _ Hs' Hn' H') as [-> H0'].
  assert (found ⊆ found') as Hsub.
  { apply (searchSubString_le fuel (NewBufferString word) d (d + 1) aA aD 0
             ltac:(lia) h (initialState dawg) (NewBufferString [])
             _ _ ltac:(done) H0 H0'). }
  intros x Hx. apply (proj1 (elem_of_rev _ _)) in Hx.
  apply (proj2 (elem_of_rev _ _)). by apply Hsub.
Qed.

Lemma Search_budget_monotone_witness :
  [s_test] ⊆ [s_test; s_tese; s_nest].
Proof.
  apply (Search_budget_monotone 100 built6.1 built6.2 s_test 0 10 false false
           built6.1 [s_test] 1 built6.1 [s_nest; s_tese; s_test] 3
           built6.1 [s_test] built6.1 [s_test; s_tese; s_nest]).
  - vm_compute. reflexivity.
  - lia.
  - vm_compute. reflexivity.
  - lia.
  - vm_compute. reflexivity.
  - vm_compute. reflexivity.
Defined.

(** ** Reading the query rune by rune *)

Arguments DecodeRune : simpl never.
Arguments EncodeRune : simpl never.

Lemma DecodeRune_pos p : p <> [] -> (1 <= (DecodeRune p).2)%nat.
Proof.
  destruct p as [|p0 t]; [done|]. intros _. unfold DecodeRune.
  repeat (match goal with
          | |- context [if ?b then _ else _] => destruct b
          | |- context [match ?l with [] => _ | _ :: _ => _ end] => destruct l
          end; simpl; try lia).
Qed.

Lemma rangeFrom_runes f : forall f' i i' q,
  (length q <= f)%nat -> (length q <= f')%nat ->
  map snd (rangeFrom f i q) = map snd (rangeFrom f' i' q).
Proof.
  induction f as [|f IH]; intros f' i i' q Hf Hf'.
  - destruct q; [|simpl in Hf; lia]. by destruct f'.
  - destruct q as [|q0 t]; [by destruct f'|].
    destruct f' as [|f']; [simpl in Hf'; lia|].
    simpl rangeFrom.
    pose proof (DecodeRune_pos (q0 :: t) ltac:(done)) as Hpos.
    destruct (DecodeRune (q0 :: t)) as [r n]. simpl in Hpos. simpl. f_equal.
    apply IH; rewrite length_drop; simpl in *; lia.
Qed.

Lemma runesOf_nil : runesOf [] = [].
Proof. done. Qed.

Lemma runesOf_cons p :
  p <> [] -> runesOf p = (DecodeRune p).1 :: runesOf (drop (DecodeRune p).2 p).
Proof.
  intros Hp. unfold runesOf, rangeString.
  pose proof (DecodeRune_pos p Hp) as Hpos.
  destruct p as [|p0 t]; [done|]. simpl rangeFrom.
  destruct (DecodeRune (p0 :: t)) as [r n]. simpl in Hpos. simpl. f_equal.
  apply rangeFrom_runes; rewrite length_drop; simpl; lia.
Qed.

(** ** UTF-8: decoding the encoding of a scalar value *)

(** [x | b] is [x + b] when the bits of [b] lie below those of [x]. *)
Lemma lor_add n m x b :
  m = 2 ^ n -> 0 <= n -> x mod m = 0 -> 0 <= b < m -> Z.lor x b = x + b.
Proof.
  intros -> Hn Hx Hb.
  assert (Z.land x b = 0) as Hl.
  { apply Z.bits_inj'. intros i Hi. rewrite Z.land_spec, Z.bits_0.
    destruct (Z.lt_ge_cases i n).
    - rewrite <- (Z.mod_pow2_bits_low x n i) by lia. rewrite Hx, Z.bits_0. done.
    - rewrite <- (Z.mod_small b (2 ^ n)) by lia.
      rewrite Z.mod_pow2_bits_high by lia. apply andb_false_r. }
  rewrite <- Z.lxor_lor by done. symmetry. by apply Z.add_nocarry_lxor.
Qed.

Ltac dlia := Z.div_mod_to_equations; lia.
Ltac side := first [reflexivity | lia | dlia].

Lemma low6_mod y : low6 y = y mod 64.
Proof. unfold low6. change 0x3F with (Z.ones 6). by rewrite Z.land_ones. Qed.

Lemma shiftr_div r n : 0 <= n -> Z.shiftr r n = r / 2 ^ n.
Proof. apply Z.shiftr_div_pow2. Qed.

Lemma shiftl_mul a n : 0 <= n -> Z.shiftl a n = a * 2 ^ n.
Proof. apply Z.shiftl_mul_pow2. Qed.

Ltac decide_ifs :=
  repeat match goal with
  | |- context [?a =? ?b] => destruct (Z.eqb_spec a b); try dlia
  | |- context [?a <? ?b] => destruct (Z.ltb_spec a b); try dlia
  | |- context [?a <=? ?b] => destruct (Z.leb_spec a b); try dlia
  end; cbn [andb orb negb].

(** The comparisons on the first byte, then the test of the other bytes. *)
Ltac head_ifs :=
  repeat match goal with
  | |- (if ?a <? ?b then _ else _) = _ =>
      destruct (Z.ltb_spec a b); try dlia
  end;
  match goal with
  | |- (if ?c then _ else _) = _ =>
      replace c with true by (symmetry; decide_ifs; reflexivity)
  end.

Lemma DecodeRune_EncodeRune r rest :
  valid_rune r = true ->
  DecodeRune (EncodeRune r ++ rest) = (r, length (EncodeRune r)).
Proof.
  unfold valid_rune, inRange, MaxRune. intros Hv.
  assert (0 <= r <= 0x10FFFF /\ (r < 0xD800 \/ 0xDFFF < r)) as [Hr Hs] by lia.
  clear Hv. unfold EncodeRune, inRange, MaxRune, RuneError.
  replace ((r <? 0) || (0x10FFFF <? r) || (0xD800 <=? r) && (r <=? 0xDFFF))
    with false by (symmetry; decide_ifs; done).
  rewrite !low6_mod, !shiftr_div by lia.
  change (2 ^ 6) with 64. change (2 ^ 12) with 4096. change (2 ^ 18) with 262144.
  destruct (Z.leb_spec r 0x7F); [|destruct (Z.leb_spec r 0x7FF); [|destruct (Z.leb_spec r 0xFFFF)]].
  - cbn [app length]. unfold DecodeRune, RuneSelf. by decide_ifs.
  - cbn [app length].
    rewrite (lor_add 6 64 0xC0), (lor_add 6 64 0x80) by side.
    unfold DecodeRune, RuneSelf, inRange. rewrite !low6_mod.
    change 0x1F with (Z.ones 5). rewrite Z.land_ones, shiftl_mul by lia.
    change (2 ^ 5) with 32. change (2 ^ 6) with 64.
    rewrite (lor_add 6 64) by side.
    decide_ifs. f_equal. dlia.
  - cbn [app length].
    rewrite (lor_add 5 32 0xE0), !(lor_add 6 64 0x80) by side.
    unfold DecodeRune, RuneSelf, inRange. head_ifs. rewrite !low6_mod.
    change 0x0F with (Z.ones 4). rewrite Z.land_ones, !shiftl_mul by lia.
    change (2 ^ 4) with 16. change (2 ^ 6) with 64. change (2 ^ 12) with 4096.
    rewrite (lor_add 12 4096 (_ * 4096)) by side. rewrite (lor_add 6 64) by side.
    f_equal. dlia.
  - cbn [app length].
    rewrite (lor_add 4 16 0xF0), !(lor_add 6 64 0x80) by side.
    unfold DecodeRune, RuneSelf, inRange. head_ifs. rewrite !low6_mod.
    change 0x07 with (Z.ones 3). rewrite Z.land_ones, !shiftl_mul by lia.
    change (2 ^ 3) with 8. change (2 ^ 6) with 64. change (2 ^ 12) with 4096.
    change (2 ^ 18) with 262144.
    rewrite (lor_add 18 262144 (_ * 262144)) by side.
    rewrite (lor_add 12 4096 (_ + _)) by side. rewrite (lor_add 6 64) by side.
    f_equal. dlia.
Qed.

Lemma EncodeRune_length r : (1 <= length (EncodeRune r))%nat.
Proof.
  unfold EncodeRune.
  repeat (match goal with
          | |- context [if ?b then _ else _] => destruct b
          end; simpl; try lia).
Qed.

Lemma runesOf_encodeRunes rs :
  Forall (fun r => valid_rune r = true) rs -> runesOf (encodeRunes rs) = rs.
Proof.
  induction 1 as [|r rs Hr _ IH]; [done|].
  unfold encodeRunes in *. simpl map. simpl concat.
  pose proof (EncodeRune_length r) as Hl.
  rewrite runesOf_cons by (destruct (EncodeRune r); [simpl in Hl; lia|done]).
  rewrite (DecodeRune_EncodeRune r _ Hr). simpl.
  rewrite drop_app_length. by rewrite IH.
Qed.

(** The encoding of scalar values is a string that decoding and encoding
    give back. *)
Lemma encodeRunes_wellformed rs :
  Forall (fun r => valid_rune r = true) rs ->
  encodeRunes (runesOf (encodeRunes rs)) = encodeRunes rs.
Proof. intros H. by rewrite runesOf_encodeRunes. Qed.

Lemma Len_pos_String b : (0 <? Len b) = true -> String b <> [].
Proof.
  unfold Len, String. intros H. apply Z.ltb_lt in H.
  intros E. apply (f_equal length) in E. rewrite length_drop in E. simpl in E. lia.
Qed.

Lemma Len_zero_String b : (0 <? Len b) = false -> String b = [].
Proof.
  unfold Len, String. intros H. apply Z.ltb_ge in H.
  apply drop_ge. lia.
Qed.

(** ReadRune reads the first rune of what is left, and UnreadRune gives the
    buffer back. *)
Lemma ReadRune_spec b :
  String b <> [] ->
  exists e1,
    ReadRune b = Ok ((DecodeRune (String b)).1, e1) /\
    String e1 = drop (DecodeRune (String b)).2 (String b) /\
    UnreadRune e1 = Ok (mkBuffer (buf b) (off b) 0).
Proof.
  unfold String, ReadRune. intros Hne.
  pose proof (DecodeRune_pos _ Hne) as Hpos.
  destruct (drop (off b) (buf b)) as [|c t] eqn:E; [done|].
  destruct (c <? RuneSelf) eqn:Ec.
  - eexists. split; [|split].
    + unfold DecodeRune. rewrite Ec. done.
    + simpl. unfold DecodeRune. rewrite Ec. simpl.
      rewrite <- (drop_drop (buf b) 1 (off b)), E. done.
    + unfold UnreadRune. simpl.
      destruct (Z.ltb_spec (Z.of_nat (off b + 1)) 1); [lia|].
      do 2 f_equal. lia.
  - destruct (DecodeRune (c :: t)) as [r n] eqn:Ed. simpl in Hpos.
    eexists. split; [done|split].
    + simpl. rewrite <- (drop_drop (buf b) n (off b)), E. done.
    + unfold UnreadRune. simpl.
      destruct (Z.leb_spec (Z.of_nat n) 0); [lia|].
      destruct (Z.ltb_spec (Z.of_nat (off b + n)) (Z.of_nat n)); [lia|].
      do 2 f_equal. lia.
Qed.

(** ** Accepted words *)

Lemma findLetter_agree n : forall m h p c r r',
  findLetter n h p c = Ok r -> findLetter m h p c = Ok r' -> r = r'.
Proof.
  induction n as [|n IH]; intros m h p c r r'.
  - destruct p; simpl; [discriminate|]. destruct m; simpl; congruence.
  - destruct p as [i|]; [|destruct m; simpl; congruence].
    destruct m as [|m]; [discriminate|]. simpl.
    destruct (getL h (Some i)) as [cl| | |]; simpl; try discriminate.
    destruct (letter.char cl =? c); [congruence|].
    destruct (letter.char cl <? c); apply IH.
Qed.

Lemma findLetter_mono n : forall m h p c r,
  (n <= m)%nat -> findLetter n h p c = Ok r -> findLetter m h p c = Ok r.
Proof.
  induction n as [|n IH]; intros m h p c r Hm.
  - destruct p; simpl; [discriminate|]. by destruct m.
  - destruct p as [i|]; [|by destruct m].
    destruct m as [|m]; [lia|]. simpl.
    destruct (getL h (Some i)) as [cl| | |]; simpl; try discriminate.
    destruct (letter.char cl =? c); [done|].
    destruct (letter.char cl <? c); apply IH; lia.
Qed.

Lemma findLetter_char n : forall h p c i,
  findLetter n h p c = Ok (Some i) ->
  exists l, getL h (Some i) = Ok l /\ letter.char l = c.
Proof.
  induction n as [|n IH]; intros h p c i.
  - destruct p; simpl; discriminate.
  - destruct p as [j|]; [|discriminate]. simpl.
    destruct (getL h (Some j)) as [cl| | |] eqn:E; simpl; try discriminate.
    destruct (Z.eqb_spec (letter.char cl) c).
    + intros [= <-]. eauto.
    + destruct (letter.char cl <? c); apply IH.
Qed.

Lemma getletter_agree n m h st c r r' :
  getletter n h st c = Ok r -> getletter m h st c = Ok r' -> r = r'.
Proof.
  unfold getletter. destruct (getS h st); simpl; try discriminate.
  apply findLetter_agree.
Qed.

Lemma getletter_mono n m h st c r :
  (n <= m)%nat -> getletter n h st c = Ok r -> getletter m h st c = Ok r.
Proof.
  unfold getletter. destruct (getS h st); simpl; try discriminate.
  apply findLetter_mono.
Qed.

Lemma getletter_char n h st c i :
  getletter n h st c = Ok (Some i) ->
  exists l, getL h (Some i) = Ok l /\ letter.char l = c.
Proof.
  unfold getletter. destruct (getS h st); simpl; try discriminate.
  apply findLetter_char.
Qed.

Lemma capped_one maxR n : n <= 1 -> capped maxR n = false.
Proof.
  unfold capped. intros Hn.
  destruct (Z.ltb_spec 0 maxR), (Z.ltb_spec maxR n); simpl; (done || lia).
Qed.

(** ** The traversal with no budget *)

Lemma search0_sound fuel : forall h st start end_ d maxR aA aD r,
  d <= 0 -> start_wf start -> 0 ∉ runesOf (String end_) ->
  searchSubString fuel h st start end_ d maxR aA aD 0 = Ok r ->
  (accepted h st (runesOf (String end_)) /\
   r = (h, ([String start ++ encodeRunes (runesOf (String end_))], 1)))
  \/ (~ accepted h st (runesOf (String end_)) /\ r = (h, ([], 0))).
Proof.
  induction fuel as [|fuel IH]; intros h st start end_ d maxR aA aD r Hd Hwf Hnul;
    [discriminate|].
  simpl. unfold searchBody, readBlock.
  assert ((0 <? d) = false) as -> by (apply Z.ltb_ge; lia). simpl.
  destruct (0 <? Len end_) eqn:EL.
  - apply Len_pos_String in EL.
    destruct (ReadRune_spec _ EL) as (e1 & Hr & He1 & Hu).
    rewrite (runesOf_cons _ EL) in *. rewrite <- He1 in *.
    set (c := (DecodeRune (String end_)).1) in *.
    rewrite Hr. simpl. unfold exactStep.
    assert ((c =? 0) = false) as ->.
    { apply Z.eqb_neq. intros E. apply Hnul. rewrite E. by left. }
    simpl. intros H. bind_inv H as x Hx. destruct x as [[fl c'] e2].
    bind_inv Hx as f1 Hf1. bind_inv Hx as f2 Hf2. bind_inv Hf1 as lt Hlt.
    assert (f2 = f1) as -> by (destruct f1; congruence). clear Hf2.
    assert (forall ws n, f1 = Go h ws n start -> r = (h, (ws, n))) as Hgo.
    { intros ws n ->. rewrite Hu in Hx. simpl in Hx.
      injection Hx as <- <- <-. by injection H as <-. }
    destruct lt as [lt|].
    + bind_inv Hf1 as l Hl.
      destruct (getletter_char _ _ _ _ _ Hlt) as (l' & Hl' & Hc).
      rewrite Hl' in Hl. injection Hl as ->.
      unfold follow in Hf1.
      pose proof (Truncate_WriteRune start (letter.char l) Hwf) as Ht.
      pose proof (String_WriteRune start (letter.char l) Hwf) as Hs.
      pose proof (WriteRune_wf start (letter.char l) Hwf) as Hwf1.
      destruct (WriteRune start (letter.char l)) as [runeLen start1].
      simpl in Ht, Hs, Hwf1.
      bind_inv Hf1 as x Hrec. destruct x as [h1 [fw fs]].
      apply IH in Hrec; [|done|done|].
      2:{ intros Hin. apply Hnul. by right. }
      destruct Hrec as [[Hacc [= -> -> ->]]|[Hacc [= -> -> ->]]].
      * simpl in Hf1. rewrite capped_one in Hf1 by lia.
        rewrite Ht in Hf1. simpl in Hf1. injection Hf1 as <-.
        left. split.
        -- eapply accepted_cons; eauto.
        -- rewrite (Hgo _ _ eq_refl). rewrite Hs, Hc. unfold encodeRunes. simpl.
           by rewrite <- app_assoc.
      * simpl in Hf1. rewrite capped_one in Hf1 by lia.
        rewrite Ht in Hf1. simpl in Hf1. injection Hf1 as <-.
        right. split; [|by apply Hgo].
        intros Hacc'. inversion Hacc' as [|? ? ? n' lt' l2 Hg Hl2 Hrest]; subst.
        pose proof (getletter_agree _ _ _ _ _ _ _ Hlt Hg) as [= <-].
        rewrite Hl' in Hl2. injection Hl2 as <-. done.
    + injection Hf1 as <-. right. split; [|by apply Hgo].
      intros Hacc'. inversion Hacc' as [|? ? ? n' lt' l2 Hg Hl2 Hrest]; subst.
      pose proof (getletter_agree _ _ _ _ _ _ _ Hlt Hg). done.
  - apply Len_zero_String in EL. rewrite EL, runesOf_nil.
    intros H. inv_bind H. destruct a as [[fl c'] e2]. inv_bind Ha.
    destruct (state.final a) eqn:Ef; injection Ha as <- <- <-; injection H as <-.
    + left. split; [by eapply accepted_nil|]. by rewrite app_nil_r.
    + right. split; [|done]. intros Hacc. inversion Hacc as [? s Hg Hf|]; subst.
      rewrite Ha0 in Hg. injection Hg as <-. congruence.
Qed.

Lemma Len_String b : Len b = Z.of_nat (length (String b)).
Proof. unfold Len, String. by rewrite length_drop. Qed.

Lemma search0_complete h st rs :
  accepted h st rs ->
  forall start end_ d maxR aA aD,
  d <= 0 -> start_wf start -> runesOf (String end_) = rs -> 0 ∉ rs ->
  exists F, forall fuel, (F <= fuel)%nat ->
    searchSubString fuel h st start end_ d maxR aA aD 0
    = Ok (h, ([String start ++ encodeRunes rs], 1)).
Proof.
  induction 1 as [st s Hs Hf|st c rs n lt l Hlt Hl Hacc IH];
    intros start end_ d maxR aA aD Hd Hwf Hrs Hnul.
  - exists 1%nat. intros [|fuel] Hfuel; [lia|].
    simpl. unfold searchBody, readBlock.
    assert ((0 <? d) = false) as -> by (apply Z.ltb_ge; lia). simpl.
    assert (String end_ = []) as He.
    { destruct (String end_) eqn:E; [done|].
      rewrite runesOf_cons in Hrs by done. done. }
    rewrite Len_String, He. simpl. rewrite Hs. simpl. rewrite Hf. simpl.
    by rewrite app_nil_r.
  - assert (String end_ <> []) as He.
    { intros E. rewrite E, runesOf_nil in Hrs. done. }
    destruct (ReadRune_spec _ He) as (e1 & Hr & He1 & Hu).
    rewrite (runesOf_cons _ He) in Hrs. rewrite <- He1 in Hrs.
    injection Hrs as Hc Hrs.
    destruct (getletter_char _ _ _ _ _ Hlt) as (l' & Hl' & Hcl).
    rewrite Hl' in Hl. injection Hl as ->.
    pose proof (Truncate_WriteRune start (letter.char l) Hwf) as Ht.
    pose proof (String_WriteRune start (letter.char l) Hwf) as Hst.
    pose proof (WriteRune_wf start (letter.char l) Hwf) as Hwf1.
    destruct (IH (WriteRune start (letter.char l)).2 e1 d maxR aA aD Hd Hwf1 Hrs)
      as [F HF].
    { intros Hin. apply Hnul. by right. }
    exists (S (Nat.max n F)). intros [|fuel] Hfuel; [lia|].
    simpl. unfold searchBody, readBlock.
    assert ((0 <? d) = false) as -> by (apply Z.ltb_ge; lia). simpl.
    assert ((0 <? Len end_) = true) as ->.
    { rewrite Len_String. apply Z.ltb_lt. destruct (String end_); [done|simpl; lia]. }
    rewrite Hr. simpl. unfold exactStep. rewrite Hc.
    assert ((c =? 0) = false) as ->.
    { apply Z.eqb_neq. intros E. apply Hnul. rewrite E. by left. }
    simpl. rewrite (getletter_mono n fuel _ _ _ _ ltac:(lia) Hlt). simpl.
    rewrite Hl'. simpl. unfold follow.
    destruct (WriteRune start (letter.char l)) as [runeLen start1].
    simpl in Ht, Hst, Hwf1, HF.
    rewrite (HF fuel ltac:(lia)). simpl.
    rewrite capped_one by lia. rewrite Ht. simpl. rewrite Hu. simpl.
    rewrite Hst, Hcl. unfold encodeRunes. simpl. by rewrite <- app_assoc.
Qed.

(** ** C4: Search with no budget *)

(** C4 (fails on the code): Search with distance 0 is claimed to return the
    query itself exactly when the query is a word of the graph.  On
    well-formed input the code misses words in two ways.  The truncation
    loop of Search has no guard for [maxResults <= 0], which searchSubString
    takes as no cap: on the graph of TestSearch the query test, a word of
    the graph, returns nothing under the cap 0.  And searchSubString passes
    the rune 0 for no ignoreChar, so that the test [char != ignoreChar]
    skips the letter U+0000 of a query: on the graphs of the words 00 and
    a 00 b, the queries 00 and a 00 b, the words of the graphs, return
    nothing under the cap 1. *)
Theorem Search_exact_misses_word :
  (CreateDAWG 100 words6 = Ok built6 /\
   encodeRunes (runesOf s_test) = s_test /\
   accepted built6.1 (initialState built6.2) (runesOf s_test) /\
   Search 100 built6.1 built6.2 s_test 0 0 false false = Ok (built6.1, [])) /\
  (CreateDAWG 100 [s_nul] = Ok built_nul /\
   encodeRunes (runesOf s_nul) = s_nul /\
   accepted built_nul.1 (initialState built_nul.2) (runesOf s_nul) /\
   Search 100 built_nul.1 built_nul.2 s_nul 0 1 false false = Ok (built_nul.1, [])) /\
  (CreateDAWG 100 [s_anb] = Ok built_anb /\
   encodeRunes (runesOf s_anb) = s_anb /\
   accepted built_anb.1 (initialState built_anb.2) (runesOf s_anb) /\
   Search 100 built_anb.1 built_anb.2 s_anb 0 1 false false = Ok (built_anb.1, [])).
Proof.
  split; [|split].
  - split; [apply built6_eq|]. split; [vm_compute; reflexivity|].
    split; [|vm_compute; reflexivity].
    change (runesOf s_test) with [116; 101; 115; 116].
    eapply (accepted_cons _ _ _ _ 10%nat); [vm_compute; reflexivity..|].
    eapply (accepted_cons _ _ _ _ 10%nat); [vm_compute; reflexivity..|].
    eapply (accepted_cons _ _ _ _ 10%nat); [vm_compute; reflexivity..|].
    eapply (accepted_cons _ _ _ _ 10%nat); [vm_compute; reflexivity..|].
    eapply accepted_nil; vm_compute; reflexivity.
  - split; [vm_compute; reflexivity|]. split; [vm_compute; reflexivity|].
    split; [|vm_compute; reflexivity].
    change (runesOf s_nul) with [0].
    eapply (accepted_cons _ _ _ _ 10%nat); [vm_compute; reflexivity..|].
    eapply accepted_nil; vm_compute; reflexivity.
  - split; [vm_compute; reflexivity|]. split; [vm_compute; reflexivity|].
    split; [|vm_compute; reflexivity].
    change (runesOf s_anb) with [97; 0; 98].
    eapply (accepted_cons _ _ _ _ 10%nat); [vm_compute; reflexivity..|].
    eapply (accepted_cons _ _ _ _ 10%nat); [vm_compute; reflexivity..|].
    eapply (accepted_cons _ _ _ _ 10%nat); [vm_compute; reflexivity..|].
    eapply accepted_nil; vm_compute; reflexivity.
Qed.

(** A query that is not well-formed UTF-8 comes back as the encoding of its
    runes: the graph built from the one word FF accepts the query FF (both
    decode to U+FFFD), and Search returns the three bytes EF BF BD that
    encode U+FFFD. *)
Lemma Search_exact_reencodes :
  CreateDAWG 100 [s_ff] = Ok built_ff /\
  accepted built_ff.1 (initialState built_ff.2) (runesOf s_ff) /\
  Search 100 built_ff.1 built_ff.2 s_ff 0 1 false false
    = Ok (built_ff.1, [[0xEF; 0xBF; 0xBD]]) /\
  [[0xEF; 0xBF; 0xBD]] <> [s_ff].
Proof.
  split; [vm_compute; reflexivity|].
  split; [|split; [vm_compute; reflexivity|unfold s_ff; discriminate]].
  change (runesOf s_ff) with [RuneError].
  eapply (accepted_cons _ _ _ _ 1%nat 0%nat); [vm_compute; reflexivity..|].
  eapply accepted_nil; vm_compute; reflexivity.
Qed.

(** X20: where Search with distance 0 is an exact match: for a positive cap
    and a query without U+0000 that decoding and encoding give back
    unchanged (as every well-formed UTF-8 string is,
    [encodeRunes_wellformed]), Search returns on every store the query alone
    when the graph accepts it, and nothing when it does not; and when the
    graph accepts the query, Search does return. *)
Theorem Search_exact_match h dawg word k aA aD :
  0 < k -> encodeRunes (runesOf word) = word -> 0 ∉ runesOf word ->
  (forall fuel h' ws, Search fuel h dawg word 0 k aA aD = Ok (h', ws) ->
     (accepted h (initialState dawg) (runesOf word) /\ ws = [word]) \/
     (~ accepted h (initialState dawg) (runesOf word) /\ ws = [])) /\
  (accepted h (initialState dawg) (runesOf word) ->
     exists fuel, Search fuel h dawg word 0 k aA aD = Ok (h, [word])).
Proof.
  intros Hk Hrt Hnul. split.
  - intros fuel h' ws H. apply Search_inv in H as (found & Hs & _ & -> & _).
    apply search0_sound in Hs; [|lia|done|done].
    change (String (NewBufferString word)) with word in Hs.
    change (String (NewBufferString [])) with (@nil Z) in Hs. simpl in Hs.
    rewrite Hrt in Hs.
    destruct Hs as [[Hacc [= ->]]|[Hacc [= ->]]]; [left|right]; (split; [done|]).
    + simpl length.
      replace (Z.to_nat (Z.of_nat 1 - k)) with 0%nat by lia.
      replace (Z.to_nat (Z.min k (Z.of_nat 1))) with 1%nat by lia. reflexivity.
    + simpl. by rewrite drop_nil, take_nil.
  - intros Hacc.
    destruct (search0_complete _ _ _ Hacc (NewBufferString []) (NewBufferString word)
                0 k aA aD ltac:(lia) ltac:(done) eq_refl Hnul) as [F HF].
    exists F. unfold Search. rewrite (HF F ltac:(lia)). simpl.
    rewrite Hrt. replace (Z.to_nat (1 - k)) with 0%nat by lia. simpl.
    destruct (Z.ltb_spec k 1); [lia|]. simpl. done.
Qed.

Lemma Search_exact_match_witness :
  exists fuel,
    Search fuel built6.1 built6.2 s_test 0 1 false false = Ok (built6.1, [s_test]).
Proof.
  apply (proj2 (Search_exact_match built6.1 built6.2 s_test 1 false false
                  ltac:(lia) ltac:(reflexivity)
                  ltac:(vm_compute; intros H; repeat (apply elem_of_cons in H as [H|H];
                        [discriminate|]); by apply elem_of_nil in H))).
  change (runesOf s_test) with [116; 101; 115; 116].
  eapply (accepted_cons _ _ _ _ 10%nat); [vm_compute; reflexivity..|].
  eapply (accepted_cons _ _ _ _ 10%nat); [vm_compute; reflexivity..|].
  eapply (accepted_cons _ _ _ _ 10%nat); [vm_compute; reflexivity..|].
  eapply (accepted_cons _ _ _ _ 10%nat); [vm_compute; reflexivity..|].
  eapply accepted_nil; vm_compute; reflexivity.
Defined.
(** ** C6: running the minimizer again *)

Lemma built_ab_eq : CreateDAWG 100 [s_a; s_b] = Ok built_ab.
Proof. vm_compute. reflexivity. Qed.

Lemma compressTrie_inv fuel h root m r :
  compressTrie fuel h root m = Ok r ->
  exists rs h1 lv,
    0 <= m /\ getS h root = Ok rs /\
    (if state.lettersCount rs =? 0 then Ok (h, replicate (Z.to_nat m) None)
     else analyseRoot fuel fuel h (replicate (Z.to_nat m) None) (state.letters rs))
    = Ok (h1, lv) /\
    mergeLevels fuel h1 lv 0 = Ok r.
Proof.
  unfold compressTrie. destruct (Z.ltb_spec m 0) as [Hm|Hm]; [discriminate|].
  intros H. bind_inv H as rs Hrs. bind_inv H as x Hx. destruct x as [h1 lv].
  exists rs, h1, lv. done.
Qed.

Lemma mergeSame_ab_step fuel n d :
  mergeSame fuel (S n) analysed_ab 2 2 (Some 2%nat) d
  = mergeSame fuel n analysed_ab 2 2 (Some 2%nat) (d + 1).
Proof. destruct fuel; vm_compute; reflexivity. Qed.

Lemma mergeSame_ab_loops fuel n : forall d,
  mergeSame fuel n analysed_ab 2 2 (Some 2%nat) d = OutOfFuel.
Proof.
  induction n as [|n IH]; intros d; [done|].
  rewrite mergeSame_ab_step. apply IH.
Qed.

Lemma mergeLevel_stuck fuel n h c cs p d :
  getS h (Some c) = Ok cs -> state.next cs = Some p ->
  mergeSame fuel fuel h c c (Some p) d = OutOfFuel ->
  mergeLevel fuel (S n) h (Some c) d = OutOfFuel.
Proof.
  intros Hg Hn Hm. simpl. rewrite Hg. simpl. rewrite Hn, Hm. done.
Qed.

Lemma mergeLevels_ab_loops fuel : mergeLevels fuel analysed_ab [Some 2%nat] 0 = OutOfFuel.
Proof.
  destruct fuel as [|fuel]; [vm_compute; reflexivity|].
  cbn [mergeLevels]. erewrite mergeLevel_stuck; [done|vm_compute; reflexivity|reflexivity|].
  apply mergeSame_ab_loops.
Qed.

(** C6 (fails on the code): a second run of the minimizer is claimed to
    merge nothing and to return 0.  In the graph built from a and b both
    letters of the initial state lead to one state; the second run pushes it
    twice on the list of level 0, which makes it its own successor, and the
    merge loop never leaves that list: no amount of fuel lets compressTrie
    return. *)
Lemma compressTrie_twice_counterexample :
  CreateDAWG 100 [s_a; s_b] = Ok built_ab /\
  forall fuel r,
    compressTrie fuel built_ab.1 (initialState built_ab.2) 1 <> Ok r.
Proof.
  split; [apply built_ab_eq|]. intros fuel r H.
  apply compressTrie_inv in H as (rs & h1 & lv & _ & Hrs & Ha & Hm).
  vm_compute in Hrs. injection Hrs as <-.
  destruct fuel as [|[|[|k]]]; try (vm_compute in Ha; discriminate Ha);
    (vm_compute in Ha; injection Ha as <- <-;
     assert (Ok r = OutOfFuel) as E; [|discriminate E];
     rewrite <- Hm; apply mergeLevels_ab_loops).
Qed.

(** *** A run that merges nothing writes nothing *)

Lemma mergeSame_count fuel n : forall h c p s d h' d',
  mergeSame fuel n h c p s d = Ok (h', d') -> d <= d' /\ (d' = d -> h' = h).
Proof.
  induction n as [|n IH]; intros h c p s d h' d'.
  - destruct s; simpl; [discriminate|]. intros [= <- <-]. split; [lia|done].
  - destruct s as [sp|]; simpl; [|intros [= <- <-]; split; [lia|done]].
    intros H. bind_inv H as e He. destruct e.
    + bind_inv H as ss Hss. bind_inv H as ps Hps. bind_inv H as ss1 Hss1.
      destruct (state.letter ss1); [|discriminate].
      bind_inv H as l Hl. bind_inv H as ss2 Hss2.
      apply IH in H as [Hd _]. split; lia.
    + bind_inv H as ss Hss. by apply IH in H.
Qed.

Lemma mergeLevel_count fuel n : forall h c d h' d',
  mergeLevel fuel n h c d = Ok (h', d') -> d <= d' /\ (d' = d -> h' = h).
Proof.
  induction n as [|n IH]; intros h c d h' d'.
  - destruct c as [c|]; simpl; [|intros [= <- <-]; split; [lia|done]].
    intros H. bind_inv H as cs Hcs.
    destruct (state.next cs); [discriminate|].
    injection H as <- <-. split; [lia|done].
  - destruct c as [c|]; simpl; [|intros [= <- <-]; split; [lia|done]].
    intros H. bind_inv H as cs Hcs.
    destruct (state.next cs); [|injection H as <- <-; split; [lia|done]].
    bind_inv H as x Hx. destruct x as [h1 d1].
    bind_inv H as cs1 Hcs1.
    apply mergeSame_count in Hx as [Hd1 Hh1].
    apply IH in H as [Hd2 Hh2]. split; [lia|].
    intros ->. assert (d1 = d) as -> by lia. rewrite Hh2 by done. by apply Hh1.
Qed.

Lemma mergeLevels_count fuel lv : forall h d h' d',
  mergeLevels fuel h lv d = Ok (h', d') -> d <= d' /\ (d' = d -> h' = h).
Proof.
  induction lv as [|l lv IH]; intros h d h' d'; simpl.
  - intros [= <- <-]. split; [lia|done].
  - intros H. bind_inv H as x Hx. destruct x as [h1 d1].
    apply mergeLevel_count in Hx as [Hd1 Hh1].
    apply IH in H as [Hd2 Hh2]. split; [lia|].
    intros ->. assert (d1 = d) as -> by lia. rewrite Hh2 by done. by apply Hh1.
Qed.

(** *** The analysis does not read the field [next] *)

Lemma seq_store_refl k : seq_store k k.
Proof. done. Qed.

Lemma seq_store_trans a b c : seq_store a b -> seq_store b c -> seq_store a c.
Proof. intros [? ?] [? ?]. split; congruence. Qed.

Lemma seq_store_lookup k k' i :
  seq_store k k' -> strip_s <$> (sts k !! i) = strip_s <$> (sts k' !! i).
Proof. intros [_ H]. by rewrite <- !list_lookup_fmap, H. Qed.

Lemma getL_seq k k' p : seq_store k k' -> getL k p = getL k' p.
Proof. intros [H _]. unfold getL. by rewrite H. Qed.

Lemma getS_seq k k' p cs :
  seq_store k k' -> getS k p = Ok cs ->
  exists cs', getS k' p = Ok cs' /\ strip_s cs = strip_s cs'.
Proof.
  intros Hs H. apply getS_Some in H as (i & -> & Hi).
  pose proof (seq_store_lookup _ _ i Hs) as Hl. rewrite Hi in Hl.
  unfold getS. destruct (sts k' !! i) as [cs'|]; [|done].
  change (Some (strip_s cs) = Some (strip_s cs')) in Hl.
  exists cs'. split; [done|congruence].
Qed.

Lemma strip_s_fields a b :
  strip_s a = strip_s b ->
  state.lettersCount a = state.lettersCount b /\ state.letters a = state.letters b.
Proof. destruct a, b. unfold strip_s, state.set_next. simpl. by intros [= ? ? ? ? ?]. Qed.

Lemma seq_store_updS k c v : seq_store k (updS (state.set_next v) c k).
Proof.
  split; [done|]. simpl. apply list_eq. intros i.
  rewrite !list_lookup_fmap. destruct (decide (i = c)) as [->|Hne].
  - rewrite list_lookup_alter_eq. destruct (sts k !! c); reflexivity.
  - by rewrite list_lookup_alter_ne by congruence.
Qed.

Lemma next_of_updS k c v i :
  next_of (updS (state.set_next v) c k) i
  = if decide (i = c) then (fun _ => v) <$> (sts k !! c) else next_of k i.
Proof.
  unfold next_of. simpl. destruct (decide (i = c)) as [->|Hne].
  - rewrite list_lookup_alter_eq. by destruct (sts k !! c).
  - by rewrite list_lookup_alter_ne by congruence.
Qed.

Lemma same_writes_updS h h' k k' c v :
  same_writes h h' k k' ->
  same_writes h h' (updS (state.set_next v) c k) (updS (state.set_next v) c k').
Proof.
  intros [Hs Hn]. split.
  - eapply seq_store_trans; [|apply seq_store_updS].
    eapply seq_store_trans; [|exact Hs].
    destruct (seq_store_updS k c v) as [? ?]. split; congruence.
  - intros i. rewrite !next_of_updS. destruct (decide (i = c)) as [->|]; [|apply Hn].
    left. pose proof (seq_store_lookup _ _ c Hs) as Hl.
    destruct (sts k !! c), (sts k' !! c); done.
Qed.

Lemma store_ext k k' :
  seq_store k k' -> (forall i, next_of k i = next_of k' i) -> k = k'.
Proof.
  destruct k as [s l], k' as [s' l']. intros [Hl Hs] Hn. simpl in *. subst l'.
  f_equal. apply list_eq. intros i.
  pose proof (f_equal (fun x => x !! i) Hs) as Hi. simpl in Hi.
  rewrite !list_lookup_fmap in Hi. specialize (Hn i). unfold next_of in Hn. simpl in Hn.
  destruct (s !! i) as [a|], (s' !! i) as [b|]; try done.
  change (Some (strip_s a) = Some (strip_s b)) in Hi.
  change (Some (state.next a) = Some (state.next b)) in Hn.
  destruct a, b. unfold strip_s, state.set_next in Hi. simpl in *. congruence.
Qed.

Ltac sim_base :=
  split; [apply seq_store_refl|eexists; split; [reflexivity|eassumption]].

Lemma analyseLetters_sim h h' rec : rec_sim h h' rec ->
  forall n k k' lv p cur k1 lv1 r,
  same_writes h h' k k' ->
  analyseLetters rec n k lv p cur = Ok (k1, lv1, r) ->
  seq_store k k1 /\
  exists k1', analyseLetters rec n k' lv p cur = Ok (k1', lv1, r) /\
              same_writes h h' k1 k1'.
Proof.
  intros Hrec. induction n as [|n IH]; intros k k' lv p cur k1 lv1 r Hsw.
  - destruct p; simpl; [discriminate|]. intros [= <- <- <-]. sim_base.
  - destruct p as [i|]; simpl; [|intros [= <- <- <-]; sim_base].
    intros H. bind_inv H as cl Hcl. bind_inv H as x Hx.
    destruct x as [[ka lva] sub]. bind_inv H as cl1 Hcl1.
    destruct (Hrec _ _ _ _ _ _ _ Hsw Hx) as (Hseq & ka' & Hx' & Hsw').
    destruct (IH _ _ _ _ _ _ _ _ Hsw' H) as (Hseq2 & k1' & H' & Hsw2).
    split; [by eapply seq_store_trans|].
    exists k1'. split; [|done].
    rewrite <- (getL_seq k k') by apply Hsw. rewrite Hcl. simpl.
    rewrite Hx'. simpl.
    rewrite <- (getL_seq ka ka') by apply Hsw'. rewrite Hcl1. simpl. done.
Qed.

Lemma pushLevel_sim h h' k k' lv p lev k1 lv1 n :
  same_writes h h' k k' -> pushLevel k lv p lev = Ok (k1, lv1, n) ->
  seq_store k k1 /\
  exists k1', pushLevel k' lv p lev = Ok (k1', lv1, n) /\ same_writes h h' k1 k1'.
Proof.
  intros Hsw. unfold pushLevel.
  destruct p as [c|]; [|discriminate].
  destruct (_ || _); [discriminate|].
  destruct (lv !! Z.to_nat lev) as [lvv|]; [|discriminate].
  intros [= <- <- <-]. split.
  - apply seq_store_updS.
  - eexists. split; [done|]. by apply same_writes_updS.
Qed.

Lemma analyseSubTrie_sim h h' fuel : rec_sim h h' (analyseSubTrie fuel).
Proof.
  induction fuel as [|fuel IH]; intros k k' lv p k1 lv1 n Hsw; [discriminate|].
  simpl. intros H. bind_inv H as cs Hcs. bind_inv H as x Hx.
  destruct x as [[ka lva] lev].
  destruct (getS_seq _ _ _ _ (proj1 Hsw) Hcs) as (cs' & Hcs' & Hstrip).
  apply strip_s_fields in Hstrip as [Hcnt Hlet].
  rewrite Hcs'. simpl. rewrite <- Hcnt, <- Hlet.
  destruct (state.lettersCount cs =? 0).
  - injection Hx as <- <- <-. simpl. by eapply pushLevel_sim.
  - destruct (analyseLetters_sim h h' _ IH _ _ _ _ _ _ _ _ _ Hsw Hx)
      as (Hseq & ka' & Hx' & Hsw').
    rewrite Hx'. simpl.
    destruct (pushLevel_sim _ _ _ _ _ _ _ _ _ _ Hsw' H) as (Hseq2 & k1' & H' & Hsw2).
    split; [by eapply seq_store_trans|]. eauto.
Qed.

Lemma analyseRoot_sim h h' fuel : forall n k k' lv p k1 lv1,
  same_writes h h' k k' ->
  analyseRoot fuel n k lv p = Ok (k1, lv1) ->
  seq_store k k1 /\
  exists k1', analyseRoot fuel n k' lv p = Ok (k1', lv1) /\ same_writes h h' k1 k1'.
Proof.
  induction n as [|n IH]; intros k k' lv p k1 lv1 Hsw.
  - destruct p; simpl; [discriminate|]. intros [= <- <-]. sim_base.
  - destruct p as [i|]; simpl; [|intros [= <- <-]; sim_base].
    intros H. bind_inv H as cl Hcl. bind_inv H as x Hx.
    destruct x as [[ka lva] sub]. bind_inv H as cl1 Hcl1.
    destruct (analyseSubTrie_sim h h' fuel _ _ _ _ _ _ _ Hsw Hx)
      as (Hseq & ka' & Hx' & Hsw').
    destruct (IH _ _ _ _ _ _ Hsw' H) as (Hseq2 & k1' & H' & Hsw2).
    split; [by eapply seq_store_trans|].
    exists k1'. split; [|done].
    rewrite <- (getL_seq k k') by apply Hsw. rewrite Hcl. simpl.
    rewrite Hx'. simpl.
    rewrite <- (getL_seq ka ka') by apply Hsw'. rewrite Hcl1. simpl. done.
Qed.

Lemma same_writes_start h h' : seq_store h h' -> same_writes h h' h h'.
Proof. intros Hs. split; [done|]. intros i. by right. Qed.

(** On the store that an analysis leaves, the same analysis changes nothing. *)
Lemma analyseRoot_again fuel n h lv p h1 lv1 :
  analyseRoot fuel n h lv p = Ok (h1, lv1) ->
  analyseRoot fuel n h1 lv p = Ok (h1, lv1).
Proof.
  intros H.
  destruct (analyseRoot_sim h h fuel _ _ _ _ _ _ _
              (same_writes_start _ _ (seq_store_refl h)) H) as (Hseq & _).
  destruct (analyseRoot_sim h h1 fuel _ _ _ _ _ _ _ (same_writes_start _ _ Hseq) H)
    as (_ & k1' & H' & [Hs Hn]).
  rewrite H'. do 2 f_equal. symmetry. apply store_ext; [done|].
  intros i. destruct (Hn i) as [E|[_ E]]; congruence.
Qed.

(** C6 (amended): when a run of the minimizer merges no state, a second run
    on the graph it leaves (same initial state, same depth) returns, merges
    no state and leaves the graph as it is. *)
Theorem compressTrie_idempotent_without_merge fuel h root m h1 :
  compressTrie fuel h root m = Ok (h1, 0) ->
  compressTrie fuel h1 root m = Ok (h1, 0).
Proof.
  intros H. apply compressTrie_inv in H as (rs & hA & lv & Hm & Hrs & Ha & Hl).
  pose proof (mergeLevels_count _ _ _ _ _ _ Hl) as [_ Hh].
  specialize (Hh eq_refl). subst h1.
  unfold compressTrie. destruct (Z.ltb_spec m 0) as [?|_]; [lia|].
  destruct (state.lettersCount rs =? 0) eqn:Ez.
  - injection Ha as <- <-. rewrite Hrs. simpl. rewrite Ez. simpl. exact Hl.
  - destruct (analyseRoot_sim h h fuel _ _ _ _ _ _ _
                (same_writes_start _ _ (seq_store_refl h)) Ha) as (Hseq & _).
    destruct (getS_seq _ _ _ _ Hseq Hrs) as (rs' & Hrs' & Hstrip).
    apply strip_s_fields in Hstrip as [Hcnt Hlet].
    rewrite Hrs'. simpl. rewrite <- Hcnt, <- Hlet, Ez.
    rewrite (analyseRoot_again _ _ _ _ _ _ _ Ha). simpl. exact Hl.
Qed.

Lemma compressTrie_idempotent_without_merge_witness :
  compressTrie 100 built_one.1 (initialState built_one.2) 2 = Ok (built_one.1, 0).
Proof.
  apply (compressTrie_idempotent_without_merge 100 built_one.1
           (initialState built_one.2) 2 built_one.1).
  vm_compute. reflexivity.
Defined.

(** ** C8: the graph has no cycle *)

Lemma trie_inv_init own :
  trie_inv own (allocS (state.new false None) emptyStore).1.
Proof.
  split; simpl.
  - intros [|s] st hd; [|done]. intros [= <-]. done.
  - intros a l b. by rewrite lookup_nil.
  - intros a l. by rewrite lookup_nil.
  - intros [|t] ts a; [|done]. intros [= <-]. done.
  - intros [|s] st; [|done]. by intros [= <-].
  - intros [|s] st; [|done]. intros [= <-]. simpl. split; [lia|done].
  - intros a Ha. lia.
Qed.

(** Setting [final] touches nothing that the invariant reads. *)
Lemma trie_inv_set_final own h b s :
  trie_inv own h -> trie_inv own (updS (state.set_final b) s h).
Proof.
  intros [H1 H2 H3 H4 H5 H6 H7].
  assert (forall y st', sts (updS (state.set_final b) s h) !! y = Some st' ->
            exists st, sts h !! y = Some st /\ st' = (if decide (y = s)
              then state.set_final b st else st)) as Hlk.
  { intros y st'. simpl. rewrite list_lookup_alter.
    destruct (decide (s = y)) as [->|Hne].
    - destruct (sts h !! y) as [st|]; [|done]. intros [= <-].
      exists st. by rewrite decide_True.
    - intros Hy. exists st'. rewrite decide_False by congruence. done. }
  split; simpl.
  - intros y st' hd Hy Hl. apply Hlk in Hy as (st & Hy & ->).
    apply (H1 y st hd Hy). by destruct (decide (y = s)).
  - exact H2.
  - intros a l Ha. destruct (H3 a l Ha) as (t & ts & Hs & Ht & Hl).
    exists t. rewrite list_lookup_alter. destruct (decide (s = t)) as [->|].
    + rewrite Ht. simpl. eauto.
    + eauto.
  - intros t st' a Ht Hl. apply Hlk in Ht as (st & Ht & ->).
    apply (H4 t st a Ht). by destruct (decide (t = s)).
  - intros y st' Hy. apply Hlk in Hy as (st & Hy & ->).
    rewrite <- (H5 y st Hy). by destruct (decide (y = s)).
  - intros y st' Hy. apply Hlk in Hy as (st & Hy & ->).
    specialize (H6 y st Hy). by destruct (decide (y = s)).
  - intros a Ha. destruct (H7 a Ha) as (st & hd & Hs & Hl & Hr).
    rewrite list_lookup_alter. destruct (decide (s = own a)) as [->|].
    + rewrite Hs. simpl. eauto.
    + eauto.
Qed.

(** *** The walk of addWord in the tree of letters *)

Lemma getL_alloc_new h l :
  getL (allocL l h).1 (Some (length (lts h))) = Ok l.
Proof.
  unfold getL, allocL. simpl. rewrite lookup_app_r by lia.
  by rewrite Nat.sub_diag.
Qed.

Lemma allocL_eq l h : allocL l h = ((allocL l h).1, length (lts h)).
Proof. done. Qed.

Lemma allocS_eq s h : allocS s h = ((allocS s h).1, length (sts h)).
Proof. done. Qed.

Lemma getL_updL_ne f a h p :
  a <> p -> getL (updL f a h) (Some p) = getL h (Some p).
Proof. intros Hne. unfold getL, updL. simpl. by rewrite list_lookup_alter_ne. Qed.

Lemma addWordWalk_new n f a h l :
  (a < length (lts h))%nat ->
  addWordWalk n (updL f a (allocL (letter.new l) h).1) (length (lts h)) l
  = match n with
    | O => OutOfFuel
    | S _ => Ok (updL f a (allocL (letter.new l) h).1, length (lts h))
    end.
Proof.
  intros Ha. destruct n as [|n]; [done|]. cbn [addWordWalk].
  rewrite getL_updL_ne by lia. rewrite getL_alloc_new. simpl.
  by rewrite Z.eqb_refl.
Qed.

Lemma addWordWalk_spec own s l n : forall h cur h1 p,
  trie_inv own h -> own cur = s ->
  addWordWalk n h cur l = Ok (h1, p) ->
  walk_found own s h h1 p \/ walk_added own s l h h1 p.
Proof.
  induction n as [|n IH]; intros h cur h1 p Hinv Hown; [discriminate|].
  cbn [addWordWalk]. rewrite (allocL_eq (letter.new l) h). lazy beta iota.
  intros H. bind_inv H as cl Hcl.
  apply getL_Some in Hcl as (i & [= <-] & Hcl).
  pose proof (lookup_lt_Some _ _ _ Hcl) as Hlt.
  destruct (letter.char cl =? l).
  { injection H as <- <-. by left. }
  destruct (letter.char cl <? l).
  - destruct (letter.left cl) as [q|] eqn:El.
    + apply (IH h q); [done| |done].
      destruct (ti_link _ _ Hinv cur cl q Hcl) as [_ ->]; auto.
    + rewrite addWordWalk_new in H by done.
      destruct n; [discriminate|]. injection H as <- <-.
      right. exists cur, cl. repeat split; auto.
  - destruct (letter.right cl) as [q|] eqn:El.
    + apply (IH h q); [done| |done].
      destruct (ti_link _ _ Hinv cur cl q Hcl) as [_ ->]; auto.
    + rewrite addWordWalk_new in H by done.
      destruct n; [discriminate|]. injection H as <- <-.
      right. exists cur, cl. repeat split; auto.
Qed.

(** *** A new letter and its state *)

Lemma lookup_snoc_eq {A} (L : list A) (v : A) (x : nat) :
  (L ++ [v]) !! x = if decide (x = length L) then Some v else L !! x.
Proof.
  destruct (decide (x = length L)) as [->|Hne].
  - rewrite lookup_app_r by lia. by rewrite Nat.sub_diag.
  - destruct (decide (x < length L)%nat).
    + by rewrite lookup_app_l.
    + rewrite lookup_app_r by lia. rewrite (lookup_ge_None_2 L) by lia.
      destruct (x - length L)%nat eqn:E; [lia|done].
Qed.

(** The steps of nstep that a store keeps. *)
Lemma rtc_nstep_incl h h' x y :
  (forall a b, nstep h a b -> rtc (nstep h') a b) ->
  rtc (nstep h) x y -> rtc (nstep h') x y.
Proof.
  intros Hstep. induction 1 as [|x m y Hxm Hmy IH]; [done|].
  eapply rtc_trans; [apply Hstep; exact Hxm|exact IH].
Qed.

Lemma firstLetter_lts h s l x :
  lts (firstLetter h s l) !! x
  = if decide (x = length (lts h))
    then Some (letter.set_state (Some (length (sts h))) (letter.new l))
    else lts h !! x.
Proof.
  unfold firstLetter. simpl. rewrite list_lookup_alter, !lookup_snoc_eq.
  repeat case_decide; subst; done.
Qed.

Lemma firstLetter_sts h s l y :
  (s < length (sts h))%nat ->
  sts (firstLetter h s l) !! y
  = if decide (y = length (sts h))
    then Some (state.new false (Some (length (lts h))))
    else (if decide (y = s)
          then fun st => incCount (state.set_letters (Some (length (lts h))) st)
          else fun st => st) <$> sts h !! y.
Proof.
  intros Hs. unfold firstLetter. simpl.
  rewrite list_lookup_alter, !lookup_snoc_eq, !length_alter.
  rewrite !list_lookup_alter.
  repeat case_decide; subst; try lia; try done; by destruct (sts h !! _).
Qed.

Lemma firstLetter_length h s l :
  length (lts (firstLetter h s l)) = S (length (lts h)).
Proof.
  unfold firstLetter. simpl. rewrite length_alter, length_app. simpl. lia.
Qed.

Lemma trie_inv_firstLetter own h s cs l :
  trie_inv own h -> sts h !! s = Some cs -> state.letters cs = None ->
  trie_inv (fun x => if decide (x = length (lts h)) then s else own x)
           (firstLetter h s l).
Proof.
  intros Hinv Hs Hnone.
  pose proof (lookup_lt_Some _ _ _ Hs) as Hslt.
  pose proof (firstLetter_lts h s l) as HL.
  pose proof (firstLetter_sts h s l) as HS.
  pose proof (firstLetter_length h s l) as Hlen.
  set (p := length (lts h)) in *. set (ns := length (sts h)) in *.
  set (own' := fun x => if decide (x = p) then s else own x).
  assert (own' p = s) as Hop by (unfold own'; by rewrite decide_True).
  assert (forall x, x <> p -> own' x = own x) as Hox
    by (intros x Hx; unfold own'; by rewrite decide_False).
  assert (forall x lx, lts h !! x = Some lx -> x <> p) as Hold.
  { intros x lx Hx. apply lookup_lt_Some in Hx. unfold p. lia. }
  assert (forall y sy, sts h !! y = Some sy -> y <> ns) as HoldS.
  { intros y sy Hy. apply lookup_lt_Some in Hy. unfold ns. lia. }
  assert (forall a, (a < p)%nat -> own a <> s) as Hown.
  { intros a Ha E. destruct (ti_chain _ _ Hinv a Ha) as (st & hd & Hst & Hl & _).
    rewrite E, Hs in Hst. injection Hst as <-. congruence. }
  clearbody own'. split.
  - intros y st hd Hy Hl. rewrite HS in Hy by done. case_decide as Ey.
    { injection Hy as <-. done. }
    destruct (sts h !! y) as [st0|] eqn:Hy0; [|done]. injection Hy as <-.
    case_decide as Es.
    + simpl in Hl. injection Hl as <-. rewrite Hlen. split; [lia|congruence].
    + destruct (ti_hd _ _ Hinv y st0 hd Hy0 Hl) as [Hlt Ho].
      rewrite Hlen. split; [lia|]. rewrite Hox by lia. done.
  - intros a la b Ha Hlink. rewrite HL in Ha. case_decide as Ea.
    { injection Ha as <-. simpl in Hlink. destruct Hlink as [?|[?|?]]; discriminate. }
    destruct (ti_link _ _ Hinv a la b Ha Hlink) as [Hlt Ho].
    rewrite Hlen. split; [lia|]. rewrite !Hox by lia. done.
  - intros a la Ha. rewrite HL in Ha. case_decide as Ea.
    { injection Ha as <-. subst a. exists ns. eexists. split; [done|].
      rewrite HS by done. rewrite decide_True by done. done. }
    destruct (ti_state _ _ Hinv a la Ha) as (t & ts & Hst & Ht & Hl).
    exists t. eexists. split; [done|]. rewrite HS by done.
    rewrite decide_False by (by eapply HoldS). rewrite Ht. simpl.
    split; [done|]. by case_decide.
  - intros t ts a Ht Hl. rewrite HS in Ht by done. case_decide as Et.
    { injection Ht as <-. simpl in Hl. injection Hl as <-.
      eexists. rewrite HL. rewrite decide_True by done. split; [done|].
      simpl. by subst t. }
    destruct (sts h !! t) as [ts0|] eqn:Ht0; [|done]. injection Ht as <-.
    assert (state.letter ts0 = Some a) as Hl0 by (by case_decide).
    destruct (ti_letter _ _ Hinv t ts0 a Ht0 Hl0) as (la & Ha & Hst).
    exists la. rewrite HL. rewrite decide_False by (by eapply Hold). done.
  - intros y st Hy. rewrite HS in Hy by done. case_decide as Ey.
    { by injection Hy as <-. }
    destruct (sts h !! y) as [st0|] eqn:Hy0; [|done]. injection Hy as <-.
    rewrite <- (ti_next _ _ Hinv y st0 Hy0). by case_decide.
  - intros y st Hy. rewrite HS in Hy by done. case_decide as Ey.
    { injection Hy as <-. simpl. split; [lia|done]. }
    destruct (sts h !! y) as [st0|] eqn:Hy0; [|done]. injection Hy as <-.
    destruct (ti_count _ _ Hinv y st0 Hy0) as [Hc0 Hc1].
    case_decide; [|done]. simpl. split; lia.
  - intros a Ha. rewrite Hlen in Ha. destruct (decide (a = p)) as [->|Ea].
    { rewrite Hop. eexists _, p. rewrite HS by done.
      rewrite decide_False by (unfold ns; lia). rewrite Hs. simpl.
      rewrite decide_True by done. simpl. done. }
    assert (a < p)%nat as Hap by lia. rewrite Hox by done.
    destruct (ti_chain _ _ Hinv a Hap) as (st & hd & Hst & Hl & Hr).
    exists st, hd. rewrite HS by done.
    rewrite decide_False by (by eapply HoldS). rewrite Hst. simpl.
    rewrite decide_False by (by apply Hown). split; [done|]. split; [done|].
    eapply rtc_nstep_incl; [|exact Hr].
    intros m b (lm & Hm & Hn). apply rtc_once. exists lm.
    rewrite HL. rewrite decide_False by (by eapply Hold). done.
Qed.

Lemma nextLetter_lts side h s a hd nxt l x :
  (a < length (lts h))%nat -> (hd < length (lts h))%nat ->
  lts (nextLetter side h s a hd nxt l) !! x
  = if decide (x = length (lts h))
    then Some (letter.mk l (Some (length (sts h))) None None nxt)
    else (fun r => (if decide (x = hd) then letter.set_next (Some (length (lts h)))
                    else fun r' => r')
                     ((if decide (x = a) then setSide side (length (lts h))
                       else fun r' => r') r)) <$> lts h !! x.
Proof.
  intros Ha Hhd. unfold nextLetter. simpl.
  rewrite !list_lookup_alter, !lookup_snoc_eq.
  repeat case_decide; subst; try lia; try done; by destruct (lts h !! _).
Qed.

Lemma nextLetter_sts side h s a hd nxt l y :
  (s < length (sts h))%nat ->
  sts (nextLetter side h s a hd nxt l) !! y
  = if decide (y = length (sts h))
    then Some (state.new false (Some (length (lts h))))
    else (if decide (y = s) then incCount else fun st => st) <$> sts h !! y.
Proof.
  intros Hs. unfold nextLetter. simpl.
  rewrite !list_lookup_alter, !lookup_snoc_eq.
  repeat case_decide; subst; try lia; try done; by destruct (sts h !! _).
Qed.

Lemma nextLetter_length side h s a hd nxt l :
  length (lts (nextLetter side h s a hd nxt l)) = S (length (lts h)).
Proof.
  unfold nextLetter. simpl. rewrite !length_alter, length_app. simpl. lia.
Qed.

Lemma setSide_fields side p r :
  letter.char (setSide side p r) = letter.char r /\
  letter.state (setSide side p r) = letter.state r /\
  letter.next (setSide side p r) = letter.next r /\
  (letter.left (setSide side p r) = letter.left r \/
   letter.left (setSide side p r) = Some p) /\
  (letter.right (setSide side p r) = letter.right r \/
   letter.right (setSide side p r) = Some p).
Proof. destruct side; simpl; repeat split; auto. Qed.

Lemma trie_inv_nextLetter own side h s cs a la hd hdr l :
  trie_inv own h ->
  sts h !! s = Some cs -> state.letters cs = Some hd ->
  lts h !! hd = Some hdr ->
  lts h !! a = Some la -> own a = s ->
  trie_inv (fun x => if decide (x = length (lts h)) then s else own x)
           (nextLetter side h s a hd (letter.next hdr) l).
Proof.
  intros Hinv Hs Hhd Hhdr Ha Hoa.
  pose proof (lookup_lt_Some _ _ _ Hs) as Hslt.
  pose proof (lookup_lt_Some _ _ _ Ha) as Halt.
  pose proof (lookup_lt_Some _ _ _ Hhdr) as Hhdlt.
  pose proof (fun x => nextLetter_lts side h s a hd (letter.next hdr) l x Halt Hhdlt) as HL.
  pose proof (fun y => nextLetter_sts side h s a hd (letter.next hdr) l y Hslt) as HS.
  pose proof (nextLetter_length side h s a hd (letter.next hdr) l) as Hlen.
  destruct (ti_hd _ _ Hinv s cs hd Hs Hhd) as [_ Hohd].
  set (p := length (lts h)) in *. set (ns := length (sts h)) in *.
  set (own' := fun x => if decide (x = p) then s else own x).
  assert (own' p = s) as Hop by (unfold own'; by rewrite decide_True).
  assert (forall x, x <> p -> own' x = own x) as Hox
    by (intros x Hx; unfold own'; by rewrite decide_False).
  assert (forall x lx, lts h !! x = Some lx -> x <> p) as Hold.
  { intros x lx Hx. apply lookup_lt_Some in Hx. unfold p. lia. }
  assert (forall y sy, sts h !! y = Some sy -> y <> ns) as HoldS.
  { intros y sy Hy. apply lookup_lt_Some in Hy. unfold ns. lia. }
  (* an old letter in the new store *)
  assert (forall x lx', lts (nextLetter side h s a hd (letter.next hdr) l) !! x = Some lx' ->
            x <> p ->
            exists lx, lts h !! x = Some lx /\
              letter.state lx' = letter.state lx /\
              (letter.next lx' = letter.next lx \/ (x = hd /\ letter.next lx' = Some p)) /\
              (letter.left lx' = letter.left lx \/ (x = a /\ letter.left lx' = Some p)) /\
              (letter.right lx' = letter.right lx \/ (x = a /\ letter.right lx' = Some p)))
    as Holdl.
  { intros x lx' Hx Hxp. rewrite HL in Hx. rewrite decide_False in Hx by done.
    destruct (lts h !! x) as [lx|] eqn:E; [|done]. injection Hx as <-.
    exists lx. split; [done|].
    destruct (setSide_fields side p lx) as (_ & Hst & Hnx & Hlf & Hrg).
    repeat case_decide; subst; simpl; rewrite ?Hst, ?Hnx; intuition auto. }
  clearbody own'. split.
  - intros y st hd' Hy Hl. rewrite HS in Hy. case_decide as Ey.
    { injection Hy as <-. done. }
    destruct (sts h !! y) as [st0|] eqn:Hy0; [|done]. injection Hy as <-.
    assert (state.letters st0 = Some hd') as Hl0 by (by case_decide).
    destruct (ti_hd _ _ Hinv y st0 hd' Hy0 Hl0) as [Hlt Ho].
    rewrite Hlen. split; [lia|]. rewrite Hox by lia. done.
  - intros x lx' b Hx Hlink. rewrite Hlen. destruct (decide (x = p)) as [->|Hxp].
    { rewrite HL in Hx. rewrite decide_True in Hx by done. injection Hx as <-.
      simpl in Hlink. destruct Hlink as [?|[?|Hn]]; try discriminate.
      destruct (ti_link _ _ Hinv hd hdr b Hhdr) as [Hlt Ho]; [auto|].
      split; [lia|]. rewrite Hop, Hox by lia. congruence. }
    destruct (Holdl x lx' Hx Hxp) as (lx & Hlx & _ & Hn & Hlf & Hrg).
    rewrite (Hox x) by done.
    assert (forall b', letter.left lx = Some b' \/ letter.right lx = Some b' \/
                       letter.next lx = Some b' ->
                       (b' < S p)%nat /\ own' b' = own x) as Hkeep.
    { intros b' Hb'. destruct (ti_link _ _ Hinv x lx b' Hlx Hb') as [Hlt Ho].
      split; [lia|]. rewrite Hox by lia. done. }
    assert (x = hd \/ x = a -> (p < S p)%nat /\ own' p = own x) as Hnew.
    { intros [->| ->]; (split; [lia|congruence]). }
    destruct Hlink as [Hb|[Hb|Hb]].
    + destruct Hlf as [E|[-> E]]; rewrite E in Hb.
      * apply Hkeep. auto.
      * injection Hb as <-. apply Hnew. auto.
    + destruct Hrg as [E|[-> E]]; rewrite E in Hb.
      * apply Hkeep. auto.
      * injection Hb as <-. apply Hnew. auto.
    + destruct Hn as [E|[-> E]]; rewrite E in Hb.
      * apply Hkeep. auto.
      * injection Hb as <-. apply Hnew. auto.
  - intros x lx' Hx. destruct (decide (x = p)) as [->|Hxp].
    { rewrite HL in Hx. rewrite decide_True in Hx by done. injection Hx as <-.
      exists ns. eexists. split; [done|].
      rewrite HS. rewrite decide_True by done. done. }
    destruct (Holdl x lx' Hx Hxp) as (lx & Hlx & Hst & _).
    destruct (ti_state _ _ Hinv x lx Hlx) as (t & ts & Hst0 & Ht & Hl).
    exists t. eexists. split; [congruence|]. rewrite HS.
    rewrite decide_False by (by eapply HoldS). rewrite Ht. simpl.
    split; [done|]. by case_decide.
  - intros t ts x Ht Hl. rewrite HS in Ht. case_decide as Et.
    { injection Ht as <-. simpl in Hl. injection Hl as <-.
      eexists. rewrite HL. rewrite decide_True by done. split; [done|].
      simpl. by subst t. }
    destruct (sts h !! t) as [ts0|] eqn:Ht0; [|done]. injection Ht as <-.
    assert (state.letter ts0 = Some x) as Hl0 by (by case_decide).
    destruct (ti_letter _ _ Hinv t ts0 x Ht0 Hl0) as (lx & Hx & Hst).
    rewrite HL. rewrite decide_False by (by eapply Hold). rewrite Hx. simpl.
    eexists. split; [done|].
    destruct (setSide_fields side p lx) as (_ & Hst' & _).
    repeat case_decide; simpl; congruence.
  - intros y st Hy. rewrite HS in Hy. case_decide as Ey.
    { by injection Hy as <-. }
    destruct (sts h !! y) as [st0|] eqn:Hy0; [|done]. injection Hy as <-.
    rewrite <- (ti_next _ _ Hinv y st0 Hy0). by case_decide.
  - intros y st Hy. rewrite HS in Hy. case_decide as Ey.
    { injection Hy as <-. simpl. split; [lia|done]. }
    destruct (sts h !! y) as [st0|] eqn:Hy0; [|done]. injection Hy as <-.
    destruct (ti_count _ _ Hinv y st0 Hy0) as [Hc0 Hc1].
    case_decide; [|done]. simpl. split; lia.
  - assert (nstep (nextLetter side h s a hd (letter.next hdr) l) hd p) as Hhp.
    { eexists. rewrite HL. rewrite decide_False by (by eapply Hold).
      rewrite Hhdr. simpl. split; [done|]. rewrite decide_True by done. done. }
    intros x Hx. rewrite Hlen in Hx. destruct (decide (x = p)) as [->|Ea].
    { rewrite Hop. eexists _, hd. rewrite HS.
      rewrite decide_False by (unfold ns; lia). rewrite Hs. simpl.
      rewrite decide_True by done. simpl. split; [done|]. split; [done|].
      by apply rtc_once. }
    assert (x < p)%nat as Hap by lia. rewrite Hox by done.
    destruct (ti_chain _ _ Hinv x Hap) as (st & hd' & Hst & Hl & Hr).
    eexists _, hd'. rewrite HS.
    rewrite decide_False by (by eapply HoldS). rewrite Hst. simpl.
    split; [done|]. split; [by case_decide|].
    eapply rtc_nstep_incl; [|exact Hr].
    intros m b (lm & Hm & Hn). destruct (decide (m = hd)) as [->|Hmhd].
    + rewrite Hhdr in Hm. injection Hm as <-.
      eapply rtc_l; [exact Hhp|]. apply rtc_once.
      eexists. rewrite HL. rewrite decide_True by done. done.
    + apply rtc_once. eexists. rewrite HL.
      rewrite decide_False by (by eapply Hold). rewrite Hm. simpl.
      split; [done|]. rewrite decide_False by done.
      destruct (setSide_fields side p lm) as (_ & _ & Hnx & _).
      case_decide; simpl; congruence.
Qed.

(** *** One iteration of addWord keeps the invariant *)

Lemma addWordState_first h s cs l ne cr :
  sts h !! s = Some cs -> state.letters cs = None ->
  exists ne',
    addWordState (updS (state.set_letters (Some (length (lts h)))) s
                    (allocL (letter.new l) h).1) s (length (lts h)) ne cr
    = Ok (firstLetter h s l, length (sts h), ne', cr + 1).
Proof.
  intros Hs Hnone. pose proof (lookup_lt_Some _ _ _ Hs) as Hslt.
  unfold addWordState.
  assert (getL (updS (state.set_letters (Some (length (lts h)))) s
                  (allocL (letter.new l) h).1) (Some (length (lts h)))
          = Ok (letter.new l)) as ->.
  { unfold getL. simpl. rewrite lookup_snoc_eq. by rewrite decide_True. }
  simpl. rewrite length_alter.
  fold incCount. set (h4 := updS incCount s _).
  assert (h4 = firstLetter h s l) as -> by reflexivity.
  assert (getS (firstLetter h s l) (Some s)
          = Ok (incCount (state.set_letters (Some (length (lts h))) cs))) as ->.
  { unfold getS. rewrite firstLetter_sts by done.
    rewrite decide_False by lia. rewrite Hs. simpl. by rewrite decide_True. }
  simpl. rewrite bool_decide_true by done. simpl. eauto.
Qed.

Lemma addWordState_next side h s cs a la hd hdr l ne cr :
  sts h !! s = Some cs -> state.letters cs = Some hd ->
  lts h !! hd = Some hdr -> lts h !! a = Some la ->
  exists ne',
    addWordState (updL (setSide side (length (lts h))) a (allocL (letter.new l) h).1)
      s (length (lts h)) ne cr
    = Ok (nextLetter side h s a hd (letter.next hdr) l, length (sts h), ne', cr + 1).
Proof.
  intros Hs Hhd Hhdr Ha.
  pose proof (lookup_lt_Some _ _ _ Hs) as Hslt.
  pose proof (lookup_lt_Some _ _ _ Ha) as Halt.
  pose proof (lookup_lt_Some _ _ _ Hhdr) as Hhdlt.
  unfold addWordState.
  rewrite getL_updL_ne by lia. rewrite getL_alloc_new. simpl.
  fold incCount.
  set (h4 := updS incCount s _).
  assert (getS h4 (Some s) = Ok (incCount cs)) as ->.
  { unfold getS, h4. simpl. rewrite list_lookup_alter_eq, lookup_snoc_eq.
    rewrite decide_False by lia. by rewrite Hs. }
  simpl. rewrite Hhd. rewrite bool_decide_false by (intros [= E]; lia). simpl.
  assert (exists hdr4, getL h4 (Some hd) = Ok hdr4 /\
                       letter.next hdr4 = letter.next hdr) as (hdr4 & -> & Hn4).
  { unfold getL, h4. simpl. rewrite !list_lookup_alter, !lookup_snoc_eq.
    rewrite !decide_False by lia.
    destruct (setSide_fields side (length (lts h)) hdr) as (_ & _ & Hn & _).
    destruct (decide (a = hd)) as [->|Hne];
      rewrite ?lookup_snoc_eq, ?decide_False by lia; rewrite Hhdr; simpl;
      (eexists; split; [reflexivity|first [exact Hn|reflexivity]]). }
  simpl. rewrite Hn4. eexists. reflexivity.
Qed.

Lemma firstLetter_sts_length h s l :
  length (sts (firstLetter h s l)) = S (length (sts h)).
Proof.
  unfold firstLetter. simpl. rewrite !length_alter, length_app, length_alter.
  simpl. lia.
Qed.

Lemma nextLetter_sts_length side h s a hd nxt l :
  length (sts (nextLetter side h s a hd nxt l)) = S (length (sts h)).
Proof.
  unfold nextLetter. simpl. rewrite !length_alter, length_app. simpl. lia.
Qed.

Lemma addWordBody_inv own fuel h s l ne cr h' s' ne' cr' :
  trie_inv own h -> (s < length (sts h))%nat ->
  addWordBody fuel h s l ne cr = Ok (h', s', ne', cr') ->
  (exists own', trie_inv own' h') /\ (s' < length (sts h'))%nat /\
  (length (sts h) <= length (sts h'))%nat.
Proof.
  intros Hinv Hslt. unfold addWordBody. intros H. bind_inv H as cs Hcs.
  apply getS_Some in Hcs as (i & [= <-] & Hs).
  destruct (state.letters cs) as [hd|] eqn:Hhd.
  - bind_inv H as x Hw. destruct x as [h1 p].
    destruct (ti_hd _ _ Hinv s cs hd Hs Hhd) as [Hhdlt Hohd].
    destruct (lookup_lt_is_Some_2 _ _ Hhdlt) as [hdr Hhdr].
    apply (addWordWalk_spec own s l) in Hw; [|done|done].
    destruct Hw as [(-> & Hp & Hop)|(a & la & Ha & Hoa & -> & Hside)].
    + unfold addWordState in H. bind_inv H as cl Hcl.
      apply getL_Some in Hcl as (j & [= <-] & Hcl).
      destruct (ti_state _ _ Hinv p cl Hcl) as (t & ts & Hst & Ht & _).
      rewrite Hst in H. injection H as <- <- <- <-.
      split; [eauto|]. split; [by eapply lookup_lt_Some|lia].
    + assert (exists side,
        h1 = updL (setSide side (length (lts h))) a (allocL (letter.new l) h).1)
        as [side ->].
      { destruct Hside as [[_ ->]|[_ ->]]; [by exists true|by exists false]. }
      destruct (addWordState_next side h s cs a la hd hdr l ne cr Hs Hhd Hhdr Ha)
        as [ne2 E].
      rewrite E in H. injection H as <- <- <- <-.
      split; [|rewrite nextLetter_sts_length; lia].
      eexists. by eapply trie_inv_nextLetter.
  - rewrite (allocL_eq (letter.new l) h) in H. simpl in H.
    destruct (addWordState_first h s cs l ne cr Hs Hhd) as [ne2 E].
    simpl in E. rewrite E in H. injection H as <- <- <- <-.
    split; [|rewrite firstLetter_sts_length; lia].
    eexists. by eapply trie_inv_firstLetter.
Qed.

Lemma addWordLoop_inv fuel rs : forall own h s ne ws cr h' s' ne' ws' cr',
  trie_inv own h -> (s < length (sts h))%nat ->
  addWordLoop fuel h s rs ne ws cr = Ok (h', s', ne', ws', cr') ->
  (exists own', trie_inv own' h') /\ (s' < length (sts h'))%nat /\
  (length (sts h) <= length (sts h'))%nat.
Proof.
  induction rs as [|[i l] rs IH]; intros own h s ne ws cr h' s' ne' ws' cr' Hinv Hs.
  - simpl. intros [= <- <- <- <- <-]. eauto.
  - simpl. intros H. bind_inv H as x Hx. destruct x as [[[h1 s1] ne1] cr1].
    apply (addWordBody_inv own) in Hx as ([own1 Hinv1] & Hs1 & Hlen1); [|done..].
    apply (IH own1) in H as (Hinv2 & Hs2 & Hlen2); [|done..].
    split; [done|]. split; [done|lia].
Qed.

Lemma addWord_inv own fuel h root word h' r :
  trie_inv own h -> (root < length (sts h))%nat ->
  addWord fuel h (Some root) word = Ok (h', r) ->
  (exists own', trie_inv own' h') /\ (root < length (sts h'))%nat.
Proof.
  intros Hinv Hroot. unfold addWord. intros H.
  bind_inv H as x Hx. destruct x as [[[[h1 s1] ne1] ws1] cr1].
  bind_inv H as cs Hcs. injection H as <- <-.
  apply (addWordLoop_inv _ _ own) in Hx as ([own1 Hinv1] & Hs1 & Hlen1); [|done..].
  split.
  - exists own1. by apply trie_inv_set_final.
  - simpl. rewrite length_alter. lia.
Qed.

Lemma addWords_inv fuel words : forall own h root nb mx h' nb' mx',
  trie_inv own h -> (root < length (sts h))%nat ->
  addWords fuel h (Some root) words nb mx = Ok (h', nb', mx') ->
  (exists own', trie_inv own' h') /\ (root < length (sts h'))%nat.
Proof.
  induction words as [|w words IH]; intros own h root nb mx h' nb' mx' Hinv Hroot.
  - simpl. intros [= <- <- <-]. eauto.
  - simpl. intros H. bind_inv H as x Hx. destruct x as [h1 [[ne sz] cn]].
    apply (addWord_inv own) in Hx as ([own1 Hinv1] & Hr1); [|done..].
    by apply (IH own1) in H.
Qed.

Lemma levelLetters_mono rec rec' n : forall n' h p cur r,
  (forall h q v, rec h q = Ok v -> rec' h q = Ok v) -> (n <= n')%nat ->
  levelLetters rec n h p cur = Ok r -> levelLetters rec' n' h p cur = Ok r.
Proof.
  induction n as [|n IH]; intros n' h p cur r Hrec Hn.
  - destruct p; simpl; [discriminate|]. by destruct n'.
  - destruct p as [i|]; [|by destruct n'].
    destruct n' as [|n']; [lia|]. simpl.
    intros H. bind_inv H as cl Hcl. rewrite Hcl. simpl.
    bind_inv H as sub Hsub. rewrite (Hrec _ _ _ Hsub). simpl.
    apply IH; [done|lia|done].
Qed.

Lemma levelOf_mono f : forall f' h p r,
  (f <= f')%nat -> levelOf f h p = Ok r -> levelOf f' h p = Ok r.
Proof.
  induction f as [|f IH]; intros f' h p r Hf; [discriminate|].
  destruct f' as [|f']; [lia|]. simpl.
  intros H. bind_inv H as cs Hcs. rewrite Hcs. simpl.
  bind_inv H as lev Hlev. injection H as <-.
  destruct (state.lettersCount cs =? 0).
  - by injection Hlev as <-.
  - assert (forall h' q v, levelOf f h' q = Ok v -> levelOf f' h' q = Ok v) as Hrec
      by (intros h' q v; apply IH; lia).
    rewrite (levelLetters_mono _ _ f f' h _ 0 lev Hrec ltac:(lia) Hlev). done.
Qed.

Lemma levelLetters_ge rec n : forall h p cur r,
  levelLetters rec n h p cur = Ok r -> cur <= r.
Proof.
  induction n as [|n IH]; intros h p cur r.
  - destruct p; simpl; [discriminate|]. intros [= <-]. lia.
  - destruct p as [i|]; simpl; [|intros [= <-]; lia].
    intros H. bind_inv H as cl Hcl. bind_inv H as sub Hsub.
    apply IH in H. destruct (Z.ltb_spec cur sub); lia.
Qed.

(** The level of every letter of the list is counted. *)
Lemma levelLetters_chain rec n : forall h hd cur r lp l,
  levelLetters rec n h (Some hd) cur = Ok r ->
  rtc (nstep h) hd lp -> lts h !! lp = Some l ->
  exists sub, rec h (letter.state l) = Ok sub /\ sub <= r.
Proof.
  induction n as [|n IH]; intros h hd cur r lp l; [discriminate|].
  simpl. intros H Hr Hl. bind_inv H as cl Hcl. bind_inv H as sub Hsub.
  apply getL_Some in Hcl as (i & [= <-] & Hcl).
  apply rtc_inv in Hr as [<-|(m & (lm & Hm & Hn) & Hr)].
  - rewrite Hl in Hcl. injection Hcl as <-. exists sub. split; [done|].
    apply levelLetters_ge in H. destruct (Z.ltb_spec cur sub); lia.
  - rewrite Hm in Hcl. injection Hcl as <-. rewrite Hn in H. by eapply IH.
Qed.

Lemma levelLetters_seq rec n : forall h h' p cur,
  seq_store h h' -> (forall q, rec h q = rec h' q) ->
  levelLetters rec n h p cur = levelLetters rec n h' p cur.
Proof.
  induction n as [|n IH]; intros h h' p cur Hs Hrec; [done|].
  destruct p as [i|]; [|done]. simpl.
  rewrite (getL_seq h h') by done. destruct (getL h' (Some i)); simpl; try done.
  rewrite Hrec. destruct (rec h' (letter.state a)); simpl; try done.
  by apply IH.
Qed.

Lemma levelOf_seq f : forall h h' p,
  seq_store h h' -> levelOf f h p = levelOf f h' p.
Proof.
  induction f as [|f IH]; intros h h' p Hs; [done|]. simpl.
  destruct (getS h p) as [cs| | |] eqn:E.
  - destruct (getS_seq _ _ _ _ Hs E) as (cs' & -> & Hstrip).
    apply strip_s_fields in Hstrip as [Hc Hl]. simpl. rewrite <- Hc, <- Hl.
    destruct (state.lettersCount cs =? 0); [done|].
    erewrite levelLetters_seq; [done|done|]. intros q. by apply IH.
  - unfold getS in *. destruct p as [i|]; [|done].
    pose proof (seq_store_lookup _ _ i Hs) as Hl.
    destruct (sts h !! i), (sts h' !! i); done.
  - unfold getS in *. destruct p as [i|]; [|done].
    pose proof (seq_store_lookup _ _ i Hs) as Hl.
    destruct (sts h !! i), (sts h' !! i); done.
  - unfold getS in E. destruct p as [i|]; [|done]. by destruct (sts h !! i).
Qed.

(** *** The analysis sorts the states by level *)

Section Levels.
Variable F : nat.
Variable h0 : store.

Lemma lev_fun s n m : lev F h0 s n -> lev F h0 s m -> n = m.
Proof. unfold lev. congruence. Qed.

Lemma pushLevel_sorted h lv p curLevel h' lv' n :
  sorted_levels F h0 h lv ->
  levelOf F h0 p = Ok (curLevel + 1) ->
  pushLevel h lv p curLevel = Ok (h', lv', n) ->
  sorted_levels F h0 h' lv' /\ n = curLevel + 1.
Proof.
  intros (Hseq & Hlv & Hnx) Hlev. unfold pushLevel.
  destruct p as [c|]; [|discriminate].
  destruct (Z.ltb_spec curLevel 0); [discriminate|].
  destruct (Z.leb_spec (Z.of_nat (length lv)) curLevel); [discriminate|]. simpl.
  cbv zeta.
  destruct (lv !! Z.to_nat curLevel) as [lvv|] eqn:El; [|discriminate].
  intros [= <- <- <-]. split; [|done]. split; [|split].
  - eapply seq_store_trans; [exact Hseq|apply seq_store_updS].
  - intros i s. rewrite list_lookup_insert.
    case_decide as Ei.
    + destruct Ei as [<- _]. intros [= <-]. unfold lev.
      rewrite Hlev. f_equal. lia.
    + apply Hlv.
  - intros s st t. simpl. rewrite list_lookup_alter.
    case_decide as Es.
    + subst s. destruct (sts h !! c) as [st0|] eqn:Ec; [|done].
      intros [= <-]. simpl. intros ->.
      exists (curLevel + 1). split; [exact Hlev|].
      specialize (Hlv _ _ El). unfold lev in *. rewrite Hlv. f_equal. lia.
    + apply Hnx.
Qed.

Lemma analyseLetters_sorted f rec : rec_sorted F h0 f rec ->
  forall n h lv p cur h' lv' r,
  sorted_levels F h0 h lv ->
  analyseLetters rec n h lv p cur = Ok (h', lv', r) ->
  sorted_levels F h0 h' lv' /\ levelLetters (levelOf f) n h0 p cur = Ok r.
Proof.
  intros Hrec. induction n as [|n IH]; intros h lv p cur h' lv' r Hs.
  - destruct p; simpl; [discriminate|]. by intros [= <- <- <-].
  - destruct p as [i|]; simpl; [|by intros [= <- <- <-]].
    intros H. bind_inv H as cl Hcl. bind_inv H as x Hx.
    destruct x as [[h1 lv1] sub]. bind_inv H as cl1 Hcl1.
    destruct (Hrec _ _ _ _ _ _ Hs Hx) as [Hs1 Hsub].
    rewrite (getL_seq h0 h) by apply Hs. rewrite Hcl. simpl.
    rewrite Hsub. simpl.
    assert (cl1 = cl) as ->.
    { rewrite <- (getL_seq h0 h1) in Hcl1 by apply Hs1.
      rewrite (getL_seq h0 h) in Hcl1 by apply Hs. congruence. }
    by eapply IH.
Qed.

Lemma analyseSubTrie_sorted f : (f <= F)%nat -> rec_sorted F h0 f (analyseSubTrie f).
Proof.
  induction f as [|f IH]; intros Hf h lv p h' lv' n Hs; [discriminate|].
  simpl. intros H. bind_inv H as cs Hcs. bind_inv H as x Hx.
  destruct x as [[h1 lv1] cur].
  destruct Hs as (Hseq & Hlv & Hnx).
  assert (seq_store h h0) as Hseq' by (destruct Hseq; split; congruence).
  destruct (getS_seq _ _ _ _ Hseq' Hcs) as (cs0 & Hcs0 & Hstrip).
  apply strip_s_fields in Hstrip as [Hc Hl].
  assert (sorted_levels F h0 h1 lv1 /\
          (if state.lettersCount cs =? 0 then Ok 0
           else levelLetters (levelOf f) f h0 (state.letters cs) 0) = Ok cur)
    as [Hs1 Hcur].
  { destruct (state.lettersCount cs =? 0).
    - injection Hx as <- <- <-. done.
    - eapply analyseLetters_sorted; [|done|exact Hx]. apply IH. lia. }
  assert (levelOf (S f) h0 p = Ok (cur + 1)) as Hlev.
  { simpl. rewrite Hcs0. simpl. rewrite <- Hc, <- Hl, Hcur. done. }
  destruct (pushLevel_sorted _ _ _ _ _ _ _ Hs1
              (levelOf_mono _ _ _ _ _ Hf Hlev) H) as [Hs2 ->].
  done.
Qed.

Lemma analyseRoot_sorted fuel : (fuel <= F)%nat ->
  forall n h lv p h' lv',
  sorted_levels F h0 h lv ->
  analyseRoot fuel n h lv p = Ok (h', lv') ->
  sorted_levels F h0 h' lv' /\
  forall cur, exists r, levelLetters (levelOf fuel) n h0 p cur = Ok r.
Proof.
  intros Hf. induction n as [|n IH]; intros h lv p h' lv' Hs.
  - destruct p; simpl; [discriminate|]. intros [= <- <-]. eauto.
  - destruct p as [i|]; simpl; [|intros [= <- <-]; eauto].
    intros H. bind_inv H as cl Hcl. bind_inv H as x Hx.
    destruct x as [[h1 lv1] sub]. bind_inv H as cl1 Hcl1.
    destruct (analyseSubTrie_sorted fuel Hf _ _ _ _ _ _ Hs Hx) as [Hs1 Hsub].
    assert (cl1 = cl) as ->.
    { rewrite <- (getL_seq h0 h1) in Hcl1 by apply Hs1.
      rewrite (getL_seq h0 h) in Hcl1 by apply Hs. congruence. }
    destruct (IH _ _ _ _ _ Hs1 H) as [Hs2 Hr]. split; [done|].
    intros cur. rewrite (getL_seq h0 h) by apply Hs. rewrite Hcl. simpl.
    rewrite Hsub. simpl. apply Hr.
Qed.

End Levels.

(** *** The merge keeps the levels *)

Lemma same_shape_refl h : same_shape h h.
Proof. done. Qed.

Lemma same_shape_trans a b c : same_shape a b -> same_shape b c -> same_shape a c.
Proof. intros [? ?] [? ?]. split; congruence. Qed.

Lemma seq_store_shape h h' : seq_store h h' -> same_shape h h'.
Proof. intros [Hl Hs]. split; [by rewrite Hl|done]. Qed.

Lemma same_shape_updS h c v : same_shape h (updS (state.set_next v) c h).
Proof. apply seq_store_shape, seq_store_updS. Qed.

Lemma same_shape_updL h lp v : same_shape h (updL (letter.set_state v) lp h).
Proof.
  split; [|done]. simpl. apply list_eq. intros i.
  rewrite !list_lookup_fmap, list_lookup_alter.
  case_decide; [subst|done]. destruct (lts h !! i); reflexivity.
Qed.

Lemma same_shape_letter h h' a l :
  same_shape h h' -> lts h !! a = Some l ->
  exists l', lts h' !! a = Some l' /\ strip_l l = strip_l l'.
Proof.
  intros [Hl _] Ha. pose proof (f_equal (fun x => x !! a) Hl) as E. simpl in E.
  rewrite !list_lookup_fmap, Ha in E.
  destruct (lts h' !! a) as [l'|]; [|done].
  change (Some (strip_l l) = Some (strip_l l')) in E. exists l'. split; [done|congruence].
Qed.

Lemma same_shape_state h h' s st :
  same_shape h h' -> sts h !! s = Some st ->
  exists st', sts h' !! s = Some st' /\ strip_s st = strip_s st'.
Proof.
  intros [_ Hs] Ha. pose proof (f_equal (fun x => x !! s) Hs) as E. simpl in E.
  rewrite !list_lookup_fmap, Ha in E.
  destruct (sts h' !! s) as [st'|]; [|done].
  change (Some (strip_s st) = Some (strip_s st')) in E. exists st'. split; [done|congruence].
Qed.

Lemma same_shape_sym h h' : same_shape h h' -> same_shape h' h.
Proof. intros [? ?]. by split. Qed.

Lemma strip_l_fields a b :
  strip_l a = strip_l b ->
  letter.left a = letter.left b /\ letter.right a = letter.right b /\
  letter.next a = letter.next b /\ letter.char a = letter.char b.
Proof. destruct a, b. unfold strip_l, letter.set_state. simpl. by intros [= ? ? ? ?]. Qed.

Lemma strip_s_more a b :
  strip_s a = strip_s b ->
  state.letters a = state.letters b /\ state.letter a = state.letter b /\
  state.final a = state.final b.
Proof. destruct a, b. unfold strip_s, state.set_next. simpl. by intros [= ? ? ? ? ?]. Qed.

Lemma same_shape_lstep h h' a b : same_shape h h' -> lstep h a b -> lstep h' a b.
Proof.
  intros Hsh (l & Ha & Hlink).
  destruct (same_shape_letter _ _ _ _ Hsh Ha) as (l' & Ha' & Hstrip).
  apply strip_l_fields in Hstrip as (El & Er & En & _).
  exists l'. split; [done|]. rewrite <- El, <- Er, <- En. done.
Qed.

Lemma same_shape_owns h h' s lp : same_shape h h' -> owns h s lp -> owns h' s lp.
Proof.
  intros Hsh (st & hd & Hs & Hhd & Hr).
  destruct (same_shape_state _ _ _ _ Hsh Hs) as (st' & Hs' & Hstrip).
  apply strip_s_more in Hstrip as (El & _).
  exists st', hd. split; [done|]. split; [congruence|].
  clear -Hsh Hr. induction Hr as [|x y z Hxy _ IH]; [done|].
  eapply rtc_l; [|exact IH]. by eapply same_shape_lstep.
Qed.

Section Merge.
Variable F : nat.
Variable h0 : store.

Hypothesis Hpa : parent_above F h0.

Lemma merge_step h c prev s ss lp n :
  merging F h0 h -> lev F h0 c n -> lev F h0 prev n -> lev F h0 s n ->
  sts h !! s = Some ss -> state.letter ss = Some lp ->
  merging F h0 (updL (letter.set_state (Some c)) lp
             (updS (state.set_next (state.next ss)) prev h)).
Proof.
  intros (Hsh & Hnx & Hed) Hc Hprev Hs Hss Hlp.
  set (h1 := updS (state.set_next (state.next ss)) prev h).
  set (h2 := updL (letter.set_state (Some c)) lp h1).
  assert (same_shape h h2) as Hsh2.
  { eapply same_shape_trans; [apply same_shape_updS|apply same_shape_updL]. }
  split; [|split].
  - by eapply same_shape_trans.
  - intros s' st' t. unfold h2, h1. simpl. rewrite list_lookup_alter.
    case_decide as E.
    + subst s'. destruct (sts h !! prev) as [st0|]; [|done].
      intros [= <-]. simpl. intros Ht.
      destruct (Hnx s ss t Hss Ht) as (n' & Hs' & Ht').
      rewrite <- (lev_fun _ _ _ _ _ Hs Hs') in Ht'. eauto.
    + apply Hnx.
  - intros o no t Ho (lp' & l' & Hown & Hl' & Hst).
    apply (same_shape_owns _ _ _ _ (same_shape_sym _ _ Hsh2)) in Hown.
    unfold h2, h1 in Hl'. simpl in Hl'. rewrite list_lookup_alter in Hl'.
    case_decide as E.
    + subst lp'. destruct (lts h !! lp) as [l0|]; [|done].
      injection Hl' as <-. simpl in Hst. injection Hst as <-.
      exists n. split; [done|].
      destruct (same_shape_state _ _ _ _ (same_shape_sym _ _ Hsh) Hss)
        as (st0 & Hst0 & Hstrip).
      apply strip_s_more in Hstrip as (_ & Elet & _).
      eapply (Hpa s st0 lp o); [done|congruence| |done|done].
      by apply (same_shape_owns _ _ _ _ (same_shape_sym _ _ Hsh)).
    + apply (Hed o no t Ho). by exists lp', l'.
Qed.

Lemma mergeSame_merging fuel k : forall h c prev same d h' d' n,
  merging F h0 h -> lev F h0 c n -> lev F h0 prev n ->
  (forall s, same = Some s -> lev F h0 s n) ->
  mergeSame fuel k h c prev same d = Ok (h', d') -> merging F h0 h'.
Proof.
  induction k as [|k IH]; intros h c prev same d h' d' n Hm Hc Hprev Hsame.
  - destruct same; simpl; [discriminate|]. by intros [= <- <-].
  - destruct same as [sp|]; simpl; [|by intros [= <- <-]].
    specialize (Hsame sp eq_refl).
    intros H. bind_inv H as e He. destruct e.
    + bind_inv H as ss Hss. bind_inv H as ps Hps. bind_inv H as ss1 Hss1.
      apply getS_Some in Hss as (i & [= <-] & Hss).
      assert (state.letter ss1 = state.letter ss) as Elet.
      { apply getS_Some in Hss1 as (i & [= <-] & Hss1).
        simpl in Hss1. rewrite list_lookup_alter in Hss1.
        case_decide; [subst|congruence]. rewrite Hss in Hss1.
        by injection Hss1 as <-. }
      destruct (state.letter ss1) as [lp|] eqn:Elp; [|discriminate].
      bind_inv H as l Hl. bind_inv H as ss2 Hss2.
      pose proof (merge_step h c prev sp ss lp n Hm Hc Hprev Hsame Hss
                    (eq_sym Elet)) as Hm2.
      eapply (IH _ _ _ _ _ _ _ n Hm2 Hc Hprev); [|exact H].
      intros s' Hs'. apply getS_Some in Hss2 as (i & [= <-] & Hss2).
      destruct Hm2 as (_ & Hnx2 & _).
      destruct (Hnx2 sp ss2 s' Hss2 Hs') as (n' & Hn1 & Hn2).
      by rewrite (lev_fun _ _ _ _ _ Hsame Hn1).
    + bind_inv H as ss Hss. apply getS_Some in Hss as (i & [= <-] & Hss).
      eapply (IH _ _ _ _ _ _ _ n Hm Hc Hsame); [|exact H].
      intros s' Hs'. destruct Hm as (_ & Hnx & _).
      destruct (Hnx sp ss s' Hss Hs') as (n' & Hn1 & Hn2).
      by rewrite (lev_fun _ _ _ _ _ Hsame Hn1).
Qed.

Lemma mergeLevel_merging fuel k : forall h cur d h' d',
  merging F h0 h -> (forall c, cur = Some c -> exists n, lev F h0 c n) ->
  mergeLevel fuel k h cur d = Ok (h', d') -> merging F h0 h'.
Proof.
  assert (forall h cur d h' d',
    merging F h0 h -> (forall c, cur = Some c -> exists n, lev F h0 c n) ->
    mergeLevel fuel 0 h cur d = Ok (h', d') -> merging F h0 h') as H0.
  { intros h cur d h' d' Hm Hcur. destruct cur as [c|]; simpl; [|by intros [= <- <-]].
    intros H. bind_inv H as cs Hcs.
    destruct (state.next cs); [discriminate|]. by injection H as <- <-. }
  induction k as [|k IH]; [exact H0|]. intros h cur d h' d' Hm Hcur.
  destruct cur as [c|]; simpl; [|by intros [= <- <-]].
  destruct (Hcur c eq_refl) as [n Hc].
  intros H. bind_inv H as cs Hcs.
  apply getS_Some in Hcs as (i & [= <-] & Hcs).
  destruct (state.next cs) as [nx|] eqn:Enx; [|by injection H as <- <-].
  bind_inv H as x Hx. destruct x as [h1 d1]. bind_inv H as cs1 Hcs1.
  assert (merging F h0 h1) as Hm1.
  { eapply (mergeSame_merging _ _ _ _ _ _ _ _ _ n Hm Hc Hc); [|exact Hx].
    intros s' [= <-]. destruct Hm as (_ & Hnx & _).
    destruct (Hnx c cs nx Hcs Enx) as (n' & Hn1 & Hn2).
    by rewrite (lev_fun _ _ _ _ _ Hc Hn1). }
  eapply (IH _ _ _ _ _ Hm1); [|exact H].
  intros c' Hc'. apply getS_Some in Hcs1 as (i & [= <-] & Hcs1).
  destruct Hm1 as (_ & Hnx1 & _).
  destruct (Hnx1 c cs1 c' Hcs1 Hc') as (n' & _ & Hn2). eauto.
Qed.

Lemma mergeLevels_merging fuel lv : forall h d h' d',
  merging F h0 h -> (forall i s, lv !! i = Some (Some s) -> exists n, lev F h0 s n) ->
  mergeLevels fuel h lv d = Ok (h', d') -> merging F h0 h'.
Proof.
  induction lv as [|l lv IH]; intros h d h' d' Hm Hlv; simpl.
  - by intros [= <- <-].
  - intros H. bind_inv H as x Hx. destruct x as [h1 d1].
    apply mergeLevel_merging in Hx; [|done|].
    2:{ intros c ->. apply (Hlv 0%nat c). done. }
    eapply IH; [exact Hx| |exact H].
    intros i s Hi. apply (Hlv (S i) s). done.
Qed.

(** With the edges going down, no state that has a level is on a cycle. *)
Lemma edges_down_acyclic h root n :
  edges_down F h0 h -> lev F h0 root n -> acyclic_from h root.
Proof.
  intros Hed Hroot.
  assert (forall s t, tc (edge h) s t -> forall k, lev F h0 s k ->
            exists m, lev F h0 t m /\ m < k) as Htc.
  { induction 1 as [s t Hst|s t u Hst _ IH]; intros k Hk.
    - by eapply Hed.
    - destruct (Hed _ _ _ Hk Hst) as (m & Hm & Hlt).
      destruct (IH m Hm) as (m' & Hm' & Hlt'). exists m'. split; [done|lia]. }
  intros s Hreach Hcyc.
  assert (exists k, lev F h0 s k) as [k Hk].
  { apply rtc_tc in Hreach as [<-|Hreach]; [eauto|].
    destruct (Htc _ _ Hreach n Hroot) as (m & Hm & _). eauto. }
  destruct (Htc _ _ Hcyc k Hk) as (m & Hm & Hlt).
  rewrite (lev_fun _ _ _ _ _ Hk Hm) in Hlt. lia.
Qed.

End Merge.

(** *** The trie has its edges going down *)

Lemma owns_own own h s lp : trie_inv own h -> owns h s lp -> own lp = s.
Proof.
  intros Hinv (st & hd & Hs & Hhd & Hr).
  destruct (ti_hd _ _ Hinv s st hd Hs Hhd) as [_ Hohd].
  rewrite <- Hohd. clear Hs Hhd Hohd.
  induction Hr as [|x y z (l & Hx & Hlink) _ IH]; [done|].
  rewrite IH. by destruct (ti_link _ _ Hinv x l y Hx Hlink).
Qed.

Lemma trie_edges_down own F h : trie_inv own h -> edges_down F h h.
Proof.
  intros Hinv o n t Ho (lp & l & Hown & Hl & Hst).
  pose proof (owns_own _ _ _ _ Hinv Hown) as Hoo.
  destruct (ti_chain _ _ Hinv lp (lookup_lt_Some _ _ _ Hl))
    as (st & hd & Hs & Hhd & Hr).
  rewrite Hoo in Hs. unfold lev in *.
  destruct F as [|f]; [discriminate|]. simpl in Ho.
  unfold getS in Ho. rewrite Hs in Ho. simpl in Ho.
  destruct (ti_count _ _ Hinv o st Hs) as [_ Hcnt].
  destruct (Z.eqb_spec (state.lettersCount st) 0) as [E|_].
  { rewrite Hhd in Hcnt. specialize (Hcnt ltac:(done)). lia. }
  bind_inv Ho as cur Hcur. injection Ho as <-. rewrite Hhd in Hcur.
  destruct (levelLetters_chain _ _ _ _ _ _ _ _ Hcur Hr Hl) as (sub & Hsub & Hle).
  rewrite Hst in Hsub. exists sub. split; [|lia].
  eapply levelOf_mono; [|exact Hsub]. lia.
Qed.

Lemma trie_parent_above own F h : trie_inv own h -> parent_above F h.
Proof.
  intros Hinv s st lp o n m Hs Hlp Hown Ho Hm.
  destruct (ti_letter _ _ Hinv s st lp Hs Hlp) as (l & Hl & Hst).
  destruct (trie_edges_down own F h Hinv o n s Ho) as (m' & Hm' & Hlt).
  { by exists lp, l. }
  by rewrite (lev_fun _ _ _ _ _ Hm Hm').
Qed.

Lemma seq_store_edge h h' s t : seq_store h h' -> edge h' s t -> edge h s t.
Proof.
  intros Hseq (lp & l & Hown & Hl & Hst).
  exists lp, l. split; [|split; [|done]].
  - eapply same_shape_owns; [|exact Hown].
    apply same_shape_sym. by apply seq_store_shape.
  - destruct Hseq as [-> _]. done.
Qed.

(** C8: in every graph that CreateDAWG builds (the trie of addWord, merged by
    compressTrie), no state that the initial state reaches lies on a cycle:
    no nonempty sequence of edges leads from it back to itself. *)
Theorem CreateDAWG_acyclic fuel words h g :
  CreateDAWG fuel words = Ok (h, g) ->
  exists root, initialState g = Some root /\ acyclic_from h root.
Proof.
  unfold CreateDAWG. rewrite allocS_eq. simpl length.
  intros H. bind_inv H as x Hx. destruct x as [[h1 nb] mx].
  bind_inv H as y Hy. destruct y as [h2 del]. injection H as <- <-.
  exists 0%nat. split; [done|].
  apply (addWords_inv _ _ (fun _ => 0%nat)) in Hx as ([own Hinv] & Hroot);
    [|apply trie_inv_init|simpl; lia].
  apply compressTrie_inv in Hy as (rs & hA & lv & Hmx & Hrs & Ha & Hm).
  assert (sorted_levels (S fuel) h1 h1 (replicate (Z.to_nat mx) None)) as Hs0.
  { split; [done|]. split.
    - intros i s Hi. apply lookup_replicate in Hi as [? _]. done.
    - intros s st t Hs Ht. by rewrite (ti_next _ _ Hinv s st Hs) in Ht. }
  assert (sorted_levels (S fuel) h1 hA lv /\
          exists n, lev (S fuel) h1 0 n) as [(Hseq & Hlv & Hnx) [n Hn]].
  { unfold lev. simpl. rewrite Hrs. simpl.
    destruct (state.lettersCount rs =? 0).
    - injection Ha as <- <-. eauto.
    - destruct (analyseRoot_sorted (S fuel) h1 fuel ltac:(lia) _ _ _ _ _ _ Hs0 Ha)
        as [Hs1 Hr]. split; [done|].
      destruct (Hr 0) as [r ->]. simpl. eauto. }
  assert (merging (S fuel) h1 hA) as HmA.
  { split; [by apply seq_store_shape|]. split; [done|].
    intros o k t Ho He. apply (trie_edges_down own (S fuel) h1 Hinv o k t Ho).
    by eapply seq_store_edge. }
  pose proof (mergeLevels_merging (S fuel) h1 (trie_parent_above own _ _ Hinv)
                fuel lv hA 0 h2 del HmA) as Hm2.
  destruct Hm2 as (_ & _ & Hed); [|exact Hm|].
  { intros i s Hi. eauto. }
  by eapply edges_down_acyclic.
Qed.

Lemma CreateDAWG_acyclic_witness :
  exists root, initialState built4.2 = Some root /\ acyclic_from built4.1 root.
Proof.
  apply (CreateDAWG_acyclic 100 words4 built4.1 built4.2).
  vm_compute. reflexivity.
Defined.

(** Two edges of the graph of TestCreateDAWG: the letters t and n of the
    initial state lead to the states 5 and 9. *)
Example built4_root_edges : edge built4.1 0 5 /\ edge built4.1 0 9.
Proof.
  assert (forall lp, rtc (lstep built4.1) 0%nat lp -> owns built4.1 0 lp) as Hown.
  { intros lp Hr. eexists _, 0%nat. split; [reflexivity|]. split; [reflexivity|done]. }
  split.
  - exists 0%nat. eexists. split; [by apply Hown|]. split; reflexivity.
  - exists 8%nat. eexists. split; [|split; reflexivity].
    apply Hown. apply rtc_once. eexists. split; [reflexivity|]. vm_compute. auto.
Qed.

(** ** What Search returns: words of the graph, within the budget *)

Lemma follow_all G rec h l start ws n maxR fl :
  rec_ok rec -> start_wf start ->
  (forall r, rec h (letter.state l) (WriteRune start (letter.char l)).2 = Ok r ->
     Forall G r.2.1) ->
  Forall G ws ->
  follow rec h l start ws n maxR = Ok fl -> flow_all G h start fl.
Proof.
  intros Hok Hwf Hrec Hws. unfold follow.
  pose proof (Truncate_WriteRune start (letter.char l) Hwf) as Ht.
  destruct (WriteRune start (letter.char l)) as [runeLen start1]. simpl in Ht, Hrec.
  intros H. bind_inv H as x Hx. destruct x as [h1 [fw fs]].
  pose proof (Hok _ _ _ _ Hx) as [Hh _]. simpl in Hh. subst h1.
  apply Hrec in Hx. simpl in Hx.
  pose proof (mergeWords_fst fw fs ws n) as Hm.
  destruct (mergeWords fw fs ws n) as [ws1 n1]. simpl in Hm. subst ws1.
  assert (Forall G (fw ++ ws)) as Hall by (by apply Forall_app).
  destruct (capped maxR n1).
  - injection H as <-. done.
  - rewrite Ht in H. simpl in H. injection H as <-. done.
Qed.

Lemma eachLetter_all G rec k : rec_ok rec ->
  forall h lp c ign start ws n maxR fl,
  start_wf start ->
  (forall a0 a l, lp = Some a0 -> rtc (nstep h) a0 a -> lts h !! a = Some l ->
     forall r, rec h (letter.state l) (WriteRune start (letter.char l)).2 = Ok r ->
       Forall G r.2.1) ->
  Forall G ws ->
  eachLetter rec k h lp c ign start ws n maxR = Ok fl -> flow_all G h start fl.
Proof.
  intros Hok. induction k as [|k IH]; intros h lp c ign start ws n maxR fl Hwf Hrec Hws.
  - destruct lp; simpl; [discriminate|]. intros [= <-]. done.
  - destruct lp as [i|]; simpl; [|intros [= <-]; done].
    intros H. bind_inv H as l Hl. bind_inv H as f1 Hf1.
    apply getL_Some in Hl as (j & [= <-] & Hl).
    assert (flow_all G h start f1) as Hf.
    { destruct (_ && _) in Hf1.
      - eapply follow_all; [done|done| |done|exact Hf1].
        eapply Hrec; [done|done|done].
      - injection Hf1 as <-. done. }
    destruct f1 as [h1 ws1 n1|h1 ws1 n1 start1].
    + injection H as <-. done.
    + destruct Hf as (-> & Hws1 & ->).
      bind_inv H as l1 Hl1. apply getL_Some in Hl1 as (j & [= <-] & Hl1).
      rewrite Hl in Hl1. injection Hl1 as <-.
      eapply IH; [done| |done|exact H].
      intros a0 a l' E Hr. eapply Hrec; [done|].
      eapply rtc_l; [|exact Hr]. exists l. done.
Qed.

Lemma findLetter_lstep n : forall h p c i,
  findLetter n h (Some p) c = Ok (Some i) -> rtc (lstep h) p i.
Proof.
  induction n as [|n IH]; intros h p c i; [discriminate|]. simpl.
  intros H. bind_inv H as cl Hcl. apply getL_Some in Hcl as (j & [= <-] & Hcl).
  destruct (letter.char cl =? c); [by injection H as <-|].
  destruct (letter.char cl <? c).
  - destruct (letter.left cl) as [q|] eqn:E; [|by destruct n].
    eapply rtc_l; [|by eapply IH]. exists cl. auto.
  - destruct (letter.right cl) as [q|] eqn:E; [|by destruct n].
    eapply rtc_l; [|by eapply IH]. exists cl. auto.
Qed.

Lemma getletter_owns n h st c lt :
  getletter n h st c = Ok (Some lt) -> exists s, st = Some s /\ owns h s lt.
Proof.
  unfold getletter. intros H. bind_inv H as s Hs.
  apply getS_Some in Hs as (i & -> & Hs). exists i. split; [done|].
  destruct (state.letters s) as [hd|] eqn:E; [|by destruct n].
  exists s, hd. split; [done|]. split; [done|]. by eapply findLetter_lstep.
Qed.

Lemma nstep_owns h s st hd a :
  sts h !! s = Some st -> state.letters st = Some hd -> rtc (nstep h) hd a -> owns h s a.
Proof.
  intros Hs Hhd Hr. exists st, hd. split; [done|]. split; [done|]. clear Hhd.
  induction Hr as [|x m y (l & Hl & Hn) _ IH]; [done|].
  eapply rtc_l; [|exact IH]. exists l. auto.
Qed.

Lemma exactStep_all G rec n h st start c ign maxR fl :
  rec_ok rec -> start_wf start ->
  (forall s a l, st = Some s -> owns h s a -> lts h !! a = Some l -> letter.char l = c ->
     forall r, rec h (letter.state l) (WriteRune start (letter.char l)).2 = Ok r ->
       Forall G r.2.1) ->
  exactStep rec n h st start c ign maxR = Ok fl -> flow_all G h start fl.
Proof.
  intros Hok Hwf Hrec. unfold exactStep.
  destruct (negb _); [|intros [= <-]; done].
  intros H. bind_inv H as lt Hlt. destruct lt as [lt|]; [|injection H as <-; done].
  bind_inv H as l Hl. apply getL_Some in Hl as (j & [= <-] & Hl).
  destruct (getletter_owns _ _ _ _ _ Hlt) as (s & -> & Hown).
  destruct (getletter_char _ _ _ _ _ Hlt) as (l' & Hl' & Hc).
  apply getL_Some in Hl' as (j & [= <-] & Hl'). rewrite Hl in Hl'. injection Hl' as <-.
  eapply follow_all; [done|done| |done|exact H].
  by eapply Hrec.
Qed.

Lemma changeSteps_all G rec n h st start c ign ws wsize maxR aD fl :
  rec_ok rec -> start_wf start ->
  (forall s a l, st = Some s -> owns h s a -> lts h !! a = Some l ->
     forall r, rec h (letter.state l) (WriteRune start (letter.char l)).2 = Ok r ->
       Forall G r.2.1) ->
  (aD = true -> forall r, rec h st start = Ok r -> Forall G r.2.1) ->
  Forall G ws ->
  changeSteps rec n h st start c ign ws wsize maxR aD = Ok fl -> flow_all G h start fl.
Proof.
  intros Hok Hwf Hrec Hdel Hws. unfold changeSteps.
  intros H. bind_inv H as s Hs. apply getS_Some in Hs as (i & -> & Hs).
  bind_inv H as f1 Hf1.
  apply (eachLetter_all G) in Hf1; [|done|done| |done].
  2:{ intros a0 a l E Hr Hl. eapply Hrec; [done| |done].
      by eapply nstep_owns. }
  destruct f1 as [h1 ws1 n1|h1 ws1 n1 start1]; [by injection H as <-|].
  destruct Hf1 as (-> & Hws1 & ->).
  destruct aD; [|by injection H as <-].
  bind_inv H as x Hx. destruct x as [h3 [fw fs]].
  pose proof (Hok _ _ _ _ Hx) as [Hh _]. simpl in Hh. subst h3.
  apply Hdel in Hx; [|done]. simpl in Hx.
  pose proof (mergeWords_fst fw fs ws1 n1) as Hm.
  destruct (mergeWords fw fs ws1 n1) as [ws3 n3]. simpl in Hm. subst ws3.
  assert (Forall G (fw ++ ws1)) as Hall by (by apply Forall_app).
  destruct (capped maxR n3); by injection H as <-.
Qed.

Lemma addSteps_all G rec n h st start c ign ws wsize maxR fl :
  rec_ok rec -> start_wf start ->
  (forall s a l, st = Some s -> owns h s a -> lts h !! a = Some l ->
     forall r, rec h (letter.state l) (WriteRune start (letter.char l)).2 = Ok r ->
       Forall G r.2.1) ->
  Forall G ws ->
  addSteps rec n h st start c ign ws wsize maxR = Ok fl -> flow_all G h start fl.
Proof.
  intros Hok Hwf Hrec Hws. unfold addSteps.
  intros H. bind_inv H as s Hs. apply getS_Some in Hs as (i & -> & Hs).
  apply (eachLetter_all G) in H; [done|done|done| |done].
  intros a0 a l E Hr Hl. eapply Hrec; [done| |done].
  by eapply nstep_owns.
Qed.

Lemma found_ok_letter h s a l start aA aD d d' q q' w :
  start_wf start -> owns h s a -> lts h !! a = Some l ->
  (forall rs, edits aA aD (Z.to_nat d') q' rs ->
              edits aA aD (Z.to_nat d) q (letter.char l :: rs)) ->
  found_ok h (letter.state l) (WriteRune start (letter.char l)).2 aA aD d' q' w ->
  found_ok h (Some s) start aA aD d q w.
Proof.
  intros Hwf Hown Hl Hed (rs & Hsp & -> & He).
  exists (letter.char l :: rs). split; [by eapply spelled_cons|].
  split; [|by apply Hed].
  rewrite String_WriteRune by done. unfold encodeRunes. simpl.
  by rewrite <- app_assoc.
Qed.

Lemma Forall_found_letter h s a l start aA aD d d' q q' ws :
  start_wf start -> owns h s a -> lts h !! a = Some l ->
  (forall rs, edits aA aD (Z.to_nat d') q' rs ->
              edits aA aD (Z.to_nat d) q (letter.char l :: rs)) ->
  Forall (found_ok h (letter.state l) (WriteRune start (letter.char l)).2 aA aD d' q') ws ->
  Forall (found_ok h (Some s) start aA aD d q) ws.
Proof.
  intros Hwf Hown Hl Hed HF. eapply Forall_impl; [exact HF|].
  intros w. by eapply found_ok_letter.
Qed.

Lemma readBlock_sound self k h st start end_ d maxR aA aD ign fl c e1 :
  self_ok self -> self_sound self -> start_wf start ->
  readBlock self k h st start end_ d maxR aA aD ign = Ok (fl, c, e1) ->
  flow_all (found_ok h st start aA aD d (runesOf (String end_))) h start fl /\
  (forall h1 ws n s1, fl = Go h1 ws n s1 -> String e1 = String end_).
Proof.
  intros Hok Hsound Hwf. unfold readBlock.
  destruct (0 <? Len end_) eqn:EL.
  - apply Len_pos_String in EL.
    destruct (ReadRune_spec _ EL) as (e & Hr & He & Hu).
    rewrite (runesOf_cons _ EL). rewrite <- He.
    set (ch := (DecodeRune (String end_)).1) in *.
    rewrite Hr. simpl. intros H.
    bind_inv H as f1 Hf1. bind_inv H as f2 Hf2.
    set (G := found_ok h st start aA aD d (ch :: runesOf (String e))).
    assert (flow_all G h start f1) as H1.
    { eapply exactStep_all; [apply Hok|done| |exact Hf1].
      intros s a l -> Hown Hl Hc r Hrec.
      apply Hsound in Hrec; [|by apply WriteRune_wf].
      eapply Forall_found_letter; [done..| |exact Hrec].
      intros rs Hrs. rewrite Hc. by apply edits_same. }
    assert (flow_all G h start f2) as H2.
    { destruct f1 as [h1 ws1 n1|h1 ws1 n1 start1]; [by injection Hf2 as <-|].
      destruct H1 as (-> & Hws1 & ->).
      destruct (Z.ltb_spec 0 d) as [Hd|Hd]; [|by injection Hf2 as <-].
      assert (Z.to_nat d = S (Z.to_nat (d - 1))) as Ed by lia.
      eapply changeSteps_all; [apply Hok|done| | |done|exact Hf2].
      - intros s a l -> Hown Hl r Hrec.
        apply Hsound in Hrec; [|by apply WriteRune_wf].
        eapply Forall_found_letter; [done..| |exact Hrec].
        intros rs Hrs. rewrite Ed. by apply edits_change.
      - intros -> r Hrec. apply Hsound in Hrec; [|done].
        eapply Forall_impl; [exact Hrec|].
        intros w (rs & Hsp & -> & He'). exists rs. split; [done|]. split; [done|].
        rewrite Ed. by apply edits_delete. }
    destruct f2 as [h2 ws2 n2|h2 ws2 n2 start2].
    + injection H as <- <- <-. split; [done|]. intros; discriminate.
    + bind_inv H as e2 He2. injection H as <- <- <-. split; [done|].
      intros _ _ _ _ _. rewrite Hu in He2. by injection He2 as <-.
  - apply Len_zero_String in EL. rewrite EL, runesOf_nil.
    intros H. bind_inv H as s Hs.
    destruct (state.final s) eqn:Ef; injection H as <- <- <-.
    + split; [|done]. split; [done|]. split; [|done].
      apply Forall_singleton. exists []. split; [by eapply spelled_nil|].
      split; [by rewrite app_nil_r|apply edits_nil].
    + split; [|done]. done.
Qed.

Lemma searchBody_sound self k :
  self_ok self -> self_sound self -> self_sound (searchBody self k).
Proof.
  intros Hok Hsound h st start end_ d maxR aA aD ign r Hwf. unfold searchBody.
  intros H. bind_inv H as x Hx. destruct x as [[fl c] e1].
  apply readBlock_sound in Hx as [Hfl He]; [|done..].
  destruct fl as [h1 ws n|h1 ws n start1]; [by injection H as <-; destruct Hfl|].
  destruct Hfl as (-> & Hws & ->). specialize (He _ _ _ _ eq_refl).
  destruct (Z.ltb_spec 0 d) as [Hd|Hd]; simpl in H; [|by injection H as <-].
  destruct aA; simpl in H; [|by injection H as <-].
  bind_inv H as f Hf. injection H as <-.
  assert (Z.to_nat d = S (Z.to_nat (d - 1))) as Ed by lia.
  eapply (addSteps_all (found_ok h st start true aD d (runesOf (String end_)))) in Hf;
    [|apply Hok|done| |done].
  - destruct f; simpl; [by destruct Hf|by destruct Hf as (_ & ? & _)].
  - intros s a l -> Hown Hl r Hrec.
    apply Hsound in Hrec; [|by apply WriteRune_wf].
    eapply Forall_found_letter; [done..| |exact Hrec].
    intros rs Hrs. rewrite Ed, <- He. by apply edits_add.
Qed.

Lemma searchSubString_sound fuel : self_sound (searchSubString fuel).
Proof.
  induction fuel as [|fuel IH]; [intros ? ? ? ? ? ? ? ? ? ? ?; discriminate|].
  simpl. apply searchBody_sound; [apply searchSubString_self_ok|exact IH].
Qed.

Lemma Search_found fuel h dawg word d k aA aD h' ws w :
  Search fuel h dawg word d k aA aD = Ok (h', ws) -> w ∈ ws ->
  exists rs, spelled h (initialState dawg) rs /\ w = encodeRunes rs /\
             edits aA aD (Z.to_nat d) (runesOf word) rs.
Proof.
  intros H Hw. apply Search_inv in H as (found & Hs & -> & -> & _).
  apply searchSubString_sound in Hs; [|done]. simpl in Hs.
  apply (proj1 (elem_of_rev _ _)) in Hw.
  apply elem_of_take in Hw as (i & Hw & _). rewrite lookup_drop in Hw.
  rewrite Forall_forall in Hs. apply Hs.
  eapply list_elem_of_lookup_2. exact Hw.
Qed.

(** ** Transitions and accepted words *)

Lemma accepted_None h rs : ~ accepted h None rs.
Proof.
  intros H. inversion H as [st s Hg|st c rs' n lt l Hg]; subst.
  - discriminate.
  - unfold getletter in Hg. discriminate.
Qed.

Lemma accepted_nil_iff h s : accepted h (Some s) [] <-> final_at h s.
Proof.
  split.
  - intros H. inversion H as [st s' Hg Hf|]; subst.
    apply getS_Some in Hg as (i & [= <-] & Hs). by exists s'.
  - intros (st & Hs & Hf). eapply accepted_nil; [|exact Hf].
    unfold getS. by rewrite Hs.
Qed.

Lemma accepted_cons_iff h s c rs :
  accepted h (Some s) (c :: rs) <-> exists t, step h s c t /\ accepted h (Some t) rs.
Proof.
  split.
  - intros H. inversion H as [|st c' rs' n lt l Hg Hl Hacc]; subst.
    apply getL_Some in Hl as (j & [= <-] & Hl).
    destruct (letter.state l) as [t|] eqn:E; [|by apply accepted_None in Hacc].
    exists t. split; [|done]. by exists n, lt, l.
  - intros (t & (n & lt & l & Hg & Hl & Hst) & Hacc).
    eapply accepted_cons; [exact Hg| |by rewrite Hst].
    unfold getL. by rewrite Hl.
Qed.

Lemma accepted_leads h s rs :
  accepted h (Some s) rs <-> exists u, leads h s rs u /\ final_at h u.
Proof.
  revert s. induction rs as [|c rs IH]; intros s.
  - rewrite accepted_nil_iff. split.
    + intros H. exists s. split; [constructor|done].
    + intros (u & Hl & Hf). by inversion Hl; subst.
  - rewrite accepted_cons_iff. split.
    + intros (t & Hst & Hacc). apply IH in Hacc as (u & Hl & Hf).
      exists u. split; [by econstructor|done].
    + intros (u & Hl & Hf). inversion Hl as [|? ? t ? ? Hst Hl']; subst.
      exists t. split; [done|]. apply IH. eauto.
Qed.

Lemma step_fun h s c t t' : step h s c t -> step h s c t' -> t = t'.
Proof.
  intros (n & lt & l & Hg & Hl & Hst) (n' & lt' & l' & Hg' & Hl' & Hst').
  pose proof (getletter_agree _ _ _ _ _ _ _ Hg Hg') as [= <-]. congruence.
Qed.

Lemma leads_app h s rs t rs' u :
  leads h s rs t -> leads h t rs' u -> leads h s (rs ++ rs') u.
Proof. induction 1; simpl; [done|]. intros. econstructor; eauto. Qed.

Lemma leads_snoc_inv h s rs c u :
  leads h s (rs ++ [c]) u -> exists t, leads h s rs t /\ step h t c u.
Proof.
  revert s. induction rs as [|c' rs IH]; intros s; simpl; intros H.
  - inversion H as [|? ? t ? ? Hst Hl]; subst. inversion Hl; subst.
    exists s. split; [constructor|done].
  - inversion H as [|? ? t ? ? Hst Hl]; subst.
    apply IH in Hl as (t' & Hl & Hst'). exists t'. split; [by econstructor|done].
Qed.

(** Two stores with the same transitions and final states accept the same
    words. *)
Lemma accepted_ext (P : nat -> Prop) h h' :
  (forall t c u, P t -> step h t c u -> step h' t c u /\ P u) ->
  (forall t, P t -> final_at h t -> final_at h' t) ->
  forall rs t, P t -> accepted h (Some t) rs -> accepted h' (Some t) rs.
Proof.
  intros Hst Hfin. induction rs as [|c rs IH]; intros t Ht.
  - rewrite !accepted_nil_iff. by apply Hfin.
  - rewrite !accepted_cons_iff. intros (u & Hs & Hacc).
    destruct (Hst t c u Ht Hs) as [Hs' Hu]. exists u. split; [done|]. by apply IH.
Qed.

Lemma leads_ext (P : nat -> Prop) h h' :
  (forall t c u, P t -> step h t c u -> step h' t c u /\ P u) ->
  forall t rs u, P t -> leads h t rs u -> leads h' t rs u.
Proof.
  intros Hst t rs u Ht Hl. induction Hl as [|s c t rs u Hs Hl IH]; [constructor|].
  destruct (Hst s c t Ht Hs) as [Hs' Hu]. econstructor; [exact Hs'|]. by apply IH.
Qed.

(** ** The tree walk in two stores *)

Lemma findLetter_tree_eq h h' :
  (forall x, tree_view <$> lts h !! x = tree_view <$> lts h' !! x) ->
  forall n p c, findLetter n h p c = findLetter n h' p c.
Proof.
  intros Heq. induction n as [|n IH]; intros p c; [done|].
  destruct p as [x|]; [|done]. simpl. unfold getL.
  specialize (Heq x).
  destruct (lts h !! x) as [l|], (lts h' !! x) as [l'|]; try done. simpl.
  injection Heq as Hc Hl Hr. rewrite Hc, Hl, Hr.
  destruct (letter.char l' =? c); [done|].
  destruct (letter.char l' <? c); apply IH.
Qed.

(** The walk stays among the letters [P], on which the two stores agree. *)
Lemma findLetter_rel (P : nat -> Prop) h h' :
  (forall x, P x -> exists lx, lts h !! x = Some lx /\
      tree_view <$> lts h' !! x = Some (tree_view lx) /\
      forall b, letter.left lx = Some b \/ letter.right lx = Some b -> P b) ->
  forall n x c, P x -> findLetter n h' (Some x) c = findLetter n h (Some x) c.
Proof.
  intros Hrel. induction n as [|n IH]; intros x c Hx; [done|].
  destruct (Hrel x Hx) as (lx & Hl & Hv & Hcl). simpl. unfold getL. rewrite Hl.
  destruct (lts h' !! x) as [lx'|]; [|done]. simpl in *.
  injection Hv as Hc Hlf Hr. rewrite Hc.
  destruct (letter.char lx =? c); [done|].
  destruct (letter.char lx <? c).
  - rewrite Hlf. destruct (letter.left lx) as [b|] eqn:E; [|by destruct n].
    apply IH. apply Hcl. auto.
  - rewrite Hr. destruct (letter.right lx) as [b|] eqn:E; [|by destruct n].
    apply IH. apply Hcl. auto.
Qed.

Lemma findLetter_None n h c : findLetter n h None c = Ok None.
Proof. by destruct n. Qed.

Lemma findLetter_S n h x c l :
  lts h !! x = Some l ->
  findLetter (S n) h (Some x) c
  = if letter.char l =? c then Ok (Some x) else findLetter n h (child c l) c.
Proof.
  intros Hl. simpl. unfold getL. rewrite Hl. simpl. unfold child.
  destruct (letter.char l =? c); [done|]. by destruct (letter.char l <? c).
Qed.

Lemma hang_lts side h a l x :
  (a < length (lts h))%nat ->
  lts (hang side h a l) !! x
  = if decide (x = length (lts h)) then Some (letter.new l)
    else (if decide (x = a) then setSide side (length (lts h)) else fun r => r)
           <$> lts h !! x.
Proof.
  intros Ha. unfold hang. simpl. rewrite list_lookup_alter.
  destruct (decide (a = x)) as [->|Hne]; rewrite lookup_snoc_eq.
  - rewrite !decide_False by lia. rewrite decide_True by done.
    by destruct (lts h !! x).
  - case_decide; [done|]. rewrite decide_False by done. by destruct (lts h !! x).
Qed.

Lemma child_setSide side p c la :
  letter.char la <> c ->
  child c (setSide side p la)
  = if bool_decide (side = (letter.char la <? c)) then Some p else child c la.
Proof.
  intros Hc. unfold child. destruct side; simpl; destruct (letter.char la <? c); done.
Qed.

(** A rune other than the new one is found as before. *)
Lemma findLetter_hang side h a la l c :
  lts h !! a = Some la ->
  (side = (letter.char la <? l)) -> child l la = None -> c <> l ->
  (forall x lx b, lts h !! x = Some lx ->
     letter.left lx = Some b \/ letter.right lx = Some b -> (b < length (lts h))%nat) ->
  forall n x r, (x < length (lts h))%nat ->
    (findLetter n h (Some x) c = Ok r -> findLetter (S n) (hang side h a l) (Some x) c = Ok r) /\
    (findLetter n (hang side h a l) (Some x) c = Ok r -> findLetter n h (Some x) c = Ok r).
Proof.
  intros Ha Hside Hnone Hcl Hclosed.
  pose proof (lookup_lt_Some _ _ _ Ha) as Halt.
  set (p := length (lts h)).
  assert (forall n, findLetter (S n) (hang side h a l) (Some p) c = Ok None) as Hp.
  { intros n. rewrite (findLetter_S _ _ _ _ (letter.new l)).
    2:{ rewrite hang_lts by done. by rewrite decide_True. }
    simpl. destruct (Z.eqb_spec l c); [congruence|]. unfold child. simpl.
    destruct (l <? c); by destruct n. }
  induction n as [|n IH]; intros x r Hx; [split; discriminate|].
  destruct (lookup_lt_is_Some_2 _ _ Hx) as [lx Hlx].
  assert (lts (hang side h a l) !! x
          = Some ((if decide (x = a) then setSide side p else fun r => r) lx)) as Hlx'.
  { rewrite hang_lts by done. rewrite decide_False by (unfold p in *; lia).
    by rewrite Hlx. }
  assert (forall b, child c lx = Some b -> (b < p)%nat) as Hb.
  { intros b. unfold child.
    destruct (letter.char lx <? c); intros E; apply (Hclosed x lx b Hlx); auto. }
  rewrite (findLetter_S (S n) _ _ _ _ Hlx'), (findLetter_S n _ _ _ _ Hlx'),
          (findLetter_S n _ _ _ _ Hlx).
  destruct (decide (x = a)) as [->|Hne].
  - rewrite Ha in Hlx. injection Hlx as <-.
    destruct (setSide_fields side p la) as (Hch & _). rewrite Hch.
    destruct (Z.eqb_spec (letter.char la) c) as [E|E]; [done|].
    rewrite child_setSide by done.
    destruct (bool_decide_reflect (side = (letter.char la <? c))) as [Es|Es].
    + assert (child c la = None) as Hn.
      { unfold child in *. rewrite <- Es, Hside. exact Hnone. }
      rewrite Hn, findLetter_None. split.
      * intros [= <-]. apply Hp.
      * destruct n; [discriminate|]. by rewrite Hp.
    + destruct (child c la) as [b|] eqn:Eb.
      * apply IH. by apply Hb.
      * by rewrite !findLetter_None.
  - destruct (letter.char lx =? c); [done|].
    destruct (child c lx) as [b|] eqn:Eb.
    + apply IH. by apply Hb.
    + by rewrite !findLetter_None.
Qed.

(** The walk of addWord: it returns the letter that the tree walk finds, or
    it hangs a new letter where the tree walk falls off the tree, and the
    tree walk then finds the new letter. *)
Lemma addWordWalk_path (P : nat -> Prop) l n : forall h cur h1 p,
  (forall x lx b, P x -> lts h !! x = Some lx ->
     letter.left lx = Some b \/ letter.right lx = Some b -> P b) ->
  P cur ->
  addWordWalk n h cur l = Ok (h1, p) ->
  (h1 = h /\ P p /\ findLetter n h (Some cur) l = Ok (Some p)) \/
  (exists a la, P a /\ lts h !! a = Some la /\ letter.char la <> l /\
     child l la = None /\ p = length (lts h) /\
     h1 = hang (letter.char la <? l) h a l /\
     findLetter n h (Some cur) l = Ok None /\
     findLetter n h1 (Some cur) l = Ok (Some p)).
Proof.
  induction n as [|n IH]; intros h cur h1 p Hcl Hcur; [discriminate|].
  cbn [addWordWalk]. rewrite (allocL_eq (letter.new l) h). lazy beta iota.
  intros H. bind_inv H as cl Hl.
  apply getL_Some in Hl as (i & [= <-] & Hl).
  pose proof (lookup_lt_Some _ _ _ Hl) as Hlt.
  rewrite (findLetter_S _ _ _ _ _ Hl).
  destruct (Z.eqb_spec (letter.char cl) l) as [E|E].
  { injection H as <- <-. left. done. }
  assert (forall q, child l cl = Some q -> addWordWalk n h q l = Ok (h1, p) ->
    (h1 = h /\ P p /\ findLetter n h (Some q) l = Ok (Some p)) \/
    (exists a la, P a /\ lts h !! a = Some la /\ letter.char la <> l /\
       child l la = None /\ p = length (lts h) /\
       h1 = hang (letter.char la <? l) h a l /\
       findLetter n h (Some q) l = Ok None /\
       findLetter (S n) h1 (Some cur) l = Ok (Some p))) as Hdown.
  { intros q Hq Hw. apply IH in Hw; [|done|].
    2:{ apply (Hcl cur cl q Hcur Hl). unfold child in Hq.
        destruct (letter.char cl <? l); auto. }
    destruct Hw as [?|(a & la & Ha & Hla & Hne & Hnone & -> & -> & Hf & Hf1)];
      [by left|].
    right. exists a, la. repeat (split; [done|]).
    assert (cur <> a) as Hca.
    { intros ->. rewrite Hl in Hla. injection Hla as <-. congruence. }
    rewrite (findLetter_S _ _ _ _ cl).
    2:{ rewrite hang_lts by (by eapply lookup_lt_Some).
        rewrite !decide_False by lia. by rewrite Hl. }
    destruct (Z.eqb_spec (letter.char cl) l); [done|]. by rewrite Hq. }
  assert (child l cl = None ->
    addWordWalk n (hang (letter.char cl <? l) h cur l) (length (lts h)) l = Ok (h1, p) ->
    exists a la, P a /\ lts h !! a = Some la /\ letter.char la <> l /\
       child l la = None /\ p = length (lts h) /\
       h1 = hang (letter.char la <? l) h a l /\
       findLetter n h None l = Ok None /\
       findLetter (S n) h1 (Some cur) l = Ok (Some p)) as Hoff.
  { intros Hnone Hw.
    pose proof (addWordWalk_new n (setSide (letter.char cl <? l) (length (lts h)))
                  cur h l Hlt) as Hw'.
    change (updL _ _ _) with (hang (letter.char cl <? l) h cur l) in Hw'.
    rewrite Hw' in Hw. clear Hw'.
    destruct n as [|n]; [discriminate|]. injection Hw as <- <-.
    exists cur, cl. repeat (split; [done|]).
    rewrite (findLetter_S _ _ _ _ (setSide (letter.char cl <? l) (length (lts h)) cl)).
    2:{ rewrite hang_lts by done. rewrite decide_False by lia.
        rewrite decide_True by done. by rewrite Hl. }
    destruct (setSide_fields (letter.char cl <? l) (length (lts h)) cl) as (Hch & _).
    rewrite Hch. destruct (Z.eqb_spec (letter.char cl) l); [done|].
    rewrite child_setSide by done. rewrite bool_decide_true by done.
    rewrite (findLetter_S _ _ _ _ (letter.new l)).
    2:{ rewrite hang_lts by done. by rewrite decide_True. }
    simpl. by rewrite Z.eqb_refl. }
  unfold child in *.
  destruct (letter.char cl <? l).
  - destruct (letter.left cl) as [q|] eqn:El.
    + by apply Hdown.
    + right. by apply Hoff.
  - destruct (letter.right cl) as [q|] eqn:El.
    + by apply Hdown.
    + right. by apply Hoff.
Qed.

(** ** addWord adds a word to the words of the trie *)

(** One iteration of the loop of addWord: the letter is there, or it is the
    first letter of the state, or a further one. *)
Lemma addWordBody_cases own fuel h s l ne cr h' s' ne' cr' :
  trie_inv own h -> (s < length (sts h))%nat ->
  addWordBody fuel h s l ne cr = Ok (h', s', ne', cr') ->
  exists cs, sts h !! s = Some cs /\
  ((exists hd p lp, state.letters cs = Some hd /\ h' = h /\ cr' = cr /\
      findLetter fuel h (Some hd) l = Ok (Some p) /\
      lts h !! p = Some lp /\ letter.state lp = Some s') \/
   (state.letters cs = None /\ h' = firstLetter h s l /\
      s' = length (sts h) /\ cr' = cr + 1) \/
   (exists hd hdr a la, state.letters cs = Some hd /\ lts h !! hd = Some hdr /\
      lts h !! a = Some la /\ own a = s /\ letter.char la <> l /\
      child l la = None /\
      h' = nextLetter (letter.char la <? l) h s a hd (letter.next hdr) l /\
      s' = length (sts h) /\ cr' = cr + 1 /\
      findLetter fuel h (Some hd) l = Ok None /\
      findLetter fuel (hang (letter.char la <? l) h a l) (Some hd) l
      = Ok (Some (length (lts h))))).
Proof.
  intros Hinv Hslt. unfold addWordBody. intros H. bind_inv H as cs Hcs.
  apply getS_Some in Hcs as (i & [= <-] & Hs). exists cs. split; [done|].
  destruct (state.letters cs) as [hd|] eqn:Hhd.
  - bind_inv H as x Hw. destruct x as [h1 p].
    destruct (ti_hd _ _ Hinv s cs hd Hs Hhd) as [Hhdlt Hohd].
    destruct (lookup_lt_is_Some_2 _ _ Hhdlt) as [hdr Hhdr].
    apply (addWordWalk_path (fun x => own x = s)) in Hw; [| |done].
    2:{ intros x lx b Hx Hlx Hb.
        destruct (ti_link _ _ Hinv x lx b Hlx) as [_ ->]; [tauto|done]. }
    destruct Hw as [(-> & Hop & Hf)|(a & la & Hoa & Ha & Hne & Hnone & -> & -> & Hf & Hf1)].
    + left. unfold addWordState in H. bind_inv H as cl Hcl.
      apply getL_Some in Hcl as (j & [= <-] & Hcl).
      destruct (ti_state _ _ Hinv p cl Hcl) as (t & ts & Hst & Ht & _).
      rewrite Hst in H. injection H as <- <- <- <-.
      exists hd, p, cl. done.
    + right. right.
      destruct (addWordState_next (letter.char la <? l) h s cs a la hd hdr l ne cr
                  Hs Hhd Hhdr Ha) as [ne2 E].
      unfold hang in H. rewrite E in H. injection H as <- <- <- <-.
      exists hd, hdr, a, la. done.
  - right. left. rewrite (allocL_eq (letter.new l) h) in H. simpl in H.
    destruct (addWordState_first h s cs l ne cr Hs Hhd) as [ne2 E].
    simpl in E. rewrite E in H. injection H as <- <- <- <-. done.
Qed.

Lemma extends_refl h s l s' : step h s l s' -> extends h h s l s'.
Proof. intros Hs. split; [done|]. split; [done|]. split; [done|]. split; [auto|done]. Qed.

Lemma step_inv h t c u :
  step h t c u ->
  exists n st hd lt l, sts h !! t = Some st /\ state.letters st = Some hd /\
    findLetter n h (Some hd) c = Ok (Some lt) /\ lts h !! lt = Some l /\
    letter.state l = Some u.
Proof.
  intros (n & lt & l & Hg & Hl & Hu). unfold getletter in Hg.
  bind_inv Hg as st Hst. apply getS_Some in Hst as (i & [= <-] & Hst).
  destruct (state.letters st) as [hd|] eqn:E; [|by rewrite findLetter_None in Hg].
  by exists n, st, hd, lt, l.
Qed.

Lemma step_intro h t c u n st hd lt l :
  sts h !! t = Some st -> state.letters st = Some hd ->
  findLetter n h (Some hd) c = Ok (Some lt) -> lts h !! lt = Some l ->
  letter.state l = Some u -> step h t c u.
Proof.
  intros Hst Hhd Hf Hl Hu. exists n, lt, l. split; [|done].
  unfold getletter, getS. rewrite Hst. simpl. by rewrite Hhd.
Qed.

Lemma extends_first own h s cs l :
  trie_inv own h -> sts h !! s = Some cs -> state.letters cs = None ->
  extends h (firstLetter h s l) s l (length (sts h)).
Proof.
  intros Hinv Hs Hnone.
  pose proof (lookup_lt_Some _ _ _ Hs) as Hslt.
  pose proof (firstLetter_lts h s l) as HL.
  pose proof (fun y => firstLetter_sts h s l y Hslt) as HS.
  set (h' := firstLetter h s l) in *.
  set (p := length (lts h)) in *. set (ns := length (sts h)) in *.
  assert (forall n x c, (x < p)%nat ->
            findLetter n h' (Some x) c = findLetter n h (Some x) c) as Hfind.
  { intros n x c Hx. apply (findLetter_rel (fun x => (x < p)%nat)); [|done].
    clear x c Hx. intros x Hx. destruct (lookup_lt_is_Some_2 _ _ Hx) as [lx Hlx].
    exists lx. split; [done|]. split.
    - rewrite HL. rewrite decide_False by lia. by rewrite Hlx.
    - intros b Hb. by destruct (ti_link _ _ Hinv x lx b Hlx) as [? _]; [tauto|]. }
  assert (sts h' !! s = Some (incCount (state.set_letters (Some p) cs))) as Hs'.
  { rewrite HS. rewrite decide_False by lia. rewrite Hs. simpl.
    by rewrite decide_True. }
  assert (lts h' !! p = Some (letter.set_state (Some ns) (letter.new l))) as Hp.
  { rewrite HL. by rewrite decide_True. }
  assert (sts h' !! ns = Some (state.new false (Some p))) as Hns.
  { rewrite HS. by rewrite decide_True. }
  assert (forall t st, t <> s -> sts h !! t = Some st -> sts h' !! t = Some st) as Hold.
  { intros t st Hts Ht. rewrite HS.
    rewrite decide_False by (apply lookup_lt_Some in Ht; lia).
    rewrite Ht. simpl. by rewrite decide_False. }
  split; [unfold h'; rewrite firstLetter_sts_length; lia|].
  split; [|split; [|split]].
  - eapply (step_intro h' s l ns 1); [exact Hs'|done| |exact Hp|done].
    rewrite (findLetter_S _ _ _ _ _ Hp). simpl. by rewrite Z.eqb_refl.
  - intros t c u Ht Hst.
    apply step_inv in Hst as (n & st & hd & lt & lr & Hst & Hhd & Hf & Hl & Hu).
    assert (t <> s) as Hts by (intros ->; congruence).
    destruct (ti_hd _ _ Hinv t st hd Hst Hhd) as [Hhdlt _].
    eapply (step_intro h' t c u n st hd lt lr); [by apply Hold|done| | |done].
    + by rewrite Hfind.
    + rewrite HL. rewrite decide_False by (apply lookup_lt_Some in Hl; lia). done.
  - intros t c u Ht Hst.
    apply step_inv in Hst as (n & st & hd & lt & lr & Hst & Hhd & Hf & Hl & Hu).
    destruct (decide (t = s)) as [->|Hts].
    + right. rewrite Hs' in Hst. injection Hst as <-. simpl in Hhd.
      injection Hhd as <-. destruct n as [|n]; [discriminate|].
      rewrite (findLetter_S _ _ _ _ _ Hp) in Hf. simpl in Hf.
      destruct (Z.eqb_spec l c) as [->|Hne].
      * injection Hf as <-. rewrite Hp in Hl. injection Hl as <-. simpl in Hu.
        injection Hu as <-. repeat (split; [done|]). split.
        -- intros (st & Hst & Hfin). rewrite Hns in Hst. by injection Hst as <-.
        -- intros c' u' Hst.
           apply step_inv in Hst as (? & st & ? & ? & ? & Hst & Hhd & _).
           rewrite Hns in Hst. by injection Hst as <-.
      * unfold child in Hf. simpl in Hf.
        destruct (l <? c); by rewrite findLetter_None in Hf.
    + left. rewrite HS in Hst. rewrite decide_False in Hst by lia.
      destruct (sts h !! t) as [st0|] eqn:Ht0; [|done]. simpl in Hst.
      rewrite decide_False in Hst by done. injection Hst as <-.
      destruct (ti_hd _ _ Hinv t st0 hd Ht0 Hhd) as [Hhdlt _].
      rewrite Hfind in Hf by done.
      destruct (findLetter_char _ _ _ _ _ Hf) as (l0 & Hl0 & _).
      apply getL_Some in Hl0 as (j & [= <-] & Hl0).
      rewrite HL in Hl. rewrite decide_False in Hl by (apply lookup_lt_Some in Hl0; lia).
      by eapply (step_intro h t c u n st0 hd lt lr).
  - intros t Ht. unfold final_at. rewrite HS. rewrite decide_False by lia.
    destruct (sts h !! t) as [st0|]; simpl; [|split; intros (? & ? & _); done].
    split.
    + intros (st & [= <-] & Hf). exists st0. split; [done|]. by case_decide.
    + intros (st & [= <-] & Hf). eexists. split; [done|]. by case_decide.
Qed.

Lemma extends_next own F h s cs hd hdr a la l :
  trie_inv own h -> sts h !! s = Some cs -> state.letters cs = Some hd ->
  lts h !! hd = Some hdr -> lts h !! a = Some la -> own a = s ->
  letter.char la <> l -> child l la = None ->
  findLetter F h (Some hd) l = Ok None ->
  findLetter F (hang (letter.char la <? l) h a l) (Some hd) l
  = Ok (Some (length (lts h))) ->
  extends h (nextLetter (letter.char la <? l) h s a hd (letter.next hdr) l) s l
    (length (sts h)).
Proof.
  intros Hinv Hs Hhd Hhdr Ha Hoa Hne Hnone Hf0 Hf1.
  pose proof (lookup_lt_Some _ _ _ Hs) as Hslt.
  pose proof (lookup_lt_Some _ _ _ Ha) as Halt.
  pose proof (lookup_lt_Some _ _ _ Hhdr) as Hhdlt.
  set (side := letter.char la <? l) in *.
  pose proof (fun x => nextLetter_lts side h s a hd (letter.next hdr) l x Halt Hhdlt) as HL.
  pose proof (fun y => nextLetter_sts side h s a hd (letter.next hdr) l y Hslt) as HS.
  set (h' := nextLetter side h s a hd (letter.next hdr) l) in *.
  set (p := length (lts h)) in *. set (ns := length (sts h)) in *.
  assert (forall n x c, findLetter n h' x c = findLetter n (hang side h a l) x c) as Hhang.
  { intros n x c. apply findLetter_tree_eq. clear x. intros x.
    rewrite HL, hang_lts by done. fold p. case_decide; [done|].
    destruct (lts h !! x) as [lx|]; [|done]. simpl. f_equal.
    destruct (decide (x = hd)); done. }
  assert (forall x lx b, lts h !! x = Some lx ->
            letter.left lx = Some b \/ letter.right lx = Some b -> (b < p)%nat) as Hclosed.
  { intros x lx b Hlx Hb. by destruct (ti_link _ _ Hinv x lx b Hlx) as [? _]; [tauto|]. }
  assert (forall x lx, lts h !! x = Some lx ->
            exists lx', lts h' !! x = Some lx' /\ letter.state lx' = letter.state lx)
    as Hstate.
  { intros x lx Hlx. rewrite HL.
    rewrite decide_False by (apply lookup_lt_Some in Hlx; unfold p; lia).
    rewrite Hlx. simpl. eexists. split; [done|].
    destruct (setSide_fields side p lx) as (_ & Hst & _).
    repeat case_decide; simpl; congruence. }
  assert (forall x lx', (x < p)%nat -> lts h' !! x = Some lx' ->
            exists lx, lts h !! x = Some lx /\ letter.state lx' = letter.state lx)
    as Hstate'.
  { intros x lx' Hx Hlx'. destruct (lookup_lt_is_Some_2 _ _ Hx) as [lx Hlx].
    destruct (Hstate x lx Hlx) as (lx2 & Hlx2 & E). exists lx. split; [done|]. congruence. }
  assert (forall t st, (t < ns)%nat -> sts h' !! t = Some st ->
            exists st0, sts h !! t = Some st0 /\ state.letters st = state.letters st0 /\
                        state.final st = state.final st0) as HoldS.
  { intros t st Ht Hst. rewrite HS in Hst. rewrite decide_False in Hst by lia.
    destruct (sts h !! t) as [st0|]; [|done]. injection Hst as <-.
    exists st0. split; [done|]. by case_decide. }
  assert (forall t st0, sts h !! t = Some st0 ->
            exists st, sts h' !! t = Some st /\ state.letters st = state.letters st0 /\
                       state.final st = state.final st0) as HoldS'.
  { intros t st0 Ht. rewrite HS.
    rewrite decide_False by (apply lookup_lt_Some in Ht; unfold ns; lia).
    rewrite Ht. simpl. eexists. split; [done|]. by case_decide. }
  assert (forall n t x, t <> s -> own x = t -> (x < p)%nat ->
            findLetter n h' (Some x) l = findLetter n h (Some x) l) as Hother.
  { intros n t x Hts Hox Hx.
    apply (findLetter_rel (fun x => own x = t /\ (x < p)%nat)); [|done].
    clear x Hox Hx. intros x [Hox Hx].
    destruct (lookup_lt_is_Some_2 _ _ Hx) as [lx Hlx]. exists lx. split; [done|]. split.
    - rewrite HL. rewrite decide_False by (unfold p in *; lia). rewrite Hlx. simpl.
      rewrite (decide_False (P := x = a)) by congruence. by case_decide.
    - intros b Hb. destruct (ti_link _ _ Hinv x lx b Hlx) as [? ?]; [tauto|].
      split; [congruence|done]. }
  assert (lts h' !! p = Some (letter.mk l (Some ns) None None (letter.next hdr))) as Hp.
  { rewrite HL. by rewrite decide_True. }
  assert (sts h' !! ns = Some (state.new false (Some p))) as Hns.
  { rewrite HS. by rewrite decide_True. }
  split; [unfold h'; rewrite nextLetter_sts_length; lia|].
  split; [|split; [|split]].
  - destruct (HoldS' s cs Hs) as (cs' & Hcs' & Hlet & _).
    eapply (step_intro h' s l ns F cs' hd p); [done|congruence| |exact Hp|done].
    by rewrite Hhang.
  - intros t c u Ht Hst.
    apply step_inv in Hst as (n & st & hdt & lt & lr & Hst & Hhdt & Hf & Hl & Hu).
    destruct (HoldS' t st Hst) as (st' & Hst' & Hlet & _).
    destruct (Hstate lt lr Hl) as (lr' & Hlr' & Est).
    destruct (ti_hd _ _ Hinv t st hdt Hst Hhdt) as [Hhdtlt Hohdt].
    destruct (decide (c = l)) as [->|Hcl].
    + assert (t <> s) as Hts.
      { intros ->. rewrite Hs in Hst. injection Hst as <-.
        rewrite Hhd in Hhdt. injection Hhdt as <-.
        by pose proof (findLetter_agree _ _ _ _ _ _ _ Hf Hf0). }
      eapply (step_intro h' t l u n st' hdt lt lr'); [done|congruence| |done|congruence].
      by rewrite (Hother n t).
    + eapply (step_intro h' t c u (S n) st' hdt lt lr'); [done|congruence| |done|congruence].
      rewrite Hhang.
      by apply (findLetter_hang side h a la l c Ha eq_refl Hnone Hcl Hclosed n hdt).
  - intros t c u Ht Hst.
    apply step_inv in Hst as (n & st' & hdt & lt & lr' & Hst' & Hhdt & Hf & Hl & Hu).
    destruct (HoldS t st' Ht Hst') as (st & Hst & Hlet & _).
    rewrite Hlet in Hhdt.
    destruct (ti_hd _ _ Hinv t st hdt Hst Hhdt) as [Hhdtlt Hohdt].
    assert (findLetter n h (Some hdt) c = Ok (Some lt) -> step h t c u) as Hback.
    { intros Hf'. destruct (findLetter_char _ _ _ _ _ Hf') as (l0 & Hl0 & _).
      apply getL_Some in Hl0 as (j & [= <-] & Hl0).
      destruct (Hstate lt l0 Hl0) as (lr2 & Hlr2 & Est).
      rewrite Hl in Hlr2. injection Hlr2 as <-.
      eapply (step_intro h t c u n st hdt lt l0); [done..|congruence]. }
    destruct (decide (c = l)) as [->|Hcl].
    + destruct (decide (t = s)) as [->|Hts].
      * right. rewrite Hs in Hst. injection Hst as <-.
        rewrite Hhd in Hhdt. injection Hhdt as <-.
        rewrite Hhang in Hf.
        pose proof (findLetter_agree _ _ _ _ _ _ _ Hf Hf1) as [= ->].
        rewrite Hp in Hl. injection Hl as <-. simpl in Hu. injection Hu as <-.
        repeat (split; [done|]). split.
        -- intros (st & Hst & Hfin). rewrite Hns in Hst. by injection Hst as <-.
        -- intros c' u' Hst.
           apply step_inv in Hst as (? & st & ? & ? & ? & Hst & Hhd' & _).
           rewrite Hns in Hst. by injection Hst as <-.
      * left. apply Hback. by rewrite <- (Hother n t).
    + left. apply Hback. rewrite Hhang in Hf.
      by apply (findLetter_hang side h a la l c Ha eq_refl Hnone Hcl Hclosed n hdt).
  - intros t Ht. unfold final_at. split.
    + intros (st' & Hst' & Hfin). destruct (HoldS t st' Ht Hst') as (st & Hst & _ & E).
      exists st. split; [done|congruence].
    + intros (st & Hst & Hfin). destruct (HoldS' t st Hst) as (st' & Hst' & _ & E).
      exists st'. split; [done|congruence].
Qed.

Lemma step_old own h t c u : trie_inv own h -> step h t c u -> (u < length (sts h))%nat.
Proof.
  intros Hinv (n & lt & l & _ & Hl & Hu).
  destruct (ti_state _ _ Hinv lt l Hl) as (t' & ts & Hst & Ht & _).
  rewrite Hu in Hst. injection Hst as <-. by eapply lookup_lt_Some.
Qed.

Lemma extends_accepted own h h' s l s' :
  trie_inv own h -> extends h h' s l s' ->
  forall rs t, (t < length (sts h))%nat ->
    (accepted h' (Some t) rs <-> accepted h (Some t) rs).
Proof.
  intros Hinv (Hlen & H1 & H2 & H3 & H4) rs t Ht. split.
  - revert t Ht. induction rs as [|c rs IH]; intros t Ht.
    + rewrite !accepted_nil_iff. by apply H4.
    + rewrite !accepted_cons_iff. intros (u & Hs & Hacc).
      destruct (H3 t c u Ht Hs) as [Hs'|(-> & -> & -> & _ & Hnf & Hns)].
      * exists u. split; [done|]. apply IH; [|done]. by eapply step_old.
      * exfalso. destruct rs as [|c' rs].
        -- by apply accepted_nil_iff in Hacc.
        -- apply accepted_cons_iff in Hacc as (u' & Hs' & _). by eapply Hns.
  - revert rs t Ht.
    apply (accepted_ext (fun t => (t < length (sts h))%nat)).
    + intros t c u Ht Hs. split; [by apply H2|by eapply step_old].
    + intros t Ht. by apply H4.
Qed.

Lemma extends_leads own h h' s l s' :
  trie_inv own h -> extends h h' s l s' ->
  forall t rs u, (t < length (sts h))%nat -> leads h t rs u -> leads h' t rs u.
Proof.
  intros Hinv (Hlen & H1 & H2 & H3 & H4).
  apply (leads_ext (fun t => (t < length (sts h))%nat)).
  intros t c u Ht Hs. split; [by apply H2|by eapply step_old].
Qed.

Lemma addWordBody_extends own fuel h s l ne cr h' s' ne' cr' :
  trie_inv own h -> (s < length (sts h))%nat ->
  addWordBody fuel h s l ne cr = Ok (h', s', ne', cr') ->
  extends h h' s l s' /\ keeps_letter h h'.
Proof.
  intros Hinv Hs H.
  destruct (addWordBody_cases own fuel h s l ne cr h' s' ne' cr' Hinv Hs H)
    as (cs & Hcs & [Hc|[Hc|Hc]]).
  - destruct Hc as (hd & p & lp & Hhd & -> & -> & Hf & Hl & Hst).
    split; [|intros t st Ht; eauto].
    apply extends_refl. by eapply step_intro.
  - destruct Hc as (Hnone & -> & -> & ->). split; [by eapply extends_first|].
    intros t st Ht. rewrite firstLetter_sts by done.
    rewrite decide_False by (apply lookup_lt_Some in Ht; lia). rewrite Ht. simpl.
    eexists. split; [done|]. by case_decide.
  - destruct Hc as (hd & hdr & a & la & Hhd & Hhdr & Ha & Hoa & Hne & Hnone & -> & -> & -> & Hf0 & Hf1).
    split; [by eapply extends_next|].
    intros t st Ht. rewrite nextLetter_sts by done.
    rewrite decide_False by (apply lookup_lt_Some in Ht; lia). rewrite Ht. simpl.
    eexists. split; [done|]. by case_decide.
Qed.

Lemma addWordLoop_lang fuel rs : forall own h s ne ws cr h' s' ne' ws' cr',
  trie_inv own h -> (s < length (sts h))%nat ->
  addWordLoop fuel h s rs ne ws cr = Ok (h', s', ne', ws', cr') ->
  leads h' s (map snd rs) s' /\ keeps_letter h h' /\
  (forall t r, (t < length (sts h))%nat ->
     (accepted h' (Some t) r <-> accepted h (Some t) r)) /\
  (forall t r u, (t < length (sts h))%nat -> leads h t r u -> leads h' t r u).
Proof.
  induction rs as [|[i l] rs IH]; intros own h s ne ws cr h' s' ne' ws' cr' Hinv Hs.
  - simpl. intros [= <- <- <- <- <-]. split; [constructor|].
    split; [intros t st Ht; eauto|]. done.
  - simpl. intros H. bind_inv H as x Hx. destruct x as [[[h1 s1] ne1] cr1].
    pose proof (addWordBody_extends _ _ _ _ _ _ _ _ _ _ _ Hinv Hs Hx) as [Hext Hk1].
    pose proof (extends_accepted _ _ _ _ _ _ Hinv Hext) as Hacc1.
    pose proof (extends_leads _ _ _ _ _ _ Hinv Hext) as Hleads1.
    apply (addWordBody_inv own) in Hx as ([own1 Hinv1] & Hs1 & Hlen1); [|done..].
    apply (IH own1) in H as (Hl2 & Hk2 & Hacc2 & Hleads2); [|done..].
    split; [|split; [|split]].
    + destruct Hext as (_ & Hst & _). econstructor; [|exact Hl2].
      assert (leads h1 s [l] s1) as Hl by (econstructor; [done|constructor]).
      apply Hleads2 in Hl; [|lia]. inversion Hl as [|? ? t ? ? Hst' Hl']; subst.
      by inversion Hl'; subst.
    + intros t st Ht. destruct (Hk1 t st Ht) as (st1 & Ht1 & E1).
      destruct (Hk2 t st1 Ht1) as (st2 & Ht2 & E2). exists st2. split; [done|congruence].
    + intros t r Ht. rewrite Hacc2 by lia. by apply Hacc1.
    + intros t r u Ht Hl. apply Hleads2; [lia|]. by apply Hleads1.
Qed.

Lemma findLetter_updS f i h : forall n p c,
  findLetter n (updS f i h) p c = findLetter n h p c.
Proof. apply findLetter_tree_eq. done. Qed.

Lemma step_set_final b s' h t c u :
  step (updS (state.set_final b) s' h) t c u <-> step h t c u.
Proof.
  assert (forall t st, sts h !! t = Some st ->
            exists st', sts (updS (state.set_final b) s' h) !! t = Some st' /\
                        state.letters st' = state.letters st) as H1.
  { intros t' st Ht. simpl. rewrite list_lookup_alter.
    case_decide; subst; rewrite Ht; simpl; eauto. }
  assert (forall t st', sts (updS (state.set_final b) s' h) !! t = Some st' ->
            exists st, sts h !! t = Some st /\ state.letters st' = state.letters st) as H2.
  { intros t' st'. simpl. rewrite list_lookup_alter.
    case_decide; subst; destruct (sts h !! t') as [st|]; simpl; try done;
      intros [= <-]; eauto. }
  split; intros Hs.
  - apply step_inv in Hs as (n & st' & hd & lt & l & Hst' & Hhd & Hf & Hl & Hu).
    destruct (H2 _ _ Hst') as (st & Hst & E). rewrite findLetter_updS in Hf.
    eapply (step_intro h t c u n st hd lt l); [done|congruence|done..].
  - apply step_inv in Hs as (n & st & hd & lt & l & Hst & Hhd & Hf & Hl & Hu).
    destruct (H1 _ _ Hst) as (st' & Hst' & E).
    eapply (step_intro _ t c u n st' hd lt l); [done|congruence| |done..].
    by rewrite findLetter_updS.
Qed.

Lemma final_set_final s' h t :
  (s' < length (sts h))%nat ->
  final_at (updS (state.set_final true) s' h) t <-> final_at h t \/ t = s'.
Proof.
  intros Hs'. unfold final_at. simpl. rewrite list_lookup_alter.
  destruct (lookup_lt_is_Some_2 _ _ Hs') as [ss Hss].
  case_decide as E.
  - subst t. rewrite Hss. simpl. split; [auto|]. intros _. eauto.
  - split; [auto|]. intros [?|?]; [done|congruence].
Qed.

(** Marking a state final adds the words that lead to it. *)
Lemma accepted_set_final s' h :
  (s' < length (sts h))%nat ->
  forall rs t, accepted (updS (state.set_final true) s' h) (Some t) rs
               <-> accepted h (Some t) rs \/ leads h t rs s'.
Proof.
  intros Hs'. induction rs as [|c rs IH]; intros t.
  - rewrite !accepted_nil_iff, final_set_final by done. split.
    + intros [H| ->]; [by left|right; constructor].
    + intros [H|Hl]; [by left|]. right. by inversion Hl.
  - rewrite !accepted_cons_iff. split.
    + intros (u & Hs & Hacc). apply step_set_final in Hs.
      apply IH in Hacc as [Hacc|Hl]; [left; eauto|right; by econstructor].
    + intros [(u & Hs & Hacc)|Hl].
      * exists u. split; [by apply step_set_final|]. apply IH. by left.
      * inversion Hl as [|? ? u ? ? Hs Hl']; subst.
        exists u. split; [by apply step_set_final|]. apply IH. by right.
Qed.

Lemma step_letter own h t c u :
  trie_inv own h -> step h t c u ->
  exists lt l, lts h !! lt = Some l /\ letter.state l = Some u /\
               letter.char l = c /\ own lt = t.
Proof.
  intros Hinv (n & lt & l & Hg & Hl & Hu).
  destruct (getletter_char _ _ _ _ _ Hg) as (l' & Hl' & Hc).
  apply getL_Some in Hl' as (j & [= <-] & Hl'). rewrite Hl in Hl'. injection Hl' as <-.
  destruct (getletter_owns _ _ _ _ _ Hg) as (s & [= <-] & Hown).
  exists lt, l. repeat (split; [done|]). by eapply owns_own.
Qed.

Lemma step_not_root own h root t c :
  trie_inv own h -> rooted h root -> ~ step h t c root.
Proof.
  intros Hinv (st & Hst & Hnone) Hs.
  destruct (step_letter _ _ _ _ _ Hinv Hs) as (lt & l & Hl & Hu & _).
  destruct (ti_state _ _ Hinv lt l Hl) as (t' & ts & Hst' & Ht & Hlet).
  rewrite Hu in Hst'. injection Hst' as <-. congruence.
Qed.

(** In a trie one word leads to a state. *)
Lemma leads_unique own h root :
  trie_inv own h -> rooted h root ->
  forall rs rs' t, leads h root rs t -> leads h root rs' t -> rs = rs'.
Proof.
  intros Hinv Hroot.
  assert (forall rs, leads h root rs root -> rs = []) as Hback.
  { intros rs. destruct rs as [|c rs] using rev_ind; [done|].
    intros Hl. apply leads_snoc_inv in Hl as (t & _ & Hs).
    by apply (step_not_root _ _ _ _ _ Hinv Hroot) in Hs. }
  induction rs as [|c rs IH] using rev_ind; intros rs' t Hl Hl'.
  - inversion Hl; subst. symmetry. by apply Hback.
  - destruct rs' as [|c' rs' _] using rev_ind.
    { inversion Hl'; subst. by apply Hback. }
    apply leads_snoc_inv in Hl as (t0 & Hl & Hs).
    apply leads_snoc_inv in Hl' as (t0' & Hl' & Hs').
    destruct (step_letter _ _ _ _ _ Hinv Hs) as (lt & l & Hlt & Hu & Hc & Ho).
    destruct (step_letter _ _ _ _ _ Hinv Hs') as (lt' & l' & Hlt' & Hu' & Hc' & Ho').
    destruct (ti_state _ _ Hinv lt l Hlt) as (t1 & ts & Hst & Ht & Hlet).
    destruct (ti_state _ _ Hinv lt' l' Hlt') as (t1' & ts' & Hst' & Ht' & Hlet').
    assert (lt = lt') as <- by congruence.
    assert (l = l') as <- by congruence.
    subst. f_equal. by eapply IH.
Qed.

Lemma addWord_accepted own fuel h root word h' r :
  trie_inv own h -> rooted h root ->
  addWord fuel h (Some root) word = Ok (h', r) ->
  forall rs, accepted h' (Some root) rs
             <-> accepted h (Some root) rs \/ rs = runesOf word.
Proof.
  intros Hinv Hroot. unfold addWord. intros H.
  bind_inv H as x Hx. destruct x as [[[[h1 s1] ne1] ws1] cr1].
  bind_inv H as cs Hcs. injection H as <- <-.
  assert (root < length (sts h))%nat as Hrlt.
  { destruct Hroot as (st & Hst & _). by eapply lookup_lt_Some. }
  pose proof (addWordLoop_lang _ _ _ _ _ _ _ _ _ _ _ _ _ Hinv Hrlt Hx)
    as (Hl & Hk & Hacc & Hleads).
  apply (addWordLoop_inv _ _ own) in Hx as ([own1 Hinv1] & Hs1 & Hlen1); [|done..].
  assert (rooted h1 root) as Hroot1.
  { destruct Hroot as (st & Hst & Hnone). destruct (Hk _ _ Hst) as (st' & Hst' & E).
    exists st'. split; [done|congruence]. }
  intros rs. rewrite accepted_set_final by done. rewrite Hacc by done.
  split; (intros [?|Hr]; [by left|right]).
  - by eapply leads_unique.
  - by subst rs.
Qed.

Lemma trie_newTrie : trie newTrie 0.
Proof.
  split; [exists (fun _ => 0%nat); apply trie_inv_init|].
  by exists (state.new false None).
Qed.

Lemma rooted_lt h root : rooted h root -> (root < length (sts h))%nat.
Proof. intros (st & Hst & _). by eapply lookup_lt_Some. Qed.

Lemma addWord_trie fuel h root word h' r :
  trie h root -> addWord fuel h (Some root) word = Ok (h', r) -> trie h' root.
Proof.
  intros [[own Hinv] Hroot] H. pose proof (rooted_lt _ _ Hroot) as Hrlt.
  split; [by destruct (addWord_inv _ _ _ _ _ _ _ Hinv Hrlt H)|].
  unfold addWord in H.
  bind_inv H as x Hx. destruct x as [[[[h1 s1] ne1] ws1] cr1].
  bind_inv H as cs Hcs. injection H as <- <-.
  pose proof (addWordLoop_lang _ _ _ _ _ _ _ _ _ _ _ _ _ Hinv Hrlt Hx) as (_ & Hk & _).
  destruct Hroot as (st & Hst & Hnone). destruct (Hk _ _ Hst) as (st' & Hst' & E).
  unfold rooted. simpl. rewrite list_lookup_alter.
  case_decide; subst; rewrite Hst'; simpl; (eexists; split; [reflexivity|]);
    simpl; congruence.
Qed.

Lemma addWords_accepted fuel words : forall h root nb mx h' nb' mx',
  trie h root ->
  addWords fuel h (Some root) words nb mx = Ok (h', nb', mx') ->
  trie h' root /\
  forall rs, accepted h' (Some root) rs
             <-> accepted h (Some root) rs \/ exists w, w ∈ words /\ runesOf w = rs.
Proof.
  induction words as [|w words IH]; intros h root nb mx h' nb' mx' Htrie.
  - simpl. intros [= <- <- <-]. split; [done|]. intros rs. split; [auto|].
    intros [?|(w & Hw & _)]; [done|]. by apply elem_of_nil in Hw.
  - simpl. intros H. bind_inv H as x Hx. destruct x as [h1 [[ne sz] cn]].
    pose proof (addWord_trie _ _ _ _ _ _ Htrie Hx) as Htrie1.
    destruct Htrie as [[own Hinv] Hroot].
    pose proof (addWord_accepted _ _ _ _ _ _ _ Hinv Hroot Hx) as Hacc1.
    apply IH in H as [Htrie2 Hacc2]; [|done]. split; [done|].
    intros rs. rewrite Hacc2, Hacc1. split.
    + intros [[?| ->]|(w' & Hw' & E)]; [by left|right..].
      * exists w. split; [by left|done].
      * exists w'. split; [by right|done].
    + intros [?|(w' & Hw' & E)]; [by left; left|].
      apply elem_of_cons in Hw' as [->|Hw']; [left; right; done|].
      right. eauto.
Qed.

Lemma accepted_newTrie rs : ~ accepted newTrie (Some 0%nat) rs.
Proof.
  destruct rs as [|c rs].
  - rewrite accepted_nil_iff. intros (st & Hst & Hf). by injection Hst as <-.
  - rewrite accepted_cons_iff. intros (t & Hs & _).
    apply step_inv in Hs as (? & st & ? & ? & ? & Hst & Hhd & _).
    by injection Hst as <-.
Qed.

(** ** The list and the tree of the letters of a state *)

Lemma chain_fun h p ls : chain h p ls -> forall ls', chain h p ls' -> ls = ls'.
Proof.
  induction 1 as [|a l ls Hl Hc IH]; intros ls' H'; inversion H'; subst; [done|].
  f_equal. apply IH. congruence.
Qed.

Lemma chain_ext h h' p ls :
  chain h p ls ->
  (forall x, x ∈ ls -> letter.next <$> lts h' !! x = letter.next <$> lts h !! x) ->
  chain h' p ls.
Proof.
  induction 1 as [|a l ls Hl Hc IH]; intros Hext; [constructor|].
  pose proof (Hext a ltac:(by left)) as Ha. rewrite Hl in Ha.
  destruct (lts h' !! a) as [l'|] eqn:Hl'; [|done]. simpl in Ha. injection Ha as Ha.
  econstructor; [exact Hl'|]. rewrite Ha. apply IH.
  intros x Hx. apply Hext. by right.
Qed.

Lemma chain_suffix h a ls x :
  chain h (Some a) ls -> x ∈ ls -> exists ls', chain h (Some x) ls' /\ (length ls' <= length ls)%nat
    /\ (x <> a -> length ls' < length ls)%nat.
Proof.
  intros Hc. remember (Some a) as p eqn:Ep. revert a Ep.
  induction Hc as [|b l ls Hl Hc IH]; intros a Ep Hx; [by apply elem_of_nil in Hx|].
  injection Ep as ->. apply elem_of_cons in Hx as [->|Hx].
  - exists (a :: ls). split; [by econstructor|]. split; [done|]. done.
  - destruct (letter.next l) as [b|] eqn:En; [|inversion Hc; subst; by apply elem_of_nil in Hx].
    destruct (IH b eq_refl Hx) as (ls' & Hc' & Hlen & _).
    exists ls'. split; [done|]. simpl. split; [lia|]. intros _. lia.
Qed.

Lemma chain_NoDup h p ls : chain h p ls -> NoDup ls.
Proof.
  induction 1 as [|a l ls Hl Hc IH]; [constructor|].
  constructor; [|done]. intros Ha.
  destruct (letter.next l) as [b|] eqn:En; [|inversion Hc; subst; by apply elem_of_nil in Ha].
  destruct (chain_suffix _ _ _ _ Hc Ha) as (ls' & Hc' & Hlen & _).
  assert (chain h (Some a) (a :: ls)) as Hca by (econstructor; [done|by rewrite En]).
  pose proof (chain_fun _ _ _ Hc' _ Hca) as ->. simpl in Hlen. lia.
Qed.

Lemma chain_rtc h hd ls x : chain h (Some hd) ls -> rtc (nstep h) hd x -> x ∈ ls.
Proof.
  intros Hc Hr. revert ls Hc. induction Hr as [|a b x (l & Hl & Hn) _ IH]; intros ls Hc.
  - inversion Hc; subst. by left.
  - inversion Hc as [|? l' ls' Hl' Hc']; subst. rewrite Hl in Hl'. injection Hl' as <-.
    rewrite Hn in Hc'. right. by apply IH.
Qed.

Lemma chain_elem_rtc h p ls x :
  chain h p ls -> x ∈ ls -> exists hd, p = Some hd /\ rtc (nstep h) hd x.
Proof.
  induction 1 as [|a l ls Hl Hc IH]; intros Hx; [by apply elem_of_nil in Hx|].
  exists a. split; [done|]. apply elem_of_cons in Hx as [->|Hx]; [done|].
  destruct (IH Hx) as (b & Eb & Hr). eapply rtc_l; [|exact Hr]. by exists l.
Qed.

Lemma tree_inv_newTrie : tree_inv newTrie.
Proof.
  intros [|s] st; [|done]. intros [= <-]. exists []. split; [constructor|].
  split; [done|]. intros x Hx. by apply elem_of_nil in Hx.
Qed.

Lemma chain_own own h s st ls x :
  trie_inv own h -> sts h !! s = Some st -> chain h (state.letters st) ls -> x ∈ ls ->
  own x = s /\ (x < length (lts h))%nat.
Proof.
  intros Hinv Hst Hc Hx. destruct (chain_elem_rtc _ _ _ _ Hc Hx) as (hd & Hhd & Hr).
  destruct (ti_hd _ _ Hinv s st hd Hst Hhd) as [Hlt Ho].
  rewrite <- Ho. clear Hc Hx Hhd Ho.
  induction Hr as [|a b x (l & Hl & Hn) _ IH]; [done|].
  destruct (ti_link _ _ Hinv a l b Hl) as [Hb Hob]; [tauto|].
  destruct (IH Hb) as [E ?]. split; [congruence|done].
Qed.

Lemma chain_lt h p ls x : chain h p ls -> x ∈ ls -> (x < length (lts h))%nat.
Proof.
  induction 1 as [|a l ls Hl Hc IH]; intros Hx; [by apply elem_of_nil in Hx|].
  apply elem_of_cons in Hx as [->|Hx]; [by eapply lookup_lt_Some|by apply IH].
Qed.

Lemma trie_closed own h x lx b :
  trie_inv own h -> lts h !! x = Some lx ->
  letter.left lx = Some b \/ letter.right lx = Some b -> (b < length (lts h))%nat.
Proof. intros Hinv Hlx Hb. by destruct (ti_link _ _ Hinv x lx b Hlx) as [? _]; [tauto|]. Qed.

Lemma firstLetter_find own h s l n x c :
  trie_inv own h -> (x < length (lts h))%nat ->
  findLetter n (firstLetter h s l) (Some x) c = findLetter n h (Some x) c.
Proof.
  intros Hinv Hx. apply (findLetter_rel (fun x => (x < length (lts h))%nat)); [|done].
  clear x c Hx. intros x Hx. destruct (lookup_lt_is_Some_2 _ _ Hx) as [lx Hlx].
  exists lx. split; [done|]. split.
  - rewrite firstLetter_lts. rewrite decide_False by lia. by rewrite Hlx.
  - intros b Hb. by eapply trie_closed.
Qed.

Lemma tree_inv_first own h s cs l :
  trie_inv own h -> tree_inv h -> sts h !! s = Some cs -> state.letters cs = None ->
  tree_inv (firstLetter h s l).
Proof.
  intros Hinv Htree Hs Hnone.
  pose proof (lookup_lt_Some _ _ _ Hs) as Hslt.
  pose proof (firstLetter_lts h s l) as HL.
  pose proof (fun y => firstLetter_sts h s l y Hslt) as HS.
  set (h' := firstLetter h s l) in *.
  set (p := length (lts h)) in *. set (ns := length (sts h)) in *.
  assert (lts h' !! p = Some (letter.set_state (Some ns) (letter.new l))) as Hp.
  { rewrite HL. by rewrite decide_True. }
  intros y st' Hy. rewrite HS in Hy. case_decide as Ey.
  { injection Hy as <-. exists []. split; [constructor|]. split; [done|].
    intros x Hx. by apply elem_of_nil in Hx. }
  destruct (sts h !! y) as [st|] eqn:Hst; [|done]. simpl in Hy. injection Hy as <-.
  destruct (Htree y st Hst) as (ls & Hc & Hcnt & Hfd).
  case_decide as Es.
  - subst y. rewrite Hs in Hst. injection Hst as <-. rewrite Hnone in Hc.
    inversion Hc; subst. exists [p]. simpl. split; [|split].
    + econstructor; [exact Hp|]. constructor.
    + rewrite Hcnt. simpl. lia.
    + intros x Hx. apply list_elem_of_singleton in Hx as ->.
      eexists _, 1%nat. split; [exact Hp|].
      rewrite (findLetter_S _ _ _ _ _ Hp). simpl. by rewrite Z.eqb_refl.
  - exists ls. split; [|split; [done|]].
    + eapply chain_ext; [exact Hc|]. intros x Hx. rewrite HL.
      rewrite decide_False; [done|]. apply (chain_lt _ _ _ _ Hc) in Hx. unfold p. lia.
    + intros x Hx. destruct (Hfd x Hx) as (lx & n & Hlx & Hf).
      pose proof (lookup_lt_Some _ _ _ Hlx) as Hxlt.
      exists lx, n. split.
      * rewrite HL. rewrite decide_False by (unfold p; lia). done.
      * destruct (state.letters st) as [hd|] eqn:Hhd; [|by rewrite findLetter_None in Hf].
        destruct (ti_hd _ _ Hinv y st hd Hst Hhd) as [Hhdlt _].
        unfold h'. by rewrite (firstLetter_find own).
Qed.

Lemma nextLetter_find_hang side h s a hd nxt l n x c :
  (a < length (lts h))%nat -> (hd < length (lts h))%nat ->
  findLetter n (nextLetter side h s a hd nxt l) x c = findLetter n (hang side h a l) x c.
Proof.
  intros Ha Hhd. apply findLetter_tree_eq. clear x. intros x.
  rewrite nextLetter_lts, hang_lts by done. case_decide; [done|].
  destruct (lts h !! x) as [lx|]; [|done]. simpl. f_equal.
  destruct (decide (x = hd)); done.
Qed.

Lemma nextLetter_old side h s a hd nxt l x lx :
  (a < length (lts h))%nat -> (hd < length (lts h))%nat ->
  lts h !! x = Some lx ->
  exists lx', lts (nextLetter side h s a hd nxt l) !! x = Some lx' /\
    letter.char lx' = letter.char lx /\ letter.state lx' = letter.state lx /\
    letter.next lx' = (if decide (x = hd) then Some (length (lts h)) else letter.next lx).
Proof.
  intros Ha Hhd Hlx. rewrite nextLetter_lts by done.
  rewrite decide_False by (apply lookup_lt_Some in Hlx; lia).
  rewrite Hlx. simpl. eexists. split; [done|].
  destruct (setSide_fields side (length (lts h)) lx) as (Hch & Hst & Hnx & _).
  repeat case_decide; simpl; rewrite ?Hch, ?Hst, ?Hnx; done.
Qed.

Lemma nextLetter_find_other own side h s a hd nxt l n t x :
  trie_inv own h -> (a < length (lts h))%nat -> (hd < length (lts h))%nat ->
  own a = s -> t <> s -> own x = t -> (x < length (lts h))%nat ->
  forall c, findLetter n (nextLetter side h s a hd nxt l) (Some x) c
            = findLetter n h (Some x) c.
Proof.
  intros Hinv Ha Hhd Hoa Hts Hox Hx c.
  apply (findLetter_rel (fun x => own x = t /\ (x < length (lts h))%nat)); [|done].
  clear x Hox Hx. intros x [Hox Hx].
  destruct (lookup_lt_is_Some_2 _ _ Hx) as [lx Hlx]. exists lx. split; [done|]. split.
  - rewrite nextLetter_lts by done. rewrite decide_False by lia. rewrite Hlx. simpl.
    rewrite (decide_False (P := x = a)) by congruence. by case_decide.
  - intros b Hb. destruct (ti_link _ _ Hinv x lx b Hlx) as [? ?]; [tauto|].
    split; [congruence|done].
Qed.

Lemma tree_inv_next own F h s cs hd hdr a la l :
  trie_inv own h -> tree_inv h ->
  sts h !! s = Some cs -> state.letters cs = Some hd ->
  lts h !! hd = Some hdr -> lts h !! a = Some la -> own a = s ->
  letter.char la <> l -> child l la = None ->
  findLetter F h (Some hd) l = Ok None ->
  findLetter F (hang (letter.char la <? l) h a l) (Some hd) l
  = Ok (Some (length (lts h))) ->
  tree_inv (nextLetter (letter.char la <? l) h s a hd (letter.next hdr) l).
Proof.
  intros Hinv Htree Hs Hhd Hhdr Ha Hoa Hne Hnone Hf0 Hf1.
  pose proof (lookup_lt_Some _ _ _ Hs) as Hslt.
  pose proof (lookup_lt_Some _ _ _ Ha) as Halt.
  pose proof (lookup_lt_Some _ _ _ Hhdr) as Hhdlt.
  set (side := letter.char la <? l) in *.
  pose proof (fun x => nextLetter_lts side h s a hd (letter.next hdr) l x Halt Hhdlt) as HL.
  pose proof (fun y => nextLetter_sts side h s a hd (letter.next hdr) l y Hslt) as HS.
  pose proof (fun n x c => nextLetter_find_hang side h s a hd (letter.next hdr) l n x c
                             Halt Hhdlt) as Hhang.
  pose proof (fun x lx => nextLetter_old side h s a hd (letter.next hdr) l x lx
                            Halt Hhdlt) as Hold.
  destruct (ti_hd _ _ Hinv s cs hd Hs Hhd) as [_ Hohd].
  set (h' := nextLetter side h s a hd (letter.next hdr) l) in *.
  set (p := length (lts h)) in *. set (ns := length (sts h)) in *.
  assert (lts h' !! p = Some (letter.mk l (Some ns) None None (letter.next hdr))) as Hp.
  { rewrite HL. by rewrite decide_True. }
  (* a letter that was found is found *)
  assert (forall t st hdt x, sts h !! t = Some st -> state.letters st = Some hdt ->
            findable h (Some hdt) x -> findable h' (Some hdt) x) as Hkeep.
  { intros t st hdt x Hst Hhdt (lx & n & Hlx & Hf).
    destruct (Hold x lx Hlx) as (lx' & Hlx' & Hch & _).
    destruct (ti_hd _ _ Hinv t st hdt Hst Hhdt) as [Hhdtlt Hohdt].
    exists lx'. rewrite Hch.
    destruct (decide (letter.char lx = l)) as [E|E].
    - assert (t <> s) as Hts.
      { intros ->. rewrite Hs in Hst. injection Hst as <-.
        rewrite Hhd in Hhdt. injection Hhdt as <-. rewrite E in Hf.
        by pose proof (findLetter_agree _ _ _ _ _ _ _ Hf Hf0). }
      exists n. split; [done|]. unfold h'.
      by rewrite (nextLetter_find_other own _ _ _ _ _ _ _ _ t hdt Hinv Halt Hhdlt Hoa Hts).
    - exists (S n). split; [done|]. rewrite Hhang.
      apply (findLetter_hang side h a la l _ Ha eq_refl Hnone E
               (fun x lx b => trie_closed own h x lx b Hinv) n hdt); done. }
  intros y st' Hy. rewrite HS in Hy. case_decide as Ey.
  { injection Hy as <-. exists []. split; [constructor|]. split; [done|].
    intros x Hx. by apply elem_of_nil in Hx. }
  destruct (sts h !! y) as [st|] eqn:Hst; [|done]. simpl in Hy. injection Hy as <-.
  destruct (Htree y st Hst) as (ls & Hc & Hcnt & Hfd).
  case_decide as Es.
  - assert (st = cs) as -> by congruence. clear Hst. simpl. rewrite Hhd in *.
    inversion Hc as [|? hdr' rest Hhdr' Hrest E1 E2]. subst ls. rewrite Hhdr in Hhdr'.
    injection Hhdr' as <-.
    pose proof (chain_NoDup _ _ _ Hc) as Hnd. apply NoDup_cons in Hnd as [Hnin _].
    exists (hd :: p :: rest). unfold incCount. simpl. rewrite Hhd. split; [|split].
    + destruct (Hold hd hdr Hhdr) as (hdr' & Hhdr' & _ & _ & Hnx).
      rewrite decide_True in Hnx by done.
      econstructor; [exact Hhdr'|]. rewrite Hnx.
      econstructor; [exact Hp|]. simpl.
      eapply chain_ext; [exact Hrest|]. intros x Hx.
      destruct (lookup_lt_is_Some_2 _ _ (chain_lt _ _ _ _ Hrest Hx)) as [lx Hlx].
      destruct (Hold x lx Hlx) as (lx' & Hlx' & _ & _ & Hnx').
      rewrite decide_False in Hnx' by (intros ->; done).
      rewrite Hlx', Hlx. simpl. by rewrite Hnx'.
    + rewrite Hcnt. simpl length. lia.
    + intros x Hx. apply elem_of_cons in Hx as [->|Hx].
      { eapply Hkeep; [exact Hs|done|]. apply Hfd. by left. }
      apply elem_of_cons in Hx as [->|Hx].
      { eexists _, F. split; [exact Hp|]. simpl. by rewrite Hhang. }
      eapply Hkeep; [exact Hs|done|]. apply Hfd. by right.
  - exists ls. split; [|split; [done|]].
    + eapply chain_ext; [exact Hc|]. intros x Hx.
      destruct (chain_own _ _ _ _ _ _ Hinv Hst Hc Hx) as [Hox Hxlt].
      destruct (lookup_lt_is_Some_2 _ _ Hxlt) as [lx Hlx].
      destruct (Hold x lx Hlx) as (lx' & Hlx' & _ & _ & Hnx').
      rewrite decide_False in Hnx' by congruence.
      rewrite Hlx', Hlx. simpl. by rewrite Hnx'.
    + intros x Hx. destruct (state.letters st) as [hdt|] eqn:Hhdt.
      * eapply Hkeep; [exact Hst|done|]. by apply Hfd.
      * inversion Hc; subst. by apply elem_of_nil in Hx.
Qed.

Lemma chain_updS f i h p ls : chain h p ls -> chain (updS f i h) p ls.
Proof. intros Hc. eapply chain_ext; [exact Hc|done]. Qed.

Lemma tree_inv_set_final b s h : tree_inv h -> tree_inv (updS (state.set_final b) s h).
Proof.
  intros Htree y st'. simpl. rewrite list_lookup_alter.
  assert (forall st, listed h st -> listed (updS (state.set_final b) s h) st) as Hl.
  { intros st (ls & Hc & Hcnt & Hfd). exists ls. split; [by apply chain_updS|].
    split; [done|]. intros x Hx. destruct (Hfd x Hx) as (lx & n & Hlx & Hf).
    exists lx, n. split; [done|]. by rewrite findLetter_updS. }
  case_decide; subst.
  - destruct (sts h !! y) as [st|] eqn:E; [|done]. intros [= <-].
    destruct (Hl st (Htree y st E)) as (ls & Hc & Hcnt & Hfd). by exists ls.
  - intros Hy. apply Hl. by eapply Htree.
Qed.

Lemma addWordBody_tree own fuel h s l ne cr h' s' ne' cr' :
  trie_inv own h -> tree_inv h -> (s < length (sts h))%nat ->
  addWordBody fuel h s l ne cr = Ok (h', s', ne', cr') -> tree_inv h'.
Proof.
  intros Hinv Htree Hs H.
  destruct (addWordBody_cases own fuel h s l ne cr h' s' ne' cr' Hinv Hs H)
    as (cs & Hcs & [Hc|[Hc|Hc]]).
  - by destruct Hc as (hd & p & lp & Hhd & -> & _).
  - destruct Hc as (Hnone & -> & _). by eapply tree_inv_first.
  - destruct Hc as (hd & hdr & a & la & Hhd & Hhdr & Ha & Hoa & Hne & Hnone & -> & _ & _ & Hf0 & Hf1).
    by eapply tree_inv_next.
Qed.

Lemma addWordLoop_tree fuel rs : forall own h s ne ws cr h' s' ne' ws' cr',
  trie_inv own h -> tree_inv h -> (s < length (sts h))%nat ->
  addWordLoop fuel h s rs ne ws cr = Ok (h', s', ne', ws', cr') -> tree_inv h'.
Proof.
  induction rs as [|[i l] rs IH]; intros own h s ne ws cr h' s' ne' ws' cr' Hinv Htree Hs.
  - simpl. by intros [= <- <- <- <- <-].
  - simpl. intros H. bind_inv H as x Hx. destruct x as [[[h1 s1] ne1] cr1].
    pose proof (addWordBody_tree _ _ _ _ _ _ _ _ _ _ _ Hinv Htree Hs Hx) as Htree1.
    apply (addWordBody_inv own) in Hx as ([own1 Hinv1] & Hs1 & Hlen1); [|done..].
    by eapply (IH own1).
Qed.

Lemma addWord_tree fuel h root word h' r :
  trie h root -> tree_inv h ->
  addWord fuel h (Some root) word = Ok (h', r) -> tree_inv h'.
Proof.
  intros [[own Hinv] Hroot] Htree. pose proof (rooted_lt _ _ Hroot) as Hrlt.
  unfold addWord. intros H.
  bind_inv H as x Hx. destruct x as [[[[h1 s1] ne1] ws1] cr1].
  bind_inv H as cs Hcs. injection H as <- <-.
  apply tree_inv_set_final. by eapply addWordLoop_tree.
Qed.

Lemma addWords_tree fuel words : forall h root nb mx h' nb' mx',
  trie h root -> tree_inv h ->
  addWords fuel h (Some root) words nb mx = Ok (h', nb', mx') -> tree_inv h'.
Proof.
  induction words as [|w words IH]; intros h root nb mx h' nb' mx' Htrie Htree.
  - simpl. by intros [= <- <- <-].
  - simpl. intros H. bind_inv H as x Hx. destruct x as [h1 [[ne sz] cn]].
    eapply IH; [|  |exact H].
    + by eapply addWord_trie.
    + by eapply addWord_tree.
Qed.

(** ** compressTrie keeps the words of every state *)

Lemma same_shape_tree_view h h' :
  same_shape h h' -> forall x, tree_view <$> lts h !! x = tree_view <$> lts h' !! x.
Proof.
  intros [Hl _] x. pose proof (f_equal (fun v => v !! x) Hl) as E. simpl in E.
  rewrite !list_lookup_fmap in E.
  destruct (lts h !! x) as [l|], (lts h' !! x) as [l'|]; try done.
  change (Some (strip_l l) = Some (strip_l l')) in E.
  assert (strip_l l = strip_l l') as E' by congruence.
  apply strip_l_fields in E' as (El & Er & _ & Ec).
  simpl. unfold tree_view. by rewrite El, Er, Ec.
Qed.

Lemma findLetter_shape h h' n p c :
  same_shape h h' -> findLetter n h p c = findLetter n h' p c.
Proof. intros Hsh. apply findLetter_tree_eq. by apply same_shape_tree_view. Qed.

Lemma chain_shape h h' p ls : same_shape h h' -> chain h p ls -> chain h' p ls.
Proof.
  intros Hsh Hc. eapply chain_ext; [exact Hc|]. intros x Hx.
  destruct (lookup_lt_is_Some_2 _ _ (chain_lt _ _ _ _ Hc Hx)) as [lx Hlx].
  destruct (same_shape_letter _ _ _ _ Hsh Hlx) as (lx' & Hlx' & E).
  apply strip_l_fields in E as (_ & _ & En & _). rewrite Hlx, Hlx'. simpl. by rewrite En.
Qed.

Lemma tree_inv_shape h h' : same_shape h h' -> tree_inv h -> tree_inv h'.
Proof.
  intros Hsh Htree s st' Hst'.
  destruct (same_shape_state _ _ _ _ (same_shape_sym _ _ Hsh) Hst') as (st & Hst & E).
  apply strip_s_fields in E as [Ecnt El].
  destruct (Htree s st Hst) as (ls & Hc & Hcnt & Hfd).
  exists ls. rewrite El. split; [by eapply chain_shape|]. split.
  - congruence.
  - intros x Hx. destruct (Hfd x Hx) as (lx & n & Hlx & Hf).
    destruct (same_shape_letter _ _ _ _ Hsh Hlx) as (lx' & Hlx' & E2).
    apply strip_l_fields in E2 as (_ & _ & _ & Ec).
    exists lx', n. split; [done|]. rewrite <- Ec.
    by rewrite <- (findLetter_shape h h').
Qed.

Lemma tree_listed_trie own h : trie_inv own h -> tree_listed h.
Proof.
  intros Hinv s st ls x Hst Hc Hown.
  pose proof (owns_own _ _ _ _ Hinv Hown) as Ho.
  assert (x < length (lts h))%nat as Hx.
  { destruct Hown as (st' & hd & Hst' & Hhd & Hr).
    destruct (ti_hd _ _ Hinv s st' hd Hst' Hhd) as [Hlt _]. clear -Hinv Hr Hlt.
    induction Hr as [|a b x (l & Hl & Hlink) _ IH]; [done|].
    apply IH. by destruct (ti_link _ _ Hinv a l b Hl Hlink). }
  destruct (ti_chain _ _ Hinv x Hx) as (st' & hd & Hst' & Hhd & Hr).
  rewrite Ho, Hst in Hst'. injection Hst' as <-. rewrite Hhd in Hc.
  by eapply chain_rtc.
Qed.

Lemma tree_listed_shape h h' : same_shape h h' -> tree_listed h -> tree_listed h'.
Proof.
  intros Hsh Hl s st' ls x Hst' Hc Hown.
  pose proof (same_shape_sym _ _ Hsh) as Hsh'.
  destruct (same_shape_state _ _ _ _ Hsh' Hst') as (st & Hst & E).
  apply strip_s_fields in E as [_ El].
  eapply (Hl s st ls x); [done| |by eapply same_shape_owns].
  rewrite <- El. by eapply chain_shape.
Qed.

Lemma containsLetter_true fuel h o x :
  containsLetter fuel h (Some o) (Some x) = Ok true ->
  exists os lx r lr, sts h !! o = Some os /\ lts h !! x = Some lx /\
    findLetter fuel h (state.letters os) (letter.char lx) = Ok (Some r) /\
    lts h !! r = Some lr /\ letter.state lr = letter.state lx.
Proof.
  unfold containsLetter. intros H. bind_inv H as os Hos. bind_inv H as lx Hlx.
  bind_inv H as r Hr. destruct r as [r|]; [|discriminate].
  bind_inv H as lr Hlr. injection H as H. apply bool_decide_eq_true in H.
  apply getS_Some in Hos as (i & [= <-] & Hos).
  apply getL_Some in Hlx as (i & [= <-] & Hlx).
  apply getL_Some in Hlr as (i & [= <-] & Hlr).
  by exists os, lx, r, lr.
Qed.

Lemma equalsLoop_all fuel n : forall h o p ls,
  equalsLoop fuel n h o p = Ok true -> chain h p ls ->
  forall x, x ∈ ls -> containsLetter fuel h o (Some x) = Ok true.
Proof.
  induction n as [|n IH]; intros h o p ls H Hc x Hx.
  - destruct p; [discriminate|]. inversion Hc; subst. by apply elem_of_nil in Hx.
  - destruct p as [a|]; [|inversion Hc; subst; by apply elem_of_nil in Hx].
    simpl in H. bind_inv H as b Hb. destruct b; simpl in H; [|discriminate].
    bind_inv H as cl Hcl. apply getL_Some in Hcl as (i & [= <-] & Hcl).
    inversion Hc as [|? l' ls' Hl' Hc' E1 E2]; subst. rewrite Hcl in Hl'.
    injection Hl' as <-. apply elem_of_cons in Hx as [->|Hx]; [done|].
    by eapply IH.
Qed.

Lemma equals_inv fuel h c sp :
  equals fuel h (Some c) (Some sp) = Ok true ->
  exists cs ss, sts h !! c = Some cs /\ sts h !! sp = Some ss /\
    state.final cs = state.final ss /\
    state.lettersCount cs = state.lettersCount ss /\
    equalsLoop fuel fuel h (Some sp) (state.letters cs) = Ok true.
Proof.
  unfold equals. intros H. bind_inv H as cs Hcs. bind_inv H as ss Hss.
  apply getS_Some in Hcs as (i & [= <-] & Hcs).
  apply getS_Some in Hss as (i & [= <-] & Hss).
  exists cs, ss. split; [done|]. split; [done|].
  destruct (eqb_spec (state.final cs) (state.final ss)); [|discriminate].
  destruct (Z.eqb_spec (state.lettersCount cs) (state.lettersCount ss)); [|discriminate].
  done.
Qed.

Lemma findLetter_owns n h s st c x :
  sts h !! s = Some st -> findLetter n h (state.letters st) c = Ok (Some x) -> owns h s x.
Proof.
  intros Hst Hf. destruct (state.letters st) as [hd|] eqn:Hhd;
    [|by rewrite findLetter_None in Hf].
  exists st, hd. split; [done|]. split; [done|]. by eapply findLetter_lstep.
Qed.

(** equals is sound: two states that it finds equal have the same
    transitions and are both final or both not. *)
Lemma equals_sound fuel h c sp :
  tree_ok h -> equals fuel h (Some c) (Some sp) = Ok true ->
  (forall ch u, step h c ch u <-> step h sp ch u) /\
  (final_at h c <-> final_at h sp).
Proof.
  intros [Htree Hlisted] H.
  apply equals_inv in H as (cs & ss & Hcs & Hss & Hfin & Hcnt & Hloop).
  destruct (Htree c cs Hcs) as (ls & Hc & Hn & Hfd).
  destruct (Htree sp ss Hss) as (ls' & Hc' & Hn' & Hfd').
  pose proof (equalsLoop_all _ _ _ _ _ _ Hloop Hc) as Hall.
  assert (forall x, x ∈ ls -> exists lx r lr, lts h !! x = Some lx /\
            findLetter fuel h (state.letters ss) (letter.char lx) = Ok (Some r) /\
            lts h !! r = Some lr /\ letter.state lr = letter.state lx /\
            letter.char lr = letter.char lx /\ r ∈ ls') as Hphi.
  { intros x Hx. apply Hall in Hx.
    apply containsLetter_true in Hx as (os & lx & r & lr & Hos & Hlx & Hf & Hlr & Hst).
    rewrite Hss in Hos. injection Hos as <-.
    exists lx, r, lr. repeat (split; [done|]).
    destruct (findLetter_char _ _ _ _ _ Hf) as (lr' & Hlr' & Hch).
    apply getL_Some in Hlr' as (i & [= <-] & Hlr'). rewrite Hlr in Hlr'.
    injection Hlr' as <-. split; [done|].
    eapply Hlisted; [exact Hss|done|]. by eapply findLetter_owns. }
  split; [|unfold final_at; rewrite Hcs, Hss; split; intros (? & [= <-] & ?); eauto;
           eexists; (split; [done|congruence])].
  intros ch u. split.
  - intros Hs. apply step_inv in Hs as (n & st & hd & lt & l & Hst & Hhd & Hf & Hl & Hu).
    rewrite Hcs in Hst. injection Hst as <-.
    destruct (findLetter_char _ _ _ _ _ Hf) as (l' & Hl' & Hch).
    apply getL_Some in Hl' as (i & [= <-] & Hl'). rewrite Hl in Hl'. injection Hl' as <-.
    assert (lt ∈ ls) as Hin.
    { eapply Hlisted; [exact Hcs|done|]. eapply findLetter_owns; [done|]. by rewrite Hhd. }
    destruct (Hphi lt Hin) as (lx & r & lr & Hlx & Hfr & Hlr & Est & _).
    rewrite Hl in Hlx. injection Hlx as <-. rewrite Hch in Hfr.
    destruct (state.letters ss) as [hd'|] eqn:Hhd'; [|by rewrite findLetter_None in Hfr].
    eapply (step_intro h sp ch u fuel ss hd' r lr); [done..|congruence].
  - intros Hs. apply step_inv in Hs as (n & st & hd' & lt' & l' & Hst & Hhd' & Hf & Hl' & Hu).
    rewrite Hss in Hst. injection Hst as <-.
    destruct (findLetter_char _ _ _ _ _ Hf) as (l2 & Hl2 & Hch).
    apply getL_Some in Hl2 as (i & [= <-] & Hl2). rewrite Hl' in Hl2. injection Hl2 as <-.
    subst ch.
    assert (lt' ∈ ls') as Hin'.
    { eapply Hlisted; [exact Hss|done|]. eapply findLetter_owns; [done|]. by rewrite Hhd'. }
    (* the runes of the two lists *)
    assert (NoDup (charOf h <$> ls)) as Hnd.
    { apply NoDup_fmap_2_strong; [|by eapply chain_NoDup].
      intros x y Hx Hy E. destruct (Hfd x Hx) as (lx & nx & Hlx & Hfx).
      destruct (Hfd y Hy) as (ly & ny & Hly & Hfy).
      unfold charOf in E. rewrite Hlx, Hly in E. simpl in E. rewrite E in Hfx.
      by pose proof (findLetter_agree _ _ _ _ _ _ _ Hfx Hfy) as [= ->]. }
    assert (incl (charOf h <$> ls) (charOf h <$> ls')) as Hincl.
    { intros v Hv. apply list_elem_of_In in Hv. apply list_elem_of_In.
      apply list_elem_of_fmap in Hv as (x & -> & Hx).
      destruct (Hphi x Hx) as (lx & r & lr & Hlx & _ & Hlr & _ & Ech & Hr).
      apply list_elem_of_fmap. exists r. split; [|done].
      unfold charOf. rewrite Hlx, Hlr. simpl. done. }
    assert (incl (charOf h <$> ls') (charOf h <$> ls)) as Hincl'.
    { apply NoDup_length_incl; [by apply NoDup_ListNoDup| |done].
      rewrite !length_fmap. lia. }
    assert (letter.char l' ∈ charOf h <$> ls) as Hch'.
    { apply list_elem_of_In, Hincl', list_elem_of_In, list_elem_of_fmap.
      exists lt'. split; [|done]. unfold charOf. rewrite Hl'. simpl. done. }
    apply list_elem_of_fmap in Hch' as (x & Ex & Hx).
    destruct (Hfd x Hx) as (lx & nx & Hlx & Hfx).
    destruct (Hphi x Hx) as (lx2 & r & lr & Hlx2 & Hfr & Hlr & Est & _).
    rewrite Hlx in Hlx2. injection Hlx2 as <-.
    unfold charOf in Ex. rewrite Hlx in Ex. simpl in Ex.
    assert (letter.char lx = letter.char l') as Ecc by congruence.
    rewrite Ecc in Hfr, Hfx. rewrite Hhd' in Hfr.
    pose proof (findLetter_agree _ _ _ _ _ _ _ Hf Hfr) as [= <-].
    rewrite Hl' in Hlr. injection Hlr as <-.
    destruct (state.letters cs) as [hd|] eqn:Hhd; [|by rewrite findLetter_None in Hfx].
    eapply (step_intro h c _ u nx cs hd x lx); [done..|congruence].
Qed.

Lemma same_words_refl h s : same_words h s s.
Proof. done. Qed.

Lemma same_words_sym h s t : same_words h s t -> same_words h t s.
Proof. intros H rs. symmetry. apply H. Qed.

Lemma same_words_trans h s t u : same_words h s t -> same_words h t u -> same_words h s u.
Proof. intros H1 H2 rs. etransitivity; [apply H1|apply H2]. Qed.

Lemma equals_same_words fuel h c sp :
  tree_ok h -> equals fuel h (Some c) (Some sp) = Ok true -> same_words h c sp.
Proof.
  intros Hok H. destruct (equals_sound _ _ _ _ Hok H) as [Hst Hfin].
  intros [|ch rs].
  - by rewrite !accepted_nil_iff.
  - rewrite !accepted_cons_iff. split; intros (u & Hs & Hacc); exists u;
      (split; [by apply Hst|done]).
Qed.

(** Two stores whose transitions lead to states with the same words. *)
Lemma accepted_redirect h h' :
  (forall t ch u, step h' t ch u -> exists u0, step h t ch u0 /\ same_words h u0 u) ->
  (forall t ch u0, step h t ch u0 -> exists u, step h' t ch u /\ same_words h u0 u) ->
  (forall t, final_at h' t <-> final_at h t) ->
  forall rs t, accepted h' (Some t) rs <-> accepted h (Some t) rs.
Proof.
  intros H1 H2 Hfin. induction rs as [|ch rs IH]; intros t.
  - by rewrite !accepted_nil_iff.
  - rewrite !accepted_cons_iff. split.
    + intros (u & Hs & Hacc). destruct (H1 _ _ _ Hs) as (u0 & Hs0 & Hw).
      exists u0. split; [done|]. apply Hw. by apply IH.
    + intros (u0 & Hs0 & Hacc). destruct (H2 _ _ _ Hs0) as (u & Hs & Hw).
      exists u. split; [done|]. apply IH. by apply Hw.
Qed.

Lemma getletter_shape h h' n st c :
  same_shape h h' -> getletter n h st c = getletter n h' st c.
Proof.
  intros Hsh. unfold getletter, getS. destruct st as [s|]; [|done].
  destruct (sts h !! s) as [a|] eqn:Ea.
  - destruct (same_shape_state _ _ _ _ Hsh Ea) as (a' & -> & E).
    apply strip_s_fields in E as [_ El]. simpl. rewrite El.
    by apply findLetter_shape.
  - destruct (sts h' !! s) as [a'|] eqn:Ea'; [|done].
    destruct (same_shape_state _ _ _ _ (same_shape_sym _ _ Hsh) Ea') as (a & Ea2 & _).
    congruence.
Qed.

Lemma final_at_shape h h' t : same_shape h h' -> final_at h t -> final_at h' t.
Proof.
  intros Hsh (st & Hst & Hf).
  destruct (same_shape_state _ _ _ _ Hsh Hst) as (st' & Hst' & E).
  apply strip_s_more in E as (_ & _ & Ef). exists st'. split; [done|congruence].
Qed.

Lemma merged_shape h c prev lp v : same_shape h (merged h c prev lp v).
Proof. eapply same_shape_trans; [apply same_shape_updS|apply same_shape_updL]. Qed.

Lemma merged_lts h c prev lp v x :
  lts (merged h c prev lp v) !! x
  = (if decide (x = lp) then letter.set_state (Some c) else fun l => l) <$> lts h !! x.
Proof.
  unfold merged. simpl. rewrite list_lookup_alter.
  case_decide; subst; [by rewrite decide_True|]. rewrite decide_False by done.
  by destruct (lts h !! x).
Qed.

Lemma merged_step h c prev lp v l0 x0 :
  lts h !! lp = Some l0 -> letter.state l0 = Some x0 -> same_words h x0 c ->
  (forall t ch u, step (merged h c prev lp v) t ch u ->
     exists u0, step h t ch u0 /\ same_words h u0 u) /\
  (forall t ch u0, step h t ch u0 ->
     exists u, step (merged h c prev lp v) t ch u /\ same_words h u0 u).
Proof.
  intros Hl0 Hx0 Hw. pose proof (merged_shape h c prev lp v) as Hsh.
  pose proof (merged_lts h c prev lp v) as HL.
  set (h' := merged h c prev lp v) in *.
  split.
  - intros t ch u (n & lt & l' & Hg & Hl' & Hu).
    rewrite <- (getletter_shape h h') in Hg by done.
    rewrite HL in Hl'. destruct (lts h !! lt) as [l|] eqn:Hl; [|done].
    simpl in Hl'. injection Hl' as <-. case_decide as E.
    + subst lt. rewrite Hl0 in Hl. injection Hl as <-. simpl in Hu. injection Hu as <-.
      exists x0. split; [by exists n, lp, l0|done].
    + exists u. split; [by exists n, lt, l|done].
  - intros t ch u0 (n & lt & l & Hg & Hl & Hu).
    rewrite (getletter_shape h h') in Hg by done.
    destruct (decide (lt = lp)) as [->|E].
    + rewrite Hl0 in Hl. injection Hl as <-. rewrite Hx0 in Hu. injection Hu as <-.
      exists c. split; [|done]. exists n, lp, (letter.set_state (Some c) l0).
      split; [done|]. split; [|done]. rewrite HL, Hl0. simpl. by rewrite decide_True.
    + exists u0. split; [|done]. exists n, lt, l. split; [done|]. split; [|done].
      rewrite HL, Hl. simpl. by rewrite decide_False.
Qed.

Lemma merged_final h c prev lp v t :
  final_at (merged h c prev lp v) t <-> final_at h t.
Proof.
  pose proof (merged_shape h c prev lp v) as Hsh. split.
  - apply final_at_shape. by apply same_shape_sym.
  - by apply final_at_shape.
Qed.

Lemma merge_words_step fuel h1 h c prev sp ss lp l0 v :
  tree_ok h1 -> merge_words h1 h ->
  equals fuel h (Some c) (Some sp) = Ok true ->
  sts h !! sp = Some ss -> state.letter ss = Some lp -> lts h !! lp = Some l0 ->
  merge_words h1 (merged h c prev lp v).
Proof.
  intros [Htree Hlisted] (Hsh & Hpw & Htg & Hacc) He Hss Hlp Hl0.
  assert (tree_ok h) as Hok.
  { split; [by eapply tree_inv_shape|by eapply tree_listed_shape]. }
  pose proof (equals_same_words _ _ _ _ Hok He) as Hcs.
  destruct (Htg lp l0 Hl0) as (x0 & Hx0 & _).
  pose proof (Hpw sp ss lp l0 x0 Hss Hlp Hl0 Hx0) as Hx0s.
  assert (same_words h x0 c) as Hx0c.
  { eapply same_words_trans; [exact Hx0s|by apply same_words_sym]. }
  destruct (merged_step h c prev lp v l0 x0 Hl0 Hx0 Hx0c) as [H1 H2].
  pose proof (accepted_redirect h (merged h c prev lp v) H1 H2
                (merged_final h c prev lp v)) as Hacc2.
  pose proof (merged_lts h c prev lp v) as HL.
  split; [|split; [|split]].
  - eapply same_shape_trans; [exact Hsh|apply merged_shape].
  - intros t st' lp' l' x Hst' Hlp' Hl' Hx rs. rewrite !Hacc2.
    destruct (same_shape_state _ _ _ _ (same_shape_sym _ _ (merged_shape h c prev lp v)) Hst')
      as (st & Hst & E).
    apply strip_s_more in E as (_ & Elet & _).
    rewrite HL in Hl'. destruct (lts h !! lp') as [l|] eqn:Hl; [|done].
    simpl in Hl'. injection Hl' as <-. case_decide as E.
    + subst lp'. simpl in Hx. injection Hx as <-.
      rewrite Hl0 in Hl. injection Hl as <-.
      assert (same_words h x0 t) as Hx0t.
      { eapply (Hpw t st lp l0 x0); [done|congruence|done..]. }
      transitivity (accepted h (Some x0) rs); [symmetry; apply Hx0c|apply Hx0t].
    + eapply (Hpw t st lp' l x); [done|congruence|done..].
  - intros lp' l'. rewrite HL. destruct (lts h !! lp') as [l|] eqn:Hl; [|done].
    assert (length (sts (merged h c prev lp v)) = length (sts h)) as ->.
    { destruct (merged_shape h c prev lp v) as [_ E].
      apply (f_equal length) in E. by rewrite !length_fmap in E. }
    simpl. intros [= <-]. case_decide; simpl; [|by eapply Htg].
    exists c. split; [done|].
    apply equals_inv in He as (cs & _ & Hc & _). by eapply lookup_lt_Some.
  - intros t rs. by rewrite Hacc2.
Qed.

Lemma mergeSame_words h1 fuel k : forall h c prev same d h' d',
  tree_ok h1 -> merge_words h1 h ->
  mergeSame fuel k h c prev same d = Ok (h', d') -> merge_words h1 h'.
Proof.
  induction k as [|k IH]; intros h c prev same d h' d' Hok Hm.
  - destruct same; simpl; [discriminate|]. by intros [= <- <-].
  - destruct same as [sp|]; simpl; [|by intros [= <- <-]].
    intros H. bind_inv H as e He. destruct e.
    + bind_inv H as ss Hss. bind_inv H as ps Hps. bind_inv H as ss1 Hss1.
      apply getS_Some in Hss as (i & [= <-] & Hss).
      assert (state.letter ss1 = state.letter ss) as Elet.
      { apply getS_Some in Hss1 as (i & [= <-] & Hss1).
        simpl in Hss1. rewrite list_lookup_alter in Hss1.
        case_decide; [subst|congruence]. rewrite Hss in Hss1.
        by injection Hss1 as <-. }
      destruct (state.letter ss1) as [lp|] eqn:Elp; [|discriminate].
      bind_inv H as l Hl. bind_inv H as ss2 Hss2.
      apply getL_Some in Hl as (i & [= <-] & Hl). simpl in Hl.
      eapply (IH _ _ _ _ _ _ _ Hok); [|exact H].
      by eapply (merge_words_step fuel h1 h c prev sp ss lp l).
    + bind_inv H as ss Hss. by eapply IH.
Qed.

Lemma mergeLevel_words h1 fuel k : forall h cur d h' d',
  tree_ok h1 -> merge_words h1 h ->
  mergeLevel fuel k h cur d = Ok (h', d') -> merge_words h1 h'.
Proof.
  induction k as [|k IH]; intros h cur d h' d' Hok Hm.
  - destruct cur as [c|]; simpl; [|by intros [= <- <-]].
    intros H. bind_inv H as cs Hcs.
    destruct (state.next cs); [discriminate|]. by injection H as <- <-.
  - destruct cur as [c|]; simpl; [|by intros [= <- <-]].
    intros H. bind_inv H as cs Hcs.
    destruct (state.next cs) as [nx|] eqn:Enx; [|by injection H as <- <-].
    bind_inv H as x Hx. destruct x as [h2 d2]. bind_inv H as cs1 Hcs1.
    eapply (IH _ _ _ _ _ Hok); [|exact H]. by eapply mergeSame_words.
Qed.

Lemma mergeLevels_words h1 fuel lv : forall h d h' d',
  tree_ok h1 -> merge_words h1 h ->
  mergeLevels fuel h lv d = Ok (h', d') -> merge_words h1 h'.
Proof.
  induction lv as [|l lv IH]; intros h d h' d' Hok Hm; simpl.
  - by intros [= <- <-].
  - intros H. bind_inv H as x Hx. destruct x as [h2 d2].
    eapply (IH _ _ _ _ Hok); [|exact H]. by eapply mergeLevel_words.
Qed.

Lemma accepted_shape_same h h' :
  same_shape h h' -> lts h = lts h' ->
  forall rs t, accepted h' (Some t) rs <-> accepted h (Some t) rs.
Proof.
  intros Hsh Hl. apply accepted_redirect.
  - intros t ch u (n & lt & l & Hg & Hlt & Hu). exists u. split; [|done].
    exists n, lt, l. rewrite (getletter_shape h h') by done. by rewrite Hl.
  - intros t ch u (n & lt & l & Hg & Hlt & Hu). exists u. split; [|done].
    exists n, lt, l. rewrite <- (getletter_shape h h') by done. by rewrite <- Hl.
  - intros t. split; apply final_at_shape; [by apply same_shape_sym|done].
Qed.

Lemma merge_words_start own h1 hA :
  trie_inv own h1 -> seq_store h1 hA -> merge_words h1 hA.
Proof.
  intros Hinv Hseq. pose proof (seq_store_shape _ _ Hseq) as Hsh.
  destruct Hseq as [Hl Hs].
  pose proof (accepted_shape_same h1 hA Hsh Hl) as Hacc.
  split; [done|]. split; [|split].
  - intros t st lp l x Hst Hlp Hlx Hx.
    destruct (same_shape_state _ _ _ _ (same_shape_sym _ _ Hsh) Hst) as (st1 & Hst1 & E).
    apply strip_s_more in E as (_ & Elet & _).
    rewrite <- Hl in Hlx.
    destruct (ti_letter _ _ Hinv t st1 lp Hst1) as (l' & Hl' & Hst'); [congruence|].
    rewrite Hlx in Hl'. injection Hl' as <-. rewrite Hx in Hst'. by injection Hst' as ->.
  - intros lp l Hlx. rewrite <- Hl in Hlx.
    destruct (ti_state _ _ Hinv lp l Hlx) as (t & ts & Ht & Hts & _).
    exists t. split; [done|].
    destruct Hsh as [_ E]. apply (f_equal length) in E. rewrite !length_fmap in E.
    rewrite <- E. by eapply lookup_lt_Some.
  - intros t rs. apply Hacc.
Qed.

Lemma analyseRoot_seq fuel n h lv p h1 lv1 :
  analyseRoot fuel n h lv p = Ok (h1, lv1) -> seq_store h h1.
Proof.
  intros H.
  by destruct (analyseRoot_sim h h fuel _ _ _ _ _ _ _
                 (same_writes_start _ _ (seq_store_refl h)) H) as (Hseq & _).
Qed.

(** What compressTrie keeps of a trie. *)
Lemma compressTrie_merge_words own fuel h root m h' d :
  trie_inv own h -> tree_inv h ->
  compressTrie fuel h root m = Ok (h', d) -> merge_words h h'.
Proof.
  intros Hinv Htree H.
  apply compressTrie_inv in H as (rs & hA & lv & Hm & Hrs & Ha & Hmerge).
  assert (seq_store h hA) as Hseq.
  { destruct (state.lettersCount rs =? 0).
    - injection Ha as <- <-. apply seq_store_refl.
    - by eapply analyseRoot_seq. }
  assert (tree_ok h) as Hok by (split; [done|by eapply tree_listed_trie]).
  pose proof (merge_words_start own h hA Hinv Hseq) as Hm0.
  exact (mergeLevels_words h fuel lv hA 0 h' d Hok Hm0 Hmerge).
Qed.

(** compressTrie keeps the words of every state, and the shape of the trie. *)
Lemma compressTrie_words own fuel h root m h' d :
  trie_inv own h -> tree_inv h ->
  compressTrie fuel h root m = Ok (h', d) ->
  same_shape h h' /\
  forall t rs, accepted h' (Some t) rs <-> accepted h (Some t) rs.
Proof.
  intros Hinv Htree H.
  by destruct (compressTrie_merge_words own _ _ _ _ _ _ Hinv Htree H) as (Hsh & _ & _ & Hacc).
Qed.

(** ** The graph of CreateDAWG *)

(** On a store with well-formed trees, the words spelled are the words
    accepted. *)
Lemma spelled_accepted h : tree_ok h -> forall st rs, spelled h st rs <-> accepted h st rs.
Proof.
  intros [Htree Hlisted] st rs. split.
  - induction 1 as [st s Hg Hf|s lp l rs Hown Hl Hsp IH].
    + by eapply accepted_nil.
    + pose proof Hown as (st & hd & Hst & Hhd & _).
      destruct (Htree s st Hst) as (ls & Hc & _ & Hfd).
      destruct (Hfd lp) as (l' & n & Hl' & Hf); [by eapply Hlisted|].
      rewrite Hl in Hl'. injection Hl' as <-.
      eapply (accepted_cons h (Some s) _ rs n lp l); [|by unfold getL; rewrite Hl|done].
      unfold getletter, getS. rewrite Hst. done.
  - induction 1 as [st s Hg Hf|st c rs n lt l Hg Hl Hacc IH].
    + by eapply spelled_nil.
    + destruct (getletter_owns _ _ _ _ _ Hg) as (s & -> & Hown).
      destruct (getletter_char _ _ _ _ _ Hg) as (l' & Hl' & <-).
      rewrite Hl in Hl'. injection Hl' as <-.
      apply getL_Some in Hl as (i & [= <-] & Hl).
      by eapply spelled_cons.
Qed.

(** What CreateDAWG builds: a trie of the words, then merged. *)
Lemma CreateDAWG_inv fuel words h g :
  CreateDAWG fuel words = Ok (h, g) ->
  exists h1 nb mx d,
    addWords fuel newTrie (Some 0%nat) words 1 0 = Ok (h1, nb, mx) /\
    compressTrie fuel h1 (Some 0%nat) mx = Ok (h, d) /\
    g = mkDAWG (Some 0%nat) (nb - d).
Proof.
  unfold CreateDAWG. rewrite allocS_eq. simpl length.
  intros H. bind_inv H as x Hx. destruct x as [[h1 nb] mx].
  bind_inv H as y Hy. destruct y as [h2 d]. injection H as <- <-.
  by exists h1, nb, mx, d.
Qed.

Lemma addWords_built fuel words h nb mx :
  addWords fuel newTrie (Some 0%nat) words 1 0 = Ok (h, nb, mx) ->
  trie h 0 /\ tree_inv h /\
  forall rs, accepted h (Some 0%nat) rs <-> exists w, w ∈ words /\ runesOf w = rs.
Proof.
  intros H.
  destruct (addWords_accepted _ _ _ _ _ _ _ _ _ trie_newTrie H) as [Htrie Hacc].
  split; [done|]. split; [by eapply addWords_tree; [apply trie_newTrie|apply tree_inv_newTrie|]|].
  intros rs. rewrite Hacc. split; [|by right].
  intros [Hn|?]; [|done]. by apply accepted_newTrie in Hn.
Qed.

Lemma CreateDAWG_built fuel words h g :
  CreateDAWG fuel words = Ok (h, g) ->
  initialState g = Some 0%nat /\ tree_ok h /\
  forall rs, accepted h (Some 0%nat) rs <-> exists w, w ∈ words /\ runesOf w = rs.
Proof.
  intros H. apply CreateDAWG_inv in H as (h1 & nb & mx & d & Ha & Hc & ->).
  destruct (addWords_built _ _ _ _ _ Ha) as ([[own Hinv] Hroot] & Htree & Hacc).
  destruct (compressTrie_words own _ _ _ _ _ _ Hinv Htree Hc) as [Hsh Hw].
  split; [done|]. split.
  - split; [by eapply tree_inv_shape|].
    eapply tree_listed_shape; [exact Hsh|by eapply tree_listed_trie].
  - intros rs. by rewrite Hw.
Qed.

(** ** compressTrie keeps the shape of every store *)

Lemma mergeSame_shape fuel k : forall h c prev same d h' d',
  mergeSame fuel k h c prev same d = Ok (h', d') -> same_shape h h'.
Proof.
  induction k as [|k IH]; intros h c prev same d h' d'.
  - destruct same; simpl; [discriminate|]. intros [= <- <-]. apply same_shape_refl.
  - destruct same as [sp|]; simpl; [|intros [= <- <-]; apply same_shape_refl].
    intros H. bind_inv H as e He. destruct e.
    + bind_inv H as ss Hss. bind_inv H as ps Hps. bind_inv H as ss1 Hss1.
      destruct (state.letter ss1) as [lp|] eqn:Elp; [|discriminate].
      bind_inv H as l Hl. bind_inv H as ss2 Hss2.
      apply IH in H. eapply same_shape_trans; [|exact H].
      apply (merged_shape h c prev lp).
    + bind_inv H as ss Hss. by eapply IH.
Qed.

Lemma mergeLevel_shape fuel k : forall h cur d h' d',
  mergeLevel fuel k h cur d = Ok (h', d') -> same_shape h h'.
Proof.
  induction k as [|k IH]; intros h cur d h' d'.
  - destruct cur as [c|]; simpl; [|intros [= <- <-]; apply same_shape_refl].
    intros H. bind_inv H as cs Hcs.
    destruct (state.next cs); [discriminate|]. injection H as <- <-.
    apply same_shape_refl.
  - destruct cur as [c|]; simpl; [|intros [= <- <-]; apply same_shape_refl].
    intros H. bind_inv H as cs Hcs.
    destruct (state.next cs) as [nx|] eqn:Enx;
      [|injection H as <- <-; apply same_shape_refl].
    bind_inv H as x Hx. destruct x as [h2 d2]. bind_inv H as cs1 Hcs1.
    apply mergeSame_shape in Hx. apply IH in H. by eapply same_shape_trans.
Qed.

Lemma mergeLevels_shape fuel lv : forall h d h' d',
  mergeLevels fuel h lv d = Ok (h', d') -> same_shape h h'.
Proof.
  induction lv as [|l lv IH]; intros h d h' d'; simpl.
  - intros [= <- <-]. apply same_shape_refl.
  - intros H. bind_inv H as x Hx. destruct x as [h2 d2].
    apply mergeLevel_shape in Hx. apply IH in H. by eapply same_shape_trans.
Qed.

Lemma compressTrie_shape fuel h root m h' d :
  compressTrie fuel h root m = Ok (h', d) -> same_shape h h'.
Proof.
  intros H. apply compressTrie_inv in H as (rs & hA & lv & Hm & Hrs & Ha & Hmerge).
  apply mergeLevels_shape in Hmerge. eapply same_shape_trans; [|exact Hmerge].
  apply seq_store_shape. destruct (state.lettersCount rs =? 0).
  - injection Ha as <- <-. apply seq_store_refl.
  - by eapply analyseRoot_seq.
Qed.

(** ** Adding a word that the trie has *)

Lemma addWordBody_found own fuel h s l t ne cr h' s' ne' cr' :
  trie_inv own h -> (s < length (sts h))%nat -> step h s l t ->
  addWordBody fuel h s l ne cr = Ok (h', s', ne', cr') ->
  h' = h /\ s' = t /\ ne' = ne /\ cr' = cr.
Proof.
  intros Hinv Hs Hst H.
  apply step_inv in Hst as (n & st & hd0 & lt & l0 & Hst & Hhd0 & Hf & Hl0 & Hu).
  pose proof H as H0.
  destruct (addWordBody_cases own _ _ _ _ _ _ _ _ _ _ Hinv Hs H)
    as (cs & Hcs & [Hc|[Hc|Hc]]).
  - destruct Hc as (hd & p & lp & Hhd & -> & -> & Hf' & Hl & Hst').
    rewrite Hcs in Hst. injection Hst as <-. rewrite Hhd in Hhd0. injection Hhd0 as <-.
    pose proof (findLetter_agree _ _ _ _ _ _ _ Hf Hf') as [= <-].
    rewrite Hl0 in Hl. injection Hl as <-. rewrite Hu in Hst'. injection Hst' as <-.
    repeat (split; [done|]). split; [|done].
    unfold addWordBody in H0. unfold getS in H0. rewrite Hcs in H0. simpl in H0.
    rewrite Hhd in H0. bind_inv H0 as x Hx. destruct x as [h1 p1].
    unfold addWordState in H0. bind_inv H0 as cl Hcl.
    destruct (letter.state cl); [injection H0; intros; congruence|].
    rewrite (allocS_eq _ h1) in H0. simpl in H0.
    bind_inv H0 as cs4 Hcs4. bind_inv H0 as h5 Hh5. injection H0; intros; lia.
  - destruct Hc as (Hnone & _). congruence.
  - destruct Hc as (hd & hdr & a & la & Hhd & _ & _ & _ & _ & _ & _ & _ & _ & Hf0 & _).
    rewrite Hcs in Hst. injection Hst as <-. rewrite Hhd in Hhd0. injection Hhd0 as <-.
    by pose proof (findLetter_agree _ _ _ _ _ _ _ Hf Hf0).
Qed.

Lemma addWordLoop_found fuel rs : forall own h s u ne ws cr h' s' ne' ws' cr',
  trie_inv own h -> (s < length (sts h))%nat -> leads h s (map snd rs) u ->
  addWordLoop fuel h s rs ne ws cr = Ok (h', s', ne', ws', cr') ->
  h' = h /\ s' = u /\ ne' = ne /\ cr' = cr.
Proof.
  induction rs as [|[i l] rs IH]; intros own h s u ne ws cr h' s' ne' ws' cr' Hinv Hs Hl.
  - simpl. intros [= <- <- <- <- <-]. by inversion Hl.
  - simpl. intros H. bind_inv H as x Hx. destruct x as [[[h1 s1] ne1] cr1].
    simpl in Hl. inversion Hl as [|? ? t ? ? Hst Hl']; subst.
    apply (addWordBody_found own _ _ _ _ t) in Hx as (-> & -> & -> & ->); [|done..].
    eapply (IH own); [done| |exact Hl'|exact H]. by eapply step_old.
Qed.

Lemma updS_same f i h st : sts h !! i = Some st -> f st = st -> updS f i h = h.
Proof.
  intros Hst Hf. destruct h as [ss ls]. unfold updS. simpl in *. f_equal.
  apply list_eq. intros j. rewrite list_lookup_alter.
  case_decide; [subst|done]. rewrite Hst. simpl. by rewrite Hf.
Qed.

Lemma addWord_found own fuel h root word h' ne sz cn :
  trie_inv own h -> rooted h root -> accepted h (Some root) (runesOf word) ->
  addWord fuel h (Some root) word = Ok (h', (ne, sz, cn)) ->
  h' = h /\ ne = false /\ cn = 0.
Proof.
  intros Hinv Hroot Hacc. apply accepted_leads in Hacc as (u & Hl & (us & Hus & Hfin)).
  unfold addWord. intros H.
  bind_inv H as x Hx. destruct x as [[[[h1 s1] ne1] ws1] cr1].
  bind_inv H as cs Hcs. injection H as <- <- <- <-.
  apply (addWordLoop_found _ _ own _ _ u) in Hx as (-> & -> & -> & ->);
    [|done|by apply rooted_lt|done].
  split; [|done]. eapply updS_same; [exact Hus|].
  destruct us. simpl in *. by subst.
Qed.

(** ** The counters of addWord *)

Lemma addWordBody_created own fuel h s l ne cr h' s' ne' cr' :
  trie_inv own h -> (s < length (sts h))%nat ->
  addWordBody fuel h s l ne cr = Ok (h', s', ne', cr') ->
  Z.of_nat (length (sts h')) = Z.of_nat (length (sts h)) + (cr' - cr) /\
  cr <= cr' <= cr + 1.
Proof.
  intros Hinv Hs H.
  destruct (addWordBody_cases own _ _ _ _ _ _ _ _ _ _ Hinv Hs H)
    as (cs & Hcs & [Hc|[Hc|Hc]]).
  - destruct Hc as (hd & p & lp & Hhd & -> & -> & _). lia.
  - destruct Hc as (_ & -> & _ & ->). rewrite firstLetter_sts_length. lia.
  - destruct Hc as (hd & hdr & a & la & _ & _ & _ & _ & _ & _ & -> & _ & -> & _).
    rewrite nextLetter_sts_length. lia.
Qed.

Lemma addWordLoop_created fuel rs : forall own h s ne ws cr h' s' ne' ws' cr',
  trie_inv own h -> (s < length (sts h))%nat ->
  addWordLoop fuel h s rs ne ws cr = Ok (h', s', ne', ws', cr') ->
  Z.of_nat (length (sts h')) = Z.of_nat (length (sts h)) + (cr' - cr) /\
  cr <= cr' <= cr + Z.of_nat (length rs).
Proof.
  induction rs as [|[i l] rs IH]; intros own h s ne ws cr h' s' ne' ws' cr' Hinv Hs.
  - simpl. intros [= <- <- <- <- <-]. lia.
  - simpl length. simpl addWordLoop. intros H. bind_inv H as x Hx.
    destruct x as [[[h1 s1] ne1] cr1].
    pose proof (addWordBody_created _ _ _ _ _ _ _ _ _ _ _ Hinv Hs Hx) as [E1 B1].
    apply (addWordBody_inv own) in Hx as ([own1 Hinv1] & Hs1 & Hlen1); [|done..].
    apply (IH own1) in H as [E2 B2]; [|done..]. lia.
Qed.

Lemma rangeFrom_bounds f : forall i p k j r,
  (length p <= f)%nat -> rangeFrom f i p !! k = Some (j, r) ->
  i + Z.of_nat k <= j < i + Z.of_nat (length p).
Proof.
  induction f as [|f IH]; intros i p k j r Hf; [done|].
  destruct p as [|p0 t]; [done|]. simpl rangeFrom.
  pose proof (DecodeRune_pos (p0 :: t) ltac:(done)) as Hpos.
  destruct (DecodeRune (p0 :: t)) as [r0 n]. simpl in Hpos.
  destruct k as [|k].
  - intros [= <- <-]. simpl length. lia.
  - intros Hk.
    change (rangeFrom f (i + Z.of_nat n) (drop n (p0 :: t)) !! k = Some (j, r)) in Hk.
    apply IH in Hk; [|rewrite length_drop; simpl in *; lia].
    rewrite length_drop in Hk. lia.
Qed.

Lemma addWordLoop_wordSize fuel rs : forall h s ne ws cr h' s' ne' ws' cr',
  addWordLoop fuel h s rs ne ws cr = Ok (h', s', ne', ws', cr') ->
  ws' = match last rs with Some p => p.1 + 1 | None => ws end.
Proof.
  induction rs as [|[i l] rs IH]; intros h s ne ws cr h' s' ne' ws' cr'.
  - simpl. by intros [= <- <- <- <- <-].
  - simpl addWordLoop. intros H. bind_inv H as x Hx.
    destruct x as [[[h1 s1] ne1] cr1]. apply IH in H. rewrite H.
    destruct rs as [|q rs]; [reflexivity|]. rewrite (last_cons (i, l)).
    by destruct (last (q :: rs)).
Qed.

Lemma addWord_wordSize fuel h root word h' ne sz cn :
  addWord fuel h root word = Ok (h', (ne, sz, cn)) ->
  Z.of_nat (length (runesOf word)) <= sz <= Z.of_nat (length word).
Proof.
  unfold addWord. destruct root as [p|]; [|discriminate]. intros H.
  bind_inv H as x Hx. destruct x as [[[[h1 s1] ne1] ws1] cr1].
  bind_inv H as cs Hcs. injection H as <- <- <- <-.
  apply addWordLoop_wordSize in Hx. subst ws1.
  unfold runesOf. rewrite length_map.
  destruct (last (rangeString word)) as [[j r]|] eqn:El.
  - rewrite last_lookup in El. unfold rangeString in *.
    apply rangeFrom_bounds in El; [|done]. simpl.
    destruct (rangeFrom (length word) 0 word); simpl in *; lia.
  - apply last_None in El. rewrite El. simpl. lia.
Qed.

(** ** Further properties of the package *)

Lemma edits_length aA aD d q r :
  edits aA aD d q r ->
  (length r <= length q + d)%nat /\ (length q <= length r + d)%nat /\
  (aA = false -> (length r <= length q)%nat) /\
  (aD = false -> (length q <= length r)%nat).
Proof.
  induction 1 as [d|d c q r _ IH|d c c' q r _ IH|d c q r E _ IH|d c q r E _ IH];
    simpl; [repeat split; lia|..];
    destruct IH as (I1 & I2 & I3 & I4);
    (split; [lia|]; split; [lia|]; split; intros E'; try congruence;
     try specialize (I3 E'); try specialize (I4 E'); lia).
Qed.

(** X1: every word that Search returns is spelled by the graph: it is the
    UTF-8 encoding of the runes of letters that lead, state by state, from
    the initial state to a final state. *)
Theorem Search_returns_spelled fuel h dawg word d k aA aD h' ws w :
  Search fuel h dawg word d k aA aD = Ok (h', ws) -> w ∈ ws ->
  exists rs, spelled h (initialState dawg) rs /\ w = encodeRunes rs.
Proof.
  intros H Hw. destruct (Search_found _ _ _ _ _ _ _ _ _ _ _ H Hw) as (rs & ? & ? & _).
  by exists rs.
Qed.

Lemma Search_returns_spelled_witness :
  exists rs, spelled built6.1 (initialState built6.2) rs /\ s_test = encodeRunes rs.
Proof.
  apply (Search_returns_spelled 100 built6.1 built6.2 s_test 1 10 true true
           built6.1 found6 s_test).
  - vm_compute. reflexivity.
  - by left.
Defined.

(** X2: every word that Search returns is within the budget: its runes come
    from the runes of the query by at most levenshteinDistance changes,
    insertions and deletions of one rune, with insertions only under
    allowAdd and deletions only under allowDelete. *)
Theorem Search_within_budget fuel h dawg word d k aA aD h' ws w :
  Search fuel h dawg word d k aA aD = Ok (h', ws) -> w ∈ ws ->
  exists rs, w = encodeRunes rs /\ edits aA aD (Z.to_nat d) (runesOf word) rs.
Proof.
  intros H Hw. destruct (Search_found _ _ _ _ _ _ _ _ _ _ _ H Hw) as (rs & _ & ? & ?).
  by exists rs.
Qed.

Lemma Search_within_budget_witness :
  exists rs, s_tese = encodeRunes rs /\ edits false false 1 (runesOf s_test) rs.
Proof.
  apply (Search_within_budget 100 built6.1 built6.2 s_test 1 10 false false
           built6.1 [s_test; s_tese; s_nest] s_tese).
  - vm_compute. reflexivity.
  - right. by left.
Defined.

(** X3: a word that Search returns differs in length from the query by at
    most the budget; without allowAdd it has no more runes than the query,
    without allowDelete no fewer. *)
Theorem Search_length fuel h dawg word d k aA aD h' ws w :
  Search fuel h dawg word d k aA aD = Ok (h', ws) -> w ∈ ws ->
  exists rs, w = encodeRunes rs /\
    (length rs <= length (runesOf word) + Z.to_nat d)%nat /\
    (length (runesOf word) <= length rs + Z.to_nat d)%nat /\
    (aA = false -> (length rs <= length (runesOf word))%nat) /\
    (aD = false -> (length (runesOf word) <= length rs)%nat).
Proof.
  intros H Hw. destruct (Search_found _ _ _ _ _ _ _ _ _ _ _ H Hw) as (rs & _ & ? & He).
  exists rs. split; [done|]. by apply edits_length in He.
Qed.

Lemma Search_length_witness :
  exists rs, s_nest = encodeRunes rs /\
    (length rs <= length (runesOf s_test) + Z.to_nat 1)%nat /\
    (length (runesOf s_test) <= length rs + Z.to_nat 1)%nat /\
    (false = false -> (length rs <= length (runesOf s_test))%nat) /\
    (false = false -> (length (runesOf s_test) <= length rs)%nat).
Proof.
  apply (Search_length 100 built6.1 built6.2 s_test 1 10 false false
           built6.1 [s_test; s_tese; s_nest] s_nest).
  - vm_compute. reflexivity.
  - right. right. by left.
Defined.

(** X4: addWord adds the word and nothing else: in a trie built by addWord
    from the trie of the initial state alone, the words accepted after
    addWord are the words accepted before and the runes of the new word. *)
Theorem addWord_adds_word fuel fuel' words nb mx h word h' r rs :
  addWords fuel newTrie (Some 0%nat) words 1 0 = Ok (h, nb, mx) ->
  addWord fuel' h (Some 0%nat) word = Ok (h', r) ->
  (accepted h' (Some 0%nat) rs <-> accepted h (Some 0%nat) rs \/ rs = runesOf word).
Proof.
  intros Ha Hw. destruct (addWords_built _ _ _ _ _ Ha) as ([[own Hinv] Hroot] & _).
  by eapply addWord_accepted.
Qed.

Lemma addWord_adds_word_witness :
  accepted (trieOf [s_test; s_rest]) (Some 0%nat) (runesOf s_rest)
  <-> accepted (trieOf [s_test]) (Some 0%nat) (runesOf s_rest)
      \/ runesOf s_rest = runesOf s_rest.
Proof.
  apply (addWord_adds_word 100 100 [s_test] 5 4 (trieOf [s_test]) s_rest
           (trieOf [s_test; s_rest]) (true, 4, 4)).
  - vm_compute. reflexivity.
  - vm_compute. reflexivity.
Defined.

(** X5: adding a word that the trie has changes nothing: addWord leaves the
    store as it is, creates no state, and reports no new end state. *)
Theorem addWord_again fuel fuel' words nb mx h word h' ne sz cn :
  addWords fuel newTrie (Some 0%nat) words 1 0 = Ok (h, nb, mx) ->
  word ∈ words ->
  addWord fuel' h (Some 0%nat) word = Ok (h', (ne, sz, cn)) ->
  h' = h /\ ne = false /\ cn = 0.
Proof.
  intros Ha Hin Hw.
  destruct (addWords_built _ _ _ _ _ Ha) as ([[own Hinv] Hroot] & _ & Hacc).
  eapply (addWord_found own); [done|done| |exact Hw].
  apply Hacc. by exists word.
Qed.

Lemma addWord_again_witness :
  trieOf [s_test; s_test] = trieOf [s_test] /\ false = false /\ 0 = 0.
Proof.
  apply (addWord_again 100 100 [s_test] 5 4 (trieOf [s_test]) s_test
           (trieOf [s_test; s_test]) false 4 0).
  - vm_compute. reflexivity.
  - by left.
  - vm_compute. reflexivity.
Defined.

(** X6: the graph that CreateDAWG builds accepts the words it was given and
    no others: a sequence of runes is accepted from the initial state
    exactly when it is the sequence of runes of a word of the list. *)
Theorem CreateDAWG_accepts_words fuel words h g rs :
  CreateDAWG fuel words = Ok (h, g) ->
  (accepted h (initialState g) rs <-> exists w, w ∈ words /\ runesOf w = rs).
Proof.
  intros H. destruct (CreateDAWG_built _ _ _ _ H) as (-> & _ & Hacc). apply Hacc.
Qed.

Lemma CreateDAWG_accepts_words_witness :
  accepted built4.1 (initialState built4.2) (runesOf s_nest)
  <-> exists w, w ∈ words4 /\ runesOf w = runesOf s_nest.
Proof.
  apply (CreateDAWG_accepts_words 100 words4 built4.1 built4.2).
  vm_compute. reflexivity.
Defined.

(** X7: compressTrie keeps the words of every state of a trie: after the
    merge each state accepts the sequences of runes it accepted before. *)
Theorem compressTrie_keeps_words fuel fuel' words nb mx h m h' d t rs :
  addWords fuel newTrie (Some 0%nat) words 1 0 = Ok (h, nb, mx) ->
  compressTrie fuel' h (Some 0%nat) m = Ok (h', d) ->
  (accepted h' (Some t) rs <-> accepted h (Some t) rs).
Proof.
  intros Ha Hc. destruct (addWords_built _ _ _ _ _ Ha) as ([[own Hinv] Hroot] & Htree & _).
  destruct (compressTrie_words own _ _ _ _ _ _ Hinv Htree Hc) as [_ Hw]. apply Hw.
Qed.

Lemma compressTrie_keeps_words_witness :
  accepted built_ab.1 (Some 0%nat) (runesOf s_a)
  <-> accepted (trieOf [s_a; s_b]) (Some 0%nat) (runesOf s_a).
Proof.
  apply (compressTrie_keeps_words 100 100 [s_a; s_b] 3 1 (trieOf [s_a; s_b]) 1
           built_ab.1 1).
  - vm_compute. reflexivity.
  - vm_compute. reflexivity.
Defined.

(** X8: equals is sound on a trie: two states that equals finds equal
    accept the same sequences of runes. *)
Theorem equals_same_words_trie fuel fuel' words nb mx h s t rs :
  addWords fuel newTrie (Some 0%nat) words 1 0 = Ok (h, nb, mx) ->
  equals fuel' h (Some s) (Some t) = Ok true ->
  (accepted h (Some s) rs <-> accepted h (Some t) rs).
Proof.
  intros Ha He. destruct (addWords_built _ _ _ _ _ Ha) as ([[own Hinv] Hroot] & Htree & _).
  apply (equals_same_words fuel' h s t); [|done].
  split; [done|by eapply tree_listed_trie].
Qed.

Lemma equals_same_words_trie_witness :
  accepted (trieOf [s_a; s_b]) (Some 1%nat) []
  <-> accepted (trieOf [s_a; s_b]) (Some 2%nat) [].
Proof.
  apply (equals_same_words_trie 100 10 [s_a; s_b] 3 1 (trieOf [s_a; s_b])).
  - vm_compute. reflexivity.
  - vm_compute. reflexivity.
Defined.

(** X9: compressTrie writes nothing but the field next of states and the
    field state of letters: the runes, the trees and lists of letters, the
    final marks and the letter counts of the store are as before. *)
Theorem compressTrie_keeps_shape fuel h root m h' d :
  compressTrie fuel h root m = Ok (h', d) -> same_shape h h'.
Proof. apply compressTrie_shape. Qed.

Lemma compressTrie_keeps_shape_witness : same_shape (trieOf [s_a; s_b]) built_ab.1.
Proof.
  apply (compressTrie_keeps_shape 100 (trieOf [s_a; s_b]) (Some 0%nat) 1 built_ab.1 1).
  vm_compute. reflexivity.
Defined.

(** X10: Search on a graph of CreateDAWG returns words of the list only:
    every result is the encoding of the runes of a word that CreateDAWG was
    given, and that word is within the budget of the query. *)
Theorem CreateDAWG_Search_only_words fuel fuel' words h g word d k aA aD h' ws w :
  CreateDAWG fuel words = Ok (h, g) ->
  Search fuel' h g word d k aA aD = Ok (h', ws) -> w ∈ ws ->
  exists w0, w0 ∈ words /\ w = encodeRunes (runesOf w0) /\
             edits aA aD (Z.to_nat d) (runesOf word) (runesOf w0).
Proof.
  intros Hc Hs Hw. destruct (CreateDAWG_built _ _ _ _ Hc) as (Hroot & Hok & Hacc).
  destruct (Search_found _ _ _ _ _ _ _ _ _ _ _ Hs Hw) as (rs & Hsp & -> & He).
  rewrite Hroot in Hsp. apply (spelled_accepted _ Hok) in Hsp.
  apply Hacc in Hsp as (w0 & Hw0 & <-). by exists w0.
Qed.

Lemma CreateDAWG_Search_only_words_witness :
  exists w0, w0 ∈ words6 /\ s_tese = encodeRunes (runesOf w0) /\
             edits false false (Z.to_nat 1) (runesOf s_test) (runesOf w0).
Proof.
  apply (CreateDAWG_Search_only_words 100 100 words6 built6.1 built6.2 s_test 1 10
           false false built6.1 [s_test; s_tese; s_nest] s_tese).
  - vm_compute. reflexivity.
  - vm_compute. reflexivity.
  - right. by left.
Defined.

(** X11: a word given to CreateDAWG is found again: for a word of the list
    that is well-formed UTF-8 without U+0000, Search with no budget and a
    positive cap returns, with enough fuel, that word alone. *)
Theorem CreateDAWG_Search_finds_word fuel words h g word k aA aD :
  CreateDAWG fuel words = Ok (h, g) -> word ∈ words ->
  0 < k -> encodeRunes (runesOf word) = word -> 0 ∉ runesOf word ->
  exists fuel', Search fuel' h g word 0 k aA aD = Ok (h, [word]).
Proof.
  intros Hc Hin Hk Hrt Hnul.
  destruct (CreateDAWG_built _ _ _ _ Hc) as (Hroot & _ & Hacc).
  assert (accepted h (initialState g) (runesOf word)) as Ha.
  { rewrite Hroot. apply Hacc. by exists word. }
  destruct (search0_complete _ _ _ Ha (NewBufferString []) (NewBufferString word)
              0 k aA aD ltac:(lia) ltac:(done) eq_refl Hnul) as [F HF].
  exists F. unfold Search. rewrite (HF F ltac:(lia)). simpl.
  rewrite Hrt. replace (Z.to_nat (1 - k)) with 0%nat by lia. simpl.
  destruct (Z.ltb_spec k 1); [lia|]. simpl. done.
Qed.

Lemma CreateDAWG_Search_finds_word_witness :
  exists fuel', Search fuel' built4.1 built4.2 s_note 0 1 false false
                = Ok (built4.1, [s_note]).
Proof.
  apply (CreateDAWG_Search_finds_word 100 words4 built4.1 built4.2 s_note 1 false false).
  - vm_compute. reflexivity.
  - right. right. right. by left.
  - lia.
  - vm_compute. reflexivity.
  - vm_compute. intros H. repeat (apply elem_of_cons in H as [H|H]; [discriminate|]).
    by apply elem_of_nil in H.
Defined.

(** X12: the word size that addWord reports is at least the number of runes
    of the word and at most its number of bytes. *)
Theorem addWord_wordSize_bounds fuel h root word h' ne sz cn :
  addWord fuel h root word = Ok (h', (ne, sz, cn)) ->
  Z.of_nat (length (runesOf word)) <= sz <= Z.of_nat (length word).
Proof. apply addWord_wordSize. Qed.

Lemma addWord_wordSize_bounds_witness :
  Z.of_nat (length (runesOf s_nihon)) <= 4 <= Z.of_nat (length s_nihon).
Proof.
  apply (addWord_wordSize_bounds 100 newTrie (Some 0%nat) s_nihon (trieOf [s_nihon])
           true 4 2).
  vm_compute. reflexivity.
Defined.

(** X13: createdNodes counts the states that addWord allocates, at most one
    for each rune of the word. *)
Theorem addWord_createdNodes fuel fuel' words nb mx h word h' ne sz cn :
  addWords fuel newTrie (Some 0%nat) words 1 0 = Ok (h, nb, mx) ->
  addWord fuel' h (Some 0%nat) word = Ok (h', (ne, sz, cn)) ->
  Z.of_nat (length (sts h')) = Z.of_nat (length (sts h)) + cn /\
  0 <= cn <= Z.of_nat (length (runesOf word)).
Proof.
  intros Ha Hw. destruct (addWords_built _ _ _ _ _ Ha) as ([[own Hinv] Hroot] & _).
  unfold addWord in Hw.
  bind_inv Hw as x Hx. destruct x as [[[[h1 s1] ne1] ws1] cr1].
  bind_inv Hw as cs Hcs. injection Hw as <- <- <- <-.
  apply (addWordLoop_created _ _ own) in Hx as [E B]; [|done|by apply rooted_lt].
  simpl. rewrite length_alter. unfold runesOf. rewrite length_map. lia.
Qed.

Lemma addWord_createdNodes_witness :
  Z.of_nat (length (sts (trieOf [s_test; s_tese])))
  = Z.of_nat (length (sts (trieOf [s_test]))) + 1 /\
  0 <= 1 <= Z.of_nat (length (runesOf s_tese)).
Proof.
  apply (addWord_createdNodes 100 100 [s_test] 5 4 (trieOf [s_test]) s_tese
           (trieOf [s_test; s_tese]) true 4 1).
  - vm_compute. reflexivity.
  - vm_compute. reflexivity.
Defined.

(** X14: getletter returns nil or a letter of the tree of the state that
    carries the rune asked for. *)
Theorem getletter_result n h s c lt :
  getletter n h (Some s) c = Ok (Some lt) ->
  owns h s lt /\ exists l, lts h !! lt = Some l /\ letter.char l = c.
Proof.
  intros H. destruct (getletter_owns _ _ _ _ _ H) as (s' & [= <-] & Hown).
  split; [done|]. destruct (getletter_char _ _ _ _ _ H) as (l & Hl & Hc).
  apply getL_Some in Hl as (i & [= <-] & Hl). by exists l.
Qed.

Lemma getletter_result_witness :
  owns built6.1 0 5 /\ exists l, lts built6.1 !! 5%nat = Some l /\ letter.char l = 110.
Proof.
  apply (getletter_result 10 built6.1 0 110 5). vm_compute. reflexivity.
Defined.

(** X15: getletter finds every letter of a state: in a graph of CreateDAWG,
    a letter that the tree or the list of a state holds is the letter that
    getletter returns for its rune, with enough fuel. *)
Theorem getletter_finds fuel words h g s x l :
  CreateDAWG fuel words = Ok (h, g) ->
  owns h s x -> lts h !! x = Some l ->
  exists n, getletter n h (Some s) (letter.char l) = Ok (Some x).
Proof.
  intros Hc Hown Hl. destruct (CreateDAWG_built _ _ _ _ Hc) as (_ & [Htree Hlisted] & _).
  pose proof Hown as (st & hd & Hst & Hhd & _).
  destruct (Htree s st Hst) as (ls & Hch & _ & Hfd).
  destruct (Hfd x) as (l' & n & Hl' & Hf); [by eapply Hlisted|].
  rewrite Hl in Hl'. injection Hl' as <-.
  exists n. unfold getletter, getS. rewrite Hst. done.
Qed.

Lemma getletter_finds_witness :
  exists n, getletter n built4.1 (Some 0%nat) 110 = Ok (Some 8%nat).
Proof.
  apply (getletter_finds 100 words4 built4.1 built4.2 0 8
           (letter.mk 110 (Some 9%nat) None None (Some 4%nat))).
  - vm_compute. reflexivity.
  - eexists _, 0%nat. split; [reflexivity|]. split; [reflexivity|].
    eapply rtc_l; [|apply rtc_refl]. eexists. split; [reflexivity|]. simpl. auto.
  - vm_compute. reflexivity.
Defined.

(** ** The tree of the letters of a state grows downwards *)

Lemma tree_up_newTrie : tree_up newTrie.
Proof. intros a l b H. done. Qed.

Lemma tree_up_first h s l : tree_up h -> tree_up (firstLetter h s l).
Proof.
  intros Hup a la b. rewrite firstLetter_lts, firstLetter_length.
  case_decide.
  - intros [= <-]. simpl. intros [?|?]; done.
  - intros Ha Hb. specialize (Hup a la b Ha Hb). lia.
Qed.

Lemma tree_up_next side h s a hd nxt l :
  tree_up h -> (a < length (lts h))%nat -> (hd < length (lts h))%nat ->
  tree_up (nextLetter side h s a hd nxt l).
Proof.
  intros Hup Ha Hhd x lx b. rewrite nextLetter_lts, nextLetter_length by done.
  case_decide.
  - intros [= <-]. simpl. intros [?|?]; done.
  - destruct (lts h !! x) as [r|] eqn:Hr; [|done]. simpl. intros [= <-].
    pose proof (lookup_lt_Some _ _ _ Hr) as Hx.
    assert (forall r', letter.left r' = Some b \/ letter.right r' = Some b ->
              letter.left r = letter.left r' /\ letter.right r = letter.right r' ->
              (x < b < S (length (lts h)))%nat) as Hold.
    { intros r' Hb [E1 E2]. rewrite <- E1, <- E2 in Hb.
      specialize (Hup x r b Hr Hb). lia. }
    destruct (setSide_fields side (length (lts h)) r) as (_ & _ & _ & Hl & Hrt).
    repeat case_decide; simpl; intros Hb.
    + destruct Hl as [El|El], Hrt as [Er|Er]; rewrite ?El, ?Er in Hb;
        destruct Hb as [Hb|Hb]; try (injection Hb as <-; lia);
        try (eapply (Hold r); [|done]; tauto).
    + eapply (Hold r); [|done]; tauto.
    + destruct Hl as [El|El], Hrt as [Er|Er]; rewrite ?El, ?Er in Hb;
        destruct Hb as [Hb|Hb]; try (injection Hb as <-; lia);
        try (eapply (Hold r); [|done]; tauto).
    + eapply (Hold r); [|done]; tauto.
Qed.

Lemma addWordBody_up own fuel h s l ne cr h' s' ne' cr' :
  trie_inv own h -> tree_up h -> (s < length (sts h))%nat ->
  addWordBody fuel h s l ne cr = Ok (h', s', ne', cr') -> tree_up h'.
Proof.
  intros Hinv Hup Hs H.
  destruct (addWordBody_cases own fuel h s l ne cr h' s' ne' cr' Hinv Hs H)
    as (cs & Hcs & [Hc|[Hc|Hc]]).
  - by destruct Hc as (hd & p & lp & Hhd & -> & _).
  - destruct Hc as (Hnone & -> & _). by apply tree_up_first.
  - destruct Hc as (hd & hdr & a & la & Hhd & Hhdr & Ha & Hoa & Hne & Hnone & -> & _).
    apply tree_up_next; [done|by eapply lookup_lt_Some..].
Qed.

Lemma addWordLoop_up fuel rs : forall own h s ne ws cr h' s' ne' ws' cr',
  trie_inv own h -> tree_up h -> (s < length (sts h))%nat ->
  addWordLoop fuel h s rs ne ws cr = Ok (h', s', ne', ws', cr') -> tree_up h'.
Proof.
  induction rs as [|[i l] rs IH]; intros own h s ne ws cr h' s' ne' ws' cr' Hinv Hup Hs.
  - simpl. by intros [= <- <- <- <- <-].
  - simpl. intros H. bind_inv H as x Hx. destruct x as [[[h1 s1] ne1] cr1].
    pose proof (addWordBody_up _ _ _ _ _ _ _ _ _ _ _ Hinv Hup Hs Hx) as Hup1.
    apply (addWordBody_inv own) in Hx as ([own1 Hinv1] & Hs1 & Hlen1); [|done..].
    by eapply (IH own1).
Qed.

Lemma addWord_up fuel h root word h' r :
  trie h root -> tree_up h ->
  addWord fuel h (Some root) word = Ok (h', r) -> tree_up h'.
Proof.
  intros [[own Hinv] Hroot] Hup. pose proof (rooted_lt _ _ Hroot) as Hrlt.
  unfold addWord. intros H.
  bind_inv H as x Hx. destruct x as [[[[h1 s1] ne1] ws1] cr1].
  bind_inv H as cs Hcs. injection H as <- <-.
  intros a l b. simpl. by eapply addWordLoop_up.
Qed.

Lemma addWords_up fuel words : forall h root nb mx h' nb' mx',
  trie h root -> tree_up h ->
  addWords fuel h (Some root) words nb mx = Ok (h', nb', mx') -> tree_up h'.
Proof.
  induction words as [|w words IH]; intros h root nb mx h' nb' mx' Htrie Hup.
  - simpl. by intros [= <- <- <-].
  - simpl. intros H. bind_inv H as x Hx. destruct x as [h1 [[ne sz] cn]].
    eapply IH; [|  |exact H].
    + by eapply addWord_trie.
    + by eapply addWord_up.
Qed.

Lemma tree_up_shape h h' : same_shape h h' -> tree_up h -> tree_up h'.
Proof.
  intros Hsh Hup a l' b Ha Hb.
  pose proof (same_shape_tree_view _ _ Hsh a) as E. rewrite Ha in E.
  destruct (lts h !! a) as [l|] eqn:Hl; [|done].
  injection E as E1 E2 E3.
  assert (length (lts h') = length (lts h)) as ->.
  { destruct Hsh as [E _]. apply (f_equal length) in E.
    by rewrite !length_fmap in E. }
  apply (Hup a l b Hl). rewrite E2, E3. done.
Qed.

(** The walk in the tree of a state ends: every step goes to a later letter
    of the store. *)
Lemma findLetter_total h c :
  tree_up h ->
  forall n x, (x < length (lts h))%nat -> (length (lts h) - x <= n)%nat ->
  exists r, findLetter n h (Some x) c = Ok r.
Proof.
  intros Hup. induction n as [|n IH]; intros x Hx Hn; [lia|].
  destruct (lookup_lt_is_Some_2 _ _ Hx) as [lx Hlx].
  rewrite (findLetter_S _ _ _ _ lx Hlx).
  destruct (letter.char lx =? c) eqn:E; [by eexists|].
  destruct (child c lx) as [b|] eqn:Hb; [|rewrite findLetter_None; by eexists].
  assert (x < b < length (lts h))%nat as Hlt.
  { apply (Hup x lx b Hlx). unfold child in Hb.
    destruct (letter.char lx <? c); tauto. }
  apply IH; lia.
Qed.

Lemma letters_find_total h s st c k :
  tree_inv h -> tree_up h -> sts h !! s = Some st -> (length (lts h) <= k)%nat ->
  exists r, findLetter k h (state.letters st) c = Ok r.
Proof.
  intros Htree Hup Hs Hk. destruct (state.letters st) as [hd|] eqn:Hhd.
  - destruct (Htree s st Hs) as (ls & Hc & _). rewrite Hhd in Hc.
    inversion Hc as [|a l ls' Hl Hc']; subst.
    apply findLetter_total; [done|by eapply lookup_lt_Some|lia].
  - rewrite findLetter_None. by eexists.
Qed.

Lemma rangeFrom_length f : forall i p, (length (rangeFrom f i p) <= f)%nat.
Proof.
  induction f as [|f IH]; intros i p; [done|].
  destruct p as [|p0 t]; simpl rangeFrom; [simpl; lia|].
  destruct (DecodeRune (p0 :: t)) as [r n]. simpl length.
  specialize (IH (i + Z.of_nat n) (drop n (p0 :: t))). lia.
Qed.

(** ** Search returns on the graphs of CreateDAWG *)

Lemma chain_length h p ls : chain h p ls -> (length ls <= length (lts h))%nat.
Proof.
  intros Hc. pose proof (chain_NoDup _ _ _ Hc) as Hnd.
  assert (ls ⊆+ seq 0 (length (lts h))) as Hsub.
  { apply NoDup_submseteq; [done|]. intros x Hx. apply elem_of_seq.
    pose proof (chain_lt _ _ _ _ Hc Hx). lia. }
  apply submseteq_length in Hsub. by rewrite length_seq in Hsub.
Qed.

Lemma follow_total rec h l start ws n maxR :
  rec_ok rec -> rec_total h rec -> start_wf start ->
  (exists t, letter.state l = Some t /\ (t < length (sts h))%nat) ->
  exists fl, follow rec h l start ws n maxR = Ok fl.
Proof.
  intros Hok Htot Hwf (t & Ht & Hlt). unfold follow.
  pose proof (Truncate_WriteRune start (letter.char l) Hwf) as Htr.
  pose proof (WriteRune_wf start (letter.char l) Hwf) as Hwf1.
  destruct (WriteRune start (letter.char l)) as [runeLen start1]. simpl in Htr, Hwf1.
  rewrite Ht. destruct (Htot t start1 Hlt Hwf1) as [[h1 [fw fs]] Hr].
  rewrite Hr. simpl.
  destruct (mergeWords fw fs ws n) as [ws1 n1].
  destruct (capped maxR n1); [by eexists|].
  rewrite Htr. simpl. by eexists.
Qed.

Lemma eachLetter_total rec h c ign maxR :
  rec_ok rec -> rec_total h rec -> targets h ->
  forall ls k lp start ws n, chain h lp ls -> (length ls <= k)%nat -> start_wf start ->
  exists fl, eachLetter rec k h lp c ign start ws n maxR = Ok fl.
Proof.
  intros Hok Htot Htg. induction ls as [|a ls IH]; intros k lp start ws n Hc Hk Hwf.
  - inversion Hc; subst. destruct k; simpl; by eexists.
  - inversion Hc as [|a' l ls' Hl Hc']; subst.
    destruct k as [|k]; [simpl in Hk; lia|]. simpl in Hk.
    assert (getL h (Some a) = Ok l) as Hg by (unfold getL; by rewrite Hl).
    simpl. rewrite Hg. simpl.
    assert (exists fl,
      (if negb (letter.char l =? c) && negb (letter.char l =? ign)
       then follow rec h l start ws n maxR else Ok (Go h ws n start)) = Ok fl /\
      flow_all (fun _ => True) h start fl) as (fl & Hfl & Hall).
    { destruct (_ && _).
      - destruct (follow_total rec h l start ws n maxR Hok Htot Hwf (Htg a l Hl)) as [fl Hfl].
        exists fl. split; [done|].
        eapply (follow_all (fun _ => True)); [done|done| | |exact Hfl].
        + intros r _. apply Forall_forall. done.
        + apply Forall_forall. done.
      - eexists. split; [done|]. simpl. split; [done|]. split; [|done].
        apply Forall_forall. done. }
    rewrite Hfl. simpl. destruct fl as [h1 ws1 n1|h1 ws1 n1 start1]; [by eexists|].
    destruct Hall as (-> & _ & ->).
    rewrite Hg. simpl. apply (IH k); [done|lia|done].
Qed.

Lemma getletter_total h st c k :
  searchable h -> (st < length (sts h))%nat -> (length (lts h) <= k)%nat ->
  exists r, getletter k h (Some st) c = Ok r.
Proof.
  intros (Htree & Hup & _) Hst Hk. unfold getletter.
  destruct (lookup_lt_is_Some_2 _ _ Hst) as [s Hs].
  assert (getS h (Some st) = Ok s) as -> by (unfold getS; by rewrite Hs).
  simpl. by eapply letters_find_total.
Qed.

Lemma exactStep_total rec k h st start c ign maxR :
  searchable h -> rec_ok rec -> rec_total h rec ->
  (st < length (sts h))%nat -> (length (lts h) <= k)%nat -> start_wf start ->
  exists fl, exactStep rec k h (Some st) start c ign maxR = Ok fl.
Proof.
  intros Hs Hok Htot Hst Hk Hwf. unfold exactStep.
  destruct (negb _); [|by eexists].
  destruct (getletter_total h st c k Hs Hst Hk) as [[lt|] Hlt]; rewrite Hlt; simpl;
    [|by eexists].
  destruct (getletter_char _ _ _ _ _ Hlt) as (l & Hl & _). rewrite Hl. simpl.
  apply getL_Some in Hl as (j & [= <-] & Hl).
  apply follow_total; [done..|]. destruct Hs as (_ & _ & Htg). by eapply Htg.
Qed.

Lemma state_chain h st :
  searchable h -> (st < length (sts h))%nat ->
  exists s ls, getS h (Some st) = Ok s /\ chain h (state.letters s) ls /\
               (length ls <= length (lts h))%nat.
Proof.
  intros (Htree & _) Hst. destruct (lookup_lt_is_Some_2 _ _ Hst) as [s Hs].
  destruct (Htree st s Hs) as (ls & Hc & _). exists s, ls.
  split; [unfold getS; by rewrite Hs|]. split; [done|by eapply chain_length].
Qed.

Lemma changeSteps_total rec k h st start c ign ws n maxR aD :
  searchable h -> rec_ok rec -> rec_total h rec ->
  (st < length (sts h))%nat -> (length (lts h) <= k)%nat -> start_wf start ->
  exists fl, changeSteps rec k h (Some st) start c ign ws n maxR aD = Ok fl.
Proof.
  intros Hs Hok Htot Hst Hk Hwf. unfold changeSteps.
  destruct (state_chain h st Hs Hst) as (s & ls & -> & Hc & Hlen). simpl.
  destruct (eachLetter_total rec h c ign maxR Hok Htot (proj2 (proj2 Hs))
              ls k _ start ws n Hc ltac:(lia) Hwf) as [fl Hfl].
  rewrite Hfl. simpl.
  apply (eachLetter_all (fun _ => True)) in Hfl; [|done|done| |].
  2:{ intros. apply Forall_forall. done. }
  2:{ apply Forall_forall. done. }
  destruct fl as [h1 ws1 n1|h1 ws1 n1 start1]; [by eexists|].
  destruct Hfl as (-> & _ & ->).
  destruct aD; [|by eexists].
  destruct (Htot st start Hst Hwf) as [[h3 [fw fs]] Hr]. rewrite Hr. simpl.
  destruct (mergeWords fw fs ws1 n1) as [ws3 n3].
  destruct (capped maxR n3); by eexists.
Qed.

Lemma addSteps_total rec k h st start c ign ws n maxR :
  searchable h -> rec_ok rec -> rec_total h rec ->
  (st < length (sts h))%nat -> (length (lts h) <= k)%nat -> start_wf start ->
  exists fl, addSteps rec k h (Some st) start c ign ws n maxR = Ok fl.
Proof.
  intros Hs Hok Htot Hst Hk Hwf. unfold addSteps.
  destruct (state_chain h st Hs Hst) as (s & ls & -> & Hc & Hlen). simpl.
  apply (eachLetter_total rec h c ign maxR Hok Htot (proj2 (proj2 Hs)) ls); [done|lia|done].
Qed.

Lemma readBlock_total self k h st start end_ d maxR aA aD ign :
  searchable h -> self_ok self ->
  self_total h self (left_over end_ d) ->
  (st < length (sts h))%nat -> (length (lts h) <= k)%nat -> start_wf start ->
  exists fl c e1, readBlock self k h (Some st) start end_ d maxR aA aD ign = Ok (fl, c, e1).
Proof.
  intros Hs Hok Htot Hst Hk Hwf. unfold readBlock.
  destruct (0 <? Len end_) eqn:EL.
  - apply Len_pos_String in EL.
    destruct (ReadRune_spec _ EL) as (e & Hr & He & Hu).
    pose proof (DecodeRune_pos _ EL) as Hpos.
    assert (length (String e) < length (String end_))%nat as Hlt.
    { rewrite He, length_drop. destruct (String end_); [done|]. simpl. lia. }
    rewrite Hr. simpl.
    set (ch := (DecodeRune (String end_)).1) in *.
    destruct (exactStep_total (fun h' st' start' => self h' st' start' e d maxR aA aD 0)
                k h st start ch ign maxR) as [f1 Hf1]; [done|apply Hok| |done..|].
    { intros t sb Ht Hsb. apply Htot; [done..|]. unfold left_over. lia. }
    rewrite Hf1. simpl.
    apply (exactStep_all (fun _ => True)) in Hf1; [|apply Hok|done|].
    2:{ intros. apply Forall_forall. done. }
    assert (exists f2,
      match f1 with
      | Ret _ _ _ => Ok f1
      | Go h1 words1 wordsSize1 start1 =>
        if 0 <? d
        then changeSteps (fun h' st' start' => self h' st' start' e (d - 1) maxR aA aD ch)
               k h1 (Some st) start1 ch ign words1 wordsSize1 maxR aD
        else Ok f1
      end = Ok f2) as [f2 Hf2].
    { destruct f1 as [h1 ws1 n1|h1 ws1 n1 start1]; [by eexists|].
      destruct Hf1 as (-> & _ & ->).
      destruct (Z.ltb_spec 0 d) as [Hd|Hd]; [|by eexists].
      apply changeSteps_total; [done|apply Hok| |done..].
      intros t sb Ht Hsb. apply Htot; [done..|]. unfold left_over. lia. }
    rewrite Hf2. simpl.
    destruct f2 as [h2 ws2 n2|h2 ws2 n2 start2]; [by do 3 eexists|].
    rewrite Hu. simpl. by do 3 eexists.
  - destruct (state_chain h st Hs Hst) as (s & ls & -> & _). simpl.
    destruct (state.final s); by do 3 eexists.
Qed.

Lemma searchBody_total self k h st start end_ d maxR aA aD ign :
  searchable h -> self_ok self -> self_sound self ->
  self_total h self (left_over end_ d) ->
  (st < length (sts h))%nat -> (length (lts h) <= k)%nat -> start_wf start ->
  exists r, searchBody self k h (Some st) start end_ d maxR aA aD ign = Ok r.
Proof.
  intros Hs Hok Hsound Htot Hst Hk Hwf. unfold searchBody.
  destruct (readBlock_total self k h st start end_ d maxR aA aD ign)
    as (fl & c & e1 & Hr); [done..|].
  rewrite Hr. simpl.
  apply readBlock_sound in Hr as [Hfl He]; [|done..].
  destruct fl as [h1 ws n|h1 ws n start1]; [by eexists|].
  destruct Hfl as (-> & _ & ->). specialize (He _ _ _ _ eq_refl).
  destruct (Z.ltb_spec 0 d) as [Hd|Hd]; simpl; [|by eexists].
  destruct aA; simpl; [|by eexists].
  destruct (addSteps_total (fun h' st' start' => self h' st' start' e1 (d - 1) maxR true aD 0)
              k h st start c ign ws n maxR) as [f Hf]; [done|apply Hok| |done..|].
  { intros t sb Ht Hsb. apply Htot; [done..|]. unfold left_over. rewrite He. lia. }
  rewrite Hf. simpl. by eexists.
Qed.

(** searchSubString returns: every recursive call has a shorter query left
    or a smaller budget, and every loop goes along a list or down a tree of
    the store. *)
Lemma searchSubString_total h : searchable h ->
  forall fuel st start end_ d maxR aA aD ign,
  (st < length (sts h))%nat -> start_wf start ->
  (left_over end_ d + length (lts h) < fuel)%nat ->
  exists r, searchSubString fuel h (Some st) start end_ d maxR aA aD ign = Ok r.
Proof.
  intros Hs. induction fuel as [|fuel IH]; intros st start end_ d maxR aA aD ign Hst Hwf Hf;
    [lia|].
  simpl. apply searchBody_total; [done|apply searchSubString_self_ok|
    apply searchSubString_sound| |done|lia|done].
  intros t sb e d' maxR' aA' aD' ign' Ht Hsb Hlt. apply IH; [done..|lia].
Qed.

Lemma Search_total h dawg word d k aA aD fuel st :
  searchable h -> initialState dawg = Some st -> (st < length (sts h))%nat ->
  0 <= k -> (length word + Z.to_nat d + length (lts h) < fuel)%nat ->
  exists ws, Search fuel h dawg word d k aA aD = Ok (h, ws).
Proof.
  intros Hs Hst Hlt Hk Hf. unfold Search. rewrite Hst.
  destruct (searchSubString_total h Hs fuel st (NewBufferString []) (NewBufferString word)
              d k aA aD 0 Hlt) as [[h1 [found n]] Hr]; [done|done|].
  rewrite Hr. simpl.
  destruct (searchSubString_self_ok _ _ _ _ _ _ _ _ _ _ _ Hr) as [Hh Hn]. simpl in Hh, Hn.
  subst h1 n.
  rewrite dropWords_drop by lia. simpl.
  set (n1 := if k <? Z.of_nat (length found) then k else Z.of_nat (length found)).
  assert (0 <= n1 <= Z.of_nat (length found)) as Hn1.
  { unfold n1. destruct (Z.ltb_spec k (Z.of_nat (length found))); lia. }
  destruct (Z.ltb_spec n1 0) as [?|_]; [lia|].
  destruct (fillWords_total (Z.to_nat n1)
              (drop (Z.to_nat (Z.of_nat (length found) - k)) found)
              (replicate (Z.to_nat n1) [])) as [ws Hws].
  { rewrite length_drop. unfold n1.
    destruct (Z.ltb_spec k (Z.of_nat (length found))); lia. }
  rewrite Hws. simpl. by eexists.
Qed.

Lemma CreateDAWG_searchable fuel words h g :
  CreateDAWG fuel words = Ok (h, g) ->
  searchable h /\ initialState g = Some 0%nat /\ (0 < length (sts h))%nat.
Proof.
  intros H. apply CreateDAWG_inv in H as (h1 & nb & mx & d & Ha & Hc & ->).
  pose proof (addWords_up _ _ _ _ _ _ _ _ _ trie_newTrie tree_up_newTrie Ha) as Hup.
  destruct (addWords_built _ _ _ _ _ Ha) as ([[own Hinv] Hroot] & Htree & _).
  destruct (compressTrie_merge_words own _ _ _ _ _ _ Hinv Htree Hc) as (Hsh & _ & Htg & _).
  split; [|split; [done|]].
  - split; [by eapply tree_inv_shape|]. split; [by eapply tree_up_shape|done].
  - pose proof (rooted_lt _ _ Hroot) as Hlt.
    destruct Hsh as [_ E]. apply (f_equal length) in E. rewrite !length_fmap in E. lia.
Qed.

(** ** addWord returns on a trie *)

Lemma addWordWalk_total h l :
  tree_up h ->
  forall n cur, (cur < length (lts h))%nat -> (length (lts h) - cur + 1 <= n)%nat ->
  exists r, addWordWalk n h cur l = Ok r.
Proof.
  intros Hup. induction n as [|n IH]; intros cur Hcur Hn; [lia|].
  destruct (lookup_lt_is_Some_2 _ _ Hcur) as [cl Hcl].
  assert (getL h (Some cur) = Ok cl) as Hg by (unfold getL; by rewrite Hcl).
  cbn [addWordWalk]. rewrite (allocL_eq (letter.new l) h). lazy beta iota.
  rewrite Hg. cbn [mbind res_bind].
  destruct (letter.char cl =? l); [by eexists|].
  destruct (letter.char cl <? l).
  - destruct (letter.left cl) as [p|] eqn:E.
    + pose proof (Hup cur cl p Hcl (or_introl E)). apply IH; lia.
    + rewrite (addWordWalk_new n (letter.set_left (Some (length (lts h)))) cur h l Hcur).
      destruct n; [lia|]. by eexists.
  - destruct (letter.right cl) as [p|] eqn:E.
    + pose proof (Hup cur cl p Hcl (or_intror E)). apply IH; lia.
    + rewrite (addWordWalk_new n (letter.set_right (Some (length (lts h)))) cur h l Hcur).
      destruct n; [lia|]. by eexists.
Qed.

Lemma addWordBody_total own fuel h s l ne cr :
  trie_inv own h -> tree_up h -> (s < length (sts h))%nat ->
  (length (lts h) + 1 <= fuel)%nat ->
  exists r, addWordBody fuel h s l ne cr = Ok r.
Proof.
  intros Hinv Hup Hslt Hf. unfold addWordBody.
  destruct (lookup_lt_is_Some_2 _ _ Hslt) as [cs Hs].
  assert (getS h (Some s) = Ok cs) as -> by (unfold getS; by rewrite Hs).
  cbn [mbind res_bind].
  destruct (state.letters cs) as [hd|] eqn:Hhd.
  - destruct (ti_hd _ _ Hinv s cs hd Hs Hhd) as [Hhdlt Hohd].
    destruct (lookup_lt_is_Some_2 _ _ Hhdlt) as [hdr Hhdr].
    destruct (addWordWalk_total h l Hup fuel hd Hhdlt ltac:(lia)) as [[h1 p] Hw].
    rewrite Hw. cbn [mbind res_bind].
    apply (addWordWalk_path (fun x => own x = s)) in Hw; [| |done].
    2:{ intros x lx b Hx Hlx Hb.
        destruct (ti_link _ _ Hinv x lx b Hlx) as [_ ->]; [tauto|done]. }
    destruct Hw as [(-> & Hop & Hfd)|(a & la & Hoa & Ha & Hne & Hnone & -> & -> & _)].
    + destruct (findLetter_char _ _ _ _ _ Hfd) as (cl & Hcl & _).
      unfold addWordState. rewrite Hcl. cbn [mbind res_bind].
      apply getL_Some in Hcl as (j & [= <-] & Hcl).
      destruct (ti_state _ _ Hinv p cl Hcl) as (t & ts & -> & _). by eexists.
    + destruct (addWordState_next (letter.char la <? l) h s cs a la hd hdr l ne cr
                  Hs Hhd Hhdr Ha) as [ne2 E].
      unfold hang. rewrite E. by eexists.
  - rewrite (allocL_eq (letter.new l) h). cbn [mbind res_bind].
    destruct (addWordState_first h s cs l ne cr Hs Hhd) as [ne2 E].
    simpl in E. simpl. rewrite E. by eexists.
Qed.

Lemma addWordBody_letters own fuel h s l ne cr h' s' ne' cr' :
  trie_inv own h -> (s < length (sts h))%nat ->
  addWordBody fuel h s l ne cr = Ok (h', s', ne', cr') ->
  (length (lts h') <= S (length (lts h)))%nat.
Proof.
  intros Hinv Hs H.
  destruct (addWordBody_cases own fuel h s l ne cr h' s' ne' cr' Hinv Hs H)
    as (cs & Hcs & [Hc|[Hc|Hc]]).
  - destruct Hc as (hd & p & lp & Hhd & -> & _). lia.
  - destruct Hc as (Hnone & -> & _). rewrite firstLetter_length. lia.
  - destruct Hc as (hd & hdr & a & la & Hhd & Hhdr & Ha & Hoa & Hne & Hnone & -> & _).
    rewrite nextLetter_length. lia.
Qed.

Lemma addWordLoop_total fuel rs : forall own h s ne ws cr,
  trie_inv own h -> tree_up h -> (s < length (sts h))%nat ->
  (length (lts h) + length rs + 1 <= fuel)%nat ->
  exists r, addWordLoop fuel h s rs ne ws cr = Ok r /\
            (length (lts r.1.1.1.1) <= length (lts h) + length rs)%nat.
Proof.
  induction rs as [|[i l] rs IH]; intros own h s ne ws cr Hinv Hup Hs Hf.
  - simpl. eexists. split; [done|]. simpl. lia.
  - simpl in Hf. cbn [addWordLoop].
    destruct (addWordBody_total own fuel h s l ne cr Hinv Hup Hs ltac:(lia))
      as [[[[h1 s1] ne1] cr1] Hb].
    rewrite Hb. cbn [mbind res_bind].
    pose proof (addWordBody_up _ _ _ _ _ _ _ _ _ _ _ Hinv Hup Hs Hb) as Hup1.
    pose proof (addWordBody_letters _ _ _ _ _ _ _ _ _ _ _ Hinv Hs Hb) as Hlen.
    apply (addWordBody_inv own) in Hb as ([own1 Hinv1] & Hs1 & _); [|done..].
    destruct (IH own1 h1 s1 ne1 (i + 1) cr1 Hinv1 Hup1 Hs1 ltac:(lia)) as (r & Hr & Hl).
    exists r. split; [done|]. simpl. lia.
Qed.

Lemma addWord_total fuel h root word :
  trie h root -> tree_up h -> (length (lts h) + length word + 1 <= fuel)%nat ->
  exists h' r, addWord fuel h (Some root) word = Ok (h', r) /\
               (length (lts h') <= length (lts h) + length word)%nat.
Proof.
  intros [[own Hinv] Hroot] Hup Hf. pose proof (rooted_lt _ _ Hroot) as Hrlt.
  unfold addWord.
  pose proof (rangeFrom_length (length word) 0 word) as Hrl.
  fold (rangeString word) in Hrl.
  destruct (addWordLoop_total fuel (rangeString word) own h root false 0 0 Hinv Hup Hrlt
              ltac:(lia)) as ([[[[h1 s1] ne1] ws1] cr1] & Hr & Hl).
  rewrite Hr. cbn [mbind res_bind]. simpl in Hl.
  apply (addWordLoop_inv _ _ own) in Hr as (_ & Hs1 & _); [|done..].
  destruct (lookup_lt_is_Some_2 _ _ Hs1) as [cs Hcs].
  assert (getS h1 (Some s1) = Ok cs) as -> by (unfold getS; by rewrite Hcs).
  cbn [mbind res_bind]. do 2 eexists. split; [done|]. simpl. lia.
Qed.

Lemma addWords_total fuel words : forall h root nb mx,
  trie h root -> tree_up h ->
  (length (lts h) + length (concat words) + 1 <= fuel)%nat ->
  exists h' nb' mx', addWords fuel h (Some root) words nb mx = Ok (h', nb', mx') /\
                     (length (lts h') <= length (lts h) + length (concat words))%nat.
Proof.
  induction words as [|w words IH]; intros h root nb mx Htrie Hup Hf.
  - simpl. do 3 eexists. split; [done|]. lia.
  - simpl in Hf. rewrite length_app in Hf. cbn [addWords].
    destruct (addWord_total fuel h root w Htrie Hup ltac:(lia))
      as (h1 & [[ne sz] cn] & Hw & Hl).
    rewrite Hw. cbn [mbind res_bind].
    destruct (IH h1 root (nb + cn) (if mx <? sz then sz else mx)) as (h' & nb' & mx' & Hr & Hl').
    + by eapply addWord_trie.
    + by eapply addWord_up.
    + lia.
    + exists h', nb', mx'. split; [done|]. simpl. rewrite length_app. lia.
Qed.

(** ** No path of the trie is longer than the longest word *)

Lemma addWordBody_states own fuel h s l ne cr h' s' ne' cr' :
  trie_inv own h -> (s < length (sts h))%nat ->
  addWordBody fuel h s l ne cr = Ok (h', s', ne', cr') ->
  length (sts h') = length (sts h) \/
  (length (sts h') = S (length (sts h)) /\ s' = length (sts h)).
Proof.
  intros Hinv Hs H.
  destruct (addWordBody_cases own fuel h s l ne cr h' s' ne' cr' Hinv Hs H)
    as (cs & Hcs & [Hc|[Hc|Hc]]).
  - destruct Hc as (hd & p & lp & Hhd & -> & _). by left.
  - destruct Hc as (Hnone & -> & -> & _). right. by rewrite firstLetter_sts_length.
  - destruct Hc as (hd & hdr & a & la & Hhd & Hhdr & Ha & Hoa & Hne & Hnone & -> & -> & _).
    right. by rewrite nextLetter_sts_length.
Qed.

(** The states that the loop of addWord makes lead to the state it ends in. *)
Lemma addWordLoop_new fuel rs : forall own h s ne ws cr h' s' ne' ws' cr',
  trie_inv own h -> (s < length (sts h))%nat ->
  addWordLoop fuel h s rs ne ws cr = Ok (h', s', ne', ws', cr') ->
  forall t, (length (sts h) <= t < length (sts h'))%nat -> exists r, leads h' t r s'.
Proof.
  induction rs as [|[i l] rs IH]; intros own h s ne ws cr h' s' ne' ws' cr' Hinv Hs.
  - simpl. intros [= <- <- <- <- <-] t Ht. lia.
  - simpl. intros H. bind_inv H as x Hx. destruct x as [[[h1 s1] ne1] cr1].
    pose proof (addWordBody_states _ _ _ _ _ _ _ _ _ _ _ Hinv Hs Hx) as Hst.
    apply (addWordBody_inv own) in Hx as ([own1 Hinv1] & Hs1 & Hlen1); [|done..].
    pose proof (addWordLoop_lang _ _ _ _ _ _ _ _ _ _ _ _ _ Hinv1 Hs1 H) as (Hl & _).
    intros t Ht. destruct (decide (t < length (sts h1))%nat) as [Hlt|Hge].
    + destruct Hst as [E|[E ->]]; [lia|].
      assert (t = length (sts h)) as -> by lia. eauto.
    + eapply (IH own1); [done|done|exact H|lia].
Qed.

Lemma addWord_live fuel h root word h' r :
  trie h root -> live h root ->
  addWord fuel h (Some root) word = Ok (h', r) -> live h' root.
Proof.
  intros [[own Hinv] Hroot] Hlive. pose proof (rooted_lt _ _ Hroot) as Hrlt.
  unfold addWord. intros H.
  bind_inv H as x Hx. destruct x as [[[[h1 s1] ne1] ws1] cr1].
  bind_inv H as cs Hcs. injection H as <- <-.
  pose proof (addWordLoop_lang _ _ _ _ _ _ _ _ _ _ _ _ _ Hinv Hrlt Hx) as (_ & _ & Hacc & _).
  pose proof (addWordLoop_new _ _ _ _ _ _ _ _ _ _ _ _ _ Hinv Hrlt Hx) as Hnew.
  apply (addWordLoop_inv _ _ own) in Hx as (_ & Hs1 & _); [|done..].
  intros t Ht Hne. simpl in Ht. rewrite length_alter in Ht.
  destruct (decide (t < length (sts h))%nat) as [Hlt|Hge].
  - destruct (Hlive t Hlt Hne) as [r Hr]. exists r.
    apply accepted_set_final; [done|]. left. by apply Hacc.
  - destruct (Hnew t ltac:(lia)) as [r Hr]. exists r.
    apply accepted_set_final; [done|]. by right.
Qed.

Lemma addWords_live fuel words : forall h root nb mx h' nb' mx',
  trie h root -> live h root ->
  addWords fuel h (Some root) words nb mx = Ok (h', nb', mx') -> live h' root.
Proof.
  induction words as [|w words IH]; intros h root nb mx h' nb' mx' Htrie Hlive.
  - simpl. by intros [= <- <- <-].
  - simpl. intros H. bind_inv H as x Hx. destruct x as [h1 [[ne sz] cn]].
    eapply IH; [| |exact H].
    + by eapply addWord_trie.
    + by eapply addWord_live.
Qed.

(** maxWordSize, as the loop of CreateDAWG leaves it. *)
Lemma addWords_max fuel words : forall h root nb mx h' nb' mx',
  addWords fuel h root words nb mx = Ok (h', nb', mx') ->
  mx <= mx' /\ mx' <= Z.max mx (Z.of_nat (length (concat words))) /\
  forall w, w ∈ words -> Z.of_nat (length (runesOf w)) <= mx'.
Proof.
  induction words as [|w words IH]; intros h root nb mx h' nb' mx'.
  - simpl. intros [= <- <- <-]. split; [lia|]. split; [lia|].
    intros w Hw. by apply elem_of_nil in Hw.
  - simpl. intros H. bind_inv H as x Hx. destruct x as [h1 [[ne sz] cn]].
    apply addWord_wordSize in Hx. apply IH in H as (H1 & H2 & H3).
    rewrite length_app.
    assert (mx <= (if mx <? sz then sz else mx) /\ sz <= (if mx <? sz then sz else mx) /\
            (if mx <? sz then sz else mx) <= Z.max mx (Z.of_nat (length w))) as (? & ? & ?).
    { destruct (Z.ltb_spec mx sz); lia. }
    split; [lia|]. split; [lia|].
    intros w' Hw'. apply elem_of_cons in Hw' as [->|Hw']; [lia|by apply H3].
Qed.

Lemma leads_valid own h t rs u :
  trie_inv own h -> (t < length (sts h))%nat -> leads h t rs u -> (u < length (sts h))%nat.
Proof.
  intros Hinv Ht Hl. induction Hl as [|s c t rs u Hs Hl IH]; [done|].
  apply IH. by eapply step_old.
Qed.

Lemma addWords_depth fuel words h nb mx :
  addWords fuel newTrie (Some 0%nat) words 1 0 = Ok (h, nb, mx) ->
  forall rs u, leads h 0%nat rs u -> Z.of_nat (length rs) <= mx.
Proof.
  intros Ha rs u Hl.
  destruct (addWords_built _ _ _ _ _ Ha) as ([[own Hinv] Hroot] & _ & Hacc).
  pose proof (addWords_max _ _ _ _ _ _ _ _ _ Ha) as (Hmx & _ & Hws).
  assert (live h 0) as Hlive.
  { eapply addWords_live; [apply trie_newTrie| |exact Ha].
    intros t Ht Hne. simpl in Ht. lia. }
  destruct (decide (u = 0%nat)) as [->|Hne].
  - assert (rs = []) as ->.
    { eapply (leads_unique own h 0%nat); [done|done|exact Hl|constructor]. }
    simpl. lia.
  - pose proof (leads_valid _ _ _ _ _ Hinv (rooted_lt _ _ Hroot) Hl) as Hu.
    destruct (Hlive u Hu Hne) as [r2 Hr2].
    apply accepted_leads in Hr2 as (v & Hl2 & Hf).
    assert (accepted h (Some 0%nat) (rs ++ r2)) as Hw.
    { apply accepted_leads. exists v. split; [by eapply leads_app|done]. }
    apply Hacc in Hw as (w & Hw & E). specialize (Hws w Hw).
    rewrite E, length_app in Hws. lia.
Qed.

Lemma addWordLoop_states fuel rs : forall own h s ne ws cr h' s' ne' ws' cr',
  trie_inv own h -> (s < length (sts h))%nat ->
  addWordLoop fuel h s rs ne ws cr = Ok (h', s', ne', ws', cr') ->
  (length (sts h') <= length (sts h) + length rs)%nat.
Proof.
  induction rs as [|[i l] rs IH]; intros own h s ne ws cr h' s' ne' ws' cr' Hinv Hs.
  - simpl. intros [= <- <- <- <- <-]. lia.
  - simpl. intros H. bind_inv H as x Hx. destruct x as [[[h1 s1] ne1] cr1].
    pose proof (addWordBody_states _ _ _ _ _ _ _ _ _ _ _ Hinv Hs Hx) as Hst.
    apply (addWordBody_inv own) in Hx as ([own1 Hinv1] & Hs1 & Hlen1); [|done..].
    apply (IH own1) in H; [|done..]. lia.
Qed.

Lemma addWords_states fuel words : forall h root nb mx h' nb' mx',
  trie h root ->
  addWords fuel h (Some root) words nb mx = Ok (h', nb', mx') ->
  (length (sts h') <= length (sts h) + length (concat words))%nat.
Proof.
  induction words as [|w words IH]; intros h root nb mx h' nb' mx' Htrie.
  - simpl. intros [= <- <- <-]. lia.
  - simpl. intros H. bind_inv H as x Hx. destruct x as [h1 [[ne sz] cn]].
    pose proof (addWord_trie _ _ _ _ _ _ Htrie Hx) as Htrie1.
    apply (IH _ _ _ _ _ _ _ Htrie1) in H. rewrite length_app.
    assert (length (sts h1) <= length (sts h) + length w)%nat; [|lia].
    destruct Htrie as [[own Hinv] Hroot]. pose proof (rooted_lt _ _ Hroot) as Hrlt.
    unfold addWord in Hx.
    bind_inv Hx as y Hy. destruct y as [[[[h2 s2] ne2] ws2] cr2].
    bind_inv Hx as cs Hcs. injection Hx as <- <- <- <-.
    apply (addWordLoop_states _ _ own) in Hy; [|done..].
    pose proof (rangeFrom_length (length w) 0 w) as Hrl.
    fold (rangeString w) in Hrl. simpl. rewrite length_alter. lia.
Qed.

(** The states that the loop of addWord makes are reached from the state
    it starts in. *)
Lemma addWordLoop_reach fuel rs : forall own h s ne ws cr h' s' ne' ws' cr',
  trie_inv own h -> (s < length (sts h))%nat ->
  addWordLoop fuel h s rs ne ws cr = Ok (h', s', ne', ws', cr') ->
  forall t, (length (sts h) <= t < length (sts h'))%nat -> exists r, leads h' s r t.
Proof.
  induction rs as [|[i l] rs IH]; intros own h s ne ws cr h' s' ne' ws' cr' Hinv Hs.
  - simpl. intros [= <- <- <- <- <-] t Ht. lia.
  - simpl. intros H. bind_inv H as x Hx. destruct x as [[[h1 s1] ne1] cr1].
    pose proof (addWordBody_states _ _ _ _ _ _ _ _ _ _ _ Hinv Hs Hx) as Hst.
    pose proof (addWordBody_extends _ _ _ _ _ _ _ _ _ _ _ Hinv Hs Hx) as [(_ & Hstep & _) _].
    apply (addWordBody_inv own) in Hx as ([own1 Hinv1] & Hs1 & Hlen1); [|done..].
    pose proof (addWordLoop_lang _ _ _ _ _ _ _ _ _ _ _ _ _ Hinv1 Hs1 H) as (_ & _ & _ & Hleads).
    assert (leads h' s [l] s1) as Hl1.
    { apply Hleads; [lia|]. econstructor; [exact Hstep|constructor]. }
    intros t Ht. destruct (decide (t < length (sts h1))%nat) as [Hlt|Hge].
    + destruct Hst as [E|[E ->]]; [lia|].
      assert (t = length (sts h)) as -> by lia. eauto.
    + destruct (IH own1 _ _ _ _ _ _ _ _ _ _ Hinv1 Hs1 H t ltac:(lia)) as [r Hr].
      exists ([l] ++ r). by eapply leads_app.
Qed.

Lemma addWord_reached fuel h root word h' r :
  trie h root -> all_reached h root ->
  addWord fuel h (Some root) word = Ok (h', r) -> all_reached h' root.
Proof.
  intros [[own Hinv] Hroot] Hall. pose proof (rooted_lt _ _ Hroot) as Hrlt.
  unfold addWord. intros H.
  bind_inv H as x Hx. destruct x as [[[[h1 s1] ne1] ws1] cr1].
  bind_inv H as cs Hcs. injection H as <- <-.
  pose proof (addWordLoop_lang _ _ _ _ _ _ _ _ _ _ _ _ _ Hinv Hrlt Hx) as (_ & _ & _ & Hleads).
  pose proof (addWordLoop_reach _ _ _ _ _ _ _ _ _ _ _ _ _ Hinv Hrlt Hx) as Hnew.
  intros t Ht. simpl in Ht. rewrite length_alter in Ht.
  assert (exists rs, leads h1 root rs t) as [rs Hl].
  { destruct (decide (t < length (sts h))%nat) as [Hlt|Hge].
    - destruct (Hall t Hlt) as [rs Hl]. exists rs. by apply Hleads.
    - apply Hnew. lia. }
  exists rs. revert Hl. apply (leads_ext (fun _ => True)); [|done].
  intros t' c u _ Hs. split; [|done]. by apply step_set_final.
Qed.

Lemma addWords_reached fuel words : forall h root nb mx h' nb' mx',
  trie h root -> all_reached h root ->
  addWords fuel h (Some root) words nb mx = Ok (h', nb', mx') -> all_reached h' root.
Proof.
  induction words as [|w words IH]; intros h root nb mx h' nb' mx' Htrie Hall.
  - simpl. by intros [= <- <- <-].
  - simpl. intros H. bind_inv H as x Hx. destruct x as [h1 [[ne sz] cn]].
    eapply IH; [| |exact H].
    + by eapply addWord_trie.
    + by eapply addWord_reached.
Qed.

(** nbNodes counts the states of the trie. *)
Lemma addWords_count fuel words : forall h root nb mx h' nb' mx',
  trie h root ->
  addWords fuel h (Some root) words nb mx = Ok (h', nb', mx') ->
  nb' - nb = Z.of_nat (length (sts h')) - Z.of_nat (length (sts h)).
Proof.
  induction words as [|w words IH]; intros h root nb mx h' nb' mx' Htrie.
  - simpl. intros [= <- <- <-]. lia.
  - simpl. intros H. bind_inv H as x Hx. destruct x as [h1 [[ne sz] cn]].
    pose proof (addWord_trie _ _ _ _ _ _ Htrie Hx) as Htrie1.
    apply (IH _ _ _ _ _ _ _ Htrie1) in H.
    destruct Htrie as [[own Hinv] Hroot]. pose proof (rooted_lt _ _ Hroot) as Hrlt.
    unfold addWord in Hx.
    bind_inv Hx as y Hy. destruct y as [[[[h2 s2] ne2] ws2] cr2].
    bind_inv Hx as cs Hcs. injection Hx as <- <- <- <-.
    apply (addWordLoop_created _ _ own) in Hy as [E _]; [|done..].
    simpl in H. rewrite length_alter in H. lia.
Qed.

(** ** compressTrie returns on a trie of addWord: the analysis *)

Lemma slist_ext h h' p L :
  slist h p L -> (forall x, x ∈ L -> sts h' !! x = sts h !! x) -> slist h' p L.
Proof.
  induction 1 as [|s st L Hs Hl IH]; intros Heq; [constructor|].
  econstructor.
  - rewrite Heq; [done|by left].
  - apply IH. intros x Hx. apply Heq. by right.
Qed.

Lemma chain_nil_inv h p : chain h p [] -> p = None.
Proof. by inversion 1. Qed.

Lemma chain_cons_inv h p x ls :
  chain h p (x :: ls) ->
  exists l, p = Some x /\ lts h !! x = Some l /\ chain h (letter.next l) ls.
Proof. inversion 1; subst. eauto. Qed.

Lemma pushLevel_ok h lv Ls t st cur :
  levels_ok h lv Ls -> sts h !! t = Some st -> ~ pushed Ls t ->
  0 <= cur < Z.of_nat (length lv) ->
  exists h' lv' Ls',
    pushLevel h lv (Some t) cur = Ok (h', lv', cur + 1) /\
    seq_store h h' /\ levels_ok h' lv' Ls' /\ length lv' = length lv /\
    forall x, pushed Ls' x <-> pushed Ls x \/ x = t.
Proof.
  intros (Hlen & Hlists & Hdisj) Hst Hnp Hcur. unfold pushLevel.
  destruct (Z.ltb_spec cur 0) as [?|_]; [lia|].
  destruct (Z.leb_spec (Z.of_nat (length lv)) cur) as [?|_]; [lia|]. simpl.
  set (i := Z.to_nat cur).
  assert (i < length lv)%nat as Hi by lia.
  destruct (lookup_lt_is_Some_2 lv i Hi) as [p Hp].
  destruct (lookup_lt_is_Some_2 Ls i ltac:(lia)) as [Li HLi].
  rewrite Hp.
  exists (updS (state.set_next p) t h), (<[i := Some t]> lv), (<[i := t :: Li]> Ls).
  split; [done|]. split; [apply seq_store_updS|].
  assert (forall j L, Ls !! j = Some L -> t ∉ L) as Hnot.
  { intros j L HL Hin. apply Hnp. by exists j, L. }
  assert (forall j L, Ls !! j = Some L ->
            forall x, x ∈ L -> sts (updS (state.set_next p) t h) !! x = sts h !! x) as Hsame.
  { intros j L HL x Hx. simpl. rewrite list_lookup_alter_ne; [done|].
    intros ->. by eapply Hnot. }
  destruct (Hlists i p Li Hp HLi) as [Hsl Hnd].
  split; [|split; [by rewrite length_insert|]].
  - split; [by rewrite !length_insert|]. split.
    + intros j q L. destruct (decide (j = i)) as [->|Hne].
      * rewrite !list_lookup_insert_eq by lia. intros [= <-] [= <-]. split.
        -- econstructor.
           ++ simpl. rewrite list_lookup_alter_eq, Hst. done.
           ++ simpl. eapply slist_ext; [exact Hsl|]. by eapply Hsame.
        -- apply NoDup_cons. split; [by eapply Hnot|done].
      * rewrite !list_lookup_insert_ne by done. intros Hq HL.
        destruct (Hlists j q L Hq HL) as [Hsl' Hnd']. split; [|done].
        eapply slist_ext; [exact Hsl'|]. by eapply Hsame.
    + intros j1 j2 L1 L2 x.
      destruct (decide (j1 = i)) as [->|Hne1]; destruct (decide (j2 = i)) as [->|Hne2];
        rewrite ?list_lookup_insert_eq, ?list_lookup_insert_ne by (done || lia);
        [done| | |by apply Hdisj].
      * intros [= <-] HL2 Hx1 Hx2.
        apply elem_of_cons in Hx1 as [->|Hx1]; [by apply Hnot in HL2|].
        by eapply Hdisj.
      * intros HL1 [= <-] Hx1 Hx2.
        apply elem_of_cons in Hx2 as [->|Hx2]; [by apply Hnot in HL1|].
        by eapply Hdisj.
  - intros x. split.
    + intros (j & L & HL & Hx). destruct (decide (j = i)) as [->|Hne].
      * rewrite list_lookup_insert_eq in HL by lia. injection HL as <-.
        apply elem_of_cons in Hx as [->|Hx]; [by right|]. left. by exists i, Li.
      * rewrite list_lookup_insert_ne in HL by done. left. by exists j, L.
    + intros [(j & L & HL & Hx)| ->].
      * destruct (decide (j = i)) as [->|Hne].
        -- exists i, (t :: Li). rewrite list_lookup_insert_eq by lia. split; [done|].
           rewrite HLi in HL. injection HL as <-. by right.
        -- exists j, L. by rewrite list_lookup_insert_ne.
      * exists i, (t :: Li). rewrite list_lookup_insert_eq by lia. split; [done|by left].
Qed.

Lemma analyseRoot_letters fuel : forall n h lv p cur h' lv' m,
  analyseLetters (analyseSubTrie fuel) n h lv p cur = Ok (h', lv', m) ->
  analyseRoot fuel n h lv p = Ok (h', lv').
Proof.
  induction n as [|n IH]; intros h lv p cur h' lv' m.
  - destruct p; simpl; [discriminate|]. by intros [= <- <- <-].
  - destruct p as [x|]; simpl; [|by intros [= <- <- <-]].
    intros H. bind_inv H as cl Hcl. rewrite Hcl. simpl.
    bind_inv H as r Hr. destruct r as [[h1 lv1] n1]. rewrite Hr. simpl.
    bind_inv H as cl1 Hcl1. rewrite Hcl1. simpl. by eapply IH.
Qed.

Section analysis.
Variable own : nat -> nat.
Variable h0 : store.
Variable root : nat.
Variable M : nat.
Hypothesis Hinv : trie_inv own h0.
Hypothesis Hroot : rooted h0 root.
Hypothesis Htree : tree_inv h0.
Hypothesis Hdepth : forall rs u, leads h0 root rs u -> (length rs <= M)%nat.

Lemma child_step t x lx u : child_of h0 t x lx u -> step h0 t (letter.char lx) u.
Proof. intros (Hl & Hu & n & Hg). by exists n, x, lx. Qed.

Lemma chain_children t st :
  sts h0 !! t = Some st ->
  exists ls, chain h0 (state.letters st) ls /\
             forall x, x ∈ ls -> exists lx u, child_of h0 t x lx u.
Proof.
  intros Hst. destruct (Htree t st Hst) as (ls & Hc & _ & Hfd).
  exists ls. split; [done|]. intros x Hx.
  destruct (Hfd x Hx) as (lx & n & Hlx & Hf).
  destruct (ti_state _ _ Hinv x lx Hlx) as (u & _ & Hu & _).
  exists lx, u. split; [done|]. split; [done|]. exists n.
  unfold getletter, getS. by rewrite Hst.
Qed.

(** Two letters of a state lead to states with no state in common below
    them, and no state is below itself. *)
Lemma desc_disjoint rs t x y lx ly u u' v :
  leads h0 root rs t -> child_of h0 t x lx u -> child_of h0 t y ly u' -> x <> y ->
  desc h0 u v -> desc h0 u' v -> False.
Proof.
  intros Hl Hx Hy Hne [r1 H1] [r2 H2].
  pose proof (child_step _ _ _ _ Hx) as Sx. pose proof (child_step _ _ _ _ Hy) as Sy.
  assert (rs ++ letter.char lx :: r1 = rs ++ letter.char ly :: r2) as E.
  { eapply (leads_unique own h0 root Hinv Hroot).
    - eapply leads_app; [exact Hl|]. econstructor; [exact Sx|exact H1].
    - eapply leads_app; [exact Hl|]. econstructor; [exact Sy|exact H2]. }
  apply app_inv_head in E. injection E as E _.
  destruct Hx as (_ & _ & n & Hg), Hy as (_ & _ & n' & Hg'). rewrite E in Hg.
  pose proof (getletter_agree _ _ _ _ _ _ _ Hg Hg') as [= ?]. done.
Qed.

Lemma desc_acyclic rs t x lx u :
  leads h0 root rs t -> child_of h0 t x lx u -> ~ desc h0 u t.
Proof.
  intros Hl Hx [r H1]. pose proof (child_step _ _ _ _ Hx) as Sx.
  assert (rs ++ letter.char lx :: r = rs) as E.
  { eapply (leads_unique own h0 root Hinv Hroot); [|exact Hl].
    eapply leads_app; [exact Hl|]. econstructor; [exact Sx|exact H1]. }
  apply (f_equal length) in E. rewrite length_app in E. simpl in E. lia.
Qed.

Lemma child_listed t st ls x lx u :
  sts h0 !! t = Some st -> chain h0 (state.letters st) ls ->
  child_of h0 t x lx u -> x ∈ ls.
Proof.
  intros Hst Hc (_ & _ & n & Hg).
  destruct (getletter_owns _ _ _ _ _ Hg) as (s & [= <-] & Hown).
  by eapply (tree_listed_trie own h0 Hinv).
Qed.

Lemma desc_child t x :
  desc h0 t x -> x = t \/ exists y ly u, child_of h0 t y ly u /\ desc h0 u x.
Proof.
  intros [rs Hl]. destruct rs as [|c rs]; [inversion Hl; subst; by left|].
  inversion Hl as [|? ? u ? ? Hs Hl']; subst.
  right. destruct Hs as (n & lt & l & Hg & Hlt & Hu).
  destruct (getletter_char _ _ _ _ _ Hg) as (l' & Hl'' & Hc).
  apply getL_Some in Hl'' as (i & [= <-] & Hl''). rewrite Hlt in Hl''. injection Hl'' as <-.
  exists lt, l, u. split; [|by exists rs].
  split; [done|]. split; [done|]. exists n. by rewrite Hc.
Qed.

Lemma analyseLetters_total rec t rs :
  leads h0 root rs t -> analysing h0 M t rec ->
  forall ls k p h lv Ls cur,
  chain h0 p ls -> (length ls <= k)%nat ->
  (forall x, x ∈ ls -> exists lx u, child_of h0 t x lx u) ->
  seq_store h0 h -> levels_ok h lv Ls -> length lv = M ->
  (forall x lx u v, x ∈ ls -> child_of h0 t x lx u -> desc h0 u v -> ~ pushed Ls v) ->
  (exists r2 u, leads h0 t r2 u /\ Z.of_nat (length r2) = cur) ->
  exists h' lv' Ls' n,
    analyseLetters rec k h lv p cur = Ok (h', lv', n) /\
    seq_store h0 h' /\ levels_ok h' lv' Ls' /\ length lv' = M /\
    (forall v, pushed Ls' v <->
       pushed Ls v \/ exists x lx u, x ∈ ls /\ child_of h0 t x lx u /\ desc h0 u v) /\
    exists r2 u, leads h0 t r2 u /\ Z.of_nat (length r2) = n.
Proof.
  intros Hl Hrec. induction ls as [|x ls IH]; intros k p h lv Ls cur Hc Hk Hch Hseq Hok HM Hfree Hpath.
  - apply chain_nil_inv in Hc as ->. exists h, lv, Ls, cur.
    split; [by destruct k|]. repeat (split; [done|]). split; [|done].
    intros v. split; [by left|]. intros [?|(x & lx & u & Hx & _)]; [done|].
    by apply elem_of_nil in Hx.
  - pose proof (chain_NoDup _ _ _ Hc) as Hnd. apply NoDup_cons in Hnd as [Hx Hnd].
    apply chain_cons_inv in Hc as (lx0 & -> & Hlx0 & Hc').
    destruct k as [|k]; [simpl in Hk; lia|]. simpl in Hk.
    destruct (Hch x ltac:(by left)) as (lx & u & Hchild).
    pose proof Hchild as (Hlx & Hu & _). rewrite Hlx0 in Hlx. injection Hlx as ->.
    assert (forall h1, seq_store h0 h1 -> getL h1 (Some x) = Ok lx) as Hget.
    { intros h1 [E _]. unfold getL. by rewrite <- E, Hlx0. }
    cbn [analyseLetters]. rewrite (Hget h Hseq). cbn [mbind res_bind]. rewrite Hu.
    destruct (Hrec x lx u h lv Ls Hchild Hseq Hok HM) as
      (h1 & lv1 & Ls1 & n1 & -> & Hseq1 & Hok1 & HM1 & Hp1 & r1 & u1 & Hl1 & Hn1).
    { intros v Hv. eapply Hfree; [by left|exact Hchild|exact Hv]. }
    cbn [mbind res_bind]. rewrite (Hget h1 Hseq1). cbn [mbind res_bind].
    destruct (IH k (letter.next lx) h1 lv1 Ls1 (if cur <? n1 then n1 else cur))
      as (h' & lv' & Ls' & n & Hr & Hseq' & Hok' & HM' & Hp' & Hpath'); [done|lia| |done..| | |].
    + intros y Hy. apply Hch. by right.
    + intros y ly u' v Hy Hchild' Hv Hpv.
      destruct (proj1 (Hp1 v) Hpv) as [Hold|Hd].
      * eapply Hfree; [by right|exact Hchild'|exact Hv|exact Hold].
      * eapply (desc_disjoint rs t x y lx ly u u' v); [done..| |done|done].
        intros ->. done.
    + destruct (Z.ltb_spec cur n1); [|done].
      exists (letter.char lx :: r1), u1. split.
      * econstructor; [by eapply child_step|done].
      * simpl length. lia.
    + exists h', lv', Ls', n. split; [done|]. repeat (split; [done|]). split; [|done].
      intros v. rewrite Hp', Hp1. split.
      * intros [[?|Hd]|(y & ly & u' & Hy & Hcy & Hd)]; [by left|right..].
        -- exists x, lx, u. split; [by left|done].
        -- exists y, ly, u'. split; [by right|done].
      * intros [?|(y & ly & u' & Hy & Hcy & Hd)]; [by left; left|].
        apply elem_of_cons in Hy as [->|Hy].
        -- left. right. destruct Hcy as (Hly & Hu' & _).
           rewrite Hlx0 in Hly. injection Hly as <-. rewrite Hu in Hu'.
           by injection Hu' as <-.
        -- right. by exists y, ly, u'.
Qed.

Lemma analyseSubTrie_total f : forall t rs,
  leads h0 root rs t -> rs <> [] ->
  (M - length rs + length (lts h0) + 1 <= f)%nat ->
  forall h lv Ls, seq_store h0 h -> levels_ok h lv Ls -> length lv = M ->
  (forall v, desc h0 t v -> ~ pushed Ls v) ->
  analysed h0 M t Ls (analyseSubTrie f h lv (Some t)).
Proof.
  induction f as [|f IH]; intros t rs Hl Hne Hf h lv Ls Hseq Hok HM Hfree; [lia|].
  pose proof (leads_valid _ _ _ _ _ Hinv (rooted_lt _ _ Hroot) Hl) as Ht.
  destruct (lookup_lt_is_Some_2 _ _ Ht) as [st0 Hst0].
  assert (getS h0 (Some t) = Ok st0) as Hg0 by (unfold getS; by rewrite Hst0).
  destruct (getS_seq _ _ _ _ Hseq Hg0) as (cs & Hcs & Hstrip).
  apply strip_s_fields in Hstrip as [Hcnt Hlet].
  cbn [analyseSubTrie]. rewrite Hcs. cbn [mbind res_bind].
  destruct (Htree t st0 Hst0) as (ls0 & Hc0 & Hcnt0 & _).
  assert (exists h1 lv1 Ls1 cl,
    (if state.lettersCount cs =? 0 then Ok (h, lv, 0)
     else analyseLetters (analyseSubTrie f) f h lv (state.letters cs) 0)
    = Ok (h1, lv1, cl) /\
    seq_store h0 h1 /\ levels_ok h1 lv1 Ls1 /\ length lv1 = M /\
    (forall v, pushed Ls1 v <->
       pushed Ls v \/ exists x lx u, child_of h0 t x lx u /\ desc h0 u v) /\
    exists r2 u, leads h0 t r2 u /\ Z.of_nat (length r2) = cl)
    as (h1 & lv1 & Ls1 & cl & -> & Hseq1 & Hok1 & HM1 & Hp1 & r2 & u2 & Hl2 & Hcl).
  { destruct (Z.eqb_spec (state.lettersCount cs) 0) as [Ez|Ez].
    - exists h, lv, Ls, 0. split; [done|]. repeat (split; [done|]).
      split; [|exists [], t; split; [constructor|done]].
      intros v. split; [by left|]. intros [?|(x & lx & u & Hchild & _)]; [done|].
      assert (x ∈ ls0) as Hin by (by eapply child_listed).
      destruct ls0; [by apply elem_of_nil in Hin|]. simpl in Hcnt0. lia.
    - destruct (chain_children t st0 Hst0) as (ls & Hc & Hch).
      pose proof (chain_length _ _ _ Hc) as Hlen.
      rewrite <- Hlet.
      destruct (analyseLetters_total (analyseSubTrie f) t rs Hl) with
        (ls := ls) (k := f) (p := state.letters st0) (h := h) (lv := lv) (Ls := Ls) (cur := 0)
        as (h1 & lv1 & Ls1 & n & Hr & Hseq1 & Hok1 & HM1 & Hp1 & Hpath1);
        [|done|lia|done|done|done|done| | |].
      + intros x lx u h' lv' Ls' Hchild Hseq' Hok' HM' Hfree'.
        pose proof (child_step _ _ _ _ Hchild) as Hs.
        assert (leads h0 root (rs ++ [letter.char lx]) u) as Hlu.
        { eapply leads_app; [exact Hl|]. econstructor; [exact Hs|constructor]. }
        pose proof (Hdepth _ _ Hlu) as Hd. rewrite length_app in Hd. simpl in Hd.
        apply (IH u (rs ++ [letter.char lx])); [done|by destruct rs| |done..].
        rewrite length_app. simpl. lia.
      + intros x lx u v Hx Hchild [r Hr]. apply Hfree. exists (letter.char lx :: r).
        econstructor; [by eapply child_step|done].
      + exists [], t. split; [constructor|done].
      + exists h1, lv1, Ls1, n. split; [done|]. repeat (split; [done|]). split; [|done].
        intros v. rewrite Hp1. split.
        * intros [?|(x & lx & u & _ & Hchild & Hd)]; [by left|].
          right. by exists x, lx, u.
        * intros [?|(x & lx & u & Hchild & Hd)]; [by left|].
          right. exists x, lx, u. split; [by eapply child_listed|done]. }
  cbn [mbind res_bind].
  assert (getS h0 (Some t) = Ok st0) as Hg0' by done.
  destruct (getS_seq _ _ _ _ Hseq1 Hg0') as (st1 & Hst1 & _).
  apply getS_Some in Hst1 as (? & [= <-] & Hst1).
  assert (leads h0 root (rs ++ r2) u2) as Hfull by (by eapply leads_app).
  pose proof (Hdepth _ _ Hfull) as Hd. rewrite length_app in Hd.
  assert (0 < length rs)%nat as Hpos by (destruct rs; [done|simpl; lia]).
  destruct (pushLevel_ok h1 lv1 Ls1 t st1 cl Hok1 Hst1) as
    (h' & lv' & Ls' & Hpush & Hseq' & Hok' & HM' & Hp'); [|lia|].
  { intros Hpt. destruct (proj1 (Hp1 t) Hpt) as [Hold|(x & lx & u & Hchild & Hd')].
    - apply (Hfree t); [|done]. exists []. constructor.
    - exact (desc_acyclic rs t x lx u Hl Hchild Hd'). }
  exists h', lv', Ls', (cl + 1). split; [done|].
  split; [by eapply seq_store_trans|]. split; [done|]. split; [lia|]. split.
  - intros x. rewrite Hp', Hp1. split.
    + intros [[?|(y & ly & u & Hchild & [r Hr])]| ->]; [by left|right..].
      * exists (letter.char ly :: r). econstructor; [by eapply child_step|done].
      * exists []. constructor.
    + intros [?|Hd']; [by left; left|].
      destruct (desc_child t x Hd') as [->|(y & ly & u & Hchild & Hdu)]; [by right|].
      left. right. by exists y, ly, u.
  - exists r2, u2. split; [done|lia].
Qed.

Lemma levels_ok_start h : levels_ok h (replicate M None) (replicate M []).
Proof.
  split; [by rewrite !length_replicate|]. split.
  - intros i p L Hp HL. apply lookup_replicate in Hp as [-> _].
    apply lookup_replicate in HL as [-> _]. split; constructor.
  - intros i j Li Lj x HLi. apply lookup_replicate in HLi as [-> _].
    intros _ Hx. by apply elem_of_nil in Hx.
Qed.

(** The analysis of compressTrie returns, with on the lists of the levels
    the states that letters lead to. *)
Lemma analyseRoot_total fuel st0 :
  sts h0 !! root = Some st0 ->
  (M + length (lts h0) + 1 <= fuel)%nat ->
  exists h1 lv1 Ls1,
    analyseRoot fuel fuel h0 (replicate M None) (state.letters st0) = Ok (h1, lv1) /\
    seq_store h0 h1 /\ levels_ok h1 lv1 Ls1 /\
    forall v, pushed Ls1 v <-> exists rs, rs <> [] /\ leads h0 root rs v.
Proof.
  intros Hst0 Hf.
  destruct (chain_children root st0 Hst0) as (ls & Hc & Hch).
  pose proof (chain_length _ _ _ Hc) as Hlen.
  destruct (analyseLetters_total (analyseSubTrie fuel) root [] (leads_nil _ _)) with
    (ls := ls) (k := fuel) (p := state.letters st0) (h := h0) (lv := replicate M (None : ptr))
    (Ls := replicate M ([] : list nat)) (cur := 0)
    as (h1 & lv1 & Ls1 & n & Hr & Hseq1 & Hok1 & HM1 & Hp1 & _);
    [|done|lia|done|apply seq_store_refl|apply levels_ok_start|by rewrite length_replicate| | |].
  - intros x lx u h' lv' Ls' Hchild Hseq' Hok' HM' Hfree'.
    pose proof (child_step _ _ _ _ Hchild) as Hs.
    apply (analyseSubTrie_total fuel u [letter.char lx]); [|done| |done..].
    + econstructor; [exact Hs|constructor].
    + simpl. lia.
  - intros x lx u v _ _ _ (i & L & HL & Hv).
    apply lookup_replicate in HL as [-> _]. by apply elem_of_nil in Hv.
  - exists [], root. split; [constructor|done].
  - exists h1, lv1, Ls1. split; [by eapply analyseRoot_letters|].
    split; [done|]. split; [done|].
    intros v. rewrite Hp1. split.
    + intros [(i & L & HL & Hin)|(x & lx & u & _ & Hchild & [r Hr0])].
      * apply lookup_replicate in HL as [-> _]. by apply elem_of_nil in Hin.
      * exists (letter.char lx :: r). split; [done|].
        econstructor; [by eapply child_step|exact Hr0].
    + intros (rs & Hne & Hl). right.
      destruct (desc_child root v (ex_intro _ rs Hl)) as [->|(y & ly & u & Hchild & Hdu)].
      * exfalso. apply Hne.
        eapply (leads_unique own h0 root Hinv Hroot); [exact Hl|constructor].
      * exists y, ly, u. split; [by eapply child_listed|done].
Qed.
End analysis.

(** ** The states that the merge keeps *)

Lemma step_merged h c prev lp v t ch u :
  step (merged h c prev lp v) t ch u <->
  exists n lt l, getletter n h (Some t) ch = Ok (Some lt) /\ lts h !! lt = Some l /\
                 if decide (lt = lp) then u = c else letter.state l = Some u.
Proof.
  pose proof (merged_shape h c prev lp v) as Hsh. unfold step. split.
  - intros (n & lt & l' & Hg & Hl' & Hu).
    rewrite <- (getletter_shape _ _ _ _ _ Hsh) in Hg. rewrite merged_lts in Hl'.
    destruct (lts h !! lt) as [l|] eqn:Hl; [|done]. simpl in Hl'. injection Hl' as <-.
    exists n, lt, l. split; [done|]. split; [done|].
    case_decide; simpl in Hu; congruence.
  - intros (n & lt & l & Hg & Hl & Hu).
    rewrite (getletter_shape _ _ _ _ _ Hsh) in Hg.
    exists n, lt. eexists. split; [done|]. split.
    + rewrite merged_lts, Hl. simpl. reflexivity.
    + case_decide; simpl; congruence.
Qed.

(** One merge: the state [sp] leaves the states that are kept. *)
Lemma survivors_merge fuel h root D Q sp R c prev lp ss v :
  survivors h root D (Q ++ sp :: R) -> c ∈ root :: D ->
  equals fuel h (Some c) (Some sp) = Ok true ->
  sts h !! sp = Some ss -> state.letter ss = Some lp ->
  survivors (merged h c prev lp v) root D (Q ++ R).
Proof.
  intros (Hok & Hnd & Hreach & Htg & Hone & Hloop) Hc He Hss Hlp.
  pose proof (merged_shape h c prev lp v) as Hsh.
  destruct (equals_sound _ _ _ _ Hok He) as [Hsteps _].
  assert ((root :: D ++ Q ++ sp :: R) ≡ₚ (sp :: root :: D ++ Q ++ R)) as Hperm.
  { rewrite (app_assoc D Q (sp :: R)), (app_assoc D Q R).
    change (root :: (D ++ Q) ++ sp :: R) with ((root :: D ++ Q) ++ sp :: R).
    by rewrite <- Permutation_middle. }
  assert ((sp ∉ root :: D ++ Q ++ R) /\ NoDup (root :: D ++ Q ++ R)) as [Hsp Hnd'].
  { rewrite Hperm in Hnd. by apply NoDup_cons in Hnd. }
  assert (forall x, x ∈ root :: D ++ Q ++ sp :: R <-> x = sp \/ x ∈ root :: D ++ Q ++ R) as Hin.
  { intros x. rewrite Hperm. apply elem_of_cons. }
  assert (only_from h sp) as (ss' & lp' & lsp & Hss' & Hlp' & Hlsp & Hsptg & Huniq).
  { apply Hone. apply elem_of_app. right. by left. }
  rewrite Hss in Hss'. injection Hss' as <-. rewrite Hlp in Hlp'. injection Hlp' as <-.
  assert (c <> sp) as Hcsp.
  { intros ->. apply Hsp. apply elem_of_cons in Hc as [->|Hc]; [by left|].
    right. apply elem_of_app. by left. }
  assert (root <> sp) as Hrsp by (intros ->; apply Hsp; by left).
  (* the steps of the merged store *)
  assert (forall s ch u, s <> sp -> step h s ch u ->
            step (merged h c prev lp v) s ch (if decide (u = sp) then c else u)) as Hsim.
  { intros s ch u Hs (n & lt & l & Hg & Hl & Hu). apply step_merged.
    exists n, lt, l. split; [done|]. split; [done|].
    destruct (decide (lt = lp)) as [->|Hne].
    - rewrite Hlsp in Hl. injection Hl as <-. rewrite Hsptg in Hu. injection Hu as <-.
      by rewrite decide_True.
    - rewrite decide_False; [done|]. intros ->. apply Hne. by eapply Huniq. }
  assert (forall ch u, step h sp ch u -> step (merged h c prev lp v) c ch u /\ u <> sp) as Hsim2.
  { intros ch u Hs. assert (u <> sp) as Hu by (intros ->; by eapply Hloop).
    split; [|done]. apply Hsteps in Hs.
    specialize (Hsim c ch u Hcsp Hs). by rewrite decide_False in Hsim. }
  assert (forall s rs x, leads h s rs x ->
            leads (merged h c prev lp v) (if decide (s = sp) then c else s) rs
              (if decide (x = sp) then c else x)) as Hleads.
  { intros s rs x Hl. induction Hl as [s|s ch t rs x Hs Hl IH]; [constructor|].
    destruct (decide (s = sp)) as [->|Hns].
    - destruct (Hsim2 ch t Hs) as [Hs2 Ht]. rewrite decide_False in IH by done.
      econstructor; [exact Hs2|exact IH].
    - econstructor; [by apply Hsim|]. exact IH. }
  split; [split; [by eapply tree_inv_shape; [|apply Hok]|
                  by eapply tree_listed_shape; [|apply Hok]]|].
  split; [done|]. split; [|split; [|split]].
  - intros x Hx. assert (x <> sp) as Hxs by (intros ->; done).
    destruct (Hreach x) as [rs Hl]; [apply Hin; by right|].
    apply Hleads in Hl. rewrite !decide_False in Hl by done. by exists rs.
  - intros a l' x. rewrite merged_lts.
    destruct (lts h !! a) as [l|] eqn:Hl; [|done]. simpl. intros [= <-].
    case_decide as Ea; simpl.
    + intros [= <-]. apply elem_of_cons in Hc as [->|Hc]; [by left|].
      right. apply elem_of_app. by left.
    + intros Hx. specialize (Htg a l x Hl Hx). apply Hin in Htg as [->|?]; [|done].
      exfalso. apply Ea. by eapply Huniq.
  - intros x Hx.
    assert (x ∈ Q ++ sp :: R) as Hx'.
    { apply elem_of_app in Hx as [?|?]; apply elem_of_app; [by left|right; by right]. }
    assert (x <> sp) as Hxs.
    { intros ->. apply Hsp. right. apply elem_of_app. by right. }
    destruct (Hone x Hx') as (st & a & l & Hst & Ha & Hl & Htgx & Hu).
    assert (a <> lp) as Hna.
    { intros ->. rewrite Hlsp in Hl. injection Hl as <-. congruence. }
    destruct (same_shape_state _ _ _ _ Hsh Hst) as (st' & Hst' & E).
    apply strip_s_more in E as (_ & Elet & _).
    exists st', a, l. split; [done|]. split; [congruence|]. split.
    { rewrite merged_lts, Hl. simpl. by rewrite decide_False. }
    split; [done|]. intros a' l''. rewrite merged_lts.
    destruct (lts h !! a') as [l'|] eqn:Hl'; [|done]. simpl. intros [= <-].
    case_decide as Ea; simpl.
    + intros [= <-]. exfalso.
      assert (NoDup (D ++ Q ++ R)) as HndDW by (by apply NoDup_cons in Hnd' as [_ ?]).
      apply NoDup_cons in Hnd' as [Hr _].
      apply elem_of_cons in Hc as [->|Hc].
      * apply Hr. apply elem_of_app. by right.
      * apply NoDup_app in HndDW as (_ & Hdis & _). by eapply Hdis.
    + intros Hx2. by eapply Hu.
  - intros x ch Hs. apply step_merged in Hs as (n & lt & l & Hg & Hl & Hu).
    destruct (decide (lt = lp)) as [->|Hne].
    + subst x. rewrite Hlsp in Hl. injection Hl as <-.
      apply (Hloop sp ch). apply Hsteps. by exists n, lp, lsp.
    + apply (Hloop x ch). by exists n, lt, l.
Qed.

(** The merge has looked at the first state of [W] and keeps it. *)
Lemma survivors_keep h root D c W :
  survivors h root D (c :: W) -> survivors h root (D ++ [c]) W.
Proof.
  intros (Hok & Hnd & Hreach & Htg & Hone & Hloop).
  assert ((D ++ [c]) ++ W = D ++ c :: W) as E by (by rewrite <- app_assoc).
  split; [done|]. rewrite E. repeat (split; [done|]). split; [|done].
  intros x Hx. apply Hone. by right.
Qed.

(** ** compressTrie returns on a trie of addWord: the merge *)

Lemma same_shape_lengths h h' :
  same_shape h h' ->
  length (lts h') = length (lts h) /\ length (sts h') = length (sts h).
Proof.
  intros [E1 E2]. apply (f_equal length) in E1. apply (f_equal length) in E2.
  rewrite !length_fmap in E1. rewrite !length_fmap in E2. done.
Qed.

Lemma lettered_shape h h' x : same_shape h h' -> lettered h x -> lettered h' x.
Proof.
  intros Hsh (st & lp & Hst & Hlp & Hlt).
  destruct (same_shape_state _ _ _ _ Hsh Hst) as (st' & Hst' & E).
  apply strip_s_more in E as (_ & Elet & _).
  destruct (same_shape_lengths _ _ Hsh) as [El _].
  exists st', lp. split; [done|]. split; [congruence|lia].
Qed.

Lemma containsLetter_total fuel h sp x :
  tree_inv h -> tree_up h ->
  (sp < length (sts h))%nat -> (x < length (lts h))%nat ->
  (length (lts h) <= fuel)%nat ->
  exists b, containsLetter fuel h (Some sp) (Some x) = Ok b.
Proof.
  intros Htree Hup Hsp Hx Hf. unfold containsLetter.
  destruct (lookup_lt_is_Some_2 _ _ Hsp) as [s Hs].
  destruct (lookup_lt_is_Some_2 _ _ Hx) as [l Hl].
  assert (getS h (Some sp) = Ok s) as -> by (unfold getS; by rewrite Hs).
  assert (getL h (Some x) = Ok l) as -> by (unfold getL; by rewrite Hl).
  cbn [mbind res_bind].
  destruct (letters_find_total h sp s (letter.char l) fuel Htree Hup Hs Hf) as [r Hr].
  rewrite Hr. cbn [mbind res_bind]. destruct r as [r0|]; [|by eexists].
  destruct (findLetter_char _ _ _ _ _ Hr) as (rl & Hrl & _). rewrite Hrl.
  cbn [mbind res_bind]. by eexists.
Qed.

Lemma equalsLoop_total fuel h sp :
  tree_inv h -> tree_up h -> (sp < length (sts h))%nat ->
  (length (lts h) <= fuel)%nat ->
  forall ls n p, chain h p ls -> (length ls <= n)%nat ->
  exists b, equalsLoop fuel n h (Some sp) p = Ok b.
Proof.
  intros Htree Hup Hsp Hf. induction ls as [|x ls IH]; intros n p Hc Hn.
  - apply chain_nil_inv in Hc as ->. destruct n; by eexists.
  - apply chain_cons_inv in Hc as (l & -> & Hl & Hc).
    destruct n as [|n]; [simpl in Hn; lia|]. simpl in Hn. cbn [equalsLoop].
    destruct (containsLetter_total fuel h sp x Htree Hup Hsp) as [b Hb];
      [by eapply lookup_lt_Some|done|].
    rewrite Hb. cbn [mbind res_bind]. destruct b; simpl; [|by eexists].
    assert (getL h (Some x) = Ok l) as -> by (unfold getL; by rewrite Hl).
    cbn [mbind res_bind]. apply IH; [done|lia].
Qed.

Lemma equals_total fuel h c sp :
  tree_inv h -> tree_up h ->
  (c < length (sts h))%nat -> (sp < length (sts h))%nat ->
  (length (lts h) <= fuel)%nat ->
  exists b, equals fuel h (Some c) (Some sp) = Ok b.
Proof.
  intros Htree Hup Hc Hsp Hf. unfold equals.
  destruct (lookup_lt_is_Some_2 _ _ Hc) as [cs Hcs].
  destruct (lookup_lt_is_Some_2 _ _ Hsp) as [ss Hss].
  assert (getS h (Some c) = Ok cs) as -> by (unfold getS; by rewrite Hcs).
  assert (getS h (Some sp) = Ok ss) as -> by (unfold getS; by rewrite Hss).
  cbn [mbind res_bind]. destruct (_ || _); [by eexists|].
  destruct (Htree c cs Hcs) as (ls & Hch & _).
  apply (equalsLoop_total fuel h sp Htree Hup Hsp Hf ls); [done|].
  pose proof (chain_length _ _ _ Hch). lia.
Qed.

Lemma slist_cons_inv h p s L :
  slist h p (s :: L) ->
  exists st, p = Some s /\ sts h !! s = Some st /\ slist h (state.next st) L.
Proof. inversion 1; subst. eauto. Qed.

Lemma slist_nil_inv h p : slist h p [] -> p = None.
Proof. by inversion 1. Qed.

Lemma slist_nil_inv' h L : slist h None L -> L = [].
Proof. by inversion 1. Qed.

(** The innermost loop of the merge returns: it goes along the list behind
    [prev], takes states off it and counts them, and writes no other
    [next]. *)
Lemma mergeSame_total fuel c : forall R n h prev ps same d,
  tree_inv h -> tree_up h -> (c < length (sts h))%nat ->
  (length (lts h) <= fuel)%nat ->
  sts h !! prev = Some ps -> state.next ps = same -> slist h same R ->
  NoDup (prev :: R) -> (forall x, x ∈ R -> lettered h x) -> (length R <= n)%nat ->
  exists h' d' R',
    mergeSame fuel n h c prev same d = Ok (h', d') /\
    same_shape h h' /\ slist h' (Some prev) (prev :: R') /\ sublist R' R /\
    (forall x, x ∉ prev :: R -> sts h' !! x = sts h !! x) /\
    d' = d + Z.of_nat (length R) - Z.of_nat (length R') /\
    forall root D Q Wr, survivors h root D (Q ++ R ++ Wr) -> c ∈ root :: D ->
                        survivors h' root D (Q ++ R' ++ Wr).
Proof.
  induction R as [|sp R IH]; intros n h prev ps same d Htree Hup Hc Hf Hps Hnx Hsl Hnd Hlet Hn.
  - apply slist_nil_inv in Hsl as ->. exists h, d, [].
    split; [by destruct n|]. split; [apply same_shape_refl|].
    split; [|split; [done|split; [done|split; [simpl; lia|done]]]].
    econstructor; [exact Hps|]. rewrite Hnx. constructor.
  - apply slist_cons_inv in Hsl as (ss & -> & Hss & Hsl).
    destruct n as [|n]; [simpl in Hn; lia|]. simpl in Hn.
    apply NoDup_cons in Hnd as [Hprev Hnd]. pose proof Hnd as Hnd'.
    apply NoDup_cons in Hnd' as [Hsp HndR].
    assert (prev <> sp) as Hne by (intros ->; apply Hprev; by left).
    assert (prev ∉ R) as HprevR by (intros ?; apply Hprev; by right).
    pose proof (lookup_lt_Some _ _ _ Hss) as Hsplt.
    cbn [mergeSame].
    destruct (equals_total fuel h c sp Htree Hup Hc Hsplt Hf) as [b Hb].
    rewrite Hb. cbn [mbind res_bind].
    assert (getS h (Some sp) = Ok ss) as Hgs by (unfold getS; by rewrite Hss).
    destruct b.
    + rewrite Hgs. cbn [mbind res_bind].
      assert (getS h (Some prev) = Ok ps) as -> by (unfold getS; by rewrite Hps).
      cbn [mbind res_bind].
      destruct (Hlet sp ltac:(by left)) as (ss' & lp & Hss' & Hlp & Hlplt).
      rewrite Hss in Hss'. injection Hss' as <-.
      set (h1 := updS (state.set_next (state.next ss)) prev h).
      assert (getS h1 (Some sp) = Ok ss) as ->.
      { unfold getS, h1. simpl. rewrite list_lookup_alter_ne by done. by rewrite Hss. }
      cbn [mbind res_bind]. rewrite Hlp.
      destruct (lookup_lt_is_Some_2 (lts h1) lp Hlplt) as [l Hl].
      assert (getL h1 (Some lp) = Ok l) as -> by (unfold getL; by rewrite Hl).
      cbn [mbind res_bind].
      change (updL (letter.set_state (Some c)) lp h1)
        with (merged h c prev lp (state.next ss)).
      set (h2 := merged h c prev lp (state.next ss)).
      assert (getS h2 (Some sp) = Ok ss) as ->.
      { unfold getS, h2. simpl. rewrite list_lookup_alter_ne by done. by rewrite Hss. }
      cbn [mbind res_bind].
      pose proof (merged_shape h c prev lp (state.next ss)) as Hsh. fold h2 in Hsh.
      destruct (same_shape_lengths _ _ Hsh) as [El Es].
      assert (forall x, x <> prev -> sts h2 !! x = sts h !! x) as Hsame.
      { intros x Hx. unfold h2. simpl. by rewrite list_lookup_alter_ne. }
      destruct (IH n h2 prev (state.set_next (state.next ss) ps) (state.next ss) (d + 1))
        as (h' & d' & R' & Hr & Hsh' & Hsl' & Hsub & Hout & Hd & Hsurv).
      * by eapply tree_inv_shape.
      * by eapply tree_up_shape.
      * lia.
      * lia.
      * unfold h2. simpl. by rewrite list_lookup_alter_eq, Hps.
      * done.
      * eapply slist_ext; [exact Hsl|]. intros x Hx. apply Hsame. by intros ->.
      * apply NoDup_cons. done.
      * intros x Hx. eapply lettered_shape; [exact Hsh|]. apply Hlet. by right.
      * lia.
      * exists h', d', R'. split; [done|]. split; [by eapply same_shape_trans|].
        split; [done|]. split; [by apply sublist_cons|]. split; [|split].
        -- intros x Hx. rewrite Hout.
           ++ apply Hsame. intros ->. apply Hx. by left.
           ++ intros Hin. apply Hx. apply elem_of_cons in Hin as [->|Hin]; [by left|].
              right. by right.
        -- simpl length. lia.
        -- intros root D Q Wr Hs Hc'. apply Hsurv; [|done].
           by eapply (survivors_merge fuel h root D Q sp (R ++ Wr) c prev lp ss).
    + rewrite Hgs. cbn [mbind res_bind].
      destruct (IH n h sp ss (state.next ss) d)
        as (h' & d' & R' & Hr & Hsh' & Hsl' & Hsub & Hout & Hd & Hsurv); [done..| | |].
      * intros x Hx. apply Hlet. by right.
      * lia.
      * exists h', d', (sp :: R'). split; [done|]. split; [done|].
        split; [|split; [by apply sublist_skip|split; [|split]]].
        -- econstructor.
           ++ rewrite Hout; [exact Hps|]. intros Hin. apply Hprev. exact Hin.
           ++ rewrite Hnx. exact Hsl'.
        -- intros x Hx. apply Hout. intros Hin. apply Hx. by right.
        -- simpl length. lia.
        -- intros root D Q Wr Hs Hc'.
           specialize (Hsurv root D (Q ++ [sp]) Wr). rewrite <- !app_assoc in Hsurv.
           by apply Hsurv.
Qed.

Lemma mergeLevel_total fuel : forall n L h p d,
  tree_inv h -> tree_up h -> (length (lts h) <= fuel)%nat ->
  slist h p L -> NoDup L -> (forall x, x ∈ L -> lettered h x) ->
  (length L <= S n)%nat -> (length L <= S fuel)%nat ->
  exists h' d' L',
    mergeLevel fuel n h p d = Ok (h', d') /\ same_shape h h' /\
    (forall x, x ∉ L -> sts h' !! x = sts h !! x) /\
    d' = d + Z.of_nat (length L) - Z.of_nat (length L') /\
    forall root D Wr, survivors h root D (L ++ Wr) -> survivors h' root (D ++ L') Wr.
Proof.
  assert (forall h d, exists h' d' L',
            Ok (h, d) = Ok (h', d') /\ same_shape h h' /\
            (forall x, x ∉ [] -> sts h' !! x = sts h !! x) /\
            d' = d + Z.of_nat (length (@nil nat)) - Z.of_nat (length L') /\
            forall root D Wr, survivors h root D ([] ++ Wr) -> survivors h' root (D ++ L') Wr)
    as Hnil.
  { intros h d. exists h, d, []. split; [done|]. split; [apply same_shape_refl|].
    split; [done|]. split; [simpl; lia|]. intros root D Wr. by rewrite app_nil_r. }
  assert (forall h d c, exists h' d' L',
            Ok (h, d) = Ok (h', d') /\ same_shape h h' /\
            (forall x, x ∉ [c] -> sts h' !! x = sts h !! x) /\
            d' = d + Z.of_nat (length [c]) - Z.of_nat (length L') /\
            forall root D Wr, survivors h root D ([c] ++ Wr) -> survivors h' root (D ++ L') Wr)
    as Hone.
  { intros h d c. exists h, d, [c]. split; [done|]. split; [apply same_shape_refl|].
    split; [done|]. split; [simpl; lia|]. intros root D Wr. apply survivors_keep. }
  induction n as [|n IH]; intros L h p d Htree Hup Hf Hsl Hnd Hlet Hn HF.
  - destruct L as [|c L].
    + apply slist_nil_inv in Hsl as ->. apply Hnil.
    + apply slist_cons_inv in Hsl as (cs & -> & Hcs & Hsl).
      destruct L as [|t L]; [|simpl in Hn; lia].
      apply slist_nil_inv in Hsl. cbn [mergeLevel].
      assert (getS h (Some c) = Ok cs) as -> by (unfold getS; by rewrite Hcs).
      cbn [mbind res_bind]. rewrite Hsl. apply Hone.
  - destruct L as [|c L].
    + apply slist_nil_inv in Hsl as ->. apply Hnil.
    + pose proof Hsl as Hsl0.
      apply slist_cons_inv in Hsl as (cs & -> & Hcs & Hsl).
      cbn [mergeLevel].
      assert (getS h (Some c) = Ok cs) as -> by (unfold getS; by rewrite Hcs).
      cbn [mbind res_bind].
      destruct (state.next cs) as [nx|] eqn:Enx.
      2:{ apply slist_nil_inv' in Hsl as ->. apply Hone. }
      simpl in Hn, HF.
      destruct (mergeSame_total fuel c L fuel h c cs (Some nx) d)
        as (h1 & d1 & R' & Hr & Hsh1 & Hsl1 & Hsub & Hout & Hd1 & Hsurv1);
        [done|done|by eapply lookup_lt_Some|done|done|done|done|done| |lia|].
      { intros x Hx. apply Hlet. by right. }
      rewrite Hr. cbn [mbind res_bind].
      apply slist_cons_inv in Hsl1 as (cs1 & _ & Hcs1 & Hsl1).
      assert (getS h1 (Some c) = Ok cs1) as -> by (unfold getS; by rewrite Hcs1).
      cbn [mbind res_bind].
      destruct (same_shape_lengths _ _ Hsh1) as [El Es].
      apply NoDup_cons in Hnd as [HcL HndL].
      pose proof (sublist_length _ _ Hsub) as Hlen.
      destruct (IH R' h1 (state.next cs1) d1) as (h' & d' & L' & Hr' & Hsh' & Hout' & Hd' & Hsurv');
        [by eapply tree_inv_shape|by eapply tree_up_shape|lia|done|
         by eapply sublist_NoDup| |lia|lia|].
      { intros x Hx. eapply lettered_shape; [exact Hsh1|]. apply Hlet. right.
        by eapply elem_of_sublist. }
      exists h', d', (c :: L'). split; [done|]. split; [by eapply same_shape_trans|].
      split; [|split].
      * intros x Hx. rewrite Hout'.
        -- apply Hout. exact Hx.
        -- intros Hin. apply Hx. right. by eapply elem_of_sublist.
      * simpl length. lia.
      * intros root D Wr Hs.
        replace (D ++ c :: L') with ((D ++ [c]) ++ L') by (by rewrite <- app_assoc).
        apply Hsurv'. apply (Hsurv1 root (D ++ [c]) [] Wr).
        -- simpl. by apply survivors_keep.
        -- right. apply elem_of_app. right. by left.
Qed.

Lemma levels_ok_tail h p lv L Ls :
  levels_ok h (p :: lv) (L :: Ls) ->
  slist h p L /\ NoDup L /\ levels_ok h lv Ls /\ forall x, x ∈ L -> ~ pushed Ls x.
Proof.
  intros (Hlen & Hlists & Hdisj).
  destruct (Hlists 0%nat p L eq_refl eq_refl) as [Hsl Hnd].
  split; [done|]. split; [done|]. split.
  - split; [simpl in Hlen; lia|]. split.
    + intros i q L' Hq HL'. by apply (Hlists (S i)).
    + intros i j Li Lj x Hi Hj Hxi Hxj.
      assert (S i = S j) by (by eapply (Hdisj (S i) (S j))). lia.
  - intros x Hx (j & Lj & Hj & Hxj).
    assert (0%nat = S j) by (by eapply (Hdisj 0%nat (S j) L Lj x)). lia.
Qed.

(** The merge returns, and counts the states that it takes off the lists. *)
Lemma mergeLevels_total fuel : forall lv Ls h d,
  tree_inv h -> tree_up h -> (length (lts h) <= fuel)%nat ->
  (length (sts h) <= fuel)%nat ->
  levels_ok h lv Ls -> (forall x, pushed Ls x -> lettered h x) ->
  exists h' d',
    mergeLevels fuel h lv d = Ok (h', d') /\
    forall root D, survivors h root D (concat Ls) ->
      exists D', survivors h' root D' [] /\
        Z.of_nat (length D') = Z.of_nat (length D) + Z.of_nat (length (concat Ls)) - (d' - d).
Proof.
  induction lv as [|p lv IH]; intros Ls h d Htree Hup Hf Hfs Hok Hlet.
  - exists h, d. split; [done|]. intros root D Hs.
    destruct Ls as [|L Ls]; [|destruct Hok as [Hlen _]; simpl in Hlen; lia].
    exists D. split; [done|]. simpl. lia.
  - destruct Ls as [|L Ls]; [destruct Hok as [Hlen _]; simpl in Hlen; lia|].
    destruct (levels_ok_tail _ _ _ _ _ Hok) as (Hsl & Hnd & Hok' & Hdis).
    assert (forall x, x ∈ L -> lettered h x) as HletL.
    { intros x Hx. apply Hlet. by exists 0%nat, L. }
    assert (length L <= length (sts h))%nat as HlenL.
    { assert (L ⊆+ seq 0 (length (sts h))) as Hsub.
      { apply NoDup_submseteq; [done|]. intros x Hx. apply elem_of_seq.
        destruct (HletL x Hx) as (st & _ & Hst & _). apply lookup_lt_Some in Hst. lia. }
      apply submseteq_length in Hsub. by rewrite length_seq in Hsub. }
    cbn [mergeLevels].
    destruct (mergeLevel_total fuel fuel L h p d) as (h1 & d1 & L' & Hr & Hsh & Hout & Hd1 & Hsurv1);
      [done..|lia|lia|].
    rewrite Hr. cbn [mbind res_bind].
    destruct (same_shape_lengths _ _ Hsh) as [El Es].
    destruct (IH Ls h1 d1) as (h' & d' & Hr' & Hsurv');
      [by eapply tree_inv_shape|by eapply tree_up_shape|lia|lia| | |].
    + destruct Hok' as (Hlen & Hlists & Hdisj). split; [done|]. split; [|done].
      intros i q L'' Hq HL'. destruct (Hlists i q L'' Hq HL') as [Hsl' Hnd'].
      split; [|done]. eapply slist_ext; [exact Hsl'|].
      intros x Hx. apply Hout. intros Hin. apply (Hdis x Hin). by exists i, L''.
    + intros x Hx. eapply lettered_shape; [exact Hsh|]. apply Hlet.
      destruct Hx as (i & L'' & HL' & Hin). by exists (S i), L''.
    + exists h', d'. split; [done|]. intros root D Hs. simpl in Hs.
      destruct (Hsurv' root (D ++ L') (Hsurv1 root D (concat Ls) Hs)) as (D' & HD' & Hcnt).
      exists D'. split; [done|]. rewrite length_app in Hcnt. simpl.
      rewrite length_app. lia.
Qed.

(** A state at the end of a path that is not empty comes from a letter. *)
Lemma leads_lettered own h root rs x :
  trie_inv own h -> leads h root rs x -> rs <> [] -> lettered h x.
Proof.
  intros Hinv Hl Hne. destruct rs as [|c rs _] using rev_ind; [done|].
  apply leads_snoc_inv in Hl as (t & _ & Hs).
  destruct (step_letter _ _ _ _ _ Hinv Hs) as (lt & l & Hlt & Hu & _).
  destruct (ti_state _ _ Hinv lt l Hlt) as (x' & ts & Hx' & Hts & Hlet).
  assert (x' = x) as -> by congruence.
  exists ts, lt. split; [done|]. split; [done|by eapply lookup_lt_Some].
Qed.

Lemma pushed_concat Ls x : x ∈ concat Ls <-> pushed Ls x.
Proof.
  induction Ls as [|L Ls IH]; simpl.
  - split; [intros H; by apply elem_of_nil in H|]. by intros (i & L & HL & _).
  - rewrite elem_of_app, IH. split.
    + intros [Hx|(i & L' & HL' & Hx)]; [by exists 0%nat, L|by exists (S i), L'].
    + intros ([|i] & L' & HL' & Hx).
      * injection HL' as <-. by left.
      * right. by exists i, L'.
Qed.

Lemma levels_ok_NoDup h : forall lv Ls, levels_ok h lv Ls -> NoDup (concat Ls).
Proof.
  intros lv Ls. revert lv. induction Ls as [|L Ls IH]; intros lv Hok; [constructor|].
  destruct lv as [|p lv]; [destruct Hok as [Hlen _]; simpl in Hlen; lia|].
  destruct (levels_ok_tail _ _ _ _ _ Hok) as (_ & Hnd & Hok' & Hdis).
  simpl. apply NoDup_app. split; [done|]. split; [|by eapply IH].
  intros x Hx Hin. apply (Hdis x Hx). by apply pushed_concat.
Qed.

Lemma step_seq h h1 t c u : seq_store h h1 -> step h t c u <-> step h1 t c u.
Proof.
  intros Hseq. pose proof (seq_store_shape _ _ Hseq) as Hsh. destruct Hseq as [El _].
  unfold step. split; intros (n & lt & l & Hg & Hl & Hu); exists n, lt, l.
  - rewrite <- (getletter_shape _ _ _ _ _ Hsh), <- El. done.
  - rewrite (getletter_shape _ _ _ _ _ Hsh), El. done.
Qed.

(** After the analysis of a trie, the lists of the levels hold every state
    but the initial one. *)
Lemma survivors_start own h h1 root lv Ls :
  trie_inv own h -> rooted h root -> tree_inv h -> all_reached h root ->
  seq_store h h1 -> levels_ok h1 lv Ls ->
  (forall v, pushed Ls v <-> exists rs, rs <> [] /\ leads h root rs v) ->
  survivors h1 root [] (concat Ls) /\
  (length (concat Ls) + 1 = length (sts h))%nat.
Proof.
  intros Hinv Hroot Htree Hall Hseq Hok Hp.
  pose proof (seq_store_shape _ _ Hseq) as Hsh.
  pose proof (rooted_lt _ _ Hroot) as Hrlt.
  assert (forall rs, leads h root rs root -> rs = []) as Hback.
  { intros rs Hl. eapply (leads_unique own h root Hinv Hroot); [exact Hl|constructor]. }
  assert (forall x, x ∈ root :: concat Ls <-> (x < length (sts h))%nat) as Hmem.
  { intros x. rewrite elem_of_cons, pushed_concat, Hp. split.
    - intros [->|(rs & _ & Hl)]; [done|]. by eapply leads_valid.
    - intros Hx. destruct (decide (x = root)) as [->|Hne]; [by left|]. right.
      destruct (Hall x Hx) as [rs Hl]. exists rs. split; [|done].
      intros ->. inversion Hl; subst. done. }
  assert (NoDup (root :: concat Ls)) as Hnd.
  { apply NoDup_cons. split; [|by eapply levels_ok_NoDup].
    rewrite pushed_concat, Hp. intros (rs & Hne & Hl). by apply Hne, Hback. }
  assert (forall t c u, step h1 t c u -> step h t c u) as Hstep1.
  { intros t c u. by apply step_seq. }
  assert (forall t rs u, leads h t rs u -> leads h1 t rs u) as Hl1.
  { intros t rs u. apply (leads_ext (fun _ => True)); [|done].
    intros t' c u' _ Hs. split; [|done]. by apply (step_seq h h1). }
  assert (forall a l x, lts h !! a = Some l -> letter.state l = Some x ->
            x ∈ concat Ls /\
            exists st, sts h1 !! x = Some st /\ state.letter st = Some a) as Htgt.
  { intros a l x Hl Hx.
    destruct (ti_state _ _ Hinv a l Hl) as (x' & ts & Hx' & Hts & Hlet).
    assert (x' = x) as -> by congruence.
    pose proof (lookup_lt_Some _ _ _ Hts) as Hxlt.
    assert (x <> root) as Hne.
    { intros ->. destruct Hroot as (st & Hst & Hnone). congruence. }
    split.
    - apply Hmem in Hxlt. apply elem_of_cons in Hxlt as [?|?]; done.
    - destruct (same_shape_state _ _ _ _ Hsh Hts) as (st' & Hst' & E).
      apply strip_s_more in E as (_ & Elet & _). exists st'. split; [done|congruence]. }
  split.
  - split; [split; [by eapply tree_inv_shape|
                    eapply tree_listed_shape; [exact Hsh|by eapply tree_listed_trie]]|].
    simpl. split; [done|]. split; [|split; [|split]].
    + intros x Hx. apply Hmem in Hx. destruct (Hall x Hx) as [rs Hl].
      exists rs. by apply Hl1.
    + intros a l x Hl Hx. right. destruct Hseq as [El _]. rewrite <- El in Hl.
      by destruct (Htgt a l x Hl Hx).
    + intros x Hx. apply pushed_concat, Hp in Hx as (rs & Hne & Hl).
      destruct (leads_lettered own h root rs x Hinv Hl Hne) as (st & a & Hst & Ha & Halt).
      destruct (ti_letter _ _ Hinv x st a Hst Ha) as (l & Hl' & Hlx).
      destruct (Htgt a l x Hl' Hlx) as [_ (st1 & Hst1 & Ha1)].
      destruct Hseq as [El _].
      exists st1, a, l. split; [done|]. split; [done|]. rewrite <- El.
      split; [done|]. split; [done|].
      intros a' l' Hl'' Hx'.
      destruct (Htgt a' l' x Hl'' Hx') as [_ (st2 & Hst2 & Ha2)]. congruence.
    + intros x ch Hs. apply Hstep1 in Hs.
      assert (x < length (sts h))%nat as Hx.
      { destruct Hs as (n & lt & l & Hg & _). destruct (getletter_owns _ _ _ _ _ Hg)
          as (s & [= <-] & (st & ? & Hst & _)). by eapply lookup_lt_Some. }
      destruct (Hall x Hx) as [rs Hl].
      assert (rs ++ [ch] = rs) as E.
      { eapply (leads_unique own h root Hinv Hroot); [|exact Hl].
        eapply leads_app; [exact Hl|]. econstructor; [exact Hs|constructor]. }
      apply (f_equal length) in E. rewrite length_app in E. simpl in E. lia.
  - assert ((root :: concat Ls) ≡ₚ seq 0 (length (sts h))) as Hperm.
    { apply NoDup_Permutation; [done|apply NoDup_seq|].
      intros x. rewrite Hmem, elem_of_seq. lia. }
    apply Permutation_length in Hperm. rewrite length_seq in Hperm. simpl in Hperm. lia.
Qed.

(** When the merge has ended, the states that it has kept are the states
    that are reached from the initial state. *)
Lemma survivors_reach h root D :
  survivors h root D [] -> forall x, desc h root x <-> x ∈ root :: D.
Proof.
  intros (_ & _ & Hreach & Htg & _) x. rewrite app_nil_r in Hreach, Htg.
  split; [|apply Hreach]. intros [rs Hl].
  destruct rs as [|c rs _] using rev_ind; [inversion Hl; subst; by left|].
  apply leads_snoc_inv in Hl as (t & _ & (n & lt & l & _ & Hlt & Hu)). by eapply Htg.
Qed.

(** compressTrie returns on a trie of addWord whose paths are not longer
    than [maxWordSize]; it counts the states that are no longer reached. *)
Lemma compressTrie_total own fuel h root mx :
  trie_inv own h -> rooted h root -> tree_inv h -> tree_up h ->
  (forall rs u, leads h root rs u -> Z.of_nat (length rs) <= mx) ->
  (Z.to_nat mx + length (lts h) + length (sts h) + 1 <= fuel)%nat ->
  exists h' d,
    compressTrie fuel h (Some root) mx = Ok (h', d) /\
    (all_reached h root ->
     exists S, NoDup S /\ (forall x, x ∈ S <-> desc h' root x) /\
               Z.of_nat (length S) = Z.of_nat (length (sts h)) - d).
Proof.
  intros Hinv Hroot Htree Hup Hdepth Hf.
  assert (0 <= mx) as Hmx by (specialize (Hdepth [] root (leads_nil _ _)); simpl in *; lia).
  unfold compressTrie. destruct (Z.ltb_spec mx 0) as [?|_]; [lia|].
  pose proof Hroot as (st0 & Hst0 & Hnone).
  assert (getS h (Some root) = Ok st0) as -> by (unfold getS; by rewrite Hst0).
  cbn [mbind res_bind]. lazy zeta.
  assert (exists h1 lv1 Ls1,
    (if state.lettersCount st0 =? 0 then Ok (h, replicate (Z.to_nat mx) None)
     else analyseRoot fuel fuel h (replicate (Z.to_nat mx) None) (state.letters st0))
    = Ok (h1, lv1) /\ seq_store h h1 /\ levels_ok h1 lv1 Ls1 /\
    forall v, pushed Ls1 v <-> exists rs, rs <> [] /\ leads h root rs v)
    as (h1 & lv1 & Ls1 & Hr & Hseq & Hok & Hp).
  { destruct (Z.eqb_spec (state.lettersCount st0) 0) as [Ez|Ez].
    - exists h, (replicate (Z.to_nat mx) None), (replicate (Z.to_nat mx) []).
      split; [done|]. split; [apply seq_store_refl|]. split; [apply levels_ok_start|].
      intros v. split.
      + intros (i & L & HL & Hv). apply lookup_replicate in HL as [-> _].
        by apply elem_of_nil in Hv.
      + intros (rs & Hne & Hl). exfalso.
        destruct (desc_child h root v (ex_intro _ rs Hl))
          as [->|(y & ly & u & Hchild & _)].
        * apply Hne. eapply (leads_unique own h root Hinv); [by exists st0|exact Hl|constructor].
        * destruct (Htree root st0 Hst0) as (ls0 & Hc0 & Hcnt0 & _).
          assert (y ∈ ls0) as Hin by (by eapply (child_listed own h Hinv)).
          destruct ls0; [by apply elem_of_nil in Hin|]. simpl in Hcnt0. lia.
    - apply (analyseRoot_total own h root (Z.to_nat mx)); [done|by exists st0|done| |done|lia].
      intros rs u Hl. specialize (Hdepth rs u Hl). lia. }
  match goal with
  | |- context [mbind _ ?m] => replace m with (Ok (h1, lv1) : res (store * levels_t))
  end.
  cbn [mbind res_bind].
  pose proof (seq_store_shape _ _ Hseq) as Hsh.
  destruct (same_shape_lengths _ _ Hsh) as [El Es].
  destruct (mergeLevels_total fuel lv1 Ls1 h1 0) as (h' & d & Hm & Hsurv);
    [by eapply tree_inv_shape|by eapply tree_up_shape|lia|lia|done| |].
  { intros x Hx. destruct (proj1 (Hp x) Hx) as (rs & Hne & Hl).
    eapply lettered_shape; [exact Hsh|]. by eapply leads_lettered. }
  exists h', d. split; [done|]. intros Hall.
  destruct (survivors_start own h h1 root lv1 Ls1 Hinv Hroot Htree Hall Hseq Hok Hp)
    as [Hs0 Hcnt].
  destruct (Hsurv root [] Hs0) as (D' & HD' & HlenD).
  exists (root :: D'). split; [|split].
  - destruct HD' as (_ & Hnd & _). by rewrite app_nil_r in Hnd.
  - intros x. symmetry. by apply survivors_reach.
  - simpl length. simpl in HlenD. lia.
Qed.

(** CreateDAWG returns for every list of words, and nodesCount is the number
    of the states that are reached from the initial state. *)
Lemma CreateDAWG_total fuel words :
  (3 * length (concat words) + 2 <= fuel)%nat ->
  exists h g S,
    CreateDAWG fuel words = Ok (h, g) /\ initialState g = Some 0%nat /\
    NoDup S /\ (forall x, x ∈ S <-> desc h 0 x) /\
    nodesCount g = Z.of_nat (length S).
Proof.
  intros Hf. unfold CreateDAWG. rewrite allocS_eq. simpl length.
  change (allocS (state.new false None) emptyStore).1 with newTrie.
  destruct (addWords_total fuel words newTrie 0%nat 1 0 trie_newTrie tree_up_newTrie)
    as (h1 & nb & mx & Ha & Hlts); [simpl; lia|].
  simpl in Hlts. rewrite Ha. cbn [mbind res_bind].
  destruct (addWords_built _ _ _ _ _ Ha) as ([[own Hinv] Hroot] & Htree & _).
  pose proof (addWords_up _ _ _ _ _ _ _ _ _ trie_newTrie tree_up_newTrie Ha) as Hup.
  pose proof (addWords_states _ _ _ _ _ _ _ _ _ trie_newTrie Ha) as Hsts. simpl in Hsts.
  pose proof (addWords_max _ _ _ _ _ _ _ _ _ Ha) as (_ & Hmx & _).
  pose proof (addWords_count _ _ _ _ _ _ _ _ _ trie_newTrie Ha) as Hnb. simpl in Hnb.
  assert (all_reached h1 0) as Hall.
  { eapply addWords_reached; [apply trie_newTrie| |exact Ha].
    intros t Ht. simpl in Ht. assert (t = 0%nat) as -> by lia. exists []. constructor. }
  destruct (compressTrie_total own fuel h1 0%nat mx Hinv Hroot Htree Hup)
    as (h2 & d & Hc & Hcount).
  - by eapply addWords_depth.
  - lia.
  - rewrite Hc. cbn [mbind res_bind].
    destruct (Hcount Hall) as (S & Hnd & Hmem & Hlen).
    exists h2, (mkDAWG (Some 0%nat) (nb - d)), S. split; [done|]. split; [done|].
    split; [done|]. split; [done|]. simpl. lia.
Qed.

(** X16: Search returns on a graph of CreateDAWG: for a cap that is not
    negative and any query, budget and flags, it ends without panic and
    without error and hands the graph back, once the fuel exceeds the bytes
    of the query, the budget and the letters of the graph together. *)
Theorem CreateDAWG_Search_returns fuel words h g word d k aA aD fuel' :
  CreateDAWG fuel words = Ok (h, g) -> 0 <= k ->
  (length word + Z.to_nat d + length (lts h) < fuel')%nat ->
  exists ws, Search fuel' h g word d k aA aD = Ok (h, ws).
Proof.
  intros Hc Hk Hf. destruct (CreateDAWG_searchable _ _ _ _ Hc) as (Hs & Hroot & Hlt).
  by eapply Search_total.
Qed.

Lemma CreateDAWG_Search_returns_witness :
  exists ws, Search 100 built6.1 built6.2 s_test 1 10 true true = Ok (built6.1, ws).
Proof.
  apply (CreateDAWG_Search_returns 100 words6 built6.1 built6.2 s_test 1 10 true true 100).
  - vm_compute. reflexivity.
  - lia.
  - vm_compute. lia.
Defined.

(** X17: addWord returns on a trie that addWord has built: from the initial
    state and for any word it ends without panic, once the fuel exceeds the
    letters of the trie and the bytes of the word together, and it makes at
    most one letter for each byte of the word. *)
Theorem addWord_returns fuel fuel' words nb mx h word :
  addWords fuel newTrie (Some 0%nat) words 1 0 = Ok (h, nb, mx) ->
  (length (lts h) + length word + 1 <= fuel')%nat ->
  exists h' r, addWord fuel' h (Some 0%nat) word = Ok (h', r) /\
               (length (lts h') <= length (lts h) + length word)%nat.
Proof.
  intros Ha Hf.
  destruct (addWords_accepted _ _ _ _ _ _ _ _ _ trie_newTrie Ha) as [Htrie _].
  pose proof (addWords_up _ _ _ _ _ _ _ _ _ trie_newTrie tree_up_newTrie Ha) as Hup.
  by apply addWord_total.
Qed.

Lemma addWord_returns_witness :
  exists h' r, addWord 10 (trieOf [s_test]) (Some 0%nat) s_rest = Ok (h', r) /\
               (length (lts h') <= length (lts (trieOf [s_test])) + length s_rest)%nat.
Proof.
  apply (addWord_returns 100 10 [s_test] 5 4 (trieOf [s_test]) s_rest).
  - vm_compute. reflexivity.
  - vm_compute. lia.
Defined.

(** X18: CreateDAWG returns for every list of words: with the goroutines of
    compressTrie run one after the other, no index of levels is out of
    range, no nil pointer is followed and every loop ends, once the fuel
    exceeds three times the bytes of the words. *)
Theorem CreateDAWG_returns fuel words :
  (3 * length (concat words) + 2 <= fuel)%nat ->
  exists h g, CreateDAWG fuel words = Ok (h, g).
Proof.
  intros Hf. destruct (CreateDAWG_total fuel words Hf) as (h & g & _ & H & _).
  by exists h, g.
Qed.

Lemma CreateDAWG_returns_witness :
  exists h g, CreateDAWG 100 words4 = Ok (h, g).
Proof.
  apply (CreateDAWG_returns 100 words4). vm_compute. lia.
Defined.

(** X19: nodesCount is the number of states of the graph: CreateDAWG returns
    a graph whose field nodesCount is the number of the states that runes
    lead to from the initial state, the initial state among them; the states
    that compressTrie has merged into others are not counted and are no
    longer reached. *)
Theorem CreateDAWG_nodesCount fuel words :
  (3 * length (concat words) + 2 <= fuel)%nat ->
  exists h g S,
    CreateDAWG fuel words = Ok (h, g) /\ initialState g = Some 0%nat /\
    NoDup S /\ (forall x, x ∈ S <-> exists rs, leads h 0%nat rs x) /\
    nodesCount g = Z.of_nat (length S).
Proof. apply CreateDAWG_total. Qed.

Lemma CreateDAWG_nodesCount_witness :
  exists h g S,
    CreateDAWG 100 words4 = Ok (h, g) /\ initialState g = Some 0%nat /\
    NoDup S /\ (forall x, x ∈ S <-> exists rs, leads h 0%nat rs x) /\
    nodesCount g = Z.of_nat (length S).
Proof.
  apply (CreateDAWG_nodesCount 100 words4). vm_compute. lia.
Defined.
